(** * duan-sssp: a shallow embedding of the graph transform, the block
    sequence and the BMSSP solver, with the properties of the specification.

    Conventions of the embedding.
    - Go's [int] vertex ids, keys, lengths and the counter [Count] are
      natural numbers ([nat]); [Count] goes below 0 in Go only on a
      structure that holds more items than it counts, and the general
      statement about [Pull] and [Count] excludes these.  A slice indexed
      out of range panics in Go, which the embedding shows as [None] (or as
      the outcome [Panic]) where a caller can provoke it.  The relaxations read and write [Dist] and
      the marks by total lookup and insertion: the statements about them
      are made on well-formed graphs, with one distance per vertex and
      sources in range, where no index is out of range.
    - Where the size of an [int] matters it is an integer ([Z]) of 64 bits:
      the subtree counts of [FindPivots] wrap around ([wrap]), and the
      conversions [int(math.Pow(2, e))] of the block capacity and of the
      limit of the main loop are the power up to [e = 62] and a parameter
      ([bigInt]) of which nothing is assumed beyond.
    - Go's [float64] distances and weights are exact integers ([Z]); rounding
      is outside the model.  One unit stands for 1e-9, so the tolerance test
      [math.Abs(x) < 1e-9] reads [Z.abs x < 1].  [Infinity] is
      [math.MaxFloat64] and additions saturate there, as float64 additions of
      [math.MaxFloat64] and an everyday weight do.  A statement that relates
      a distance to a walk speaks of the sum the addition of the code
      ([fadd]) makes along the walk, edge after edge, not of the exact
      weight of the walk.
    - The goroutines of [relaxEdgesParallel] are not embedded: the method is
      a parameter of the solver of which nothing is assumed, and the
      general statements about the relaxations of [BMSSP] and [Run] are
      made with one worker, where [relaxEdges] takes the sequential path.
    - Go maps used as sets ([map[int]bool]) are duplicate-free lists in
      insertion order; Go leaves the iteration order of a map unspecified.
    - [sort.Slice] is a stable insertion sort; Go leaves the order of equal
      elements unspecified. *)

From Stdlib Require Import ZArith Lia.
From stdpp Require Import base numbers option list.
From Stdlib Require Strings.Byte.

Local Open Scope nat_scope.

(** ** Loops that may panic *)

Fixpoint foldM {A S : Type} (f : S → A → option S) (s : S) (l : list A)
  : option S :=
  match l with
  | [] => Some s
  | a :: l' => match f s a with
               | Some s' => foldM f s' l'
               | None => None
               end
  end.

(** ** graph/graph.go *)

Module graph.

Record Edge := { To : nat; Weight : Z }.

Record Graph := { V : nat; Adj : list (list Edge) }.

Definition NewGraph (v : nat) : Graph :=
  {| V := v; Adj := replicate v [] |}.

(** [g.Adj[u] = append(g.Adj[u], Edge{v, w})]: the only access is [g.Adj[u]],
    so only [u] out of range panics; [v] and [w] are stored as given. *)
Definition AddEdge (g : Graph) (u v : nat) (w : Z) : option Graph :=
  match Adj g !! u with
  | Some es =>
      Some {| V := V g; Adj := <[u := es ++ [{| To := v; Weight := w |}]]> (Adj g) |}
  | None => None
  end.

Record TransformedGraph := {
  G : Graph;
  OriginalTo : list nat;
  NewToOrigin : list nat
}.

(** The pairs (u, e) in the order of the nested loops
    [for u := 0; u < g.V; u++ { for _, e := range g.Adj[u] }]. *)
Definition edgeList (g : Graph) : list (nat * Edge) :=
  flat_map (λ u, (λ e, (u, e)) <$> (Adj g !!! u)) (seq 0 (V g)).

(** [inDegree[e.To]++] *)
Definition bump (deg : list nat) (i : nat) : option (list nat) :=
  match deg !! i with
  | Some d => Some (<[i := S d]> deg)
  | None => None
  end.

Definition inDegrees (g : Graph) : option (list nat) :=
  foldM (λ deg ue, bump deg (To ue.2)) (replicate (V g) 0) (edgeList g).

(** The loop that lays the cycles out: state (starts, sizes, currentID). *)
Definition layoutStep (g : Graph) (inDegree : list nat)
    (st : list nat * list nat * nat) (u : nat) : list nat * list nat * nat :=
  let '(starts, sizes, currentID) := st in
  let sz := length (Adj g !!! u) + inDegree !!! u in
  let sz := if decide (sz = 0) then 1 else sz in
  (<[u := currentID]> starts, <[u := sz]> sizes, currentID + sz).

Definition layout (g : Graph) (inDegree : list nat) : list nat * list nat * nat :=
  foldl (layoutStep g inDegree)
        (replicate (V g) 0, replicate (V g) 0, 0) (seq 0 (V g)).

(** One iteration of the inner cycle loop for the slot [i] of vertex [u]. *)
Definition cycleStep (u start sz : nat) (st : Graph * list nat) (i : nat)
  : option (Graph * list nat) :=
  let '(newG, newToOrigin) := st in
  let curr := start + i in
  let next := start + (i + 1) mod sz in
  match AddEdge newG curr next 0 with
  | Some newG' => Some (newG', <[curr := u]> newToOrigin)
  | None => None
  end.

Definition buildCycles (g : Graph) (starts sizes : list nat)
    (st : Graph * list nat) : option (Graph * list nat) :=
  foldM (λ st u, foldM (cycleStep u (starts !!! u) (sizes !!! u)) st
                       (seq 0 (sizes !!! u)))
        st (seq 0 (V g)).

(** One real edge: both endpoints take their next free slot. *)
Definition realStep (starts : list nat) (st : list nat * Graph)
    (ue : nat * Edge) : option (list nat * Graph) :=
  let '(slots, newG) := st in
  let u := ue.1 in
  let v := To ue.2 in
  let w := Weight ue.2 in
  let uSlot := slots !!! u in
  let slots := <[u := uSlot + 1]> slots in
  let uNode := starts !!! u + uSlot in
  let vSlot := slots !!! v in
  let slots := <[v := vSlot + 1]> slots in
  let vNode := starts !!! v + vSlot in
  match AddEdge newG uNode vNode w with
  | Some newG' => Some (slots, newG')
  | None => None
  end.

Definition ToConstantDegree (g : Graph) : option TransformedGraph :=
  match inDegrees g with
  | None => None
  | Some inDegree =>
      let '(starts, sizes, currentID) := layout g inDegree in
      match buildCycles g starts sizes
              (NewGraph currentID, replicate currentID 0) with
      | None => None
      | Some (newG, newToOrigin) =>
          match foldM (realStep starts) (replicate (V g) 0, newG) (edgeList g) with
          | None => None
          | Some (_, newG') =>
              Some {| G := newG'; OriginalTo := starts; NewToOrigin := newToOrigin |}
          end
      end
  end.

(** [res[i] = dist[startNode]] for every original vertex. *)
Definition MapDistances (tg : TransformedGraph) (dist : list Z) : option (list Z) :=
  mapM (λ startNode, dist !! startNode) (OriginalTo tg).

Definition outDegree (g : Graph) (x : nat) : nat := length (Adj g !!! x).

Definition inDegree (g : Graph) (x : nat) : nat :=
  length (filter (λ e, To e = x) (concat (Adj g))).

(** Built by [NewGraph] and [AddEdge] with endpoints in range. *)
Definition wf (g : Graph) : Prop :=
  length (Adj g) = V g ∧ Forall (Forall (λ e, To e < V g)) (Adj g).

End graph.


(** ** The float64 model *)

(** [math.MaxFloat64], in units of 1e-9. *)
Definition Infinity : Z := ((2 ^ 1024 - 2 ^ 971) * 10 ^ 9)%Z.

(** [x + y] on distances: exact below [Infinity], clamped there. *)
Definition fadd (x y : Z) : Z := Z.min Infinity (x + y).

(** ** ds/ds.go *)

Module ds.

Record Item := { Key : nat; Value : Z }.

(** A block: its linked list from [head] on, and its tag.  The field [size]
    of the Go struct always equals the length of the list. *)
Record block := { items : list Item; upperBound : Z }.

Record DataStructure := {
  M : nat;
  B : Z;
  Count : nat;
  d0 : list block;
  d1 : list block
}.

Definition size (b : block) : nat := length (items b).

Definition NewDataStructure (m : nat) : DataStructure :=
  {| M := m; B := Infinity; Count := 0; d0 := []; d1 := [] |}.

Definition newBlock : block := {| items := []; upperBound := 0 |}.

#[global] Instance block_inhabited : Inhabited block := populate newBlock.

(** [sort.Slice(items, func(i, j) bool { return items[i].Value < items[j].Value })] *)
Fixpoint insertSorted (x : Item) (l : list Item) : list Item :=
  match l with
  | [] => [x]
  | y :: l' => if decide (Value y ≤ Value x)%Z then y :: insertSorted x l'
               else x :: l
  end.

Definition sortItems (l : list Item) : list Item :=
  foldl (λ acc x, insertSorted x acc) [] l.

(** [sort.Search(n, f)]: the binary search of the Go library. *)
Fixpoint searchLoop (fuel : nat) (f : nat → bool) (i j : nat) : nat :=
  match fuel with
  | 0 => i
  | S fuel' =>
      if decide (i < j) then
        let h := (i + j) / 2 in
        if f h then searchLoop fuel' f i h else searchLoop fuel' f (h + 1) j
      else i
  end.

Definition sortSearch (n : nat) (f : nat → bool) : nat := searchLoop n f 0 n.

(** [split]: [items[mid-1]] is out of range when the block holds fewer than
    two items, and the call panics. *)
Definition split (ds : DataStructure) (d1Index : nat) : option DataStructure :=
  let b := d1 ds !!! d1Index in
  let its := sortItems (items b) in
  let mid := length its / 2 in
  match its !! (mid - 1), decide (mid = 0) with
  | Some it, right _ =>
      let newB := {| items := drop mid its; upperBound := upperBound b |} in
      let b' := {| items := take mid its; upperBound := Value it |} in
      let d1' := <[d1Index := b']> (d1 ds) in
      Some {| M := M ds; B := B ds; Count := Count ds; d0 := d0 ds;
              d1 := take (d1Index + 1) d1' ++ newB :: drop (d1Index + 1) d1' |}
  | _, _ => None
  end.

Definition Insert (ds : DataStructure) (key : nat) (val : Z) : option DataStructure :=
  let count := Count ds + 1 in
  let item := {| Key := key; Value := val |} in
  let idx := sortSearch (length (d1 ds))
               (λ i, bool_decide (val ≤ upperBound (d1 ds !!! i))%Z) in
  let '(blocks, idx) :=
    if decide (idx = length (d1 ds)) then
      if decide (length (d1 ds) = 0)
      then ([ {| items := []; upperBound := Infinity |} ], 0)
      else (d1 ds, length (d1 ds) - 1)
    else (d1 ds, idx) in
  let targetBlock := blocks !!! idx in
  let targetBlock :=
    {| items := item :: items targetBlock; upperBound := upperBound targetBlock |} in
  let ds' := {| M := M ds; B := B ds; Count := count; d0 := d0 ds;
                d1 := <[idx := targetBlock]> blocks |} in
  if decide (M ds < size targetBlock) then split ds' idx else Some ds'.

(** The chunk loop [for i := 0; i < len(items); i += ds.M]; [n] bounds the
    number of iterations.  A chunk becomes a block by pushing its items on
    the head of the list one after the other, and [chunk[len(chunk)-1]]
    panics on an empty chunk. *)
Fixpoint chunkLoop (n : nat) (m : nat) (its : list Item) (d0 : list block)
  : option (list block) :=
  match its with
  | [] => Some d0
  | _ :: _ =>
      match n with
      | 0 => None
      | S n' =>
          let chunk := take m its in
          match last chunk with
          | None => None
          | Some lst =>
              let blk := {| items := foldl (λ head itm, itm :: head) [] chunk;
                            upperBound := Value lst |} in
              chunkLoop n' m (drop m its) (blk :: d0)
          end
      end
  end.

Definition BatchPrepend (ds : DataStructure) (its : list Item) : option DataStructure :=
  match its with
  | [] => Some ds
  | _ :: _ =>
      match chunkLoop (length its) (M ds) (sortItems its) (d0 ds) with
      | Some d0' =>
          Some {| M := M ds; B := B ds; Count := Count ds + length its;
                  d0 := d0'; d1 := d1 ds |}
      | None => None
      end
  end.

(** The closure [drain]: items leave the block from its head while fewer
    than [limit] have been collected.  State: (collected, Count). *)
Definition drain (b : block) (limit : nat) (st : list Item * nat)
  : block * (list Item * nat) :=
  let '(collected, count) := st in
  let n := min (size b) (limit - length collected) in
  ({| items := drop n (items b); upperBound := upperBound b |},
   (collected ++ take n (items b), count - n)).

Definition sortBlock (b : block) : block :=
  if decide (size b < 2) then b
  else {| items := sortItems (items b); upperBound := upperBound b |}.

Definition peekBlock (b : block) : Z :=
  match items b with
  | [] => Infinity
  | it :: _ => Value it
  end.

(** One iteration of the loop over [ds.d0]; state (active, collected, Count). *)
Definition pullD0Step (m : nat) (st : list block * (list Item * nat)) (blk : block)
  : list block * (list Item * nat) :=
  let '(active, cc) := st in
  let '(blk, cc) := if decide (length cc.1 < m) then drain blk m cc else (blk, cc) in
  (if decide (0 < size blk) then active ++ [blk] else active, cc).

Definition pullD1Step (m : nat) (st : list block * (list Item * nat)) (blk : block)
  : list block * (list Item * nat) :=
  let '(active, cc) := st in
  let '(blk, cc) :=
    if decide (length cc.1 < m) then drain (sortBlock blk) m cc else (blk, cc) in
  (if decide (0 < size blk) then active ++ [blk] else active, cc).

Definition Pull (ds : DataStructure) : DataStructure * (list Item * Z) :=
  let '(activeD0, cc) := foldl (pullD0Step (M ds)) ([], ([], Count ds)) (d0 ds) in
  let '(activeD1, cc) :=
    if decide (length cc.1 < M ds)
    then foldl (pullD1Step (M ds)) ([], cc) (d1 ds)
    else (d1 ds, cc) in
  let '(collected, count) := cc in
  let '(activeD1, Bi) :=
    if decide (0 < count) then
      match activeD0, activeD1 with
      | b0 :: _, _ => (activeD1, peekBlock b0)
      | [], b1 :: rest => (sortBlock b1 :: rest, peekBlock (sortBlock b1))
      | [], [] => (activeD1, Infinity)
      end
    else (activeD1, Infinity) in
  ({| M := M ds; B := B ds; Count := count; d0 := activeD0; d1 := activeD1 |},
   (collected, Bi)).

(** The values held, block after block, [D0] first. *)
Definition contents (ds : DataStructure) : list Item :=
  concat (items <$> d0 ds) ++ concat (items <$> d1 ds).

End ds.

(** ** sssp/sssp.go *)

Module sssp.

Import graph ds.

(** How a call ends: it returns, it is still running when the budget of loop
    iterations is used up, or it panics.  The distance vector is returned in
    every case. *)
Inductive outcome (A : Type) : Type :=
  | Done (a : A)
  | OutOfFuel
  | Panic.
Arguments Done {A} a.
Arguments OutOfFuel {A}.
Arguments Panic {A}.

Abbreviation DistMap := (list Z).

(** *** container/heap over [PriorityQueue] *)

Record PQItem := { u : nat; priority : Z }.

#[global] Instance PQItem_inhabited : Inhabited PQItem :=
  populate {| u := 0; priority := 0 |}.

Abbreviation PriorityQueue := (list PQItem).

Definition Less (pq : PriorityQueue) (i j : nat) : bool :=
  bool_decide (priority (pq !!! i) < priority (pq !!! j))%Z.

Definition Swap (pq : PriorityQueue) (i j : nat) : PriorityQueue :=
  <[j := pq !!! i]> (<[i := pq !!! j]> pq).

Fixpoint up (fuel : nat) (h : PriorityQueue) (j : nat) : PriorityQueue :=
  match fuel with
  | 0 => h
  | S fuel' =>
      let i := (j - 1) / 2 in
      if decide (i = j) then h
      else if Less h j i then up fuel' (Swap h i j) i else h
  end.

Fixpoint down (fuel : nat) (h : PriorityQueue) (i n : nat) : PriorityQueue :=
  match fuel with
  | 0 => h
  | S fuel' =>
      let j1 := 2 * i + 1 in
      if decide (n ≤ j1) then h
      else
        let j := if decide (j1 + 1 < n) then
                   if Less h (j1 + 1) j1 then j1 + 1 else j1
                 else j1 in
        if Less h j i then down fuel' (Swap h i j) j n else h
  end.

Definition heapPush (h : PriorityQueue) (x : PQItem) : PriorityQueue :=
  let h := h ++ [x] in
  up (length h) h (length h - 1).

Definition heapPop (h : PriorityQueue) : option (PQItem * PriorityQueue) :=
  let n := length h - 1 in
  let h := down (length h) (Swap h 0 n) 0 n in
  match last h with
  | Some item => Some (item, take n h)
  | None => None
  end.

(** *** Sets of vertices *)

Definition setAdd (U : list nat) (x : nat) : list nat :=
  if decide (x ∈ U) then U else U ++ [x].

Definition addToSet (U : list nat) (Ui : list nat) : list nat :=
  foldl setAdd U Ui.

(** Go's [int] is taken 64 bits wide; [wrap] is what an [int] holds after an
    addition or a product, which wrap around in Go. *)
Definition wrap (z : Z) : Z := ((z + 2 ^ 63) mod 2 ^ 64 - 2 ^ 63)%Z.

Section Solver.

(** The fields of the solver that no method writes. *)
Variable G : Graph.
Variables K T : nat.
Variable numWorkers : nat.

(** [relaxEdgesParallel] starts one goroutine per vertex of [Ui]; they read
    and write [Dist] and call [D.Insert] with no synchronisation, so what
    they leave behind is up to the scheduler and the memory model.  The
    embedding takes the method as a parameter of which nothing is assumed:
    [None] stands for a panic. *)
Variable relaxEdgesParallel :
  list nat → Z → Z → Z → DataStructure → DistMap →
  option (DistMap * DataStructure * list Item).

(** [bigInt e] is what the conversion [int(math.Pow(2, e))] yields when [2^e]
    is beyond the range of [int], that is from [e = 63] on: the language
    leaves the value to the implementation. *)
Variable bigInt : nat → Z.

Definition powInt (e : nat) : Z :=
  if decide (e < 63) then (2 ^ Z.of_nat e)%Z else bigInt e.

(** *** BaseCase *)

(** The relaxation of one edge of [u]; state (Dist, pq). *)
Definition baseRelax (B : Z) (x : nat) (st : DistMap * PriorityQueue) (edge : Edge)
  : DistMap * PriorityQueue :=
  let '(dist, pq) := st in
  let v := To edge in
  let w := Weight edge in
  if decide (fadd (dist !!! x) w ≤ dist !!! v ∧ fadd (dist !!! x) w < B)%Z then
    let dist := <[v := fadd (dist !!! x) w]> dist in
    (dist, heapPush pq {| u := v; priority := dist !!! v |})
  else st.

(** The loop [for pq.Len() > 0 && len(U0) < limit]. *)
Fixpoint baseLoop (fuel : nat) (B : Z) (limit : nat)
    (dist : DistMap) (U0 : list nat) (pq : PriorityQueue)
  : DistMap * outcome (list nat) :=
  match fuel with
  | 0 => (dist, OutOfFuel)
  | S fuel' =>
      if decide (0 < length pq ∧ length U0 < limit) then
        match heapPop pq with
        | None => (dist, Panic)
        | Some (item, pq) =>
            let x := u item in
            if decide (dist !!! x < priority item)%Z then
              baseLoop fuel' B limit dist U0 pq
            else
              let U0 := setAdd U0 x in
              let '(dist, pq) := foldl (baseRelax B x) (dist, pq) (Adj G !!! x) in
              baseLoop fuel' B limit dist U0 pq
        end
      else (dist, Done U0)
  end.

Definition maxDist (dist : DistMap) (U0 : list nat) : Z :=
  foldl (λ maxD x, if decide (maxD < dist !!! x)%Z then dist !!! x else maxD) 0%Z U0.

Definition BaseCase (fuel : nat) (B : Z) (S : list nat) (dist : DistMap)
  : DistMap * outcome (Z * list nat) :=
  let '(U0, pq) :=
    foldl (λ st x, (setAdd st.1 x, heapPush st.2 {| u := x; priority := dist !!! x |}))
          ([], []) S in
  let limit := K + 1 in
  match baseLoop fuel B limit dist U0 pq with
  | (dist, Done U0) =>
      if decide (length U0 ≤ K) then (dist, Done (B, U0))
      else
        let maxD := maxDist dist U0 in
        (dist, Done (maxD, filter (λ x, (dist !!! x < maxD)%Z) U0))
  | (dist, OutOfFuel) => (dist, OutOfFuel)
  | (dist, Panic) => (dist, Panic)
  end.

(** *** FindPivots *)

(** One edge in [relaxKSteps]; state (Dist, inW, W_list, Wi). *)
Definition kRelax (B : Z) (x : nat)
    (st : DistMap * list bool * list nat * list nat) (edge : Edge)
  : DistMap * list bool * list nat * list nat :=
  let '(dist, inW, W_list, Wi) := st in
  let newDist := fadd (dist !!! x) (Weight edge) in
  if decide (newDist < dist !!! To edge)%Z then
    let dist := <[To edge := newDist]> dist in
    if bool_decide (newDist < B)%Z && negb (inW !!! To edge) then
      (dist, <[To edge := true]> inW, W_list ++ [To edge], Wi ++ [To edge])
    else (dist, inW, W_list, Wi)
  else st.

Definition kRound (B : Z) (Wi_prev : list nat)
    (st : DistMap * list bool * list nat)
  : DistMap * list bool * list nat * list nat :=
  foldl (λ st x, foldl (kRelax B x) st (Adj G !!! x)) (st, []) Wi_prev.

(** The loop [for i := 1; i <= s.K; i++], [rounds] iterations to go. *)
Fixpoint kRounds (rounds : nat) (B : Z) (nS : nat) (Wi_prev : list nat)
    (st : DistMap * list bool * list nat) : DistMap * list bool * list nat :=
  match rounds with
  | 0 => st
  | S rounds' =>
      let '(dist, inW, W_list, Wi) := kRound B Wi_prev st in
      if decide (K * nS < length W_list) then (dist, inW, W_list)
      else kRounds rounds' B nS Wi (dist, inW, W_list)
  end.

Definition relaxKSteps (B : Z) (S : list nat) (inW : list bool) (W_list : list nat)
    (dist : DistMap) : DistMap * list bool * list nat :=
  kRounds K B (length S) S (dist, inW, W_list).

(** [countTreeChildren]: the closure [calcSize] is a parameter, as in the
    source; it works on the memo table, which is threaded through.  The
    count is an [int]: [count += calcSize(v)] wraps around. *)
Fixpoint countTreeChildren (calcSize : list Z → nat → option (list Z * Z))
    (dist : DistMap) (inW : list bool) (x : nat)
    (edges : list Edge) (memoSize : list Z) (count : Z) : option (list Z * Z) :=
  match edges with
  | [] => Some (memoSize, count)
  | edge :: edges' =>
      let v := To edge in
      if (inW !!! v) &&
         bool_decide (Z.abs (dist !!! v - fadd (dist !!! x) (Weight edge)) < 1)%Z
      then
        match calcSize memoSize v with
        | Some (memoSize, c) =>
            countTreeChildren calcSize dist inW x edges' memoSize (wrap (count + c))
        | None => None
        end
      else countTreeChildren calcSize dist inW x edges' memoSize count
  end.

(** The closure [calcSize] of [makeTreeSizeCalculator]; [depth] bounds the
    depth of the recursion, and [None] says that the bound was reached. *)
Fixpoint calcSize (depth : nat) (dist : DistMap) (inW : list bool)
    (memoSize : list Z) (x : nat) : option (list Z * Z) :=
  match depth with
  | 0 => None
  | S depth' =>
      if decide (0 < memoSize !!! x)%Z then Some (memoSize, memoSize !!! x)
      else if decide (memoSize !!! x = -1)%Z then Some (memoSize, 1%Z)
      else
        let memoSize := <[x := (-1)%Z]> memoSize in
        match countTreeChildren (calcSize depth' dist inW) dist inW x
                (Adj G !!! x) memoSize 0%Z with
        | Some (memoSize, c) =>
            let count := wrap (1 + c) in
            Some (<[x := count]> memoSize, count)
        | None => None
        end
  end.

(** The loop of [computePivots]; state (memoSize, P). *)
Definition pivotStep (dist : DistMap) (inW : list bool)
    (st : list Z * list nat) (x : nat) : option (list Z * list nat) :=
  let '(memoSize, P) := st in
  match calcSize (S (length memoSize)) dist inW memoSize x with
  | Some (memoSize, sz) =>
      Some (memoSize, if decide (Z.of_nat K ≤ sz)%Z then P ++ [x] else P)
  | None => None
  end.

Definition computePivots (S : list nat) (inW : list bool) (dist : DistMap)
  : option (list Z * list nat) :=
  foldM (pivotStep dist inW) (replicate (V G) 0%Z, []) S.

Definition FindPivots (B : Z) (S : list nat) (dist : DistMap)
  : DistMap * outcome (list nat * list nat) :=
  let inW := foldl (λ inW x, <[x := true]> inW) (replicate (V G) false) S in
  let W_list := S in
  let '(dist, inW, W_list) := relaxKSteps B S inW W_list dist in
  if decide (K * length S < length W_list) then (dist, Done (S, W_list))
  else
    match computePivots S inW dist with
    | Some (_, P) => (dist, Done (P, W_list))
    | None => (dist, OutOfFuel)
    end.

(** *** BMSSP *)

Definition initializeDataStructure (l : nat) (P : list nat) (dist : DistMap)
  : option DataStructure :=
  let m := powInt ((l - 1) * T) in
  let m := if decide (m < 1)%Z then 1%Z else m in
  foldM (λ D x, Insert D x (dist !!! x)) (NewDataStructure (Z.to_nat m)) P.

Definition pullAndExtract (D : DataStructure) : DataStructure * (list nat * Z) :=
  let '(D, (its, Bi)) := Pull D in (D, (Key <$> its, Bi)).

(** One edge in [relaxEdgesSequential]; state (Dist, D, K). *)
Definition seqRelax (Bi Bi_prime B : Z) (x : nat)
    (st : DistMap * DataStructure * list Item) (edge : Edge)
  : option (DistMap * DataStructure * list Item) :=
  let '(dist, D, Kb) := st in
  let newDist := fadd (dist !!! x) (Weight edge) in
  if decide (newDist ≤ dist !!! To edge)%Z then
    let dist := <[To edge := newDist]> dist in
    if decide (Bi ≤ newDist ∧ newDist < B)%Z then
      match Insert D (To edge) newDist with
      | Some D => Some (dist, D, Kb)
      | None => None
      end
    else if decide (Bi_prime ≤ newDist ∧ newDist < Bi)%Z then
      Some (dist, D, Kb ++ [{| Key := To edge; Value := newDist |}])
    else Some (dist, D, Kb)
  else Some st.

Definition relaxEdgesSequential (Ui : list nat) (Bi Bi_prime B : Z)
    (D : DataStructure) (dist : DistMap)
  : option (DistMap * DataStructure * list Item) :=
  foldM (λ st x, foldM (seqRelax Bi Bi_prime B x) st (Adj G !!! x)) (dist, D, []) Ui.

(** [relaxEdges]: the sequential path for at most four vertices or one
    worker, the goroutines otherwise. *)
Definition relaxEdges (Ui : list nat) (Bi Bi_prime B : Z)
    (D : DataStructure) (dist : DistMap)
  : option (DistMap * DataStructure * list Item) :=
  match Ui with
  | [] => Some (dist, D, [])
  | _ :: _ =>
      if decide (length Ui ≤ 4 ∨ numWorkers = 1)
      then relaxEdgesSequential Ui Bi Bi_prime B D dist
      else relaxEdgesParallel Ui Bi Bi_prime B D dist
  end.

Definition batchPrepend (D : DataStructure) (Kb : list Item) (Si : list nat)
    (Bi_prime Bi : Z) (dist : DistMap) : option DataStructure :=
  let bufBatch :=
    Kb ++ ((λ x, {| Key := x; Value := dist !!! x |}) <$>
           filter (λ x, (Bi_prime ≤ dist !!! x ∧ dist !!! x < Bi)%Z) Si) in
  BatchPrepend D bufBatch.

Definition buildFinalSet (U : list nat) (W : list nat) (bound : Z) (dist : DistMap)
  : list nat :=
  foldl (λ U w, if decide ((dist !!! w < bound)%Z ∧ w ∉ U) then U ++ [w] else U) U W.

Definition finalizeBMSSP (B : Z) (W : list nat) (U : list nat) (dist : DistMap)
  : Z * list nat :=
  (B, U ++ filter (λ w, (dist !!! w < B)%Z ∧ w ∉ U) W).

(** The loop of [processMainLoop]; [rec] is the call [s.BMSSP(l-1, _, _)].
    The result is the set [U] the loop hands back and, for the record, the
    bound [Bi_prime] of the last inner call when the loop ends on
    [len(U) > limit].  The limit [s.K * int(math.Pow(2, l*t))] is an [int]
    and may be negative; [len(U) < limit] then fails at once, as it does for
    the limit 0 that [Z.to_nat] makes of it. *)
Fixpoint mainLoop (fuel : nat)
    (rec : Z → list nat → DistMap → DistMap * outcome (Z * list nat))
    (limit : nat) (B : Z) (W : list nat)
    (U : list nat) (D : DataStructure) (dist : DistMap)
  : DistMap * outcome (list nat * option Z) :=
  match fuel with
  | 0 => (dist, OutOfFuel)
  | S fuel' =>
      if decide (length U < limit ∧ 0 < Count D) then
        let '(D, (Si, Bi)) := pullAndExtract D in
        match rec Bi Si dist with
        | (dist, Done (Bi_prime, Ui)) =>
            let U := addToSet U Ui in
            match relaxEdges Ui Bi Bi_prime B D dist with
            | None => (dist, Panic)
            | Some (dist, D, Kb) =>
                match batchPrepend D Kb Si Bi_prime Bi dist with
                | None => (dist, Panic)
                | Some D =>
                    if decide (limit < length U) then
                      (dist, Done (buildFinalSet U W Bi_prime dist, Some Bi_prime))
                    else mainLoop fuel' rec limit B W U D dist
                end
            end
        | (dist, OutOfFuel) => (dist, OutOfFuel)
        | (dist, Panic) => (dist, Panic)
        end
      else (dist, Done (U, None))
  end.

Definition processMainLoop (fuel : nat)
    (rec : Z → list nat → DistMap → DistMap * outcome (Z * list nat))
    (l : nat) (B : Z) (D : DataStructure) (W : list nat) (dist : DistMap)
  : DistMap * outcome (list nat * option Z) :=
  let limit := Z.to_nat (wrap (Z.of_nat K * powInt (l * T))) in
  mainLoop fuel rec limit B W [] D dist.

Fixpoint BMSSP (fuel : nat) (l : nat) (B : Z) (S : list nat) (dist : DistMap)
  : DistMap * outcome (Z * list nat) :=
  match l with
  | 0 => BaseCase fuel B S dist
  | Datatypes.S l' =>
      match FindPivots B S dist with
      | (dist, Done (P, W)) =>
          match P with
          | [] => (dist, Done (finalizeBMSSP B W [] dist))
          | _ :: _ =>
              match initializeDataStructure l P dist with
              | None => (dist, Panic)
              | Some D =>
                  match processMainLoop fuel (BMSSP fuel l') l B D W dist with
                  | (dist, Done (U, _)) => (dist, Done (finalizeBMSSP B W U dist))
                  | (dist, OutOfFuel) => (dist, OutOfFuel)
                  | (dist, Panic) => (dist, Panic)
                  end
              end
          end
      | (dist, OutOfFuel) => (dist, OutOfFuel)
      | (dist, Panic) => (dist, Panic)
      end
  end.

(** [Run]: [l] is the level [int(math.Ceil(math.Log(n) / float64(s.T)))] the
    method computes from [s.G.V] and [s.T]; the write [s.Dist[source] = 0]
    panics when [source] is out of range. *)
Definition Run (fuel : nat) (l : nat) (source : nat) (dist : DistMap)
  : DistMap * outcome unit :=
  let dist := replicate (length dist) Infinity in
  if decide (source < length dist) then
    let dist := <[source := 0%Z]> dist in
    match BMSSP fuel l Infinity [source] dist with
    | (dist, Done _) => (dist, Done ())
    | (dist, OutOfFuel) => (dist, OutOfFuel)
    | (dist, Panic) => (dist, Panic)
    end
  else (dist, Panic).

End Solver.

(** [NewSolver]: [k0] and [t0] are the integers
    [int(math.Floor(math.Pow(logN, 1.0/3.0)))] and
    [int(math.Floor(math.Pow(logN, 2.0/3.0)))], and [numCPU] is
    [runtime.NumCPU()]. *)
Record Solver :=
  { G : Graph; Dist : DistMap; K : nat; T : nat; numWorkers : nat }.

Definition NewSolver (g : Graph) (k0 t0 numCPU : nat) : Solver :=
  {| G := g; Dist := replicate (V g) 0%Z;
     K := if decide (k0 < 2) then 2 else k0;
     T := if decide (t0 < 2) then 2 else t0;
     numWorkers := if decide (8 < numCPU) then 8 else numCPU |}.

End sssp.

(** ** The reference: [naiveDijkstra] of sssp/sssp_bench_test.go *)

Module reference.

Import graph.

(** The scan [for v := 0; v < g.V; v++] for the unvisited vertex of least
    distance; state (minDist, u), [None] standing for [u == -1]. *)
Definition scanMin (dist : list Z) (visited : list bool)
    (st : Z * option nat) (v : nat) : Z * option nat :=
  if negb (visited !!! v) && bool_decide (dist !!! v < st.1)%Z
  then (dist !!! v, Some v) else st.

Definition relaxRef (x : nat) (dist : list Z) (edge : Edge) : list Z :=
  if decide (fadd (dist !!! x) (Weight edge) < dist !!! To edge)%Z
  then <[To edge := fadd (dist !!! x) (Weight edge)]> dist else dist.

Fixpoint dijkstraLoop (count : nat) (g : Graph) (dist : list Z) (visited : list bool)
  : list Z :=
  match count with
  | 0 => dist
  | S count' =>
      match (foldl (scanMin dist visited) (Infinity, None) (seq 0 (V g))).2 with
      | None => dist
      | Some x =>
          dijkstraLoop count' g (foldl (relaxRef x) dist (Adj g !!! x))
                       (<[x := true]> visited)
      end
  end.

Definition naiveDijkstra (g : Graph) (source : nat) : list Z :=
  dijkstraLoop (V g) g (<[source := 0%Z]> (replicate (V g) Infinity))
               (replicate (V g) false).

End reference.

(** ** Concrete inputs *)

Module examples.

Import graph ds sssp.

(** [buildGraph(n)] followed by one [AddEdge] per triple. *)
Definition buildGraph (n : nat) (es : list (nat * nat * Z)) : option Graph :=
  foldM (λ g e, AddEdge g e.1.1 e.1.2 e.2) (NewGraph n) es.

(** The float64 [x.0] in units of 1e-9. *)
Definition whole (x : Z) : Z := (x * 1000000000)%Z.

(** The 5-vertex DAG of the seeded scenarios. *)
Definition dagEdges : list (nat * nat * Z) :=
  [(0, 1, whole 10); (0, 2, whole 5); (1, 2, whole 2); (1, 3, whole 1);
   (2, 3, whole 9); (2, 4, whole 2); (3, 4, whole 4)].

Definition dag : option Graph := buildGraph 5 dagEdges.

Definition dagGraph : Graph := default (NewGraph 0) dag.

(** The transform of the graph with one vertex and no edge: a zero-weight
    self-loop. *)
Definition loopGraph : Graph :=
  {| V := 1; Adj := [[ {| To := 0; Weight := 0 |} ]] |}.

(** A fork at 0 followed by a chain from 1. *)
Definition forkChainEdges : list (nat * nat * Z) :=
  [(0, 1, whole 1); (0, 2, whole 1); (0, 3, whole 1); (1, 4, whole 1);
   (4, 5, whole 1); (5, 6, whole 1); (6, 7, whole 1); (7, 8, whole 1);
   (8, 9, whole 1); (9, 10, whole 1)].

Definition forkChain : Graph :=
  default (NewGraph 0) (buildGraph 11 forkChainEdges).

(** Distances as [Run] leaves them before the call of [BMSSP]. *)
Definition initDist (n source : nat) : list Z :=
  <[source := 0%Z]> (replicate n Infinity).

(** Five vertices without edges, at distances 0, 1, 2, 3, 4. *)
Definition isolated5 : Graph := NewGraph 5.
Definition dist5 : list Z := whole <$> [0; 1; 2; 3; 4]%Z.

(** A chain 0 -> 1 -> 2 -> 3 with unit weights. *)
Definition chain4 : Graph :=
  default (NewGraph 0)
    (buildGraph 4 [(0, 1, whole 1); (1, 2, whole 1); (2, 3, whole 1)]).

(** A chain of 64 vertices, every vertex joined to the next by two parallel
    edges of weight 1, and the distances 0, 1, ..., 63 along it. *)
Definition doubledChain : Graph :=
  {| V := 64;
     Adj := ((λ i, [ {| To := i + 1; Weight := whole 1 |};
                     {| To := i + 1; Weight := whole 1 |} ]) <$> seq 0 63)
            ++ [[]] |}.

Definition chainDist : list Z := (λ i, whole (Z.of_nat i)) <$> seq 0 64.

Definition item (k : nat) (v : Z) : Item := {| Key := k; Value := whole v |}.

End examples.

(** ** Notions used to state the properties *)

Module notions.

Import graph ds sssp.

(** [d'] is pointwise below [d]. *)
Definition dist_le (d' d : list Z) : Prop :=
  length d' = length d ∧ ∀ i, (d' !!! i ≤ d !!! i)%Z.

Definition nonneg (d : list Z) : Prop := Forall (λ x, (0 ≤ x)%Z) d.

Definition nonneg_weights (g : Graph) : Prop :=
  Forall (Forall (λ e, (0 ≤ Weight e)%Z)) (Adj g).

(** The block [BatchPrepend] makes of a chunk, and the chunks of at most [m]
    items of a list, [n] bounding their number. *)
Definition blockOf (chunk : list Item) : block :=
  {| items := reverse chunk; upperBound := from_option Value 0%Z (last chunk) |}.

Fixpoint chunksOf (n m : nat) (its : list Item) : list (list Item) :=
  match its, n with
  | [], _ => []
  | _ :: _, 0 => []
  | _ :: _, S n' => take m its :: chunksOf n' m (drop m its)
  end.

(** The subtree sizes as the specification words them (4.3.1): a slot per
    vertex, 0 for unvisited, -1 for on stack and a positive count once
    computed; on entry for [x] a computed slot is returned, an on-stack slot
    gives 1, and otherwise [x] is marked and its size is 1 plus the sizes of
    its children, the edges of [x] into a witness that hold with equality
    within the tolerance.  The counts are integers, with no bound.  [depth]
    bounds the depth of the recursion. *)
Fixpoint specChildren (size : list Z → nat → option (list Z * Z))
    (dist : list Z) (inW : list bool) (x : nat)
    (edges : list Edge) (slots : list Z) (count : Z) : option (list Z * Z) :=
  match edges with
  | [] => Some (slots, count)
  | edge :: edges' =>
      if (inW !!! To edge) &&
         bool_decide (Z.abs (dist !!! To edge - fadd (dist !!! x) (Weight edge)) < 1)%Z
      then
        match size slots (To edge) with
        | Some (slots, c) => specChildren size dist inW x edges' slots (count + c)%Z
        | None => None
        end
      else specChildren size dist inW x edges' slots count
  end.

Fixpoint specSize (g : Graph) (depth : nat) (dist : list Z) (inW : list bool)
    (slots : list Z) (x : nat) : option (list Z * Z) :=
  match depth with
  | 0 => None
  | S depth' =>
      if decide (0 < slots !!! x)%Z then Some (slots, slots !!! x)
      else if decide (slots !!! x = -1)%Z then Some (slots, 1%Z)
      else
        match specChildren (specSize g depth' dist inW) dist inW x
                (Adj g !!! x) (<[x := (-1)%Z]> slots) 0%Z with
        | Some (slots, c) => Some (<[x := (1 + c)%Z]> slots, (1 + c)%Z)
        | None => None
        end
  end.

(** The pivots as the specification words them: the sources whose subtree
    size is at least [k], the sizes being computed source after source on
    one table of slots. *)
Definition specPivotStep (g : Graph) (k : nat) (dist : list Z) (inW : list bool)
    (st : list Z * list nat) (x : nat) : option (list Z * list nat) :=
  match specSize g (S (length st.1)) dist inW st.1 x with
  | Some (slots, sz) =>
      Some (slots, if decide (Z.of_nat k ≤ sz)%Z then st.2 ++ [x] else st.2)
  | None => None
  end.

Definition specPivots (g : Graph) (k : nat) (S : list nat) (inW : list bool)
    (dist : list Z) : option (list Z * list nat) :=
  foldM (specPivotStep g k dist inW) (replicate (V g) 0%Z, []) S.

(** The entries of a table that are not the on-stack mark. *)
Definition unmarked (m : list Z) : nat := length (filter (λ v, v ≠ (-1)%Z) m).

(** A table whose entries are all below 2^63, the values an [int] holds. *)
Definition small (m : list Z) : Prop := ∀ i, (m !!! i < 2 ^ 63)%Z.

(** An entry of the memo table not yet visited: neither a size nor the
    on-stack mark. *)
Definition pend (v : Z) : Prop := ¬ (0 < v)%Z ∧ v ≠ (-1)%Z.

#[global] Instance pend_dec (v : Z) : Decision (pend v) :=
  ltac:(unfold pend; apply _).

Definition pending (m : list Z) : nat := length (filter pend m).

(** What a call of [calcSize] may do to the table: sizes and marks stay,
    unvisited entries stay or become sizes. *)
Definition memo_step (m m' : list Z) : Prop :=
  length m' = length m
  ∧ (∀ i, ¬ pend (m !!! i) → m' !!! i = m !!! i)
  ∧ (∀ i, m' !!! i = m !!! i ∨ (0 < m' !!! i)%Z)
  ∧ pending m' ≤ pending m.

(** What a successful call of [calcSize] hands back. *)
Definition calc_spec (m : list Z) (x : nat) (r : option (list Z * Z)) : Prop :=
  ∃ m' c, r = Some (m', c) ∧ memo_step m m' ∧ (0 < c)%Z
          ∧ (m !!! x ≠ (-1)%Z → m' !!! x = c).

(** The state of the loop of [computePivots] after the sources [done]. *)
Definition pivots_inv (g : Graph) (k : nat) (done : list nat)
    (st : list Z * list nat) : Prop :=
  length st.1 = V g
  ∧ (∀ i, st.1 !!! i ≠ (-1)%Z)
  ∧ Forall (λ s, 0 < st.1 !!! s)%Z done
  ∧ st.2 = filter (λ s, (Z.of_nat k ≤ st.1 !!! s)%Z) done.

(** A call of [AddEdge]. *)
Definition call : Type := nat * nat * Z.

Definition addCall (g : Graph) (c : call) : option Graph :=
  AddEdge g c.1.1 c.1.2 c.2.

(** The size of the cycle of [u], given the in-degrees. *)
Definition sz (g : Graph) (deg : list nat) (u : nat) : nat :=
  let s := length (Adj g !!! u) + deg !!! u in
  if decide (s = 0) then 1 else s.

(** The first transformed id of the cycle of [k]. *)
Fixpoint base (g : Graph) (deg : list nat) (k : nat) : nat :=
  match k with
  | 0 => 0
  | S k' => base g deg k' + sz g deg k'
  end.

(** The calls of the inner cycle loop for one vertex. *)
Definition cycleCallsOf (start size : nat) : list call :=
  (λ i, (start + i, start + (i + 1) mod size, 0%Z)) <$> seq 0 size.

(** The calls of the real-edge loop, slot counters threaded through. *)
Fixpoint realCalls (starts slots : list nat) (l : list (nat * Edge)) : list call :=
  match l with
  | [] => []
  | ue :: l' =>
      let uSlot := slots !!! ue.1 in
      let slots1 := <[ue.1 := uSlot + 1]> slots in
      let vSlot := slots1 !!! To ue.2 in
      let slots2 := <[To ue.2 := vSlot + 1]> slots1 in
      (starts !!! ue.1 + uSlot, starts !!! To ue.2 + vSlot, Weight ue.2)
        :: realCalls starts slots2 l'
  end.

Definition endpoints (calls : list call) : list nat :=
  flat_map (λ c : call, [c.1.1; c.1.2]) calls.

(** A transformed id in the cycle of some [w], at a slot not yet taken. *)
Definition free_slot (g : Graph) (deg slots : list nat) (p : nat) : Prop :=
  ∃ w j, w < V g ∧ p = base g deg w + j ∧ slots !!! w ≤ j < sz g deg w.

End notions.

(** ** The callers: cmd/visualbench and sssp/sssp_bench_test.go *)

Module bench.

Import graph.

(** [generateGraph] and [generateRandomGraph]: a draw is what the generator
    hands out for one edge, [rng.Intn(vertices)] twice and [rng.Float64()],
    the latter in units of 1e-9.  The target is moved when it equals the
    source, and the weight is [r*100.0 + 1.0]. *)
Definition avoidLoop (vertices u v : nat) : nat :=
  if decide (u = v) then (v + 1) mod vertices else v.

Definition weightOf (r : Z) : Z := (r * 100 + 1000000000)%Z.

Definition generateGraph (vertices : nat) (draws : list (nat * nat * Z))
  : option Graph :=
  foldM (λ g d, AddEdge g d.1.1 (avoidLoop vertices d.1.1 d.1.2) (weightOf d.2))
        (NewGraph vertices) draws.

(** What the generator can hand out. *)
Definition drawn (vertices : nat) (d : nat * nat * Z) : Prop :=
  d.1.1 < vertices ∧ d.1.2 < vertices ∧ (0 ≤ d.2 < 1000000000)%Z.

(** [benchmarkParallelMultiSource]: the sources
    [sources[i] = (i * g.V) / len(sources)] of a slice of
    [min(numCores*2, g.V)] entries. *)
Definition selectSources (numCores : nat) (g : Graph) : list nat :=
  let n := min (numCores * 2) (V g) in
  (λ i, (i * V g) / n) <$> seq 0 n.

End bench.

(** ** cmd/visualbench/web_viz.go: the string helpers *)

Module webviz.

(** A Go string is a sequence of bytes. *)
Definition gostring : Type := list Byte.byte.

#[global] Instance byte_eq_dec : EqDecision Byte.byte := Strings.Byte.byte_eq_dec.

(** The loop of [findString] at index [i], with [n] iterations to go.  The
    slice [s[i:i+len(substr)]] is in range at every index the loop visits. *)
Fixpoint findLoop (s substr : gostring) (n i : nat) : Z :=
  match n with
  | 0 => (-1)%Z
  | S n =>
      if decide (take (length substr) (drop i s) = substr) then Z.of_nat i
      else findLoop s substr n (S i)
  end.

(** [i <= len(s)-len(substr)] is a test on Go's signed [int]: the loop does
    not run when [substr] is the longer. *)
Definition findString (s substr : gostring) : Z :=
  if decide (length substr ≤ length s)
  then findLoop s substr (length s - length substr + 1) 0
  else (-1)%Z.

(** The loop of [replaceString] has no bound of its own: [fuel] bounds its
    iterations, and [None] says that they were used up. *)
Fixpoint replaceLoop (old new : gostring) (fuel : nat)
    (result remaining : gostring) : option gostring :=
  match fuel with
  | 0 => None
  | S fuel =>
      let idx := findString remaining old in
      if decide (idx = -1)%Z then Some (result ++ remaining)
      else replaceLoop old new fuel
             (result ++ take (Z.to_nat idx) remaining ++ new)
             (drop (Z.to_nat idx + length old) remaining)
  end.

Definition replaceString (fuel : nat) (s old new : gostring) : option gostring :=
  replaceLoop old new fuel [] s.

End webviz.

(** ** Further notions: paths, block order, callers *)

Module paths.

Import graph.

(** A walk along the edges of [g] from [s], with the sum of its weights. *)
Inductive path (g : Graph) (s : nat) : nat → Z → Prop :=
  | path_here : path g s s 0%Z
  | path_edge x e d :
      path g s x d → e ∈ Adj g !!! x → path g s (To e) (d + Weight e)%Z.

(** The sum the code makes of the weights along a walk from [s]: edge
    after edge from the source, each with the code's addition, starting from
    [d0].  It is the value a chain of relaxations along the walk stores. *)
Inductive summed (g : Graph) (s : nat) (d0 : Z) : nat → Z → Prop :=
  | summed_here : summed g s d0 s d0
  | summed_edge x e d :
      summed g s d0 x d → e ∈ Adj g !!! x →
      summed g s d0 (To e) (fadd d (Weight e)).

(** Every entry of [d] is +inf or the sum along a walk from [s]. *)
Definition realised (g : Graph) (s : nat) (d : list Z) : Prop :=
  ∀ v, v < length d → d !!! v = Infinity ∨ summed g s 0 v (d !!! v).

End paths.

Module solver_notions.

Import graph ds sssp.

(** A queued item: its priority is below the bound, and the distance of its
    vertex has not risen above it. *)
Definition queued (B : Z) (dist : list Z) (it : PQItem) : Prop :=
  (dist !!! u it ≤ priority it ∧ priority it < B)%Z.

(** The vertices of [U] are at a distance below [B]. *)
Definition below (B : Z) (dist : list Z) (U : list nat) : Prop :=
  Forall (λ x, (dist !!! x < B)%Z) U.

(** The marks [inW] say which vertices the list [W] holds. *)
Definition marks (inW : list bool) (W : list nat) : Prop :=
  NoDup W ∧ Forall (λ w, w < length inW) W
  ∧ ∀ v, v < length inW → (inW !!! v = true ↔ v ∈ W).

(** What the relaxation rounds of [FindPivots] keep: the vectors have one
    entry per vertex, the marks agree with the list, and the list is below
    the bound. *)
Definition rounds_inv (g : Graph) (B : Z) (st : list Z * list bool * list nat) : Prop :=
  length st.1.1 = V g ∧ length st.1.2 = V g
  ∧ marks st.1.2 st.2 ∧ below B st.1.1 st.2.

(** The order of a binary heap: no item is below its parent. *)
Definition heap_ordered (h : list PQItem) : Prop :=
  ∀ k, 0 < k < length h →
    (priority (h !!! ((k - 1) / 2)%nat) ≤ priority (h !!! k))%Z.

(** What the relaxation rounds of [FindPivots] keep, [dist0] being the
    distances at the call and [S] the sources: the distances have only gone
    down; the marks say which vertices the list holds; a vertex is a witness
    when it is a source or its distance has gone down to a value below the
    bound; and a distance that has changed is the sum the code makes along a
    walk from a source, starting from the distance of that source at the
    call. *)
Definition discovery_inv (g : Graph) (B : Z) (S : list nat) (dist0 : list Z)
    (st : list Z * list bool * list nat) : Prop :=
  notions.dist_le st.1.1 dist0
  ∧ length st.1.2 = length dist0
  ∧ (∀ v, v < length dist0 → (st.1.2 !!! v = true ↔ v ∈ st.2))
  ∧ (∀ v, v < length dist0 →
       (v ∈ st.2 ↔ v ∈ S ∨ (st.1.1 !!! v < dist0 !!! v ∧ st.1.1 !!! v < B)%Z))
  ∧ (∀ v, v < length dist0 →
       st.1.1 !!! v = dist0 !!! v
       ∨ ∃ s, s ∈ S ∧ paths.summed g s (dist0 !!! s) v (st.1.1 !!! v)).

(** The marks of the witnesses [W] among [n] vertices. *)
Definition marksOf (n : nat) (W : list nat) : list bool :=
  (λ v, bool_decide (v ∈ W)) <$> seq 0 n.

(** The queue holds an item of [x] at its current distance: [x] will be
    taken up again. *)
Definition awaiting (dist : list Z) (pq : list PQItem) (x : nat) : Prop :=
  ∃ it, it ∈ pq ∧ u it = x ∧ priority it = dist !!! x.

(** No edge out of [x] can lower a distance below the bound [B]. *)
Definition relaxed (g : Graph) (B : Z) (dist : list Z) (x : nat) : Prop :=
  ∀ e, e ∈ Adj g !!! x →
    (dist !!! To e ≤ fadd (dist !!! x) (Weight e)
     ∨ B ≤ fadd (dist !!! x) (Weight e))%Z.

(** What the loop of [BaseCase] keeps, [dist0] being the distances at the
    call and [Q] the vertices taken up so far: such a vertex is relaxed or
    awaits another turn, and a vertex whose distance has changed awaits its
    turn or is in [U0]. *)
Definition settle_inv (g : Graph) (B : Z) (dist0 : list Z) (Q : nat → Prop)
    (U0 : list nat) (dist : list Z) (pq : list PQItem) : Prop :=
  length dist = V g
  ∧ Forall (λ y, 0 ≤ y ≤ Infinity)%Z dist
  ∧ Forall (queued B dist) pq
  ∧ (∀ y, Q y → awaiting dist pq y ∨ relaxed g B dist y)
  ∧ (∀ y, y < V g → dist !!! y ≠ dist0 !!! y → awaiting dist pq y ∨ y ∈ U0).

End solver_notions.

Module transform_notions.

Import graph notions.

(** The edge a call of [AddEdge] appends. *)
Definition edgeOf (c : call) : Edge := {| To := c.1.2; Weight := c.2 |}.

(** The writes [newToOrigin[curr] = u] of the cycle loops. *)
Definition originFill (starts sizes : list nat) (o : list nat) (us : list nat)
  : list nat :=
  foldl (λ o u, foldl (λ o i, <[starts !!! u + i := u]> o) o (seq 0 (sizes !!! u)))
        o us.

(** The call that realises the edge [ue] between two slots. *)
Definition realises (g : Graph) (deg : list nat) (ue : nat * Edge) (c : call) : Prop :=
  ∃ j j', j < sz g deg ue.1 ∧ j' < sz g deg (To ue.2)
          ∧ c = (base g deg ue.1 + j, base g deg (To ue.2) + j', Weight ue.2).

(** All the calls of the transform of [g]. *)
Definition cycleCalls (g : Graph) (deg : list nat) : list call :=
  flat_map (λ u, cycleCallsOf (base g deg u) (sz g deg u)) (seq 0 (V g)).

End transform_notions.

Module ds_notions.

Import ds.

(** The values of a list of items never go down. *)
Fixpoint ascending (l : list Item) : Prop :=
  match l with
  | [] => True
  | x :: l' => Forall (λ y, (Value x ≤ Value y)%Z) l' ∧ ascending l'
  end.

(** The items of a sequence of blocks, block after block. *)
Definition held (bs : list block) : list Item := concat (items <$> bs).

(** Every block holds between 1 and [M] items, and [Count] counts them. *)
Definition capacity (D : DataStructure) : Prop :=
  1 ≤ M D
  ∧ Forall (λ b, 1 ≤ size b ≤ M D) (d0 D ++ d1 D)
  ∧ Count D = length (contents D).

(** The blocks partition the values above [lo]: the items of a block lie
    between the bound of the block before it and its own bound. *)
Fixpoint ordered (lo : Z) (bs : list block) : Prop :=
  match bs with
  | [] => True
  | b :: bs' =>
      (lo ≤ upperBound b)%Z
      ∧ Forall (λ it, (lo ≤ Value it ≤ upperBound b)%Z) (items b)
      ∧ ordered (upperBound b) bs'
  end.

(** The bound of the last block, [lo] when there is none. *)
Definition hi (lo : Z) (bs : list block) : Z :=
  from_option upperBound lo (last bs).

(** A structure that [BatchPrepend] has not touched: [D0] is empty, [D1] is
    ordered and its last block stretches to +inf. *)
Definition insert_only (D : DataStructure) : Prop :=
  d0 D = []
  ∧ (∃ lo, ordered lo (d1 D))
  ∧ ∀ b, last (d1 D) = Some b → upperBound b = Infinity.

(** The block [b] with one more item at its head. *)
Definition grown (b : block) (it : Item) : block :=
  {| items := it :: items b; upperBound := upperBound b |}.

(** The two blocks [split] makes of a block. *)
Definition halves (b : block) : list block :=
  let its := sortItems (items b) in
  let mid := length its / 2 in
  [ {| items := take mid its; upperBound := from_option Value 0%Z (its !! (mid - 1)) |};
    {| items := drop mid its; upperBound := upperBound b |} ].

(** One iteration of a loop of [Pull] over blocks, [pre] being what is done
    to a block before it is drained. *)
Definition pullStep (pre : block → block) (m : nat)
    (st : list block * (list Item * nat)) (blk : block)
  : list block * (list Item * nat) :=
  let '(active, cc) := st in
  let '(blk, cc) := if decide (length cc.1 < m) then drain (pre blk) m cc else (blk, cc) in
  (if decide (0 < size blk) then active ++ [blk] else active, cc).

(** The structures that [NewDataStructure], [Insert] of values up to +inf
    and [Pull] lead to. *)
Inductive built (m : nat) : DataStructure → Prop :=
  | built_new : built m (NewDataStructure m)
  | built_insert D key val D' :
      built m D → (val ≤ Infinity)%Z → Insert D key val = Some D' → built m D'
  | built_pull D : built m D → built m (Pull D).1.

End ds_notions.

(** ** Further concrete inputs *)

Module more_examples.

Import graph ds sssp examples.

(** Stand-ins for the goroutine path and for the out-of-range conversion
    where a run does not reach them: a path that panics, and the value the
    conversion yields on amd64. *)
Definition noGoroutines
  : list nat → Z → Z → Z → DataStructure → list Z →
    option (list Z * DataStructure * list Item) :=
  λ _ _ _ _ _ _, None.

Definition minInt : nat → Z := λ _, (- 2 ^ 63)%Z.

(** Two ordered blocks holding the values 5, 3 and 8. *)
Definition twoBlocks : DataStructure :=
  {| M := 2; B := Infinity; Count := 3; d0 := [];
     d1 := [ {| items := [item 1 5; item 2 3]; upperBound := whole 5 |};
             {| items := [item 3 8]; upperBound := Infinity |} ] |}.

(** The structure after [Insert(7, 3.0)] on an empty one of capacity 2. *)
Definition oneItem : DataStructure :=
  {| M := 2; B := Infinity; Count := 1; d0 := [];
     d1 := [ {| items := [item 7 3]; upperBound := Infinity |} ] |}.

(** A heap of three items. *)
Definition smallHeap : list PQItem :=
  [ {| u := 0; priority := whole 1 |}; {| u := 1; priority := whole 3 |};
    {| u := 2; priority := whole 2 |} ].

(** Two draws of the graph generator on three vertices, the first one with
    equal ends. *)
Definition draws3 : list (nat * nat * Z) := [(0, 0, 5%Z); (1, 2, 7%Z)].

End more_examples.

(** ** Strings *)

Module string_notions.

Import webviz.

(** [substr] occurs in [s] at index [i]. *)
Definition occurs_at (s substr : gostring) (i : nat) : Prop :=
  ∃ pre post, s = pre ++ substr ++ post ∧ length pre = i.

(** The pieces, each followed by [sep], and then [rest]. *)
Definition joined (sep : gostring) (pieces : list gostring) (rest : gostring)
  : gostring :=
  concat ((λ p, p ++ sep) <$> pieces) ++ rest.

End string_notions.

(** * Lemmas *)

(** ** Loops that may panic *)

Lemma foldM_app {A S} (f : S → A → option S) s l1 l2 :
  foldM f s (l1 ++ l2) = foldM f s l1 ≫= λ s', foldM f s' l2.
Proof.
  revert s. induction l1 as [|a l1 IH]; intros s; simpl; [done|].
  destruct (f s a); simpl; [apply IH|done].
Qed.

(** An invariant carried through a loop whose body cannot panic while the
    invariant holds on the remaining input. *)
Lemma foldM_inv {A S} (f : S → A → option S) (I : list A → S → Prop) l s :
  I l s →
  (∀ a rest s0, I (a :: rest) s0 → ∃ s1, f s0 a = Some s1 ∧ I rest s1) →
  ∃ s', foldM f s l = Some s' ∧ I [] s'.
Proof.
  intros HI Hstep. revert s HI.
  induction l as [|a l IH]; intros s HI; simpl; [eauto|].
  destruct (Hstep a l s HI) as (s1 & -> & H1). by apply IH.
Qed.


Module ds_props.
Import ds notions.

Lemma insertSorted_length x l : length (insertSorted x l) = S (length l).
Proof.
  induction l as [|y l IH]; simpl; [done|].
  case_decide; simpl; by rewrite ?IH.
Qed.

Lemma sortItems_length l : length (sortItems l) = length l.
Proof.
  unfold sortItems.
  assert (∀ acc, length (foldl (λ acc x, insertSorted x acc) acc l)
                 = length acc + length l) as H.
  { induction l as [|x l IH]; intros acc; simpl; [lia|].
    rewrite IH, insertSorted_length. lia. }
  by rewrite H.
Qed.

Lemma searchLoop_le fuel f i j : i ≤ j → searchLoop fuel f i j ≤ j.
Proof.
  revert i j. induction fuel as [|fuel IH]; intros i j Hij; cbn [searchLoop]; [done|].
  case_decide as Hlt; [|done].
  assert ((i + j) / 2 < j) as Hh.
  { apply Nat.Div0.div_lt_upper_bound. lia. }
  assert (i ≤ (i + j) / 2) as Hl.
  { apply Nat.div_le_lower_bound; lia. }
  generalize dependent ((i + j) / 2). intros h Hh Hl.
  destruct (f h).
  - transitivity h; [apply IH; lia | lia].
  - apply IH. lia.
Qed.

Lemma sortSearch_le n f : sortSearch n f ≤ n.
Proof. apply searchLoop_le. lia. Qed.

Lemma split_Some ds i b :
  d1 ds !! i = Some b → 2 ≤ size b →
  ∃ ds', split ds i = Some ds' ∧ Count ds' = Count ds ∧ M ds' = M ds.
Proof.
  intros Hb Hsz. unfold split.
  rewrite (list_lookup_total_correct _ _ _ Hb).
  pose proof (sortItems_length (items b)) as Hlen.
  unfold size in Hsz.
  set (its := sortItems (items b)) in *.
  assert (1 ≤ length its / 2) as Hmid.
  { apply Nat.div_le_lower_bound; lia. }
  assert (length its / 2 ≤ length its) as Hmid2.
  { apply Nat.Div0.div_le_upper_bound. lia. }
  destruct (lookup_lt_is_Some_2 its (length its / 2 - 1)) as [it Hit]; [lia|].
  rewrite Hit. case_decide; [lia|]. eauto.
Qed.

Lemma Insert_Some ds key val :
  1 ≤ M ds →
  ∃ ds', Insert ds key val = Some ds' ∧ Count ds' = Count ds + 1 ∧ M ds' = M ds.
Proof.
  intros HM. unfold Insert.
  set (idx0 := sortSearch _ _).
  pose proof (sortSearch_le (length (d1 ds))
    (λ i, bool_decide (val ≤ upperBound (d1 ds !!! i))%Z)) as Hle.
  fold idx0 in Hle.
  set (sel := if decide (idx0 = length (d1 ds)) then _ else _).
  assert (sel.2 < length sel.1) as Hidx.
  { subst sel. repeat case_decide; simpl; lia. }
  destruct sel as [blocks idx]. simpl in Hidx.
  case_decide as Hsz; [|eauto].
  match goal with |- ∃ _, split ?d _ = _ ∧ _ =>
    destruct (split_Some d idx
                {| items := {| Key := key; Value := val |} :: items (blocks !!! idx);
                   upperBound := upperBound (blocks !!! idx) |})
      as (ds' & -> & HC & HM')
  end.
  - simpl. by apply list_lookup_insert_eq.
  - unfold size in *. simpl in *. lia.
  - exists ds'. by rewrite HC, HM'.
Qed.

Lemma chunkLoop_Some n m its blocks :
  1 ≤ m → length its ≤ n → is_Some (chunkLoop n m its blocks).
Proof.
  intros Hm. revert its blocks.
  induction n as [|n IH]; intros its blocks Hn.
  - destruct its; simpl in *; [eauto|lia].
  - destruct its as [|x its]; simpl chunkLoop; [eauto|].
    destruct m as [|m]; [lia|].
    destruct (last (take (S m) (x :: its))) as [lst|] eqn:Hlast.
    + apply IH. rewrite length_drop. simpl in *. lia.
    + apply last_None in Hlast. discriminate.
Qed.

Lemma foldl_push_reverse (l acc : list Item) :
  foldl (λ head itm, itm :: head) acc l = reverse l ++ acc.
Proof.
  revert acc. induction l as [|x l IH]; intros acc; simpl; [done|].
  by rewrite IH, reverse_cons, <-app_assoc.
Qed.

(** The chunks come out in reverse: the block of the last chunk is in
    front. *)
Lemma chunkLoop_blocks n m its blocks :
  1 ≤ m → length its ≤ n →
  chunkLoop n m its blocks
  = Some (reverse (blockOf <$> chunksOf n m its) ++ blocks).
Proof.
  intros Hm. revert its blocks.
  induction n as [|n IH]; intros its blocks Hn.
  - destruct its; simpl in *; [done|lia].
  - destruct its as [|x its]; [done|].
    cbn [chunkLoop chunksOf].
    destruct m as [|m]; [lia|].
    set (chunk := take (S m) (x :: its)).
    destruct (last chunk) as [lst|] eqn:Hlast.
    + assert (blockOf chunk
              = {| items := foldl (λ head itm, itm :: head) [] chunk;
                   upperBound := Value lst |}) as Hb.
      { unfold blockOf. by rewrite Hlast, foldl_push_reverse, app_nil_r. }
      rewrite IH by (rewrite length_drop; simpl in *; lia).
      by rewrite fmap_cons, reverse_cons, <-app_assoc, Hb.
    + apply last_None in Hlast. discriminate.
Qed.

Lemma BatchPrepend_blocks ds x its :
  1 ≤ M ds →
  BatchPrepend ds (x :: its)
  = Some {| M := M ds; B := B ds; Count := Count ds + length (x :: its);
            d0 := reverse (blockOf <$> chunksOf (length (x :: its)) (M ds)
                                         (sortItems (x :: its))) ++ d0 ds;
            d1 := d1 ds |}.
Proof.
  intros HM. unfold BatchPrepend.
  by rewrite chunkLoop_blocks by (rewrite ?sortItems_length; done).
Qed.

Lemma BatchPrepend_Some ds its :
  1 ≤ M ds →
  ∃ ds', BatchPrepend ds its = Some ds' ∧ Count ds' = Count ds + length its
         ∧ M ds' = M ds.
Proof.
  intros HM. unfold BatchPrepend.
  destruct its as [|x its]; [exists ds; simpl; split_and!; [done|lia|done]|].
  destruct (chunkLoop_Some (length (x :: its)) (M ds) (sortItems (x :: its)) (d0 ds))
    as [blocks ->]; [done| by rewrite sortItems_length |].
  eauto.
Qed.

End ds_props.

Module mono.
Import graph ds sssp notions.

Lemma dist_le_refl d : dist_le d d.
Proof. split; [done|]. intros i. lia. Qed.

Lemma dist_le_trans d1 d2 d3 : dist_le d1 d2 → dist_le d2 d3 → dist_le d1 d3.
Proof.
  intros [H1 H2] [H3 H4]. split; [congruence|].
  intros i. specialize (H2 i). specialize (H4 i). lia.
Qed.

(** A guarded write: the value stored is not above the one replaced. *)
Lemma dist_le_write (d : DistMap) v x :
  (x ≤ d !!! v)%Z → dist_le (<[v := x]> d) d.
Proof.
  intros Hx. split; [apply length_insert|].
  intros i. destruct (decide (v < length d)) as [Hv|Hv].
  - destruct (decide (i = v)) as [->|Hne].
    + by rewrite list_lookup_total_insert_eq.
    + rewrite list_lookup_total_insert_ne by done. lia.
  - rewrite list_insert_ge by lia. lia.
Qed.

Lemma foldl_dist_le {A S} (proj : S → DistMap) (f : S → A → S) :
  (∀ s a, dist_le (proj (f s a)) (proj s)) →
  ∀ l s, dist_le (proj (foldl f s l)) (proj s).
Proof.
  intros Hf l. induction l as [|a l IH]; intros s; simpl.
  - apply dist_le_refl.
  - eapply dist_le_trans; [apply IH | apply Hf].
Qed.

Lemma foldM_dist_le {A S} (proj : S → DistMap) (f : S → A → option S) :
  (∀ s a s', f s a = Some s' → dist_le (proj s') (proj s)) →
  ∀ l s s', foldM f s l = Some s' → dist_le (proj s') (proj s).
Proof.
  intros Hf l. induction l as [|a l IH]; intros s s'; simpl.
  - intros [= ->]. apply dist_le_refl.
  - destruct (f s a) as [s1|] eqn:E; [|done]. intros H.
    eapply dist_le_trans; [by apply IH | apply (Hf s a s1 E)].
Qed.

Section with_solver.
Variable G : Graph.
Variables K T : nat.

(** The write of [BaseCase]. *)
Lemma baseRelax_le B x st edge :
  dist_le (baseRelax B x st edge).1 st.1.
Proof.
  destruct st as [dist pq]. unfold baseRelax. case_decide as H; simpl.
  - apply dist_le_write. tauto.
  - apply dist_le_refl.
Qed.

Lemma baseLoop_le fuel B limit dist U0 pq :
  dist_le (baseLoop G fuel B limit dist U0 pq).1 dist.
Proof.
  revert dist U0 pq.
  induction fuel as [|fuel IH]; intros dist U0 pq; simpl; [apply dist_le_refl|].
  case_decide; [|apply dist_le_refl].
  destruct (heapPop pq) as [[item pq']|]; [|apply dist_le_refl].
  case_decide; [apply IH|].
  pose proof (foldl_dist_le fst (baseRelax B (u item))
                (λ s a, baseRelax_le B (u item) s a)
                (Adj G !!! u item) (dist, pq')) as Hf.
  destruct (foldl _ _ _) as [dist1 pq1]. simpl in Hf.
  eapply dist_le_trans; [apply IH | exact Hf].
Qed.

Lemma BaseCase_le fuel B S dist :
  dist_le (BaseCase G K fuel B S dist).1 dist.
Proof.
  unfold BaseCase. destruct (foldl _ _ S) as [U0 pq].
  pose proof (baseLoop_le fuel B (K + 1) dist U0 pq) as H.
  destruct (baseLoop _ _ _ _ _ _ _) as [dist1 [U1| |]]; simpl in *; try done.
  by case_decide.
Qed.

(** The write of [relaxKSteps]. *)
Lemma kRelax_le B x st edge :
  dist_le (kRelax B x st edge).1.1.1 st.1.1.1.
Proof.
  destruct st as [[[dist inW] W_list] Wi]. unfold kRelax. case_decide as H; simpl.
  - destruct (_ && _); simpl; apply dist_le_write; lia.
  - apply dist_le_refl.
Qed.

Lemma kRound_le B Wi_prev st :
  dist_le (kRound G B Wi_prev st).1.1.1 st.1.1.
Proof.
  unfold kRound.
  apply (foldl_dist_le (λ s, s.1.1.1)
           (λ st x, foldl (kRelax B x) st (Adj G !!! x))).
  intros s a. apply (foldl_dist_le (λ s, s.1.1.1)). apply kRelax_le.
Qed.

Lemma kRounds_le rounds B nS Wi_prev st :
  dist_le (kRounds G K rounds B nS Wi_prev st).1.1 st.1.1.
Proof.
  revert Wi_prev st.
  induction rounds as [|r IH]; intros Wi_prev st; simpl; [apply dist_le_refl|].
  pose proof (kRound_le B Wi_prev st) as H.
  destruct (kRound G B Wi_prev st) as [[[dist inW] W_list] Wi]. simpl in H.
  case_decide; simpl; [done|].
  eapply dist_le_trans; [apply IH | exact H].
Qed.

Lemma FindPivots_le B S dist :
  dist_le (FindPivots G K B S dist).1 dist.
Proof.
  unfold FindPivots, relaxKSteps.
  match goal with |- context [kRounds G K K B ?n S ?st] =>
    pose proof (kRounds_le K B n S st) as H;
    destruct (kRounds G K K B n S st) as [[dist1 inW1] W1]
  end.
  simpl in H. case_decide; simpl; [done|].
  by destruct (computePivots _ _ _ _ _) as [[? ?]|].
Qed.

(** The write of [relaxEdgesSequential]. *)
Lemma seqRelax_le Bi Bi_prime B x st edge st' :
  seqRelax Bi Bi_prime B x st edge = Some st' → dist_le st'.1.1 st.1.1.
Proof.
  destruct st as [[dist D] Kb]. unfold seqRelax. case_decide as H.
  - case_decide.
    + destruct (Insert _ _ _); intros [= <-]; simpl. by apply dist_le_write.
    + case_decide; intros [= <-]; simpl; by apply dist_le_write.
  - intros [= <-]. apply dist_le_refl.
Qed.

Variable numWorkers : nat.
Variable relaxEdgesParallel :
  list nat → Z → Z → Z → DataStructure → DistMap →
  option (DistMap * DataStructure * list Item).
Variable bigInt : nat → Z.
Hypothesis Hone : numWorkers = 1.

Lemma relaxEdges_le Ui Bi Bi_prime B D dist st' :
  relaxEdges G numWorkers relaxEdgesParallel Ui Bi Bi_prime B D dist = Some st' → dist_le st'.1.1 dist.
Proof.
  unfold relaxEdges, relaxEdgesSequential. destruct Ui as [|x Ui].
  - intros [= <-]. apply dist_le_refl.
  - rewrite decide_True by (by right).
    apply (foldM_dist_le (λ s, s.1.1)
             (λ st x, foldM (seqRelax Bi Bi_prime B x) st (Adj G !!! x))).
    intros s a s'. apply (foldM_dist_le (λ s, s.1.1)).
    intros ? ? ?. apply seqRelax_le.
Qed.

Lemma mainLoop_le fuel rec limit B W :
  (∀ Bi Si d, dist_le (rec Bi Si d).1 d) →
  ∀ U D dist, dist_le (mainLoop G numWorkers relaxEdgesParallel fuel rec limit B W U D dist).1 dist.
Proof.
  intros Hrec. induction fuel as [|fuel IH]; intros U D dist; simpl;
    [apply dist_le_refl|].
  case_decide; [|apply dist_le_refl].
  destruct (pullAndExtract D) as [D1 [Si Bi]].
  pose proof (Hrec Bi Si dist) as H1.
  destruct (rec Bi Si dist) as [dist1 [[Bi_prime Ui]| |]]; simpl in H1; try done.
  destruct (relaxEdges G numWorkers relaxEdgesParallel Ui Bi Bi_prime B D1 dist1) as [[[dist2 D2] Kb]|] eqn:E;
    [|done].
  apply relaxEdges_le in E. simpl in E.
  assert (dist_le dist2 dist) as H2 by (by eapply dist_le_trans).
  destruct (batchPrepend D2 Kb Si Bi_prime Bi dist2) as [D3|]; [|done].
  case_decide; [done|].
  eapply dist_le_trans; [apply IH | exact H2].
Qed.

Lemma BMSSP_le fuel l : ∀ B S dist,
  dist_le (BMSSP G K T numWorkers relaxEdgesParallel bigInt fuel l B S dist).1 dist.
Proof.
  induction l as [|l IH]; intros B S dist; [apply BaseCase_le|].
  cbn [BMSSP].
  pose proof (FindPivots_le B S dist) as H1.
  destruct (FindPivots G K B S dist) as [dist1 [[P W]| |]]; simpl in H1; try done.
  destruct P as [|p P]; [done|].
  destruct (initializeDataStructure _ _ _ _) as [D|]; [|done].
  unfold processMainLoop.
  match goal with |- context [mainLoop G numWorkers relaxEdgesParallel fuel ?r ?lim B W [] D dist1] =>
    pose proof (mainLoop_le fuel r lim B W IH [] D dist1) as H2;
    destruct (mainLoop G numWorkers relaxEdgesParallel fuel r lim B W [] D dist1) as [dist2 [[U ob]| |]]
  end; simpl in *; by eapply dist_le_trans.
Qed.

Lemma Run_le fuel l source dist :
  source < length dist →
  dist_le (Run G K T numWorkers relaxEdgesParallel bigInt fuel l source dist).1
          (<[source := 0%Z]> (replicate (length dist) Infinity)).
Proof.
  intros Hs. unfold Run. rewrite length_replicate.
  case_decide; [|lia].
  match goal with |- context [BMSSP G K T numWorkers relaxEdgesParallel bigInt fuel l ?B ?S ?d] =>
    pose proof (BMSSP_le fuel l B S d) as H1;
    destruct (BMSSP G K T numWorkers relaxEdgesParallel bigInt fuel l B S d) as [dist1 [?| |]]
  end; done.
Qed.

End with_solver.
End mono.

Module pivots.
Import graph ds sssp notions.

Lemma pending_le_length m : pending m ≤ length m.
Proof. apply length_filter. Qed.

Lemma pending_insert m x v :
  x < length m →
  pending (<[x := v]> m) + (if decide (pend (m !!! x)) then 1 else 0)
  = pending m + (if decide (pend v) then 1 else 0).
Proof.
  unfold pending. revert x. induction m as [|a m IH]; intros x Hx; simpl in *; [lia|].
  destruct x as [|x]; simpl.
  - rewrite !filter_cons. repeat case_decide; simpl; lia.
  - specialize (IH x ltac:(lia)).
    rewrite !filter_cons.
    change ((a :: m) !!! S x) with (m !!! x).
    repeat case_decide; simpl in *; lia.
Qed.

Lemma unmarked_le_length m : unmarked m ≤ length m.
Proof. apply length_filter. Qed.

Lemma unmarked_insert m x v :
  x < length m →
  unmarked (<[x := v]> m) + (if decide (m !!! x ≠ (-1)%Z) then 1 else 0)
  = unmarked m + (if decide (v ≠ (-1)%Z) then 1 else 0).
Proof.
  unfold unmarked. revert x. induction m as [|a m IH]; intros x Hx; simpl in *; [lia|].
  destruct x as [|x]; simpl.
  - rewrite !filter_cons. repeat case_decide; simpl; lia.
  - specialize (IH x ltac:(lia)).
    rewrite !filter_cons.
    change ((a :: m) !!! S x) with (m !!! x).
    repeat case_decide; simpl in *; lia.
Qed.

Lemma memo_step_refl m : memo_step m m.
Proof. unfold memo_step. split_and!; auto. Qed.

Lemma memo_step_trans m1 m2 m3 :
  memo_step m1 m2 → memo_step m2 m3 → memo_step m1 m3.
Proof.
  intros (L1 & A1 & B1 & P1) (L2 & A2 & B2 & P2). unfold memo_step.
  split_and!; [congruence| | |lia].
  - intros i Hi. rewrite <-(A1 i Hi). apply A2. by rewrite (A1 i Hi).
  - intros i. destruct (B1 i) as [E|Hpos].
    + rewrite <-E. apply B2.
    + right. rewrite A2; [done|]. unfold pend. lia.
Qed.

Section with_solver.
Variable G : Graph.
Variable K : nat.
Variables (dist : list Z) (inW : list bool).
Hypothesis Hwf : wf G.

Lemma wf_targets x : Forall (λ e, To e < V G) (Adj G !!! x).
Proof.
  destruct Hwf as [_ HF].
  destruct (Adj G !! x) as [es|] eqn:E.
  - rewrite (list_lookup_total_correct _ _ _ E).
    by eapply (Forall_lookup_1 _ _ _ _ HF).
  - rewrite list_lookup_total_alt, E. simpl. constructor.
Qed.

Lemma specChildren_ok calc depth x edges :
  (∀ m v, length m = V G → v < V G → pending m < depth →
          calc_spec m v (calc m v)) →
  Forall (λ e, To e < V G) edges →
  ∀ m count, length m = V G → pending m < depth →
  ∃ m' count', specChildren calc dist inW x edges m count = Some (m', count')
               ∧ memo_step m m' ∧ (count ≤ count')%Z.
Proof.
  intros Hcalc. induction 1 as [|e edges He _ IH]; intros m count Hlen Hp; simpl.
  - exists m, count. split_and!; [done|apply memo_step_refl|lia].
  - destruct (_ && _).
    + destruct (Hcalc m (To e) Hlen He Hp) as (m1 & c & -> & Hs & Hc & _).
      destruct (IH m1 (count + c)%Z) as (m2 & c2 & -> & Hs2 & Hc2).
      { destruct Hs as (-> & _). done. }
      { destruct Hs as (_ & _ & _ & ?). lia. }
      exists m2, c2. split_and!; [done|by eapply memo_step_trans|lia].
    + apply IH; done.
Qed.

Lemma specSize_ok depth : ∀ m x,
  length m = V G → x < V G → pending m < depth →
  calc_spec m x (specSize G depth dist inW m x).
Proof.
  induction depth as [|depth IH]; intros m x Hlen Hx Hp; [lia|].
  cbn [specSize]. unfold calc_spec.
  case_decide as Hpos.
  { exists m, (m !!! x). split_and!; [done|apply memo_step_refl|done|done]. }
  case_decide as Hmark.
  { exists m, 1%Z. split_and!; [done|apply memo_step_refl|lia|done]. }
  assert (pend (m !!! x)) as Hpend by (by unfold pend).
  pose proof (pending_insert m x (-1)%Z ltac:(lia)) as Hins.
  rewrite decide_True in Hins by done.
  rewrite decide_False in Hins by (unfold pend; lia).
  destruct (specChildren_ok (specSize G depth dist inW) depth x
              (Adj G !!! x) IH (wf_targets x) (<[x := (-1)%Z]> m) 0%Z)
    as (m2 & c & -> & (L2 & A2 & B2 & P2) & Hc).
  { by rewrite length_insert. }
  { lia. }
  assert (m2 !!! x = (-1)%Z) as Hm2x.
  { rewrite A2; rewrite list_lookup_total_insert_eq by lia; [done|].
    unfold pend. lia. }
  rewrite length_insert in L2.
  exists (<[x := (1 + c)%Z]> m2), (1 + c)%Z.
  split_and!; [done| |lia|].
  - unfold memo_step. split_and!.
    + by rewrite length_insert.
    + intros i Hi. destruct (decide (i = x)) as [->|Hne]; [done|].
      rewrite list_lookup_total_insert_ne by done.
      rewrite A2; rewrite list_lookup_total_insert_ne by done; done.
    + intros i. destruct (decide (i = x)) as [->|Hne].
      * right. rewrite list_lookup_total_insert_eq by lia. lia.
      * rewrite list_lookup_total_insert_ne by done.
        destruct (B2 i) as [E|?]; [left|by right].
        by rewrite E, list_lookup_total_insert_ne.
    + pose proof (pending_insert m2 x (1 + c)%Z ltac:(lia)) as Hins2.
      rewrite Hm2x in Hins2.
      rewrite decide_False in Hins2 by (unfold pend; lia).
      rewrite decide_False in Hins2 by (unfold pend; lia).
      lia.
  - intros _. rewrite list_lookup_total_insert_eq by lia. done.
Qed.

Lemma specPivotStep_ok done st x :
  pivots_inv G K done st → x < V G →
  ∃ st', specPivotStep G K dist inW st x = Some st' ∧ pivots_inv G K (done ++ [x]) st'.
Proof.
  destruct st as [m P]. intros (Hlen & Hno & Hpos & HP) Hx. cbn [fst snd] in *.
  destruct (specSize_ok (S (length m)) m x Hlen Hx) as (m' & c & Hcalc & Hs & Hc & Hmx).
  { pose proof (pending_le_length m). lia. }
  unfold specPivotStep. cbn [fst snd]. rewrite Hcalc.
  destruct Hs as (L & A & B & _).
  specialize (Hmx (Hno x)).
  assert (∀ s, (0 < m !!! s)%Z → m' !!! s = m !!! s) as Hkeep.
  { intros s Hs. apply A. unfold pend. lia. }
  eexists. split; [done|]. unfold pivots_inv. simpl. split_and!.
  - congruence.
  - intros i. destruct (B i) as [E|?]; [rewrite E; apply Hno|lia].
  - apply Forall_app. split.
    + eapply Forall_impl; [exact Hpos|]. simpl. intros s Hs.
      by rewrite Hkeep.
    + constructor; [lia|constructor].
  - rewrite filter_app, filter_cons, filter_nil, Hmx.
    assert (filter (λ s, (Z.of_nat K ≤ m' !!! s)%Z) done
            = filter (λ s, (Z.of_nat K ≤ m !!! s)%Z) done) as ->.
    { clear HP. induction Hpos as [|s done Hs _ IHd]; [done|].
      rewrite !filter_cons, IHd, (Hkeep s Hs). done. }
    rewrite <-HP. case_decide; by rewrite ?app_nil_r.
Qed.

Lemma specPivots_ok S :
  Forall (λ s, s < V G) S →
  ∃ memo P, specPivots G K S inW dist = Some (memo, P)
            ∧ Forall (λ s, 0 < memo !!! s)%Z S
            ∧ P = filter (λ s, (Z.of_nat K ≤ memo !!! s)%Z) S.
Proof.
  intros HS. unfold specPivots.
  assert (∀ S done st, Forall (λ s, s < V G) S → pivots_inv G K done st →
            ∃ st', foldM (specPivotStep G K dist inW) st S = Some st'
                   ∧ pivots_inv G K (done ++ S) st') as Hloop.
  { clear S HS. induction S as [|x S IH]; intros done st HS Hinv; simpl.
    - exists st. by rewrite app_nil_r.
    - inversion HS; subst.
      destruct (specPivotStep_ok done st x Hinv) as (st1 & -> & Hinv1); [done|].
      destruct (IH (done ++ [x]) st1) as (st2 & -> & Hinv2); [done..|].
      exists st2. by rewrite <-app_assoc in Hinv2. }
  destruct (Hloop S [] (replicate (V G) 0%Z, []) HS) as ([memo P] & -> & Hinv).
  { unfold pivots_inv. simpl. split_and!; [apply length_replicate| |done|done].
    intros i. rewrite list_lookup_total_alt.
    destruct (replicate (V G) 0%Z !! i) as [z|] eqn:E; simpl; [|done].
    apply lookup_replicate in E as [-> _]. done. }
  destruct Hinv as (_ & _ & Hpos & HP). simpl in *.
  exists memo, P. done.
Qed.

(** *** The code: counts that wrap around *)

Lemma countTreeChildren_total calc depth x edges :
  (∀ m v, length m = V G → v < V G → unmarked m < depth →
          ∃ m' c, calc m v = Some (m', c) ∧ length m' = V G
                  ∧ unmarked m' ≤ unmarked m) →
  Forall (λ e, To e < V G) edges →
  ∀ m count, length m = V G → unmarked m < depth →
  ∃ m' count', countTreeChildren calc dist inW x edges m count = Some (m', count')
               ∧ length m' = V G ∧ unmarked m' ≤ unmarked m.
Proof.
  intros Hcalc. induction 1 as [|e edges He _ IH]; intros m count Hlen Hp; simpl.
  - by exists m, count.
  - destruct (_ && _).
    + destruct (Hcalc m (To e) Hlen He Hp) as (m1 & c & -> & L1 & U1).
      destruct (IH m1 (wrap (count + c)) L1 ltac:(lia)) as (m2 & c2 & -> & L2 & U2).
      exists m2, c2. split_and!; [done|done|lia].
    + by apply IH.
Qed.

Lemma calcSize_total depth : ∀ m x,
  length m = V G → x < V G → unmarked m < depth →
  ∃ m' c, calcSize G depth dist inW m x = Some (m', c) ∧ length m' = V G
          ∧ unmarked m' ≤ unmarked m.
Proof.
  induction depth as [|depth IH]; intros m x Hlen Hx Hp; [lia|].
  cbn [calcSize].
  case_decide as Hpos; [by exists m, (m !!! x)|].
  case_decide as Hmark; [by exists m, 1%Z|].
  pose proof (unmarked_insert m x (-1)%Z ltac:(lia)) as Hins.
  rewrite decide_True in Hins by done.
  rewrite decide_False in Hins by (intros ?; done).
  destruct (countTreeChildren_total (calcSize G depth dist inW) depth x
              (Adj G !!! x) IH (wf_targets x) (<[x := (-1)%Z]> m) 0%Z)
    as (m2 & c & -> & L2 & U2).
  { by rewrite length_insert. }
  { lia. }
  exists (<[x := wrap (1 + c)]> m2), (wrap (1 + c)).
  split_and!; [done|by rewrite length_insert|].
  pose proof (unmarked_insert m2 x (wrap (1 + c)) ltac:(lia)) as Hins2.
  repeat case_decide; lia.
Qed.

Lemma pivotStep_eq m P x :
  pivotStep G K dist inW (m, P) x
  = match calcSize G (S (length m)) dist inW m x with
    | Some (m', sz) => Some (m', if decide (Z.of_nat K ≤ sz)%Z then P ++ [x] else P)
    | None => None
    end.
Proof. reflexivity. Qed.

Lemma computePivots_total S :
  Forall (λ s, s < V G) S →
  ∃ memo P, computePivots G K S inW dist = Some (memo, P)
            ∧ length memo = V G ∧ P `sublist_of` S.
Proof.
  intros HS. unfold computePivots.
  assert (∀ S done st, Forall (λ s, s < V G) S →
            length st.1 = V G → st.2 `sublist_of` done →
            ∃ st', foldM (pivotStep G K dist inW) st S = Some st'
                   ∧ length st'.1 = V G ∧ st'.2 `sublist_of` done ++ S) as Hloop.
  { clear S HS. induction S as [|x S IH]; intros done [m P] HS Hlen Hsub;
      cbn [foldM fst snd] in *.
    - exists (m, P). by rewrite app_nil_r.
    - inversion HS; subst.
      destruct (calcSize_total (Datatypes.S (length m)) m x Hlen) as (m1 & c & E & L1 & _);
        [done|pose proof (unmarked_le_length m); lia|].
      rewrite pivotStep_eq, E.
      destruct (IH (done ++ [x]) (m1, if decide (Z.of_nat K ≤ c)%Z then P ++ [x] else P))
        as (st2 & -> & L2 & S2); [done|done| |].
      { simpl. case_decide.
        - by apply sublist_app.
        - by apply sublist_inserts_r. }
      exists st2. by rewrite <-app_assoc in S2. }
  destruct (Hloop S [] (replicate (V G) 0%Z, []) HS) as ([memo P] & -> & L & Hs).
  { apply length_replicate. }
  { done. }
  by exists memo, P.
Qed.

(** *** The code computes the sizes of the specification while they fit *)

Lemma wrap_small z : (0 ≤ z < 2 ^ 63)%Z → wrap z = z.
Proof. intros Hz. unfold wrap. rewrite Z.mod_small; lia. Qed.

Lemma small_back m m' : memo_step m m' → small m' → small m.
Proof.
  intros (_ & A & _) Hs i. destruct (decide (pend (m !!! i))) as [[Hp _]|Hp].
  - lia.
  - rewrite <-(A i Hp). apply Hs.
Qed.

Lemma countTreeChildren_sim calc_s calc_c depth x edges :
  (∀ m v, length m = V G → v < V G → pending m < depth →
          calc_spec m v (calc_s m v)) →
  (∀ m v m' c, length m = V G → v < V G → pending m < depth → small m' →
          calc_s m v = Some (m', c) → calc_c m v = Some (m', c)) →
  Forall (λ e, To e < V G) edges →
  ∀ m count m' count', length m = V G → pending m < depth →
    (0 ≤ count)%Z → (count' < 2 ^ 63)%Z → small m' →
    specChildren calc_s dist inW x edges m count = Some (m', count') →
    countTreeChildren calc_c dist inW x edges m count = Some (m', count').
Proof.
  intros Hspec Hsim. induction 1 as [|e edges He HF IH];
    intros m count m' count' Hlen Hp Hc Hc' Hs; simpl; [done|].
  destruct (_ && _); [|by apply IH].
  destruct (Hspec m (To e) Hlen He Hp) as (m1 & c & E1 & Hst & Hcpos & _).
  rewrite E1. intros Erest.
  destruct (specChildren_ok calc_s depth x edges Hspec HF m1 (count + c)%Z)
    as (m2 & c2 & E2 & Hst2 & Hle).
  { destruct Hst as (-> & _). done. }
  { destruct Hst as (_ & _ & _ & ?). lia. }
  rewrite Erest in E2. injection E2 as <- <-.
  rewrite (Hsim m (To e) m1 c Hlen He Hp (small_back _ _ Hst2 Hs) E1).
  rewrite wrap_small by lia.
  apply IH; [|  |lia|done|done|done].
  - destruct Hst as (-> & _). done.
  - destruct Hst as (_ & _ & _ & ?). lia.
Qed.

Lemma calcSize_sim depth : ∀ m x m' c,
  length m = V G → x < V G → pending m < depth → small m' →
  specSize G depth dist inW m x = Some (m', c) →
  calcSize G depth dist inW m x = Some (m', c).
Proof.
  induction depth as [|depth IH]; intros m x m' c Hlen Hx Hp Hs; [lia|].
  cbn [specSize calcSize].
  case_decide as Hpos; [done|]. case_decide as Hmark; [done|].
  assert (pend (m !!! x)) as Hpend by (by unfold pend).
  pose proof (pending_insert m x (-1)%Z ltac:(lia)) as Hins.
  rewrite decide_True in Hins by done.
  rewrite decide_False in Hins by (unfold pend; lia).
  destruct (specChildren_ok (specSize G depth dist inW) depth x
              (Adj G !!! x) (specSize_ok depth) (wf_targets x) (<[x := (-1)%Z]> m) 0%Z)
    as (m2 & c2 & E2 & (L2 & A2 & B2 & P2) & Hc2).
  { by rewrite length_insert. }
  { lia. }
  rewrite E2. intros [= <- <-].
  rewrite length_insert in L2.
  assert (1 + c2 < 2 ^ 63)%Z as Hbound.
  { specialize (Hs x). by rewrite list_lookup_total_insert_eq in Hs by lia. }
  assert (m2 !!! x = (-1)%Z) as Hm2x.
  { rewrite A2; rewrite list_lookup_total_insert_eq by lia; [done|].
    unfold pend. lia. }
  rewrite (countTreeChildren_sim (specSize G depth dist inW) (calcSize G depth dist inW)
             depth x (Adj G !!! x) (specSize_ok depth) IH (wf_targets x)
             (<[x := (-1)%Z]> m) 0%Z m2 c2).
  - by rewrite wrap_small by lia.
  - by rewrite length_insert.
  - lia.
  - lia.
  - lia.
  - intros i. destruct (decide (i = x)) as [->|Hne]; [rewrite Hm2x; lia|].
    specialize (Hs i). by rewrite list_lookup_total_insert_ne in Hs.
  - done.
Qed.

Lemma computePivots_sim S :
  Forall (λ s, s < V G) S →
  ∀ slots P, specPivots G K S inW dist = Some (slots, P) → small slots →
    computePivots G K S inW dist = Some (slots, P).
Proof.
  intros HS slots P. unfold specPivots, computePivots.
  assert (∀ S done st st', Forall (λ s, s < V G) S → pivots_inv G K done st →
            foldM (specPivotStep G K dist inW) st S = Some st' →
            memo_step st.1 st'.1
            ∧ (small st'.1 → foldM (pivotStep G K dist inW) st S = Some st')) as Hloop.
  { clear S HS slots P. induction S as [|x S IH]; intros done [m P] st' HS Hinv;
      cbn [foldM fst snd].
    - intros [= <-]. split; [apply memo_step_refl|done].
    - inversion HS; subst.
      destruct (specPivotStep_ok done (m, P) x Hinv) as (st1 & E1 & Hinv1); [done|].
      rewrite E1. intros Erest.
      destruct (IH (done ++ [x]) st1 st' ltac:(done) Hinv1 Erest) as [Hst Hcode].
      destruct Hinv as (Hlen & _). cbn [fst] in Hlen.
      destruct (specSize_ok (Datatypes.S (length m)) m x Hlen)
        as (m1 & c & Ecalc & Hs1 & _); [done|pose proof (pending_le_length m); lia|].
      unfold specPivotStep in E1. cbn [fst snd] in E1. rewrite Ecalc in E1.
      injection E1 as <-. cbn [fst] in *.
      split; [by eapply memo_step_trans|].
      intros Hsmall. rewrite pivotStep_eq.
      rewrite (calcSize_sim (Datatypes.S (length m)) m x m1 c Hlen);
        [by apply Hcode|done|pose proof (pending_le_length m); lia| |done].
      by eapply small_back. }
  intros E Hsmall.
  destruct (Hloop S [] (replicate (V G) 0%Z, []) (slots, P) HS) as [_ H]; [|done|by apply H].
  unfold pivots_inv. simpl. split_and!; [apply length_replicate| |done|done].
  intros i. rewrite list_lookup_total_alt.
  destruct (replicate (V G) 0%Z !! i) as [z|] eqn:Ez; simpl; [|done].
  apply lookup_replicate in Ez as [-> _]. done.
Qed.

End with_solver.

(** The witness list only grows. *)
Lemma kRelax_prefix B x st edge :
  st.1.2 `prefix_of` (kRelax B x st edge).1.2.
Proof.
  destruct st as [[[dist inW] W_list] Wi]. unfold kRelax. simpl.
  case_decide; [|done]. destruct (_ && _); simpl; [|done].
  by apply prefix_app_r.
Qed.

Lemma foldl_prefix {A S} (proj : S → list nat) (f : S → A → S) :
  (∀ s a, proj s `prefix_of` proj (f s a)) →
  ∀ l s, proj s `prefix_of` proj (foldl f s l).
Proof.
  intros Hf l. induction l as [|a l IH]; intros s; simpl; [done|].
  etrans; [apply Hf | apply IH].
Qed.

Lemma kRound_prefix G B Wi_prev st :
  st.2 `prefix_of` (kRound G B Wi_prev st).1.2.
Proof.
  unfold kRound.
  apply (foldl_prefix (λ s, s.1.2) (λ st x, foldl (kRelax B x) st (Adj G !!! x))).
  intros s a. apply (foldl_prefix (λ s, s.1.2)). apply kRelax_prefix.
Qed.

Lemma kRounds_prefix G K rounds B nS Wi_prev st :
  st.2 `prefix_of` (kRounds G K rounds B nS Wi_prev st).2.
Proof.
  revert Wi_prev st. induction rounds as [|r IH]; intros Wi_prev st; simpl; [done|].
  pose proof (kRound_prefix G B Wi_prev st) as H.
  destruct (kRound G B Wi_prev st) as [[[dist inW] W_list] Wi]. simpl in H.
  case_decide; simpl; [done|]. etrans; [exact H|]. apply (IH Wi (dist, inW, W_list)).
Qed.

End pivots.

Module base_case.
Import graph ds sssp notions.

Lemma Infinity_pos : (0 < Infinity)%Z.
Proof. reflexivity. Qed.

Lemma fadd_nonneg x y : (0 ≤ x)%Z → (0 ≤ y)%Z → (0 ≤ fadd x y)%Z.
Proof. intros. unfold fadd. pose proof Infinity_pos. lia. Qed.

(** *** The set [U0] *)

Lemma setAdd_NoDup U x : NoDup U → NoDup (setAdd U x).
Proof.
  intros HU. unfold setAdd. case_decide; [done|].
  apply NoDup_app. split_and!; [done| |apply NoDup_singleton].
  intros y Hy ->%list_elem_of_singleton. done.
Qed.

Lemma setAdd_elem U x y : y ∈ setAdd U x ↔ y ∈ U ∨ y = x.
Proof.
  unfold setAdd. case_decide as H.
  - split; [auto|]. intros [?| ->]; done.
  - rewrite elem_of_app, list_elem_of_singleton. done.
Qed.

Lemma setAdd_length U x : length U ≤ length (setAdd U x) ≤ S (length U).
Proof.
  unfold setAdd. case_decide; [lia|]. rewrite length_app. simpl. lia.
Qed.

Lemma seed_spec {Q} (push : Q → nat → Q) S : ∀ U q,
  NoDup U →
  let U0 := (foldl (λ st x, (setAdd st.1 x, push st.2 x)) (U, q) S).1 in
  NoDup U0 ∧ (∀ y, y ∈ U0 ↔ y ∈ U ∨ y ∈ S) ∧ length U0 ≤ length U + length S.
Proof.
  induction S as [|x S IH]; intros U q HU; simpl.
  - split_and!; [done| |lia]. intros y. rewrite elem_of_nil. tauto.
  - destruct (IH (setAdd U x) (push q x) (setAdd_NoDup U x HU)) as (H1 & H2 & H3).
    split_and!; [done| |].
    + intros y. rewrite H2, setAdd_elem, elem_of_cons. tauto.
    + pose proof (setAdd_length U x). lia.
Qed.

(** *** Distances stay non-negative *)

Lemma nonneg_lookup (d : list Z) i : nonneg d → (0 ≤ d !!! i)%Z.
Proof.
  intros Hd. rewrite list_lookup_total_alt.
  destruct (d !! i) as [x|] eqn:E; simpl; [|done].
  by eapply (Forall_lookup_1 _ _ _ _ Hd).
Qed.

Lemma nonneg_weights_at g x :
  nonneg_weights g → Forall (λ e, (0 ≤ Weight e)%Z) (Adj g !!! x).
Proof.
  intros HF. destruct (Adj g !! x) as [es|] eqn:E.
  - rewrite (list_lookup_total_correct _ _ _ E).
    by eapply (Forall_lookup_1 _ _ _ _ HF).
  - rewrite list_lookup_total_alt, E. simpl. constructor.
Qed.

Lemma nonneg_write (d : list Z) v x : nonneg d → (0 ≤ x)%Z → nonneg (<[v := x]> d).
Proof. intros Hd Hx. by apply Forall_insert. Qed.

Lemma baseRelax_nonneg B x st edge :
  nonneg st.1 → (0 ≤ Weight edge)%Z → nonneg (baseRelax B x st edge).1.
Proof.
  destruct st as [dist pq]. simpl. intros Hd Hw. unfold baseRelax.
  case_decide; simpl; [|done].
  apply nonneg_write; [done|]. apply fadd_nonneg; [by apply nonneg_lookup|done].
Qed.

Lemma baseRelax_fold_nonneg B x edges : ∀ st,
  nonneg st.1 → Forall (λ e, (0 ≤ Weight e)%Z) edges →
  nonneg (foldl (baseRelax B x) st edges).1.
Proof.
  induction edges as [|e edges IH]; intros st Hd HF; simpl; [done|].
  inversion HF; subst. apply IH; [|done]. by apply baseRelax_nonneg.
Qed.

Section with_solver.
Variable G : Graph.
Variable K : nat.

Lemma baseLoop_spec fuel B limit : ∀ dist U0 pq dist' U0',
  baseLoop G fuel B limit dist U0 pq = (dist', Done U0') →
  NoDup U0 →
  NoDup U0' ∧ U0 ⊆ U0' ∧ length U0' ≤ max (length U0) limit
  ∧ (nonneg_weights G → nonneg dist → nonneg dist').
Proof.
  induction fuel as [|fuel IH]; intros dist U0 pq dist' U0'; simpl; [done|].
  case_decide as Hc.
  2:{ intros [= <- <-] HU. split_and!; [done|done|lia|done]. }
  destruct (heapPop pq) as [[item pq']|]; [|done].
  case_decide; [apply IH|].
  destruct (foldl _ _ _) as [dist1 pq1] eqn:E.
  intros Hloop HU.
  destruct (IH _ _ _ _ _ Hloop (setAdd_NoDup U0 (u item) HU)) as (H1 & H2 & H3 & H4).
  pose proof (setAdd_length U0 (u item)).
  split_and!; [done| |lia|].
  - intros y Hy. apply H2, setAdd_elem. by left.
  - intros Hw Hd. apply H4; [done|].
    pose proof (baseRelax_fold_nonneg B (u item) (Adj G !!! u item) (dist, pq') Hd
                  (nonneg_weights_at G (u item) Hw)) as Hn.
    by rewrite E in Hn.
Qed.

Lemma maxDist_fold (dist : list Z) U : ∀ acc,
  let r := foldl (λ maxD x, if decide (maxD < dist !!! x)%Z then dist !!! x else maxD)
                 acc U in
  (acc ≤ r)%Z ∧ (∀ x, x ∈ U → dist !!! x ≤ r)%Z
  ∧ (r = acc ∨ ∃ x, x ∈ U ∧ dist !!! x = r).
Proof.
  induction U as [|y U IH]; intros acc; simpl.
  - split_and!; [lia| |by left]. by intros x ?%elem_of_nil.
  - destruct (IH (if decide (acc < dist !!! y)%Z then dist !!! y else acc))
      as (H1 & H2 & H3).
    split_and!.
    + case_decide; lia.
    + intros x [->|Hx]%elem_of_cons; [case_decide; lia|by apply H2].
    + destruct H3 as [H3|(x & Hx & H3)].
      * case_decide; [right; exists y|left]; [|done].
        split; [apply elem_of_cons; by left|done].
      * right. exists x. split; [apply elem_of_cons; by right|done].
Qed.

(** On non-negative distances [maxDist] is the largest distance of [U0]. *)
Lemma maxDist_spec (dist : list Z) U :
  nonneg dist → U ≠ [] →
  (∃ x, x ∈ U ∧ dist !!! x = maxDist dist U)
  ∧ (∀ x, x ∈ U → dist !!! x ≤ maxDist dist U)%Z.
Proof.
  intros Hd HU. unfold maxDist.
  destruct (maxDist_fold dist U 0%Z) as (H1 & H2 & H3).
  split; [|done].
  destruct H3 as [H3|?]; [|done].
  destruct U as [|y U]; [done|]. exists y.
  split; [apply elem_of_cons; by left|].
  specialize (H2 y ltac:(apply elem_of_cons; by left)).
  pose proof (nonneg_lookup dist y Hd). simpl in *. lia.
Qed.

Lemma BaseCase_spec fuel B S dist dist' B' U :
  nonneg_weights G → nonneg dist →
  BaseCase G K fuel B S dist = (dist', Done (B', U)) →
  ∃ U0,
    NoDup U0 ∧ S ⊆ U0 ∧ length U0 ≤ max (length S) (K + 1)
    ∧ ((length U0 ≤ K ∧ B' = B ∧ U = U0)
       ∨ (K < length U0
          ∧ (∃ x, x ∈ U0 ∧ dist' !!! x = B')
          ∧ (∀ x, x ∈ U0 → dist' !!! x ≤ B')%Z
          ∧ U = filter (λ x, (dist' !!! x < B')%Z) U0)).
Proof.
  intros Hw Hd. unfold BaseCase.
  pose proof (seed_spec (λ q x, heapPush q {| u := x; priority := dist !!! x |})
                S [] [] (NoDup_nil_2)) as Hseed.
  destruct (foldl _ _ S) as [U0 pq]. simpl in Hseed.
  destruct Hseed as (HN & Hel & Hlen).
  destruct (baseLoop G fuel B (K + 1) dist U0 pq) as [dist1 [U1| |]] eqn:E; try done.
  destruct (baseLoop_spec _ _ _ _ _ _ _ _ E HN) as (H1 & H2 & H3 & H4).
  specialize (H4 Hw Hd).
  assert (S ⊆ U1) as HS.
  { intros y Hy. apply H2, Hel. by right. }
  case_decide as Hk; intros [= <- <- <-]; exists U1.
  - split_and!; [done|done|lia|]. left. done.
  - split_and!; [done|done|lia|]. right.
    destruct (maxDist_spec dist1 U1 H4) as [Hmax1 Hmax2].
    { intros ->. simpl in Hk. lia. }
    split_and!; [lia|done|done|done].
Qed.

End with_solver.
End base_case.

Module transform.
Import graph notions.

(** *** Counting in lists *)

Lemma filter_fmap_length {A B} (f : A → B) (P : B → Prop) `{!∀ y, Decision (P y)}
    (l : list A) :
  length (filter P (f <$> l)) = length (filter (λ a, P (f a)) l).
Proof.
  induction l as [|a l IH]; [done|].
  rewrite fmap_cons, !filter_cons. case_decide; simpl; by rewrite IH.
Qed.

Lemma count_notin (l : list nat) x :
  x ∉ l → length (filter (λ y, y = x) l) = 0.
Proof.
  induction l as [|y l IH]; intros Hx; [done|].
  apply not_elem_of_cons in Hx as [Hne Hx].
  rewrite filter_cons. case_decide; [congruence|by apply IH].
Qed.

Lemma count_NoDup (l : list nat) x :
  NoDup l → length (filter (λ y, y = x) l) ≤ 1.
Proof.
  induction 1 as [|y l Hy _ IH]; [simpl; lia|].
  rewrite filter_cons. case_decide as E; [|lia]. subst y. simpl.
  rewrite count_notin by done. lia.
Qed.

Lemma count_in (l : list nat) x :
  x ∈ l → 1 ≤ length (filter (λ y, y = x) l).
Proof.
  induction l as [|y l IH]; intros Hx; [by apply elem_of_nil in Hx|].
  rewrite filter_cons. case_decide as E; simpl; [lia|].
  apply elem_of_cons in Hx as [->|Hx]; [done|by apply IH].
Qed.

(** *** The graph reached by a list of [AddEdge] calls *)

Lemma concat_insert_count (P : Edge → Prop) `{!∀ e, Decision (P e)}
    (adj : list (list Edge)) u es e :
  adj !! u = Some es →
  length (filter P (concat (<[u := es ++ [e]]> adj)))
  = length (filter P (concat adj)) + (if decide (P e) then 1 else 0).
Proof.
  revert u. induction adj as [|a adj IH]; intros u Hu; [done|].
  destruct u as [|u]; simpl in *.
  - injection Hu as ->. rewrite !filter_app, !length_app, filter_cons, filter_nil.
    case_decide; simpl; lia.
  - rewrite !filter_app, !length_app, (IH u Hu). lia.
Qed.

Lemma AddEdge_degrees g u v w :
  u < length (Adj g) →
  ∃ g', AddEdge g u v w = Some g'
    ∧ V g' = V g ∧ length (Adj g') = length (Adj g)
    ∧ (∀ x, outDegree g' x = outDegree g x + (if decide (u = x) then 1 else 0))
    ∧ (∀ x, inDegree g' x = inDegree g x + (if decide (v = x) then 1 else 0)).
Proof.
  intros Hu. unfold AddEdge.
  destruct (lookup_lt_is_Some_2 (Adj g) u Hu) as [es Hes]. rewrite Hes.
  eexists. split; [done|]. simpl. split_and!; [done|by rewrite length_insert| |].
  - intros x. unfold outDegree. simpl. case_decide as E.
    + subst x. rewrite list_lookup_total_insert_eq by done.
      rewrite (list_lookup_total_correct _ _ _ Hes), length_app. simpl. lia.
    + rewrite list_lookup_total_insert_ne by done. lia.
  - intros x. unfold inDegree. simpl.
    rewrite (concat_insert_count (λ e, To e = x) _ _ _ _ Hes). simpl. done.
Qed.

Lemma addCalls_degrees calls : ∀ g,
  Forall (λ c : call, c.1.1 < length (Adj g)) calls →
  ∃ g', foldM addCall g calls = Some g'
    ∧ V g' = V g ∧ length (Adj g') = length (Adj g)
    ∧ (∀ x, outDegree g' x
            = outDegree g x + length (filter (λ c : call, c.1.1 = x) calls))
    ∧ (∀ x, inDegree g' x
            = inDegree g x + length (filter (λ c : call, c.1.2 = x) calls)).
Proof.
  induction calls as [|c calls IH]; intros g HF; simpl.
  - exists g. split_and!; auto.
  - inversion HF as [|? ? Hc HF']; subst.
    destruct (AddEdge_degrees g c.1.1 c.1.2 c.2 Hc) as (g1 & E1 & V1 & L1 & O1 & I1).
    unfold addCall at 1. rewrite E1.
    destruct (IH g1) as (g2 & E2 & V2 & L2 & O2 & I2).
    { by rewrite L1. }
    exists g2. split_and!; [done|congruence|congruence| |].
    + intros x. rewrite O2, O1, filter_cons. case_decide; simpl; lia.
    + intros x. rewrite I2, I1, filter_cons. case_decide; simpl; lia.
Qed.


(** *** The layout of the cycles *)

Lemma sz_pos g deg u : 1 ≤ sz g deg u.
Proof. unfold sz. simpl. case_decide; lia. Qed.

Lemma base_mono g deg u k : u < k → base g deg u + sz g deg u ≤ base g deg k.
Proof.
  induction k as [|k IH]; [lia|]. intros Hu. simpl.
  destruct (decide (u = k)) as [->|Hne]; [lia|].
  specialize (IH ltac:(lia)). lia.
Qed.

Lemma base_inj g deg u j u' j' :
  j < sz g deg u → j' < sz g deg u' →
  base g deg u + j = base g deg u' + j' → u = u' ∧ j = j'.
Proof.
  intros Hj Hj' E.
  destruct (Nat.lt_trichotomy u u') as [Hlt|[->|Hlt]].
  - pose proof (base_mono g deg u u' Hlt). lia.
  - lia.
  - pose proof (base_mono g deg u' u Hlt). lia.
Qed.

Lemma layout_prefix g deg k :
  k ≤ V g →
  ∃ starts sizes,
    foldl (layoutStep g deg) (replicate (V g) 0, replicate (V g) 0, 0) (seq 0 k)
    = (starts, sizes, base g deg k)
    ∧ length starts = V g ∧ length sizes = V g
    ∧ ∀ u, u < k → starts !!! u = base g deg u ∧ sizes !!! u = sz g deg u.
Proof.
  induction k as [|k IH]; intros Hk.
  - simpl. eexists _, _. split_and!; [done|apply length_replicate..|lia].
  - destruct (IH ltac:(lia)) as (starts & sizes & E & L1 & L2 & H).
    rewrite seq_S, foldl_app, E. simpl.
    eexists _, _. split_and!; [done|by rewrite length_insert..|].
    intros u Hu. destruct (decide (u = k)) as [->|Hne].
    + rewrite !list_lookup_total_insert_eq by lia. done.
    + rewrite !list_lookup_total_insert_ne by done. apply H. lia.
Qed.

(** *** The edges in loop order *)

Lemma flat_map_ext_Forall {A B} (f h : A → list B) (l : list A) :
  Forall (λ a, f a = h a) l → flat_map f l = flat_map h l.
Proof. induction 1 as [|a l E _ IH]; simpl; [done|]. by rewrite E, IH. Qed.

Lemma wf_Adj g x :
  wf g → Forall (λ e, To e < V g) (Adj g !!! x).
Proof.
  intros [_ HF]. destruct (Adj g !! x) as [es|] eqn:E.
  - rewrite (list_lookup_total_correct _ _ _ E).
    by eapply (Forall_lookup_1 _ _ _ _ HF).
  - rewrite list_lookup_total_alt, E. simpl. constructor.
Qed.

Lemma edgeList_wf g :
  wf g → Forall (λ ue : nat * Edge, ue.1 < V g ∧ To ue.2 < V g) (edgeList g).
Proof.
  intros Hwf. unfold edgeList. apply Forall_forall. intros [u e] Hin.
  apply list_elem_of_In, in_flat_map in Hin as (u' & Hu' & Hin).
  apply list_elem_of_In, list_elem_of_fmap in Hin as (e' & [= -> ->] & He).
  apply in_seq in Hu'. simpl. split; [lia|].
  pose proof (wf_Adj g u' Hwf) as HF.
  by eapply (proj1 (Forall_forall _ _) HF).
Qed.

Lemma filter_const {A} (Q : Prop) `{!Decision Q} (l : list A) :
  filter (λ _, Q) l = if decide Q then l else [].
Proof.
  induction l as [|a l IH]; [by case_decide|].
  rewrite filter_cons, IH. by case_decide.
Qed.

Lemma edges_src_count g u us :
  NoDup us →
  length (filter (λ ue : nat * Edge, ue.1 = u)
            (flat_map (λ u', (λ e, (u', e)) <$> (Adj g !!! u')) us))
  = if decide (u ∈ us) then length (Adj g !!! u) else 0.
Proof.
  induction 1 as [|a us Ha _ IH]; [done|]. simpl.
  rewrite filter_app, length_app, IH, filter_fmap_length. simpl.
  rewrite filter_const.
  destruct (decide (a = u)) as [->|Hne].
  - rewrite decide_False by done. rewrite decide_True by (apply elem_of_cons; by left).
    lia.
  - simpl. destruct (decide (u ∈ us)) as [Hin|Hnin].
    + rewrite decide_True by (apply elem_of_cons; by right). done.
    + rewrite decide_False; [done|]. intros [->|?]%elem_of_cons; done.
Qed.

Lemma edgeList_src g u :
  u < V g → length (filter (λ ue : nat * Edge, ue.1 = u) (edgeList g))
            = length (Adj g !!! u).
Proof.
  intros Hu. unfold edgeList. rewrite edges_src_count by apply NoDup_seq.
  rewrite decide_True; [done|]. apply list_elem_of_In, in_seq. lia.
Qed.

Lemma bump_fold (l : list (nat * Edge)) : ∀ deg0,
  Forall (λ ue, To ue.2 < length deg0) l →
  ∃ deg, foldM (λ d ue, bump d (To ue.2)) deg0 l = Some deg
    ∧ length deg = length deg0
    ∧ ∀ v, v < length deg0 →
        deg !!! v = deg0 !!! v + length (filter (λ ue : nat * Edge, To ue.2 = v) l).
Proof.
  induction l as [|ue l IH]; intros deg0 HF; simpl.
  - exists deg0. split_and!; [done..|]. intros. lia.
  - inversion HF as [|? ? Hue HF']; subst. unfold bump at 1.
    destruct (lookup_lt_is_Some_2 deg0 (To ue.2) Hue) as [d Hd]. rewrite Hd.
    destruct (IH (<[To ue.2 := S d]> deg0)) as (deg & E & L & H).
    { by rewrite length_insert. }
    rewrite length_insert in L, H.
    exists deg. split_and!; [done..|]. intros v Hv. rewrite (H v Hv), filter_cons.
    destruct (decide (To ue.2 = v)) as [<-|Hne].
    + rewrite list_lookup_total_insert_eq by done.
      rewrite (list_lookup_total_correct _ _ _ Hd). simpl. lia.
    + rewrite list_lookup_total_insert_ne by done. lia.
Qed.


(** *** The calls of the two phases *)

Lemma cycleStep_calls u start size : ∀ (ixs : list nat) g0 o g',
  foldM addCall g0 ((λ i, (start + i, start + (i + 1) mod size, 0%Z)) <$> ixs)
    = Some g' →
  ∃ o', foldM (cycleStep u start size) (g0, o) ixs = Some (g', o').
Proof.
  induction ixs as [|i ixs IH]; intros g0 o g'; simpl.
  - intros [= ->]. eauto.
  - unfold addCall at 1. simpl.
    destruct (AddEdge g0 _ _ _) as [g1|]; [|done]. apply IH.
Qed.

Lemma buildCycles_calls (starts sizes : list nat) : ∀ us g0 o g',
  foldM addCall g0
    (flat_map (λ u, cycleCallsOf (starts !!! u) (sizes !!! u)) us) = Some g' →
  ∃ o', foldM (λ st u, foldM (cycleStep u (starts !!! u) (sizes !!! u)) st
                             (seq 0 (sizes !!! u))) (g0, o) us = Some (g', o').
Proof.
  induction us as [|u us IH]; intros g0 o g'; simpl.
  - intros [= ->]. eauto.
  - rewrite foldM_app.
    destruct (foldM addCall g0 _) as [g1|] eqn:E1; [|done]. simpl. intros E2.
    destruct (cycleStep_calls u _ _ _ _ o _ E1) as [o1 ->].
    by apply IH.
Qed.

Lemma realStep_calls (starts : list nat) : ∀ l slots g0 g',
  foldM addCall g0 (realCalls starts slots l) = Some g' →
  ∃ slots', foldM (realStep starts) (slots, g0) l = Some (slots', g').
Proof.
  induction l as [|ue l IH]; intros slots g0 g'; simpl.
  - intros [= ->]. eauto.
  - unfold addCall at 1. simpl.
    destruct (AddEdge g0 _ _ _) as [g1|]; [|done]. apply IH.
Qed.

Lemma endpoints_count x calls :
  length (filter (λ c : call, c.1.1 = x) calls)
  + length (filter (λ c : call, c.1.2 = x) calls)
  = length (filter (λ y, y = x) (endpoints calls)).
Proof.
  induction calls as [|c calls IH]; [done|].
  simpl. rewrite !filter_cons. repeat case_decide; simpl; lia.
Qed.

(** The sources of the cycle calls are the transformed ids in order. *)
Lemma cycle_sources_block b s : (λ c : call, c.1.1) <$> cycleCallsOf b s = seq b s.
Proof.
  unfold cycleCallsOf. rewrite <-list_fmap_compose.
  transitivity (Nat.add b <$> seq 0 s); [done|].
  by rewrite fmap_add_seq, Nat.add_0_r.
Qed.

Lemma cycle_targets_block b s :
  (λ c : call, c.1.2) <$> cycleCallsOf b s ≡ₚ seq b s.
Proof.
  unfold cycleCallsOf. rewrite <-list_fmap_compose.
  destruct s as [|s]; [done|].
  set (f := (λ c : call, c.1.2) ∘ (λ i, (b + i, b + (i + 1) mod S s, 0%Z))).
  assert (f <$> seq 0 s = seq (S b) s) as H1.
  { transitivity (Nat.add (S b) <$> seq 0 s);
      [|by rewrite fmap_add_seq, Nat.add_0_r].
    apply Forall_fmap_ext_1, Forall_forall.
    intros i Hi%list_elem_of_In%in_seq.
    unfold f, compose. cbn [fst snd]. rewrite Nat.mod_small by lia. lia. }
  assert (f (0 + s) = b) as H2.
  { unfold f, compose. cbn [fst snd].
    replace (0 + s + 1) with (S s) by lia. rewrite Nat.Div0.mod_same. lia. }
  rewrite seq_S, fmap_app, H1.
  change (f <$> [0 + s]) with [f (0 + s)]. rewrite H2.
  change (seq b (S s)) with (b :: seq (S b) s).
  by rewrite <-Permutation_cons_append.
Qed.

Lemma cycle_sources g deg k :
  (λ c : call, c.1.1)
    <$> flat_map (λ u, cycleCallsOf (base g deg u) (sz g deg u)) (seq 0 k)
  = seq 0 (base g deg k).
Proof.
  induction k as [|k IH]; [done|].
  rewrite seq_S, flat_map_app, fmap_app, IH. simpl.
  rewrite app_nil_r, cycle_sources_block, seq_app. done.
Qed.

Lemma cycle_targets g deg k :
  (λ c : call, c.1.2)
    <$> flat_map (λ u, cycleCallsOf (base g deg u) (sz g deg u)) (seq 0 k)
  ≡ₚ seq 0 (base g deg k).
Proof.
  induction k as [|k IH]; [done|].
  rewrite seq_S, flat_map_app, fmap_app, IH. simpl.
  rewrite app_nil_r, cycle_targets_block, seq_app. done.
Qed.


(** *** The slots taken by the real edges *)

Section slots.
Variable g : Graph.
Variable deg : list nat.
Variable starts : list nat.
Hypothesis Hstarts : ∀ w, w < V g → starts !!! w = base g deg w.

Lemma real_endpoints : ∀ l slots,
  Forall (λ ue : nat * Edge, ue.1 < V g ∧ To ue.2 < V g) l →
  length slots = V g →
  (∀ w, w < V g →
     slots !!! w + length (filter (λ ue : nat * Edge, ue.1 = w) l)
                 + length (filter (λ ue : nat * Edge, To ue.2 = w) l)
     ≤ sz g deg w) →
  NoDup (endpoints (realCalls starts slots l))
  ∧ Forall (free_slot g deg slots) (endpoints (realCalls starts slots l)).
Proof.
  induction l as [|[u e] l IH]; intros slots HF Hlen Hcap.
  { split; constructor. }
  inversion HF as [|? ? [Hu Hv] HF']; subst. simpl in Hu, Hv.
  cbn [realCalls endpoints flat_map app fst snd].
  set (s0 := slots !!! u).
  set (slots1 := <[u := s0 + 1]> slots).
  set (s1 := slots1 !!! To e).
  set (slots2 := <[To e := s1 + 1]> slots1).
  assert (length slots1 = V g) as Hlen1 by (unfold slots1; by rewrite length_insert).
  assert (s1 = slots !!! To e + (if decide (u = To e) then 1 else 0)) as Hs1.
  { unfold s1, slots1. destruct (decide (u = To e)) as [<-|Hne].
    - rewrite list_lookup_total_insert_eq by lia. unfold s0. lia.
    - rewrite list_lookup_total_insert_ne by done. lia. }
  assert (∀ w, slots2 !!! w
               = slots !!! w + (if decide (u = w) then 1 else 0)
                             + (if decide (To e = w) then 1 else 0)) as Hs2.
  { intros w. unfold slots2.
    destruct (decide (To e = w)) as [<-|Hne].
    - rewrite list_lookup_total_insert_eq by lia. rewrite Hs1. lia.
    - rewrite list_lookup_total_insert_ne by done. unfold slots1.
      destruct (decide (u = w)) as [<-|Hne'].
      + rewrite list_lookup_total_insert_eq by lia. unfold s0. lia.
      + rewrite list_lookup_total_insert_ne by done. lia. }
  pose proof (Hcap u Hu) as Hcu. pose proof (Hcap (To e) Hv) as Hcv.
  rewrite !filter_cons in Hcu, Hcv. simpl in Hcu, Hcv.
  rewrite decide_True in Hcu by done.
  rewrite (decide_True (P := To e = To e)) in Hcv by done.
  destruct (IH slots2) as [HN HFree].
  { done. }
  { unfold slots2. by rewrite length_insert. }
  { intros w Hw. specialize (Hcap w Hw). rewrite !filter_cons in Hcap.
    simpl in Hcap. rewrite Hs2. repeat case_decide; simpl in *; lia. }
  rewrite (Hstarts u Hu), (Hstarts (To e) Hv).
  assert (s0 < sz g deg u) as Hs0.
  { unfold s0. case_decide; simpl in *; lia. }
  assert (s1 < sz g deg (To e)) as Hs1'.
  { rewrite Hs1. repeat case_decide; simpl in *; subst; lia. }
  assert (∀ p, free_slot g deg slots2 p → p ≠ base g deg u + s0) as Hfresh0.
  { intros p (w & j & Hw & -> & Hj) E.
    apply base_inj in E as [-> ->]; [|lia..].
    rewrite Hs2 in Hj. rewrite decide_True in Hj by done. unfold s0 in Hj. lia. }
  assert (∀ p, free_slot g deg slots2 p → p ≠ base g deg (To e) + s1) as Hfresh1.
  { intros p (w & j & Hw & -> & Hj) E.
    apply base_inj in E as [-> ->]; [|lia..].
    rewrite Hs2 in Hj. rewrite (decide_True (P := To e = To e)) in Hj by done.
    rewrite Hs1 in Hj. lia. }
  split.
  - constructor.
    + intros [E|Hin]%elem_of_cons.
      * apply base_inj in E as [E1 E2]; [|lia..].
        rewrite Hs1 in E2. rewrite decide_True in E2 by done. unfold s0 in E2.
        subst. lia.
      * eapply Hfresh0; [|done].
        by eapply (proj1 (Forall_forall _ _) HFree).
    + constructor; [|done].
      intros Hin. eapply Hfresh1; [|done].
      by eapply (proj1 (Forall_forall _ _) HFree).
  - constructor; [|constructor].
    + exists u, s0. unfold s0 in *. split_and!; [done|done|lia|lia].
    + exists (To e), s1. split_and!; [done|done|lia|lia].
    + eapply Forall_impl; [exact HFree|].
      intros p (w & j & Hw & -> & Hj). exists w, j.
      rewrite Hs2 in Hj. split_and!; [done|done|lia|lia].
Qed.

End slots.


(** *** The transformed graph *)

Lemma NewGraph_degrees n x :
  outDegree (NewGraph n) x = 0 ∧ inDegree (NewGraph n) x = 0.
Proof.
  unfold outDegree, inDegree, NewGraph. simpl. split.
  - rewrite list_lookup_total_alt.
    destruct (replicate n [] !! x) as [es|] eqn:E; [|done].
    apply lookup_replicate in E as [-> _]. done.
  - assert (concat (replicate n (@nil Edge)) = []) as ->; [|done].
    induction n as [|n IH]; [done|]. simpl. done.
Qed.

Lemma endpoints_sources (P : nat → Prop) calls :
  Forall P (endpoints calls) → Forall (λ c : call, P c.1.1) calls.
Proof.
  induction calls as [|c calls IH]; [constructor|].
  simpl. intros HF. inversion HF as [|? ? H1 HF1]; subst.
  inversion HF1 as [|? ? H2 HF2]; subst. constructor; [done|by apply IH].
Qed.

Lemma ToConstantDegree_ok g :
  wf g →
  ∃ tg, ToConstantDegree g = Some tg
    ∧ length (Adj (G tg)) = V (G tg)
    ∧ (∀ x, outDegree (G tg) x ≤ 2 ∧ inDegree (G tg) x ≤ 2
            ∧ outDegree (G tg) x + inDegree (G tg) x ≤ 3)
    ∧ (∀ x, x < V (G tg) → 1 ≤ outDegree (G tg) x ∧ 1 ≤ inDegree (G tg) x).
Proof.
  intros Hwf. pose proof (edgeList_wf g Hwf) as Hall.
  destruct (bump_fold (edgeList g) (replicate (V g) 0)) as (deg & Edeg & Ldeg & Hdeg).
  { rewrite length_replicate. eapply Forall_impl; [exact Hall|]. by intros ? [_ ?]. }
  rewrite length_replicate in Ldeg, Hdeg.
  destruct (layout_prefix g deg (V g)) as (starts & sizes & El & L1 & L2 & Hl); [done|].
  set (N := base g deg (V g)) in *.
  set (calls1 := flat_map (λ u, cycleCallsOf (starts !!! u) (sizes !!! u)) (seq 0 (V g))).
  assert (calls1 = flat_map (λ u, cycleCallsOf (base g deg u) (sz g deg u)) (seq 0 (V g)))
    as Hcalls1.
  { apply flat_map_ext_Forall, Forall_forall. intros u Hu%list_elem_of_In%in_seq.
    destruct (Hl u) as [-> ->]; [lia|done]. }
  assert ((λ c : call, c.1.1) <$> calls1 = seq 0 N) as Hsrc1
    by (rewrite Hcalls1; apply cycle_sources).
  assert ((λ c : call, c.1.2) <$> calls1 ≡ₚ seq 0 N) as Htgt1
    by (rewrite Hcalls1; apply cycle_targets).
  destruct (addCalls_degrees calls1 (NewGraph N)) as (g1 & E1 & V1 & A1 & O1 & I1).
  { simpl. rewrite length_replicate.
    apply (Forall_fmap (λ c : call, c.1.1) (λ p, p < N)). rewrite Hsrc1.
    apply Forall_forall. intros p Hp%list_elem_of_In%in_seq. lia. }
  simpl in V1, A1. rewrite length_replicate in A1.
  destruct (buildCycles_calls starts sizes (seq 0 (V g)) (NewGraph N)
              (replicate N 0) g1 E1) as [o1 Ecyc].
  set (calls2 := realCalls starts (replicate (V g) 0) (edgeList g)).
  destruct (real_endpoints g deg starts (λ w Hw, proj1 (Hl w Hw))
              (edgeList g) (replicate (V g) 0) Hall (length_replicate _ _))
    as [HN2 HF2].
  { intros w Hw. rewrite lookup_total_replicate_2 by done.
    rewrite (edgeList_src g w Hw). specialize (Hdeg w Hw).
    rewrite lookup_total_replicate_2 in Hdeg by done.
    unfold sz. simpl. case_decide; lia. }
  fold calls2 in HN2, HF2.
  destruct (addCalls_degrees calls2 g1) as (g2 & E2 & V2 & A2 & O2 & I2).
  { rewrite A1. apply (endpoints_sources (λ p, p < N)).
    eapply Forall_impl; [exact HF2|].
    intros p (w & j & Hw & -> & Hj). pose proof (base_mono g deg w (V g) Hw).
    unfold N. lia. }
  destruct (realStep_calls starts (edgeList g) (replicate (V g) 0) g1 g2 E2)
    as [slots' Ereal].
  exists {| G := g2; OriginalTo := starts; NewToOrigin := o1 |}.
  split.
  { unfold ToConstantDegree, inDegrees, layout. rewrite Edeg, El.
    cbv beta iota. unfold buildCycles. fold N. rewrite Ecyc, Ereal. done. }
  simpl. split; [congruence|].
  assert (∀ x, length (filter (λ c : call, c.1.1 = x) calls1)
               = length (filter (λ y, y = x) (seq 0 N))) as Hsrc.
  { intros x.
    pose proof (filter_fmap_length (λ c : call, c.1.1) (λ y, y = x) calls1) as E.
    rewrite Hsrc1 in E. symmetry. exact E. }
  assert (∀ x, length (filter (λ c : call, c.1.2 = x) calls1)
               = length (filter (λ y, y = x) ((λ c : call, c.1.2) <$> calls1)))
    as Htgt.
  { intros x.
    pose proof (filter_fmap_length (λ c : call, c.1.2) (λ y, y = x) calls1) as E.
    symmetry. exact E. }
  split; [|intros x Hx; rewrite O2, O1, I2, I1, Hsrc, Htgt;
           assert (x ∈ seq 0 N) as Hin
             by (apply list_elem_of_In, in_seq; simpl in *; lia);
           pose proof (count_in _ x Hin);
           rewrite <-Htgt1 in Hin; pose proof (count_in _ x Hin); lia].
  intros x.
  destruct (NewGraph_degrees N x) as [HO0 HI0].
  assert (length (filter (λ c : call, c.1.1 = x) calls1) ≤ 1) as Hc1.
  { pose proof (filter_fmap_length (λ c : call, c.1.1) (λ y, y = x) calls1) as E.
    rewrite Hsrc1 in E.
    etrans; [apply Nat.eq_le_incl; symmetry; exact E|].
    apply count_NoDup, NoDup_seq. }
  assert (length (filter (λ c : call, c.1.2 = x) calls1) ≤ 1) as Hc2.
  { pose proof (filter_fmap_length (λ c : call, c.1.2) (λ y, y = x) calls1) as E.
    etrans; [apply Nat.eq_le_incl; symmetry; exact E|].
    apply count_NoDup. rewrite Htgt1. apply NoDup_seq. }
  pose proof (endpoints_count x calls2) as Hc3.
  pose proof (count_NoDup _ x HN2) as Hc4.
  rewrite O2, O1, I2, I1, HO0, HI0. lia.
Qed.

End transform.

Module divergence.
Import graph ds sssp examples.

(** On the zero-weight self-loop the loop of [BaseCase] comes back to the
    state it started from. *)
Lemma baseLoop_loopGraph_step fuel :
  baseLoop loopGraph (S fuel) Infinity 3 [0%Z] [0] [{| u := 0; priority := 0 |}]
  = baseLoop loopGraph fuel Infinity 3 [0%Z] [0] [{| u := 0; priority := 0 |}].
Proof. reflexivity. Qed.

Lemma baseLoop_loopGraph fuel :
  baseLoop loopGraph fuel Infinity 3 [0%Z] [0] [{| u := 0; priority := 0 |}]
  = ([0%Z], OutOfFuel).
Proof.
  induction fuel as [|fuel IH]; [done|].
  by rewrite baseLoop_loopGraph_step.
Qed.

Lemma BaseCase_loopGraph fuel :
  BaseCase loopGraph 2 fuel Infinity [0] [0%Z] = ([0%Z], OutOfFuel).
Proof.
  unfold BaseCase.
  change (foldl _ _ [0]) with ([0], [{| u := 0; priority := 0%Z |}]).
  cbv beta iota zeta. change (2 + 1) with 3. by rewrite baseLoop_loopGraph.
Qed.

Lemma Run_loopGraph numWorkers relaxEdgesParallel bigInt fuel dist :
  length dist = 1 →
  Run loopGraph 2 2 numWorkers relaxEdgesParallel bigInt fuel 0 0 dist
  = ([0%Z], OutOfFuel).
Proof.
  intros Hlen. unfold Run. rewrite Hlen.
  change (replicate 1 Infinity) with [Infinity].
  change (BMSSP loopGraph 2 2 numWorkers relaxEdgesParallel bigInt fuel 0 Infinity
            [0] (<[0:=0%Z]> [Infinity]))
    with (BaseCase loopGraph 2 fuel Infinity [0] [0%Z]).
  rewrite decide_True by (simpl; lia).
  by rewrite BaseCase_loopGraph.
Qed.

End divergence.

Module relax_inv.
Import graph ds sssp notions paths.

(** A property of the distance vector that every relaxation write keeps is
    kept by every method of the solver. *)
Section kept.
Variable G : Graph.
Variables K T : nat.
Variable P : list Z → Prop.
Hypothesis Hwrite : ∀ d x e,
  P d → e ∈ Adj G !!! x → P (<[To e := fadd (d !!! x) (Weight e)]> d).

Lemma foldl_edges_kept {S} (proj : S → list Z) (f : S → Edge → S) x :
  (∀ s e, e ∈ Adj G !!! x → P (proj s) → P (proj (f s e))) →
  ∀ edges s, edges ⊆ Adj G !!! x → P (proj s) → P (proj (foldl f s edges)).
Proof.
  intros Hf edges. induction edges as [|e edges IH]; intros s Hsub Hs; simpl; [done|].
  apply IH.
  - intros y Hy. apply Hsub. by right.
  - apply Hf; [|done]. apply Hsub. by left.
Qed.

Lemma foldl_kept {A S} (proj : S → list Z) (f : S → A → S) :
  (∀ s a, P (proj s) → P (proj (f s a))) →
  ∀ l s, P (proj s) → P (proj (foldl f s l)).
Proof.
  intros Hf l. induction l as [|a l IH]; intros s Hs; simpl; [done|].
  by apply IH, Hf.
Qed.

Lemma foldM_kept {A S} (proj : S → list Z) (f : S → A → option S) :
  (∀ s a s', f s a = Some s' → P (proj s) → P (proj s')) →
  ∀ l s s', foldM f s l = Some s' → P (proj s) → P (proj s').
Proof.
  intros Hf l. induction l as [|a l IH]; intros s s'; simpl.
  - by intros [= ->].
  - destruct (f s a) as [s1|] eqn:E; [|done]. intros H Hs.
    eapply IH; [done|]. by eapply Hf.
Qed.

Lemma foldM_edges_kept {S} (proj : S → list Z) (f : S → Edge → option S) x :
  (∀ s e s', e ∈ Adj G !!! x → f s e = Some s' → P (proj s) → P (proj s')) →
  ∀ edges s s', edges ⊆ Adj G !!! x →
    foldM f s edges = Some s' → P (proj s) → P (proj s').
Proof.
  intros Hf edges. induction edges as [|e edges IH]; intros s s' Hsub; simpl.
  - by intros [= ->].
  - destruct (f s e) as [s1|] eqn:E; [|done]. intros H Hs.
    eapply IH; [|done|].
    + intros y Hy. apply Hsub. by right.
    + eapply Hf; [|done..]. apply Hsub. by left.
Qed.

Lemma baseRelax_kept B x st e :
  e ∈ Adj G !!! x → P st.1 → P (baseRelax B x st e).1.
Proof.
  destruct st as [dist pq]. simpl. intros He Hd. unfold baseRelax.
  case_decide; simpl; [by apply Hwrite|done].
Qed.

Lemma baseLoop_kept fuel B limit : ∀ dist U0 pq,
  P dist → P (baseLoop G fuel B limit dist U0 pq).1.
Proof.
  induction fuel as [|fuel IH]; intros dist U0 pq Hd; simpl; [done|].
  case_decide; [|done].
  destruct (heapPop pq) as [[item pq']|]; [|done].
  case_decide; [by apply IH|].
  pose proof (foldl_edges_kept fst (baseRelax B (u item)) (u item)
                (λ s e, baseRelax_kept B (u item) s e)
                (Adj G !!! u item) (dist, pq') (λ y Hy, Hy) Hd) as Hf.
  destruct (foldl _ _ _) as [dist1 pq1]. by apply IH.
Qed.

Lemma BaseCase_kept fuel B S dist :
  P dist → P (BaseCase G K fuel B S dist).1.
Proof.
  intros Hd. unfold BaseCase. destruct (foldl _ _ S) as [U0 pq].
  pose proof (baseLoop_kept fuel B (K + 1) dist U0 pq Hd) as H.
  destruct (baseLoop _ _ _ _ _ _ _) as [dist1 [U1| |]]; simpl in *; try done.
  by case_decide.
Qed.

Lemma kRelax_kept B x st e :
  e ∈ Adj G !!! x → P st.1.1.1 → P (kRelax B x st e).1.1.1.
Proof.
  destruct st as [[[dist inW] W_list] Wi]. simpl. intros He Hd. unfold kRelax.
  case_decide; simpl; [|done]. destruct (_ && _); simpl; by apply Hwrite.
Qed.

Lemma kRound_kept B Wi_prev st :
  P st.1.1 → P (kRound G B Wi_prev st).1.1.1.
Proof.
  intros Hd. unfold kRound.
  apply (foldl_kept (λ s, s.1.1.1)
           (λ st x, foldl (kRelax B x) st (Adj G !!! x))); [|done].
  intros s x Hs.
  apply (foldl_edges_kept (λ s, s.1.1.1) (kRelax B x) x); [|done|done].
  intros. by apply kRelax_kept.
Qed.

Lemma kRounds_kept rounds B nS : ∀ Wi_prev st,
  P st.1.1 → P (kRounds G K rounds B nS Wi_prev st).1.1.
Proof.
  induction rounds as [|r IH]; intros Wi_prev st Hd; simpl; [done|].
  pose proof (kRound_kept B Wi_prev st Hd) as H.
  destruct (kRound G B Wi_prev st) as [[[dist inW] W_list] Wi]. simpl in H.
  case_decide; simpl; [done|]. by apply IH.
Qed.

Lemma FindPivots_kept B S dist :
  P dist → P (FindPivots G K B S dist).1.
Proof.
  intros Hd. unfold FindPivots, relaxKSteps.
  match goal with |- context [kRounds G K K B ?n S ?st] =>
    pose proof (kRounds_kept K B n S st Hd) as H;
    destruct (kRounds G K K B n S st) as [[dist1 inW1] W1]
  end.
  simpl in H. case_decide; simpl; [done|].
  by destruct (computePivots _ _ _ _ _) as [[? ?]|].
Qed.

Lemma seqRelax_kept Bi Bi_prime B x st e st' :
  e ∈ Adj G !!! x →
  seqRelax Bi Bi_prime B x st e = Some st' → P st.1.1 → P st'.1.1.
Proof.
  destruct st as [[dist D] Kb]. simpl. intros He. unfold seqRelax. case_decide.
  - case_decide.
    + destruct (Insert _ _ _); intros [= <-] Hd; simpl. by apply Hwrite.
    + case_decide; intros [= <-] Hd; simpl; by apply Hwrite.
  - by intros [= <-].
Qed.

Variable numWorkers : nat.
Variable relaxEdgesParallel :
  list nat → Z → Z → Z → DataStructure → DistMap →
  option (DistMap * DataStructure * list Item).
Variable bigInt : nat → Z.
Hypothesis Hone : numWorkers = 1.

Lemma relaxEdges_kept Ui Bi Bi_prime B D dist st' :
  relaxEdges G numWorkers relaxEdgesParallel Ui Bi Bi_prime B D dist = Some st' → P dist → P st'.1.1.
Proof.
  unfold relaxEdges, relaxEdgesSequential. destruct Ui as [|x Ui].
  - by intros [= <-].
  - rewrite decide_True by (by right).
    apply (foldM_kept (λ s, s.1.1)
             (λ st x, foldM (seqRelax Bi Bi_prime B x) st (Adj G !!! x))).
    intros s a s'.
    apply (foldM_edges_kept (λ s, s.1.1) (seqRelax Bi Bi_prime B a) a); [|done].
    intros ? ? ? ?. by apply seqRelax_kept.
Qed.

Lemma mainLoop_kept fuel rec limit B W :
  (∀ Bi Si d, P d → P (rec Bi Si d).1) →
  ∀ U D dist, P dist → P (mainLoop G numWorkers relaxEdgesParallel fuel rec limit B W U D dist).1.
Proof.
  intros Hrec. induction fuel as [|fuel IH]; intros U D dist Hd; simpl; [done|].
  case_decide; [|done].
  destruct (pullAndExtract D) as [D1 [Si Bi]].
  pose proof (Hrec Bi Si dist Hd) as H1.
  destruct (rec Bi Si dist) as [dist1 [[Bi_prime Ui]| |]]; simpl in H1; try done.
  destruct (relaxEdges G numWorkers relaxEdgesParallel Ui Bi Bi_prime B D1 dist1) as [[[dist2 D2] Kb]|] eqn:E;
    [|done].
  apply relaxEdges_kept in E; [|done]. simpl in E.
  destruct (batchPrepend D2 Kb Si Bi_prime Bi dist2) as [D3|]; [|done].
  case_decide; [done|]. by apply IH.
Qed.

Lemma BMSSP_kept fuel l : ∀ B S dist,
  P dist → P (BMSSP G K T numWorkers relaxEdgesParallel bigInt fuel l B S dist).1.
Proof.
  induction l as [|l IH]; intros B S dist Hd; [by apply BaseCase_kept|].
  cbn [BMSSP].
  pose proof (FindPivots_kept B S dist Hd) as H1.
  destruct (FindPivots G K B S dist) as [dist1 [[Pv W]| |]]; simpl in H1; try done.
  destruct Pv as [|p Pv]; [done|].
  destruct (initializeDataStructure _ _ _ _) as [D|]; [|done].
  unfold processMainLoop.
  match goal with |- context [mainLoop G numWorkers relaxEdgesParallel fuel ?r ?lim B W [] D dist1] =>
    pose proof (mainLoop_kept fuel r lim B W IH [] D dist1 H1) as H2;
    destruct (mainLoop G numWorkers relaxEdgesParallel fuel r lim B W [] D dist1) as [dist2 [[U ob]| |]]
  end; done.
Qed.

End kept.

(** *** Distances stay between 0 and +inf *)

Lemma BMSSP_nonneg G K T numWorkers relaxEdgesParallel bigInt fuel l B S dist :
  numWorkers = 1 →
  nonneg_weights G → nonneg dist →
  nonneg (BMSSP G K T numWorkers relaxEdgesParallel bigInt fuel l B S dist).1.
Proof.
  intros Hone Hw. apply BMSSP_kept; [|done]. intros d x e Hd He.
  apply base_case.nonneg_write; [done|].
  apply base_case.fadd_nonneg; [by apply base_case.nonneg_lookup|].
  pose proof (base_case.nonneg_weights_at G x Hw) as HF.
  by eapply (proj1 (Forall_forall _ _) HF).
Qed.

(** *** Distances are weights of walks *)

Lemma realised_write G s (d : list Z) x e :
  length (Adj G) = length d → nonneg_weights G →
  realised G s d → e ∈ Adj G !!! x →
  realised G s (<[To e := fadd (d !!! x) (Weight e)]> d).
Proof.
  intros Hlen Hw Hr He v Hv. rewrite length_insert in Hv.
  destruct (decide (v = To e)) as [->|Hne].
  2:{ rewrite list_lookup_total_insert_ne by done. by apply Hr. }
  rewrite list_lookup_total_insert_eq by done.
  assert (x < length d) as Hx.
  { rewrite <-Hlen. apply lookup_lt_is_Some.
    destruct (Adj G !! x) as [es|] eqn:E; [eauto|].
    rewrite list_lookup_total_alt, E in He. simpl in He. by apply elem_of_nil in He. }
  assert (0 ≤ Weight e)%Z as Hwe.
  { pose proof (base_case.nonneg_weights_at G x Hw) as HF.
    by eapply (proj1 (Forall_forall _ _) HF). }
  destruct (Hr x Hx) as [Hinf|Hp].
  - left. rewrite Hinf. unfold fadd. lia.
  - right. by econstructor.
Qed.

Lemma summed_bounded (g : Graph) s d0 x d :
  (d0 ≤ Infinity)%Z → summed g s d0 x d → (d ≤ Infinity)%Z.
Proof. intros H0. induction 1; [done|]. unfold fadd. lia. Qed.

End relax_inv.

Module heap_props.
Import graph ds sssp notions.

(** *** The heap keeps its items *)

Lemma Swap_length (h : list PQItem) i j : length (Swap h i j) = length h.
Proof. unfold Swap. by rewrite !length_insert. Qed.

Lemma Swap_Forall (Q : PQItem → Prop) (h : list PQItem) i j :
  i < length h → j < length h → Forall Q h → Forall Q (Swap h i j).
Proof.
  intros Hi Hj HQ. unfold Swap.
  apply Forall_insert; [apply Forall_insert; [done|]|].
  - by apply Forall_lookup_total_1.
  - by apply Forall_lookup_total_1.
Qed.

Lemma up_spec (Q : PQItem → Prop) fuel : ∀ (h : list PQItem) j,
  j < length h → Forall Q h →
  length (up fuel h j) = length h ∧ Forall Q (up fuel h j).
Proof.
  induction fuel as [|fuel IH]; intros h j Hj HQ; cbn [up]; [done|].
  assert ((j - 1) / 2 ≤ j) as Hle.
  { apply Nat.Div0.div_le_upper_bound. lia. }
  generalize dependent ((j - 1) / 2). intros i Hle.
  case_decide; [done|]. destruct (Less h j i); [|done].
  destruct (IH (Swap h i j) i) as [H1 H2].
  - rewrite Swap_length. lia.
  - apply Swap_Forall; [lia|done|done].
  - by rewrite H1, Swap_length.
Qed.

Lemma down_spec (Q : PQItem → Prop) fuel : ∀ (h : list PQItem) i n,
  n ≤ length h → Forall Q h →
  length (down fuel h i n) = length h ∧ Forall Q (down fuel h i n).
Proof.
  induction fuel as [|fuel IH]; intros h i n Hn HQ; cbn [down]; [done|].
  case_decide as Hj1; [done|].
  set (j := if decide (2 * i + 1 + 1 < n) then _ else _).
  assert (i < j < n) as Hj.
  { subst j. case_decide; [destruct (Less h _ _)|]; lia. }
  clearbody j. destruct (Less h j i); [|done].
  destruct (IH (Swap h i j) j n) as [H1 H2].
  - by rewrite Swap_length.
  - apply Swap_Forall; [lia|lia|done].
  - by rewrite H1, Swap_length.
Qed.

Lemma heapPush_spec (Q : PQItem → Prop) (h : list PQItem) x :
  Forall Q h → Q x →
  length (heapPush h x) = S (length h) ∧ Forall Q (heapPush h x).
Proof.
  intros HQ Hx. unfold heapPush.
  destruct (up_spec Q (length (h ++ [x])) (h ++ [x]) (length (h ++ [x]) - 1))
    as [H1 H2].
  - rewrite length_app. simpl. lia.
  - apply Forall_app. split; [done|by constructor].
  - split; [|done]. rewrite H1, length_app. simpl. lia.
Qed.

Lemma heapPop_spec (Q : PQItem → Prop) (h : list PQItem) :
  0 < length h → Forall Q h →
  ∃ item h', heapPop h = Some (item, h') ∧ Q item ∧ Forall Q h'
             ∧ length h' = length h - 1.
Proof.
  intros Hlen HQ. unfold heapPop.
  destruct (down_spec Q (length h) (Swap h 0 (length h - 1)) 0 (length h - 1))
    as [H1 H2].
  - rewrite Swap_length. lia.
  - apply Swap_Forall; [lia|lia|done].
  - rewrite Swap_length in H1.
    set (h1 := down _ _ _ _) in *.
    destruct (last h1) as [item|] eqn:E.
    + exists item, (take (length h - 1) h1). split; [done|].
      apply last_Some in E as [h0 E]. rewrite E in H2.
      apply Forall_app in H2 as [H2 H3]. inversion H3; subst.
      split_and!; [done| |].
      * rewrite E. rewrite take_app_le by (rewrite E, length_app in H1; simpl in H1; lia).
        by apply Forall_take.
      * rewrite length_take. lia.
    + apply last_None in E. rewrite E in H1. simpl in H1. lia.
Qed.

End heap_props.

Module base_bound.
Import graph ds sssp notions solver_notions.

Lemma below_mono B d d' U : dist_le d' d → below B d U → below B d' U.
Proof.
  intros [HL H] HU. eapply Forall_impl; [exact HU|].
  intros x Hd. specialize (H x). simpl in *. lia.
Qed.

Lemma queued_mono B d d' pq :
  dist_le d' d → Forall (queued B d) pq → Forall (queued B d') pq.
Proof.
  intros [_ H] HQ. eapply Forall_impl; [exact HQ|].
  intros it [H1 H2]. specialize (H (u it)). split; lia.
Qed.

Section with_solver.
Variable G : Graph.
Variable K : nat.
Variable B : Z.
Hypothesis Hwf : wf G.

Lemma baseRelax_bound x st e :
  e ∈ Adj G !!! x → length st.1 = V G → Forall (queued B st.1) st.2 →
  length (baseRelax B x st e).1 = V G
  ∧ Forall (queued B (baseRelax B x st e).1) (baseRelax B x st e).2.
Proof.
  destruct st as [dist pq]. simpl. intros He Hlen HQ. unfold baseRelax.
  case_decide as Hg; simpl; [|done].
  assert (To e < V G) as Hv.
  { pose proof (pivots.wf_targets G Hwf x) as HF.
    by eapply (proj1 (Forall_forall _ _) HF). }
  split; [by rewrite length_insert|].
  rewrite list_lookup_total_insert_eq by lia.
  apply heap_props.heapPush_spec.
  - eapply queued_mono; [|done]. apply mono.dist_le_write. tauto.
  - split; simpl; [|tauto]. rewrite list_lookup_total_insert_eq by lia. lia.
Qed.

Lemma baseRelax_fold_bound x edges : ∀ st,
  edges ⊆ Adj G !!! x → length st.1 = V G → Forall (queued B st.1) st.2 →
  length (foldl (baseRelax B x) st edges).1 = V G
  ∧ Forall (queued B (foldl (baseRelax B x) st edges).1)
           (foldl (baseRelax B x) st edges).2.
Proof.
  induction edges as [|e edges IH]; intros st Hsub Hlen HQ; simpl; [done|].
  destruct (baseRelax_bound x st e) as [H1 H2]; [apply Hsub; by left|done..|].
  apply IH; [|done..]. intros y Hy. apply Hsub. by right.
Qed.

Lemma baseLoop_bound fuel limit : ∀ dist U0 pq dist' U0',
  baseLoop G fuel B limit dist U0 pq = (dist', Done U0') →
  length dist = V G → below B dist U0 → Forall (queued B dist) pq →
  below B dist' U0'.
Proof.
  induction fuel as [|fuel IH]; intros dist U0 pq dist' U0'; simpl; [done|].
  case_decide as Hc; [|by intros [= <- <-]].
  intros Hloop Hlen HU HQ.
  destruct (heap_props.heapPop_spec (queued B dist) pq)
    as (item & pq' & Epop & [Hi1 Hi2] & HQ' & _); [lia|done|].
  rewrite Epop in Hloop.
  case_decide as Hstale; [by eapply IH|].
  pose proof (mono.foldl_dist_le fst (baseRelax B (u item))
                (λ s a, mono.baseRelax_le B (u item) s a)
                (Adj G !!! u item) (dist, pq')) as Hle.
  destruct (baseRelax_fold_bound (u item) (Adj G !!! u item) (dist, pq'))
    as [H1 H2]; [done..|].
  destruct (foldl _ _ _) as [dist1 pq1]. simpl in *.
  eapply IH; [done|done| |done].
  eapply below_mono; [done|].
  unfold setAdd. case_decide; [done|].
  apply Forall_app. split; [done|]. constructor; [|constructor]. lia.
Qed.

Lemma BaseCase_bound fuel S dist dist' B' U :
  nonneg_weights G → nonneg dist → length dist = V G → below B dist S →
  BaseCase G K fuel B S dist = (dist', Done (B', U)) →
  (B' ≤ B)%Z ∧ below B' dist' U.
Proof.
  intros Hw Hd Hlen HS. unfold BaseCase.
  assert (∀ S0 U pq, below B dist S0 → below B dist U → Forall (queued B dist) pq →
            let st := foldl (λ st x, (setAdd st.1 x,
                               heapPush st.2 {| u := x; priority := dist !!! x |}))
                            (U, pq) S0 in
            below B dist st.1 ∧ Forall (queued B dist) st.2) as Hseed.
  { clear. induction S0 as [|x S0 IH]; intros U pq HS HU HQ; simpl; [done|].
    inversion HS; subst. apply IH; [done| |].
    - unfold setAdd. case_decide; [done|]. apply Forall_app. split; [done|].
      by constructor.
    - apply heap_props.heapPush_spec; [done|]. split; simpl; [lia|done]. }
  specialize (Hseed S [] [] HS (Forall_nil_2 _) (Forall_nil_2 _)).
  pose proof (base_case.seed_spec
                (λ q x, heapPush q {| u := x; priority := dist !!! x |})
                S [] [] (NoDup_nil_2)) as HN.
  destruct (foldl _ _ S) as [U0 pq]. simpl in Hseed, HN.
  destruct Hseed as [HU0 HQ0]. destruct HN as (HN & _ & _).
  destruct (baseLoop G fuel B (K + 1) dist U0 pq) as [dist1 [U1| |]] eqn:E; try done.
  pose proof (baseLoop_bound _ _ _ _ _ _ _ E Hlen HU0 HQ0) as HU1.
  destruct (base_case.baseLoop_spec _ _ _ _ _ _ _ _ _ E HN) as (_ & _ & _ & H4).
  specialize (H4 Hw Hd).
  case_decide as Hk; intros [= <- <- <-].
  - split; [lia|done].
  - destruct (base_case.maxDist_spec dist1 U1 H4) as [(x & Hx & Hmax) _].
    { intros ->. simpl in Hk. lia. }
    split.
    + rewrite <-Hmax.
      pose proof (proj1 (Forall_forall _ _) HU1 x Hx). simpl in *. lia.
    + apply Forall_forall. intros y Hy. by apply list_elem_of_filter in Hy as [? _].
Qed.

End with_solver.
End base_bound.

Module witness_set.
Import graph ds sssp notions solver_notions.

Lemma mark_sources S : ∀ (inW : list bool),
  length (foldl (λ inW x, <[x := true]> inW) inW S) = length inW
  ∧ ∀ v, v < length inW →
      (foldl (λ inW x, <[x := true]> inW) inW S !!! v = true
       ↔ inW !!! v = true ∨ v ∈ S).
Proof.
  induction S as [|x S IH]; intros inW; simpl.
  - split; [done|]. intros v _. rewrite elem_of_nil. tauto.
  - destruct (IH (<[x := true]> inW)) as [H1 H2].
    rewrite length_insert in H1, H2. split; [done|].
    intros v Hv. rewrite (H2 v Hv), elem_of_cons.
    destruct (decide (v = x)) as [->|Hne].
    + rewrite list_lookup_total_insert_eq by done. tauto.
    + rewrite list_lookup_total_insert_ne by done. tauto.
Qed.

Section with_solver.
Variable G : Graph.
Variable K : nat.
Variable B : Z.
Hypothesis Hwf : wf G.

Lemma kRelax_inv x st e :
  e ∈ Adj G !!! x → rounds_inv G B st.1 → rounds_inv G B (kRelax B x st e).1.
Proof.
  destruct st as [[[dist inW] W] Wi]. simpl.
  intros He (HL1 & HL2 & (HN & HR & Hm) & Hb). simpl in *.
  assert (To e < V G) as Hv.
  { pose proof (pivots.wf_targets G Hwf x) as HF.
    by eapply (proj1 (Forall_forall _ _) HF). }
  unfold kRelax. case_decide as Hg; simpl; [|done].
  assert (dist_le (<[To e := fadd (dist !!! x) (Weight e)]> dist) dist) as Hle
    by (apply mono.dist_le_write; lia).
  destruct (bool_decide _ && negb _) eqn:Hadd; simpl.
  - apply andb_true_iff in Hadd as [HB Hin].
    apply bool_decide_eq_true in HB. apply negb_true_iff in Hin.
    assert (To e ∉ W) as Hnin.
    { intros Hin'. apply Hm in Hin'; [|lia]. congruence. }
    unfold rounds_inv, marks, below. simpl.
    rewrite !length_insert. split_and!; [done|done| | | |].
    + apply NoDup_app. split_and!; [done| |apply NoDup_singleton].
      intros y Hy ->%list_elem_of_singleton. done.
    + apply Forall_app. split; [done|]. constructor; [lia|constructor].
    + intros v Hv'. rewrite elem_of_app, list_elem_of_singleton.
      destruct (decide (v = To e)) as [->|Hne].
      * rewrite list_lookup_total_insert_eq by lia. tauto.
      * rewrite list_lookup_total_insert_ne by done. rewrite (Hm v Hv'). tauto.
    + apply Forall_app. split; [by eapply base_bound.below_mono|].
      constructor; [|constructor]. by rewrite list_lookup_total_insert_eq by lia.
  - unfold rounds_inv. simpl. rewrite length_insert.
    split_and!; [done|done|done|by eapply base_bound.below_mono].
Qed.

Lemma kRound_inv Wi_prev st :
  rounds_inv G B st → rounds_inv G B (kRound G B Wi_prev st).1.
Proof.
  intros Hst. unfold kRound.
  assert (∀ xs s, rounds_inv G B s.1 →
            rounds_inv G B (foldl (λ st x, foldl (kRelax B x) st (Adj G !!! x))
                                  s xs).1) as Houter; [|by apply Houter].
  induction xs as [|x xs IH]; intros s Hs; simpl; [done|]. apply IH.
  assert (∀ edges s, edges ⊆ Adj G !!! x → rounds_inv G B s.1 →
            rounds_inv G B (foldl (kRelax B x) s edges).1) as Hinner;
    [|by apply Hinner].
  induction edges as [|e edges IHe]; intros s0 Hsub Hs0; simpl; [done|].
  apply IHe; [intros y Hy; apply Hsub; by right|].
  apply kRelax_inv; [apply Hsub; by left|done].
Qed.

Lemma kRounds_inv rounds nS : ∀ Wi_prev st,
  rounds_inv G B st → rounds_inv G B (kRounds G K rounds B nS Wi_prev st).
Proof.
  induction rounds as [|r IH]; intros Wi_prev st Hst; simpl; [done|].
  pose proof (kRound_inv Wi_prev st Hst) as H.
  destruct (kRound G B Wi_prev st) as [[[dist inW] W_list] Wi]. simpl in H.
  case_decide; [done|]. by apply IH.
Qed.

Lemma FindPivots_witnesses S dist :
  length dist = V G → NoDup S → Forall (λ s, s < V G) S → below B dist S →
  ∃ dist' P W,
    FindPivots G K B S dist = (dist', Done (P, W))
    ∧ length dist' = V G
    ∧ NoDup W ∧ Forall (λ w, w < V G) W ∧ below B dist' W
    ∧ NoDup P.
Proof.
  intros Hlen HN HS Hb. unfold FindPivots, relaxKSteps.
  set (inW0 := foldl _ _ S).
  destruct (mark_sources S (replicate (V G) false)) as [HL0 Hm0].
  fold inW0 in HL0, Hm0. rewrite length_replicate in HL0, Hm0.
  pose proof (kRounds_inv K (length S) S (dist, inW0, S)) as Hinv.
  destruct (kRounds G K K B (length S) S (dist, inW0, S)) as [[dist' inW] W].
  destruct Hinv as (HL1 & HL2 & (HNW & HRW & _) & HbW).
  { unfold rounds_inv, marks. simpl. split_and!; [done|done|done| | |done].
    - by rewrite HL0.
    - rewrite HL0. intros v Hv. rewrite (Hm0 v Hv).
      rewrite lookup_total_replicate_2 by done.
      split; [by intros [?|?]|by right]. }
  simpl in *. rewrite HL2 in HRW.
  case_decide.
  - exists dist', S, W. done.
  - destruct (pivots.computePivots_total G K dist' inW Hwf S HS)
      as (memo & P & -> & _ & HP).
    exists dist', P, W. split_and!; [done..|].
    by apply (sublist_NoDup P S).
Qed.

End with_solver.
End witness_set.

Module no_panic.
Import graph ds sssp notions solver_notions.

Lemma Pull_M D : M (Pull D).1 = M D.
Proof.
  unfold Pull.
  destruct (foldl (pullD0Step (M D)) _ _) as [a0 cc0].
  destruct (if decide (length cc0.1 < M D) then _ else _) as [a1 [coll cnt]].
  by destruct (if decide (0 < cnt) then _ else _) as [a2 Bi].
Qed.

Lemma pullAndExtract_M D : M (pullAndExtract D).1 = M D.
Proof.
  unfold pullAndExtract. pose proof (Pull_M D) as H.
  by destruct (Pull D) as [D' [its Bi]].
Qed.

Lemma initializeDataStructure_Some T bigInt l P (dist : list Z) :
  ∃ D, initializeDataStructure T bigInt l P dist = Some D
       ∧ 1 ≤ M D ∧ Count D = length P.
Proof.
  unfold initializeDataStructure.
  set (m := Z.to_nat (if decide (powInt bigInt ((l - 1) * T) < 1)%Z then 1%Z
                      else powInt bigInt ((l - 1) * T))).
  assert (1 ≤ m) as Hm by (subst m; case_decide; lia).
  assert (∀ P D, 1 ≤ M D →
            ∃ D', foldM (λ D x, Insert D x (dist !!! x)) D P = Some D'
                  ∧ 1 ≤ M D' ∧ Count D' = Count D + length P) as Hloop.
  { clear. induction P as [|x P IH]; intros D HM; simpl.
    - exists D. split_and!; [done|done|lia].
    - destruct (ds_props.Insert_Some D x (dist !!! x) HM) as (D1 & -> & HC & HM1).
      destruct (IH D1) as (D2 & -> & HM2 & HC2); [lia|].
      exists D2. split_and!; [done|done|lia]. }
  destruct (Hloop P (NewDataStructure m) Hm) as (D & E & HM & HC).
  exists D. split_and!; [done|done|]. by rewrite HC.
Qed.

Section with_solver.
Variable G : Graph.
Variables K T : nat.

Lemma seqRelax_Some Bi Bi_prime B x st e :
  1 ≤ M st.1.2 →
  ∃ st', seqRelax Bi Bi_prime B x st e = Some st' ∧ 1 ≤ M st'.1.2.
Proof.
  destruct st as [[dist D] Kb]. simpl. intros HM. unfold seqRelax.
  case_decide; [|eauto]. case_decide.
  - destruct (ds_props.Insert_Some D (To e) (fadd (dist !!! x) (Weight e)) HM)
      as (D1 & -> & _ & HM1).
    eexists. split; [done|]. simpl. lia.
  - case_decide; eauto.
Qed.

Lemma baseLoop_no_panic fuel B limit : ∀ dist U0 pq,
  (baseLoop G fuel B limit dist U0 pq).2 ≠ Panic.
Proof.
  induction fuel as [|fuel IH]; intros dist U0 pq; simpl; [done|].
  case_decide as Hc; [|done].
  destruct (heap_props.heapPop_spec (λ _, True) pq) as (item & pq' & -> & _);
    [lia|by apply Forall_true|].
  case_decide; [apply IH|].
  destruct (foldl _ _ _) as [dist1 pq1]. apply IH.
Qed.

Lemma BaseCase_no_panic fuel B S dist :
  (BaseCase G K fuel B S dist).2 ≠ Panic.
Proof.
  unfold BaseCase. destruct (foldl _ _ S) as [U0 pq].
  pose proof (baseLoop_no_panic fuel B (K + 1) dist U0 pq) as H.
  destruct (baseLoop _ _ _ _ _ _ _) as [dist1 [U1| |]]; simpl in *; try done.
  by case_decide.
Qed.

Lemma FindPivots_no_panic B S dist :
  (FindPivots G K B S dist).2 ≠ Panic.
Proof.
  unfold FindPivots.
  destruct (relaxKSteps _ _ _ _ _ _ _) as [[dist1 inW] W].
  case_decide; [done|]. by destruct (computePivots _ _ _ _ _) as [[? ?]|].
Qed.

Variable numWorkers : nat.
Variable relaxEdgesParallel :
  list nat → Z → Z → Z → DataStructure → DistMap →
  option (DistMap * DataStructure * list Item).
Variable bigInt : nat → Z.
Hypothesis Hone : numWorkers = 1.

Lemma relaxEdges_Some Ui Bi Bi_prime B D dist :
  1 ≤ M D →
  ∃ st', relaxEdges G numWorkers relaxEdgesParallel Ui Bi Bi_prime B D dist = Some st' ∧ 1 ≤ M st'.1.2.
Proof.
  intros HM. unfold relaxEdges, relaxEdgesSequential.
  destruct Ui as [|x0 Ui0]; [eauto|].
  rewrite decide_True by (by right).
  generalize (x0 :: Ui0). intros Ui.
  assert (∀ Ui st, 1 ≤ M st.1.2 →
            ∃ st', foldM (λ st x, foldM (seqRelax Bi Bi_prime B x) st (Adj G !!! x))
                         st Ui = Some st' ∧ 1 ≤ M st'.1.2) as Houter;
    [|by apply (Houter Ui (dist, D, []))].
  clear. induction Ui as [|x Ui IH]; intros st HM; simpl; [eauto|].
  assert (∀ edges st, 1 ≤ M st.1.2 →
            ∃ st', foldM (seqRelax Bi Bi_prime B x) st edges = Some st'
                   ∧ 1 ≤ M st'.1.2) as Hinner.
  { clear. induction edges as [|e edges IH]; intros st HM; simpl; [eauto|].
    destruct (seqRelax_Some Bi Bi_prime B x st e HM) as (st1 & -> & HM1).
    by apply IH. }
  destruct (Hinner (Adj G !!! x) st HM) as (st1 & -> & HM1). by apply IH.
Qed.

Lemma mainLoop_no_panic fuel rec limit B W :
  (∀ Bi Si d, (rec Bi Si d).2 ≠ Panic) →
  ∀ U D dist, 1 ≤ M D → (mainLoop G numWorkers relaxEdgesParallel fuel rec limit B W U D dist).2 ≠ Panic.
Proof.
  intros Hrec. induction fuel as [|fuel IH]; intros U D dist HM; simpl; [done|].
  case_decide; [|done].
  pose proof (pullAndExtract_M D) as HM1.
  destruct (pullAndExtract D) as [D1 [Si Bi]]. simpl in HM1.
  pose proof (Hrec Bi Si dist) as H1.
  destruct (rec Bi Si dist) as [dist1 [[Bi_prime Ui]| |]]; simpl in H1; try done.
  destruct (relaxEdges_Some Ui Bi Bi_prime B D1 dist1) as ([[dist2 D2] Kb] & -> & HM2);
    [lia|]. simpl in HM2.
  unfold batchPrepend.
  match goal with |- context [BatchPrepend D2 ?its] =>
    destruct (ds_props.BatchPrepend_Some D2 its HM2) as (D3 & -> & _ & HM3)
  end.
  case_decide; [done|]. apply IH. lia.
Qed.

Lemma BMSSP_no_panic fuel l : ∀ B S dist,
  (BMSSP G K T numWorkers relaxEdgesParallel bigInt fuel l B S dist).2 ≠ Panic.
Proof.
  induction l as [|l IH]; intros B S dist; [apply BaseCase_no_panic|].
  cbn [BMSSP].
  pose proof (FindPivots_no_panic B S dist) as H1.
  destruct (FindPivots G K B S dist) as [dist1 [[P W]| |]]; simpl in H1; try done.
  destruct P as [|p P]; [done|].
  destruct (initializeDataStructure_Some T bigInt (Datatypes.S l) (p :: P) dist1)
    as (D & -> & HM & _).
  unfold processMainLoop.
  match goal with |- context [mainLoop G numWorkers relaxEdgesParallel fuel ?r ?lim B W [] D dist1] =>
    pose proof (mainLoop_no_panic fuel r lim B W IH [] D dist1 HM) as H2;
    destruct (mainLoop G numWorkers relaxEdgesParallel fuel r lim B W [] D dist1) as [dist2 [[U ob]| |]]
  end; done.
Qed.

End with_solver.
End no_panic.

Module discovery.
Import graph ds sssp notions paths solver_notions.

Section with_solver.
Variable G : Graph.
Variable K : nat.
Variable B : Z.
Variable S : list nat.
Variable dist0 : list Z.
Hypothesis Hwf : wf G.
Hypothesis Hlen : length dist0 = V G.

(** One edge of a witness [x]. *)
Lemma kRelax_discovery x st e :
  e ∈ Adj G !!! x → x < V G → x ∈ st.1.2 → st.2 ⊆ st.1.2 →
  discovery_inv G B S dist0 st.1 →
  discovery_inv G B S dist0 (kRelax B x st e).1
  ∧ (kRelax B x st e).2 ⊆ (kRelax B x st e).1.2
  ∧ x ∈ (kRelax B x st e).1.2.
Proof.
  destruct st as [[[dist inW] W] Wi]. cbn [fst snd].
  intros He Hx HxW HWi ((HL & Hle) & HLw & Hm & Hw & Hsum). cbn [fst snd] in *.
  assert (To e < V G) as Hv.
  { pose proof (pivots.wf_targets G Hwf x) as HF.
    by eapply (proj1 (Forall_forall _ _) HF). }
  unfold kRelax. case_decide as Hg; cbn [fst snd]; [|by split_and!].
  set (nd := fadd (dist !!! x) (Weight e)) in *.
  set (dist' := <[To e := nd]> dist).
  assert (dist' !!! To e = nd) as Ev
    by (unfold dist'; by rewrite list_lookup_total_insert_eq by lia).
  assert (∀ y, y ≠ To e → dist' !!! y = dist !!! y) as Eo
    by (intros y Hy; unfold dist'; by rewrite list_lookup_total_insert_ne).
  assert (dist_le dist' dist0) as Hle'.
  { split; [unfold dist'; by rewrite length_insert|]. intros i.
    destruct (decide (i = To e)) as [->|Hne].
    - rewrite Ev. specialize (Hle (To e)). lia.
    - rewrite Eo by done. apply Hle. }
  assert (∀ v, v < length dist0 →
            dist' !!! v = dist0 !!! v
            ∨ ∃ s, s ∈ S ∧ summed G s (dist0 !!! s) v (dist' !!! v)) as Hsum'.
  { intros v Hv'. destruct (decide (v = To e)) as [->|Hne].
    - right. rewrite Ev. destruct (Hsum x ltac:(lia)) as [Ex|(s & Hs & Hp)].
      + exists x. split.
        * apply (Hw x ltac:(lia)) in HxW as [?|[? _]]; [done|lia].
        * unfold nd. rewrite Ex.
          apply (summed_edge G x (dist0 !!! x) x e (dist0 !!! x)); [constructor|done].
      + exists s. split; [done|].
        by apply (summed_edge G s (dist0 !!! s) x e (dist !!! x)).
    - rewrite Eo by done. by apply Hsum. }
  assert (dist' !!! To e < dist0 !!! To e)%Z as Hlow.
  { rewrite Ev. specialize (Hle (To e)). lia. }
  destruct (bool_decide _ && negb _) eqn:Hadd; cbn [fst snd].
  - apply andb_true_iff in Hadd as [HB Hin].
    apply bool_decide_eq_true in HB. apply negb_true_iff in Hin.
    split_and!.
    + split_and!; cbn [fst snd]; [done|by rewrite length_insert| | |done].
      * intros v Hv'. rewrite elem_of_app, list_elem_of_singleton.
        destruct (decide (v = To e)) as [->|Hne].
        -- rewrite list_lookup_total_insert_eq by lia. tauto.
        -- rewrite list_lookup_total_insert_ne by done. rewrite (Hm v Hv'). tauto.
      * intros v Hv'. rewrite elem_of_app, list_elem_of_singleton.
        destruct (decide (v = To e)) as [->|Hne].
        -- split; [intros _; right; split; [done|by rewrite Ev]|by right].
        -- rewrite (Eo v Hne), (Hw v Hv'). tauto.
    + intros y [Hy| ->%list_elem_of_singleton]%elem_of_app; apply elem_of_app;
        [left; by apply HWi|right; by apply list_elem_of_singleton].
    + apply elem_of_app. by left.
  - split_and!; [|done|done].
    split_and!; cbn [fst snd]; [done|done|done| |done].
    intros v Hv'. destruct (decide (v = To e)) as [->|Hne].
    + apply andb_false_iff in Hadd as [HB|Hin].
      * apply bool_decide_eq_false in HB. fold nd in HB.
        rewrite (Hw (To e) Hv'). rewrite Ev.
        split; (intros [?|[? ?]]; [by left|lia]).
      * apply negb_false_iff in Hin. apply (Hm (To e) Hv') in Hin.
        split; [intros _|done].
        apply (Hw (To e) Hv') in Hin as [?|[_ Hb]]; [by left|right].
        split; [done|]. rewrite Ev. fold nd in Hg. lia.
    + by rewrite (Eo v Hne), (Hw v Hv').
Qed.

(** The edges of a witness, and what they leave at their targets. *)
Lemma kRelax_fold_discovery x edges : ∀ st,
  edges ⊆ Adj G !!! x → x < V G → x ∈ st.1.2 → st.2 ⊆ st.1.2 →
  discovery_inv G B S dist0 st.1 →
  discovery_inv G B S dist0 (foldl (kRelax B x) st edges).1
  ∧ (foldl (kRelax B x) st edges).2 ⊆ (foldl (kRelax B x) st edges).1.2
  ∧ x ∈ (foldl (kRelax B x) st edges).1.2.
Proof.
  induction edges as [|e edges IH]; intros st Hsub Hx HxW HWi Hinv; simpl; [done|].
  destruct (kRelax_discovery x st e) as (H1 & H2 & H3);
    [apply Hsub; by left|done..|].
  apply IH; [intros y Hy; apply Hsub; by right|done..].
Qed.

Lemma kRound_discovery Wi_prev st :
  Forall (λ x, x < V G) Wi_prev → Wi_prev ⊆ st.2 →
  discovery_inv G B S dist0 st →
  discovery_inv G B S dist0 (kRound G B Wi_prev st).1
  ∧ (kRound G B Wi_prev st).2 ⊆ (kRound G B Wi_prev st).1.2.
Proof.
  intros HF Hsub Hst. unfold kRound.
  assert (∀ xs s, Forall (λ x, x < V G) xs → xs ⊆ s.1.2 → s.2 ⊆ s.1.2 →
            discovery_inv G B S dist0 s.1 →
            discovery_inv G B S dist0
              (foldl (λ st x, foldl (kRelax B x) st (Adj G !!! x)) s xs).1
            ∧ (foldl (λ st x, foldl (kRelax B x) st (Adj G !!! x)) s xs).2
              ⊆ (foldl (λ st x, foldl (kRelax B x) st (Adj G !!! x)) s xs).1.2)
    as Houter.
  { induction xs as [|x xs IH]; intros s Hxs Hs1 Hs2 Hs3; simpl; [done|].
    apply Forall_cons in Hxs as [Hx Hxs].
    destruct (kRelax_fold_discovery x (Adj G !!! x) s) as (I1 & I2 & I3);
      [done|done|apply Hs1; by left|done|done|].
    apply IH; [done| |done|done].
    intros y Hy.
    pose proof (pivots.foldl_prefix (λ s, s.1.2) (kRelax B x)
                  (pivots.kRelax_prefix B x) (Adj G !!! x) s) as [k Hk].
    cbn beta in Hk. rewrite Hk. apply elem_of_app. left. apply Hs1. by right. }
  apply (Houter Wi_prev (st, [])); [done|done| |done].
  intros y Hy. by apply elem_of_nil in Hy.
Qed.

(** The witnesses are vertices. *)
Lemma kRelax_range x st e :
  e ∈ Adj G !!! x → Forall (λ w, w < V G) st.1.2 →
  Forall (λ w, w < V G) (kRelax B x st e).1.2.
Proof.
  destruct st as [[[dist inW] W] Wi]. cbn [fst snd]. intros He HF.
  assert (To e < V G) as Hv.
  { pose proof (pivots.wf_targets G Hwf x) as HF'.
    by eapply (proj1 (Forall_forall _ _) HF'). }
  unfold kRelax. case_decide; cbn [fst snd]; [|done].
  destruct (_ && _); cbn [fst snd]; [|done].
  apply Forall_app. split; [done|]. by apply Forall_singleton.
Qed.

Lemma kRound_range Wi_prev st :
  Forall (λ w, w < V G) st.2 →
  Forall (λ w, w < V G) (kRound G B Wi_prev st).1.2.
Proof.
  intros HF. unfold kRound.
  assert (∀ xs s, Forall (λ w, w < V G) s.1.2 →
            Forall (λ w, w < V G)
              (foldl (λ st x, foldl (kRelax B x) st (Adj G !!! x)) s xs).1.2)
    as Houter; [|by apply Houter].
  induction xs as [|x xs IH]; intros s Hs; simpl; [done|]. apply IH.
  assert (∀ edges s, edges ⊆ Adj G !!! x → Forall (λ w, w < V G) s.1.2 →
            Forall (λ w, w < V G) (foldl (kRelax B x) s edges).1.2) as Hinner;
    [|by apply Hinner].
  induction edges as [|e edges IHe]; intros s0 Hsub Hs0; simpl; [done|].
  apply IHe; [intros y Hy; apply Hsub; by right|].
  apply kRelax_range; [apply Hsub; by left|done].
Qed.

Lemma kRounds_discovery rounds nS : ∀ Wi_prev st,
  Forall (λ x, x < V G) st.2 → Wi_prev ⊆ st.2 →
  discovery_inv G B S dist0 st →
  discovery_inv G B S dist0 (kRounds G K rounds B nS Wi_prev st).
Proof.
  induction rounds as [|r IH]; intros Wi_prev st HF Hsub Hst; simpl; [done|].
  destruct (kRound_discovery Wi_prev st) as [H1 H2]; [|done|done|].
  { apply Forall_forall. intros x Hx.
    by apply (proj1 (Forall_forall _ _) HF), Hsub. }
  pose proof (kRound_range Wi_prev st HF) as HF2.
  destruct (kRound G B Wi_prev st) as [[[dist inW] W_list] Wi]. cbn [fst snd] in *.
  case_decide; [done|]. by apply IH.
Qed.

(** *** What the first round leaves at the targets of the sources *)

Lemma fadd_mono a b w : (a ≤ b)%Z → (fadd a w ≤ fadd b w)%Z.
Proof. unfold fadd. lia. Qed.

Lemma kRelax_edge_le x st e :
  To e < length st.1.1.1 →
  ((kRelax B x st e).1.1.1 !!! To e ≤ fadd (st.1.1.1 !!! x) (Weight e))%Z.
Proof.
  destruct st as [[[dist inW] W] Wi]. cbn [fst snd]. intros Hv.
  unfold kRelax. case_decide as Hg; cbn [fst snd]; [|lia].
  destruct (_ && _); cbn [fst snd]; by rewrite list_lookup_total_insert_eq by lia.
Qed.

Lemma kRelax_fold_relaxed x edges : ∀ st,
  length st.1.1.1 = V G → Forall (λ e, To e < V G) edges →
  ∀ e, e ∈ edges →
    ((foldl (kRelax B x) st edges).1.1.1 !!! To e
     ≤ fadd (st.1.1.1 !!! x) (Weight e))%Z.
Proof.
  induction edges as [|e0 edges IH]; intros st HL HF e He; simpl;
    [by apply elem_of_nil in He|].
  apply Forall_cons in HF as [Hv HF].
  pose proof (mono.kRelax_le B x st e0) as [L1 Hle1].
  pose proof (mono.foldl_dist_le (λ s, s.1.1.1) (kRelax B x) (mono.kRelax_le B x)
                edges (kRelax B x st e0)) as [_ Hle2]. cbn beta in Hle2.
  apply elem_of_cons in He as [->|He].
  - etrans; [apply Hle2|]. apply kRelax_edge_le. lia.
  - etrans; [apply IH; [lia|done|done]|]. by apply fadd_mono.
Qed.

Lemma kRound_relaxed Wi_prev : ∀ st,
  length st.1.1 = V G →
  ∀ x e, x ∈ Wi_prev → e ∈ Adj G !!! x →
    ((kRound G B Wi_prev st).1.1.1 !!! To e ≤ fadd (st.1.1 !!! x) (Weight e))%Z.
Proof.
  intros st HL. unfold kRound.
  assert (∀ xs s, length s.1.1.1 = V G →
            ∀ x e, x ∈ xs → e ∈ Adj G !!! x →
              ((foldl (λ st x, foldl (kRelax B x) st (Adj G !!! x)) s xs).1.1.1
                 !!! To e ≤ fadd (s.1.1.1 !!! x) (Weight e))%Z) as Houter;
    [|by apply (Houter Wi_prev (st, []))].
  assert (∀ s x, dist_le (foldl (kRelax B x) s (Adj G !!! x)).1.1.1 s.1.1.1) as Hin.
  { intros s x. apply (mono.foldl_dist_le (λ s, s.1.1.1)). apply mono.kRelax_le. }
  induction xs as [|x0 xs IH]; intros s Hs x e Hx He; simpl;
    [by apply elem_of_nil in Hx|].
  destruct (Hin s x0) as [L1 Hle1].
  pose proof (mono.foldl_dist_le (λ s, s.1.1.1)
                (λ st x, foldl (kRelax B x) st (Adj G !!! x)) Hin
                xs (foldl (kRelax B x0) s (Adj G !!! x0))) as [_ Hle2].
  cbn beta in Hle2.
  apply elem_of_cons in Hx as [->|Hx].
  - etrans; [apply Hle2|].
    apply kRelax_fold_relaxed; [done|apply pivots.wf_targets; done|done].
  - etrans; [apply IH; [lia|done|done]|]. by apply fadd_mono.
Qed.

Lemma marksOf_eq (inW : list bool) W :
  length inW = V G → (∀ v, v < V G → (inW !!! v = true ↔ v ∈ W)) →
  inW = marksOf (V G) W.
Proof.
  intros HL Hm. apply list_eq. intros i. unfold marksOf.
  rewrite list_lookup_fmap. destruct (decide (i < V G)) as [Hi|Hi].
  - rewrite lookup_seq_lt by done. simpl.
    destruct (lookup_lt_is_Some_2 inW i ltac:(lia)) as [b Hb]. rewrite Hb. f_equal.
    specialize (Hm i Hi). rewrite (list_lookup_total_correct _ _ _ Hb) in Hm.
    destruct b, (bool_decide_reflect (i ∈ W)); try done; tauto.
  - rewrite lookup_seq_ge by lia. simpl. apply lookup_ge_None. lia.
Qed.

(** [FindPivots]: what it discovers and which sources it keeps. *)
Lemma FindPivots_discovery :
  Forall (λ s, s < V G) S →
  ∃ dist' P W,
    FindPivots G K B S dist0 = (dist', Done (P, W))
    ∧ dist_le dist' dist0
    ∧ S `prefix_of` W
    ∧ (∀ v, v < V G →
         (v ∈ W ↔ v ∈ S ∨ (dist' !!! v < dist0 !!! v ∧ dist' !!! v < B)%Z))
    ∧ (∀ v, v < V G →
         dist' !!! v = dist0 !!! v
         ∨ ∃ s, s ∈ S ∧ summed G s (dist0 !!! s) v (dist' !!! v))
    ∧ (1 ≤ K → ∀ s e, s ∈ S → e ∈ Adj G !!! s →
         (dist' !!! To e ≤ fadd (dist0 !!! s) (Weight e))%Z)
    ∧ P `sublist_of` S
    ∧ (K * length S < length W → P = S)
    ∧ (¬ K * length S < length W →
       ∃ slots,
         specPivots G K S (marksOf (V G) W) dist'
           = Some (slots, filter (λ s, (Z.of_nat K ≤ slots !!! s)%Z) S)
         ∧ Forall (λ s, 0 < slots !!! s)%Z S
         ∧ (small slots → P = filter (λ s, (Z.of_nat K ≤ slots !!! s)%Z) S)).
Proof.
  intros HS. unfold FindPivots, relaxKSteps.
  set (inW0 := foldl _ _ S).
  destruct (witness_set.mark_sources S (replicate (V G) false)) as [HL0 Hm0].
  fold inW0 in HL0, Hm0. rewrite length_replicate in HL0, Hm0.
  pose proof (kRounds_discovery K (length S) S (dist0, inW0, S)) as Hinv.
  pose proof (pivots.kRounds_prefix G K K B (length S) S (dist0, inW0, S)) as Hpre.
  assert (1 ≤ K → ∀ s e, s ∈ S → e ∈ Adj G !!! s →
            ((kRounds G K K B (length S) S (dist0, inW0, S)).1.1 !!! To e
             ≤ fadd (dist0 !!! s) (Weight e))%Z) as Hrel.
  { intros HK s e Hs He. destruct K as [|r]; [lia|]. cbn [kRounds].
    pose proof (kRound_relaxed S (dist0, inW0, S) Hlen s e Hs He) as H1.
    destruct (kRound G B S (dist0, inW0, S)) as [[[d1 w1] W1] Wi1]. cbn [fst snd] in *.
    case_decide; cbn [fst snd]; [done|].
    pose proof (mono.kRounds_le G (Datatypes.S r) r B (length S) Wi1 (d1, w1, W1))
      as [_ Hle].
    etrans; [apply Hle|done]. }
  destruct (kRounds G K K B (length S) S (dist0, inW0, S)) as [[dist' inW] W].
  cbn [fst snd] in *.
  destruct Hinv as (Hle & HLw & Hm & Hw & Hsum); [done|done| |].
  { split_and!; cbn [fst snd].
    - apply mono.dist_le_refl.
    - by rewrite HL0.
    - rewrite Hlen. intros v Hv. rewrite (Hm0 v Hv).
      rewrite lookup_total_replicate_2 by done.
      split; [by intros [?|?]|by right].
    - intros v _. split; [by left|]. intros [?|[? _]]; [done|lia].
    - intros v _. by left. }
  cbn [fst snd] in *. rewrite Hlen in HLw, Hm, Hw, Hsum.
  case_decide as Hbig.
  - exists dist', S, W. split_and!; [done..| |done].
    intros Hno. done.
  - destruct (pivots.computePivots_total G K dist' inW Hwf S HS)
      as (memo & P & Ecode & _ & HP).
    rewrite Ecode. exists dist', P, W. split_and!; [done..| |].
    + intros Hyes. done.
    + intros _. rewrite <-(marksOf_eq inW W HLw Hm).
      destruct (pivots.specPivots_ok G K dist' inW Hwf S HS)
        as (slots & Pspec & Espec & Hpos & ->).
      exists slots. split_and!; [done|done|]. intros Hsmall.
      pose proof (pivots.computePivots_sim G K dist' inW Hwf S HS slots _
                    Espec Hsmall) as E2.
      rewrite Ecode in E2. by injection E2.
Qed.

End with_solver.
End discovery.

Module heap_order.
Import graph ds sssp notions solver_notions.

(** *** Parents and children *)

Lemma parent_lt k : 0 < k → (k - 1) / 2 < k.
Proof. intros Hk. apply Nat.Div0.div_lt_upper_bound. lia. Qed.

Lemma parent_children i k :
  0 < k → ((k - 1) / 2 = i ↔ k = 2 * i + 1 ∨ k = 2 * i + 2).
Proof.
  intros Hk. pose proof (Nat.div_mod_eq (k - 1) 2) as E.
  pose proof (Nat.mod_upper_bound (k - 1) 2 ltac:(lia)) as Hr.
  generalize dependent ((k - 1) / 2). generalize dependent ((k - 1) mod 2).
  intros r Hr q E. lia.
Qed.

(** *** [Swap] *)

Lemma Swap_lookup (h : list PQItem) i j k :
  i < length h → j < length h →
  Swap h i j !!! k
  = if decide (k = j) then h !!! i else if decide (k = i) then h !!! j else h !!! k.
Proof.
  intros Hi Hj. unfold Swap. case_decide as Hkj.
  - subst k. by rewrite list_lookup_total_insert_eq by (by rewrite length_insert).
  - rewrite list_lookup_total_insert_ne by done. case_decide as Hki.
    + subst k. by rewrite list_lookup_total_insert_eq.
    + by rewrite list_lookup_total_insert_ne.
Qed.

Lemma Swap_perm (h : list PQItem) i j :
  i < length h → j < length h → Swap h i j ≡ₚ h.
Proof.
  intros Hi Hj. unfold Swap.
  destruct (lookup_lt_is_Some_2 h i Hi) as [x Hx].
  destruct (lookup_lt_is_Some_2 h j Hj) as [y Hy].
  rewrite (list_lookup_total_correct _ _ _ Hx), (list_lookup_total_correct _ _ _ Hy).
  by apply Permutation_insert_swap.
Qed.

(** *** [up] and [down] keep the items *)

Lemma up_perm fuel : ∀ (h : list PQItem) j, j < length h → up fuel h j ≡ₚ h.
Proof.
  induction fuel as [|fuel IH]; intros h j Hj; cbn [up]; [done|].
  assert ((j - 1) / 2 ≤ j) as Hle.
  { apply Nat.Div0.div_le_upper_bound. lia. }
  generalize dependent ((j - 1) / 2). intros i Hle.
  case_decide; [done|]. destruct (Less h j i); [|done].
  rewrite IH by (rewrite heap_props.Swap_length; lia).
  apply Swap_perm; lia.
Qed.

Lemma down_perm fuel : ∀ (h : list PQItem) i n,
  n ≤ length h → down fuel h i n ≡ₚ h.
Proof.
  induction fuel as [|fuel IH]; intros h i n Hn; cbn [down]; [done|].
  case_decide as Hj1; [done|].
  set (j := if decide (2 * i + 1 + 1 < n) then _ else _).
  assert (i < j < n) as Hj.
  { subst j. case_decide; [destruct (Less h _ _)|]; lia. }
  clearbody j. destruct (Less h j i); [|done].
  rewrite IH by (by rewrite heap_props.Swap_length).
  apply Swap_perm; lia.
Qed.

Lemma heapPush_perm (h : list PQItem) x : heapPush h x ≡ₚ x :: h.
Proof.
  unfold heapPush. rewrite up_perm by (rewrite length_app; simpl; lia).
  by rewrite Permutation_app_comm.
Qed.

Lemma heapPop_perm (h : list PQItem) item h' :
  heapPop h = Some (item, h') → item :: h' ≡ₚ h.
Proof.
  unfold heapPop. intros E.
  destruct (decide (length h = 0)) as [Hz|Hnz].
  { apply nil_length_inv in Hz. subst h. done. }
  pose proof (down_perm (length h) (Swap h 0 (length h - 1)) 0 (length h - 1)
                ltac:(rewrite heap_props.Swap_length; lia)) as Hp.
  set (h1 := down _ _ _ _) in *.
  assert (length h1 = length h) as Hlen.
  { by rewrite Hp, heap_props.Swap_length. }
  destruct (last h1) as [it|] eqn:El; [|done]. injection E as <- <-.
  apply last_Some in El as [h0 E0]. rewrite E0 in *.
  rewrite length_app in Hlen. simpl in Hlen.
  rewrite take_app_length' by lia.
  rewrite <-(Swap_perm h 0 (length h - 1)) by lia. rewrite <-Hp.
  by rewrite Permutation_app_comm.
Qed.

(** *** [up] and [down] restore the order *)

Lemma up_heap fuel : ∀ (h : list PQItem) j,
  j < length h → j < fuel →
  (∀ k, 0 < k < length h → k ≠ j →
     (priority (h !!! ((k - 1) / 2)%nat) ≤ priority (h !!! k))%Z) →
  (∀ k, 0 < k < length h → (k - 1) / 2 = j → 0 < j →
     (priority (h !!! ((j - 1) / 2)%nat) ≤ priority (h !!! k))%Z) →
  heap_ordered (up fuel h j).
Proof.
  induction fuel as [|fuel IH]; intros h j Hj Hf I1 I2; [lia|]. cbn [up].
  destruct (decide (0 < j)) as [Hj0|Hj0].
  2:{ assert (j = 0) as -> by lia. change ((0 - 1) / 2) with 0.
      rewrite decide_True by done. intros k Hk. apply I1; lia. }
  pose proof (parent_lt j Hj0) as Hpj.
  rewrite decide_False by lia.
  unfold Less. case_bool_decide as HL.
  - set (i := (j - 1) / 2) in *. apply IH.
    + rewrite heap_props.Swap_length. lia.
    + lia.
    + intros k Hk Hki. rewrite heap_props.Swap_length in Hk.
      pose proof (parent_lt k ltac:(lia)) as Hpk.
      rewrite !Swap_lookup by lia.
      specialize (I1 k Hk). specialize (I2 k Hk).
      set (p := (k - 1) / 2) in *.
      assert (k = j → p = i) as Hkj by (by intros ->).
      clearbody p i. clear IH.
      repeat case_decide; subst; lia.
    + intros k Hk Hpk Hi0. rewrite heap_props.Swap_length in Hk.
      pose proof (parent_lt k ltac:(lia)) as Hpk'.
      pose proof (parent_lt i Hi0) as Hpi.
      rewrite !Swap_lookup by lia.
      pose proof (I1 i ltac:(lia) ltac:(lia)) as I1i.
      specialize (I1 k Hk). rewrite Hpk in I1.
      set (p := (i - 1) / 2) in *.
      clearbody p. clear IH I2.
      repeat case_decide; subst; lia.
  - intros k Hk. destruct (decide (k = j)) as [->|Hne]; [lia|by apply I1].
Qed.

Lemma down_heap fuel : ∀ (h : list PQItem) i n,
  n ≤ length h → n - i ≤ fuel →
  (∀ k, 0 < k < n → (k - 1) / 2 ≠ i →
     (priority (h !!! ((k - 1) / 2)%nat) ≤ priority (h !!! k))%Z) →
  (∀ k, 0 < k < n → (k - 1) / 2 = i → 0 < i →
     (priority (h !!! ((i - 1) / 2)%nat) ≤ priority (h !!! k))%Z) →
  (∀ k, 0 < k < n →
     (priority (down fuel h i n !!! ((k - 1) / 2)%nat)
      ≤ priority (down fuel h i n !!! k))%Z)
  ∧ (∀ k, n ≤ k → down fuel h i n !!! k = h !!! k).
Proof.
  induction fuel as [|fuel IH]; intros h i n Hn Hf I1 I2.
  { cbn [down]. split; [|done]. intros k Hk.
    destruct (decide ((k - 1) / 2 = i)) as [E|Hne]; [|by apply I1].
    pose proof (parent_lt k ltac:(lia)). lia. }
  cbn [down]. case_decide as Hj1.
  { split; [|done]. intros k Hk.
    destruct (decide ((k - 1) / 2 = i)) as [E|Hne]; [|by apply I1].
    apply parent_children in E; lia. }
  set (j := if decide (2 * i + 1 + 1 < n) then _ else _).
  assert ((j = 2 * i + 1 ∨ j = 2 * i + 2) ∧ j < n
          ∧ ∀ c, c = 2 * i + 1 ∨ c = 2 * i + 2 → c < n →
              (priority (h !!! j) ≤ priority (h !!! c))%Z) as (Hjc & Hjn & Hjmin).
  { subst j. case_decide as H2.
    - unfold Less. case_bool_decide as HL.
      + split_and!; [lia|lia|]. intros c [->| ->] Hc; [lia|].
        by replace (2 * i + 2) with (2 * i + 1 + 1) by lia.
      + split_and!; [lia|lia|]. intros c [->| ->] Hc; [lia|].
        replace (2 * i + 2) with (2 * i + 1 + 1) by lia. lia.
    - split_and!; [lia|lia|]. intros c [->| ->] Hc; lia. }
  clearbody j. unfold Less. case_bool_decide as HL.
  - destruct (IH (Swap h i j) j n) as [R1 R2].
    + by rewrite heap_props.Swap_length.
    + lia.
    + intros k Hk Hpk.
      pose proof (parent_lt k ltac:(lia)) as Hpk'.
      pose proof (parent_children i k ltac:(lia)) as Hch.
      pose proof (parent_children i j ltac:(lia)) as Hchj.
      rewrite !Swap_lookup by lia.
      specialize (I1 k Hk). specialize (Hjmin k).
      pose proof (I2 j ltac:(lia)) as I2j.
      set (p := (k - 1) / 2) in *.
      destruct (decide (k = j)) as [->|Hkj].
      { assert (p = i) as -> by (apply Hchj; lia).
        rewrite decide_False by lia. rewrite decide_True by done. lia. }
      destruct (decide (k = i)) as [->|Hki].
      { rewrite decide_False by done. rewrite decide_False by lia.
        apply I2j; [apply Hchj|]; lia. }
      rewrite decide_False by done.
      destruct (decide (p = i)) as [Hpi|Hpi].
      { apply Hjmin; [apply Hch|]; lia. }
      by apply I1.
    + intros k Hk Hpk Hj0.
      pose proof (parent_lt k ltac:(lia)) as Hpk'.
      pose proof (parent_children i j ltac:(lia)) as Hchj.
      rewrite !Swap_lookup by lia.
      assert ((j - 1) / 2 = i) as -> by (apply Hchj; lia).
      rewrite decide_False by lia. rewrite decide_True by done.
      rewrite decide_False by lia. rewrite decide_False by lia.
      specialize (I1 k Hk). rewrite Hpk in I1. apply I1. lia.
    + split; [done|]. intros k Hk. rewrite R2 by done.
      rewrite Swap_lookup by lia.
      rewrite decide_False by lia. by rewrite decide_False by lia.
  - split; [|done]. intros k Hk.
    destruct (decide ((k - 1) / 2 = i)) as [E|Hne]; [|by apply I1].
    rewrite E. pose proof (parent_children i k ltac:(lia)) as Hch.
    specialize (Hjmin k ltac:(apply Hch; done) ltac:(lia)). lia.
Qed.

(** *** [heap.Push] and [heap.Pop] *)

Lemma heapPush_ordered (h : list PQItem) x :
  heap_ordered h → heap_ordered (heapPush h x).
Proof.
  intros Hh. unfold heapPush. rewrite length_app. simpl.
  replace (length h + 1 - 1) with (length h) by lia.
  apply up_heap.
  - rewrite length_app. simpl. lia.
  - lia.
  - intros k Hk Hne. rewrite length_app in Hk. simpl in Hk.
    pose proof (parent_lt k ltac:(lia)).
    rewrite !lookup_total_app_l by lia. apply Hh. lia.
  - intros k Hk Hpk _. rewrite length_app in Hk. simpl in Hk.
    pose proof (parent_lt k ltac:(lia)). lia.
Qed.

Lemma heap_root_min (h : list PQItem) :
  heap_ordered h →
  ∀ k, k < length h → (priority (h !!! 0%nat) ≤ priority (h !!! k))%Z.
Proof.
  intros Hh k. induction k as [k IH] using lt_wf_ind. intros Hk.
  destruct (decide (k = 0)) as [->|Hne]; [lia|].
  pose proof (parent_lt k ltac:(lia)) as Hp.
  specialize (IH _ Hp ltac:(lia)). specialize (Hh k ltac:(lia)). lia.
Qed.

Lemma heapPop_min (h : list PQItem) :
  heap_ordered h → 0 < length h →
  ∃ item h',
    heapPop h = Some (item, h')
    ∧ item = h !!! 0
    ∧ item :: h' ≡ₚ h
    ∧ heap_ordered h'
    ∧ Forall (λ y, (priority item ≤ priority y)%Z) h.
Proof.
  intros Hh Hlen.
  destruct (heap_props.heapPop_spec (λ _, True) h Hlen) as (item & h' & E & _ & _ & HL);
    [by apply Forall_true|].
  exists item, h'. split; [done|].
  pose proof (heapPop_perm h item h' E) as Hperm.
  revert E. unfold heapPop.
  set (n := length h - 1).
  destruct (down_heap (length h) (Swap h 0 n) 0 n) as [R1 R2].
  - rewrite heap_props.Swap_length. lia.
  - lia.
  - intros k Hk Hpk. pose proof (parent_lt k ltac:(lia)).
    rewrite !Swap_lookup by lia.
    rewrite decide_False by lia. rewrite decide_False by lia.
    rewrite decide_False by lia. rewrite decide_False by lia.
    apply Hh. lia.
  - intros; lia.
  - pose proof (heap_props.down_spec (λ _, True) (length h) (Swap h 0 n) 0 n) as [HL2 _];
      [rewrite heap_props.Swap_length; lia|by apply Forall_true|].
    rewrite heap_props.Swap_length in HL2.
    set (h2 := down _ _ _ _) in *.
    rewrite last_lookup, HL2.
    replace (Init.Nat.pred (length h)) with n by lia.
    rewrite (list_lookup_lookup_total_lt h2 n) by lia.
    intros [= <- <-].
    assert (h2 !!! n = h !!! 0) as Eroot.
    { rewrite R2 by lia. rewrite Swap_lookup by lia. by rewrite decide_True. }
    split_and!; [done|done| |].
    + intros k Hk. rewrite length_take in Hk.
      pose proof (parent_lt k ltac:(lia)).
      rewrite !lookup_total_take. rewrite !decide_True by lia. apply R1. lia.
    + rewrite Eroot. apply Forall_lookup. intros k y Hy.
      rewrite <-(list_lookup_total_correct _ _ _ Hy).
      apply heap_root_min; [done|]. by apply lookup_lt_Some in Hy.
Qed.

End heap_order.

Module graph_build.
Import graph notions transform_notions.

Lemma NewGraph_wf n : wf (NewGraph n).
Proof.
  split; [apply length_replicate|]. simpl.
  apply Forall_forall. intros es Hes%elem_of_replicate. destruct Hes as [-> _].
  constructor.
Qed.

Lemma NewGraph_Adj n x : Adj (NewGraph n) !!! x = [].
Proof.
  simpl. rewrite list_lookup_total_alt.
  destruct (replicate n [] !! x) as [es|] eqn:E; [|done].
  apply lookup_replicate in E as [-> _]. done.
Qed.

(** The adjacency lists after a list of calls: each list is extended by the
    edges of the calls from its vertex, in the order of the calls. *)
Lemma addCalls_adj calls : ∀ g,
  Forall (λ c : call, c.1.1 < length (Adj g)) calls →
  ∃ g', foldM addCall g calls = Some g'
    ∧ V g' = V g ∧ length (Adj g') = length (Adj g)
    ∧ ∀ x, Adj g' !!! x
           = Adj g !!! x ++ (edgeOf <$> filter (λ c : call, c.1.1 = x) calls).
Proof.
  induction calls as [|c calls IH]; intros g HF; simpl.
  - exists g. split_and!; [done..|]. intros x. by rewrite app_nil_r.
  - inversion HF as [|? ? Hc HF']; subst.
    unfold addCall at 1. unfold AddEdge.
    destruct (lookup_lt_is_Some_2 (Adj g) c.1.1 Hc) as [es Hes]. rewrite Hes.
    set (g1 := {| V := V g; Adj := _ |}).
    destruct (IH g1) as (g2 & E2 & V2 & L2 & A2).
    { simpl. by rewrite length_insert. }
    exists g2. split_and!; [done|done|by rewrite L2; simpl; rewrite length_insert|].
    intros x. rewrite A2, filter_cons. simpl.
    destruct (decide (c.1.1 = x)) as [<-|Hne].
    + rewrite list_lookup_total_insert_eq by done.
      rewrite (list_lookup_total_correct _ _ _ Hes), fmap_cons, <-app_assoc. done.
    + by rewrite list_lookup_total_insert_ne.
Qed.

Lemma addCalls_wf calls g g' :
  wf g → Forall (λ c : call, c.1.1 < V g ∧ c.1.2 < V g) calls →
  foldM addCall g calls = Some g' → wf g'.
Proof.
  intros [HL HF] Hc E.
  destruct (addCalls_adj calls g) as (g2 & E2 & V2 & L2 & A2).
  { rewrite HL. eapply Forall_impl; [exact Hc|]. by intros c [? _]. }
  rewrite E in E2. injection E2 as <-.
  split; [congruence|]. rewrite V2.
  apply Forall_lookup. intros x es Hes.
  rewrite <-(list_lookup_total_correct _ _ _ Hes), A2.
  apply Forall_app. split.
  - destruct (Adj g !! x) as [es0|] eqn:E0.
    + rewrite (list_lookup_total_correct _ _ _ E0).
      by eapply (Forall_lookup_1 _ _ _ _ HF).
    + rewrite list_lookup_total_alt, E0. constructor.
  - apply Forall_fmap. apply Forall_forall.
    intros c [_ Hin]%list_elem_of_filter.
    by apply (proj1 (Forall_forall _ _) Hc c Hin).
Qed.

End graph_build.

Module transform_shape.
Import graph notions transform_notions.

(** *** The origin table *)

Lemma fill_range (u s m : nat) : ∀ (o : list nat),
  length (foldl (λ o i, <[s + i := u]> o) o (seq 0 m)) = length o
  ∧ ∀ p, p < length o →
      foldl (λ o i, <[s + i := u]> o) o (seq 0 m) !!! p
      = if decide (s ≤ p < s + m) then u else o !!! p.
Proof.
  induction m as [|m IH]; intros o.
  - simpl. split; [done|]. intros p _. case_decide; [lia|done].
  - rewrite seq_S, foldl_app. simpl. destruct (IH o) as [H1 H2].
    split; [by rewrite length_insert|]. intros p Hp.
    destruct (decide (p = s + m)) as [->|Hne].
    + rewrite list_lookup_total_insert_eq by lia. case_decide; [done|lia].
    + rewrite list_lookup_total_insert_ne by done. rewrite (H2 p Hp).
      repeat case_decide; try done; lia.
Qed.

Lemma originFill_spec g deg (starts sizes : list nat) (o : list nat) k :
  (∀ u, u < V g → starts !!! u = base g deg u ∧ sizes !!! u = sz g deg u) →
  k ≤ V g → base g deg (V g) ≤ length o →
  length (originFill starts sizes o (seq 0 k)) = length o
  ∧ ∀ u i, u < k → i < sz g deg u →
      originFill starts sizes o (seq 0 k) !!! (base g deg u + i) = u.
Proof.
  intros Hl. induction k as [|k IH]; intros Hk Ho.
  - simpl. split; [done|]. intros; lia.
  - destruct IH as [H1 H2]; [lia|done|].
    unfold originFill in *. rewrite seq_S, foldl_app. simpl.
    destruct (Hl k) as [-> ->]; [lia|].
    match goal with |- context [foldl _ ?o0 (seq 0 (sz g deg k))] =>
      destruct (fill_range k (base g deg k) (sz g deg k) o0) as [F1 F2]
    end.
    split; [by rewrite F1|]. intros u i Hu Hi.
    pose proof (transform.base_mono g deg k (V g) ltac:(lia)).
    rewrite F2.
    2:{ rewrite H1. pose proof (transform.base_mono g deg u (V g) ltac:(lia)). lia. }
    case_decide as Hr.
    + assert (base g deg u + i = base g deg k + (base g deg u + i - base g deg k))
        as E by lia.
      apply transform.base_inj in E as [-> _]; [done|done|lia].
    + apply H2; [|done]. destruct (decide (u = k)) as [->|]; [lia|lia].
Qed.

Lemma cycleStep_origin u start size : ∀ (ixs : list nat) g0 o g',
  foldM addCall g0 ((λ i, (start + i, start + (i + 1) mod size, 0%Z)) <$> ixs)
    = Some g' →
  foldM (cycleStep u start size) (g0, o) ixs
  = Some (g', foldl (λ o i, <[start + i := u]> o) o ixs).
Proof.
  induction ixs as [|i ixs IH]; intros g0 o g'; simpl.
  - by intros [= ->].
  - unfold addCall at 1. simpl.
    destruct (AddEdge g0 _ _ _) as [g1|]; [|done]. apply IH.
Qed.

Lemma buildCycles_origin (starts sizes : list nat) : ∀ us g0 o g',
  foldM addCall g0
    (flat_map (λ u, cycleCallsOf (starts !!! u) (sizes !!! u)) us) = Some g' →
  foldM (λ st u, foldM (cycleStep u (starts !!! u) (sizes !!! u)) st
                       (seq 0 (sizes !!! u))) (g0, o) us
  = Some (g', originFill starts sizes o us).
Proof.
  induction us as [|u us IH]; intros g0 o g'; simpl.
  - by intros [= ->].
  - rewrite foldM_app.
    destruct (foldM addCall g0 _) as [g1|] eqn:E1; [|done]. simpl. intros E2.
    rewrite (cycleStep_origin u _ _ _ _ o _ E1). by apply IH.
Qed.

(** *** The real edges, call by call *)

Section slots.
Variable g : Graph.
Variable deg : list nat.
Variable starts : list nat.
Hypothesis Hstarts : ∀ w, w < V g → starts !!! w = base g deg w.

Lemma real_calls_realise : ∀ l slots,
  Forall (λ ue : nat * Edge, ue.1 < V g ∧ To ue.2 < V g) l →
  length slots = V g →
  (∀ w, w < V g →
     slots !!! w + length (filter (λ ue : nat * Edge, ue.1 = w) l)
                 + length (filter (λ ue : nat * Edge, To ue.2 = w) l)
     ≤ sz g deg w) →
  Forall2 (realises g deg) l (realCalls starts slots l).
Proof.
  induction l as [|[u e] l IH]; intros slots HF Hlen Hcap; [constructor|].
  inversion HF as [|? ? [Hu Hv] HF']; subst. simpl in Hu, Hv.
  cbn [realCalls fst snd].
  set (s0 := slots !!! u).
  set (slots1 := <[u := s0 + 1]> slots).
  set (s1 := slots1 !!! To e).
  set (slots2 := <[To e := s1 + 1]> slots1).
  assert (length slots1 = V g) as Hlen1 by (unfold slots1; by rewrite length_insert).
  assert (s1 = slots !!! To e + (if decide (u = To e) then 1 else 0)) as Hs1.
  { unfold s1, slots1. destruct (decide (u = To e)) as [<-|Hne].
    - rewrite list_lookup_total_insert_eq by lia. unfold s0. lia.
    - rewrite list_lookup_total_insert_ne by done. lia. }
  assert (∀ w, slots2 !!! w
               = slots !!! w + (if decide (u = w) then 1 else 0)
                             + (if decide (To e = w) then 1 else 0)) as Hs2.
  { intros w. unfold slots2.
    destruct (decide (To e = w)) as [<-|Hne].
    - rewrite list_lookup_total_insert_eq by lia. rewrite Hs1. lia.
    - rewrite list_lookup_total_insert_ne by done. unfold slots1.
      destruct (decide (u = w)) as [<-|Hne'].
      + rewrite list_lookup_total_insert_eq by lia. unfold s0. lia.
      + rewrite list_lookup_total_insert_ne by done. lia. }
  pose proof (Hcap u Hu) as Hcu. pose proof (Hcap (To e) Hv) as Hcv.
  rewrite !filter_cons in Hcu, Hcv. simpl in Hcu, Hcv.
  rewrite decide_True in Hcu by done.
  rewrite (decide_True (P := To e = To e)) in Hcv by done.
  constructor.
  - exists s0, s1. simpl. rewrite (Hstarts u Hu), (Hstarts (To e) Hv).
    split_and!; [|rewrite Hs1|done].
    + unfold s0. case_decide; simpl in *; lia.
    + repeat case_decide; simpl in *; subst; lia.
  - apply IH; [done|unfold slots2; by rewrite length_insert|].
    intros w Hw. specialize (Hcap w Hw). rewrite !filter_cons in Hcap.
    simpl in Hcap. rewrite Hs2. repeat case_decide; simpl in *; lia.
Qed.

End slots.

Lemma edgeList_elem g u e :
  wf g → ((u, e) ∈ edgeList g ↔ e ∈ Adj g !!! u).
Proof.
  intros [HL _]. unfold edgeList. rewrite list_elem_of_In, in_flat_map. split.
  - intros (u' & _ & Hin). apply list_elem_of_In, list_elem_of_fmap in Hin
      as (e' & [= -> ->] & He). done.
  - intros He. exists u. split.
    + apply in_seq. split; [lia|]. simpl. rewrite <-HL.
      apply lookup_lt_is_Some.
      destruct (Adj g !! u) as [es|] eqn:E; [eauto|].
      rewrite list_lookup_total_alt, E in He. by apply elem_of_nil in He.
    + apply list_elem_of_In, list_elem_of_fmap. eauto.
Qed.

(** *** The result of the transform, piece by piece *)

Lemma ToConstantDegree_shape g :
  wf g →
  ∃ deg starts o g2 calls2,
    ToConstantDegree g
      = Some {| G := g2; OriginalTo := starts; NewToOrigin := o |}
    ∧ length starts = V g
    ∧ (∀ v, v < V g →
         deg !!! v = length (filter (λ ue : nat * Edge, To ue.2 = v) (edgeList g)))
    ∧ (∀ u, u < V g → starts !!! u = base g deg u)
    ∧ V g2 = base g deg (V g) ∧ length (Adj g2) = V g2 ∧ length o = V g2
    ∧ (∀ u i, u < V g → i < sz g deg u → o !!! (base g deg u + i) = u)
    ∧ Forall2 (realises g deg) (edgeList g) calls2
    ∧ foldM addCall (NewGraph (base g deg (V g))) (cycleCalls g deg ++ calls2)
      = Some g2
    ∧ ∀ x, Adj g2 !!! x
           = edgeOf <$> filter (λ c : call, c.1.1 = x) (cycleCalls g deg ++ calls2).
Proof.
  intros Hwf. pose proof (transform.edgeList_wf g Hwf) as Hall.
  destruct (transform.bump_fold (edgeList g) (replicate (V g) 0))
    as (deg & Edeg & Ldeg & Hdeg).
  { rewrite length_replicate. eapply Forall_impl; [exact Hall|]. by intros ? [_ ?]. }
  rewrite length_replicate in Ldeg, Hdeg.
  destruct (transform.layout_prefix g deg (V g))
    as (starts & sizes & El & L1 & L2 & Hl); [done|].
  set (N := base g deg (V g)) in *.
  assert (flat_map (λ u, cycleCallsOf (starts !!! u) (sizes !!! u)) (seq 0 (V g))
          = cycleCalls g deg) as Hcalls1.
  { apply transform.flat_map_ext_Forall, Forall_forall.
    intros u Hu%list_elem_of_In%in_seq. destruct (Hl u) as [-> ->]; [lia|done]. }
  set (calls2 := realCalls starts (replicate (V g) 0) (edgeList g)).
  assert (∀ w, w < V g →
            replicate (V g) 0 !!! w
            + length (filter (λ ue : nat * Edge, ue.1 = w) (edgeList g))
            + length (filter (λ ue : nat * Edge, To ue.2 = w) (edgeList g))
            ≤ sz g deg w) as Hcap.
  { intros w Hw. rewrite lookup_total_replicate_2 by done.
    rewrite (transform.edgeList_src g w Hw). specialize (Hdeg w Hw).
    rewrite lookup_total_replicate_2 in Hdeg by done.
    unfold sz. simpl. case_decide; lia. }
  pose proof (real_calls_realise g deg starts (λ w Hw, proj1 (Hl w Hw))
                (edgeList g) (replicate (V g) 0) Hall (length_replicate _ _) Hcap)
    as Hreal.
  fold calls2 in Hreal.
  destruct (graph_build.addCalls_adj (cycleCalls g deg ++ calls2) (NewGraph N))
    as (g2 & E2 & V2 & A2 & Adj2).
  { simpl. rewrite length_replicate. apply Forall_app. split.
    - apply (Forall_fmap (λ c : call, c.1.1) (λ p, p < N)).
      unfold cycleCalls. rewrite transform.cycle_sources.
      apply Forall_forall. intros p Hp%list_elem_of_In%in_seq. lia.
    - apply Forall_forall. intros c Hc.
      apply list_elem_of_lookup in Hc as [i Hi].
      destruct (Forall2_lookup_r _ _ _ _ _ Hreal Hi) as ([u e] & Hue & j & j' & Hj & _ & ->).
      simpl in *.
      pose proof (proj1 (Forall_forall _ _) Hall (u, e)
                    (proj2 (list_elem_of_lookup _ _) (ex_intro _ i Hue))) as [Hu _].
      simpl in Hu. pose proof (transform.base_mono g deg u (V g) Hu). unfold N. lia. }
  simpl in V2, A2. rewrite length_replicate in A2.
  pose proof E2 as Eall.
  rewrite foldM_app in E2.
  destruct (foldM addCall (NewGraph N) (cycleCalls g deg)) as [g1|] eqn:E1; [|done].
  simpl in E2.
  rewrite <-Hcalls1 in E1.
  pose proof (buildCycles_origin starts sizes (seq 0 (V g)) (NewGraph N)
                (replicate N 0) g1 E1) as Ecyc.
  destruct (transform.realStep_calls starts (edgeList g) (replicate (V g) 0) g1 g2 E2)
    as [slots' Ereal].
  destruct (originFill_spec g deg starts sizes (replicate N 0) (V g) Hl)
    as [HoL Ho]; [done|by rewrite length_replicate|].
  rewrite length_replicate in HoL.
  exists deg, starts, (originFill starts sizes (replicate N 0) (seq 0 (V g))), g2, calls2.
  split.
  { unfold ToConstantDegree, inDegrees, layout. rewrite Edeg, El.
    cbv beta iota. unfold buildCycles. fold N. rewrite Ecyc, Ereal. done. }
  split_and!; [done| |intros; by apply Hl|done|congruence|congruence|done|done|done|].
  { intros v Hv. rewrite (Hdeg v Hv), lookup_total_replicate_2 by done. done. }
  intros x. rewrite Adj2, graph_build.NewGraph_Adj. done.
Qed.

End transform_shape.

Module transform_edges.
Import graph notions transform_notions paths.

Lemma base_decompose g deg k x :
  x < base g deg k → ∃ u i, u < k ∧ i < sz g deg u ∧ x = base g deg u + i.
Proof.
  induction k as [|k IH]; simpl; [lia|]. intros Hx.
  destruct (decide (x < base g deg k)) as [Hlt|Hge].
  - destruct (IH Hlt) as (u & i & Hu & Hi & ->). exists u, i. split_and!; [lia|done..].
  - exists k, (x - base g deg k). split_and!; lia.
Qed.

Lemma edgeList_edges g :
  length (Adj g) = V g → (λ ue : nat * Edge, ue.2) <$> edgeList g = concat (Adj g).
Proof.
  intros HL. unfold edgeList.
  assert (∀ k, k ≤ length (Adj g) →
            (λ ue : nat * Edge, ue.2)
              <$> flat_map (λ u, (λ e, (u, e)) <$> (Adj g !!! u)) (seq 0 k)
            = concat (take k (Adj g))) as H.
  { induction k as [|k IH]; intros Hk; [by rewrite take_0|].
    rewrite seq_S, flat_map_app, fmap_app, IH by lia. simpl.
    rewrite app_nil_r, <-list_fmap_compose.
    destruct (lookup_lt_is_Some_2 (Adj g) k ltac:(lia)) as [es Hes].
    rewrite (take_S_r _ _ _ Hes), concat_app. simpl. rewrite app_nil_r.
    rewrite (list_lookup_total_correct _ _ _ Hes).
    f_equal. by rewrite <-(list_fmap_id es) at 2. }
  rewrite <-HL, H by done. by rewrite firstn_all.
Qed.

Section with_transform.
Variable g : Graph.
Hypothesis Hwf : wf g.
Variables (deg starts o : list nat) (g2 : Graph) (calls2 : list call).
Hypothesis Hreal : Forall2 (realises g deg) (edgeList g) calls2.
Hypothesis HAdj : ∀ x, Adj g2 !!! x
  = edgeOf <$> filter (λ c : call, c.1.1 = x) (cycleCalls g deg ++ calls2).

Lemma transformed_edge_cases x e' :
  e' ∈ Adj g2 !!! x →
  (∃ u i, u < V g ∧ i < sz g deg u ∧ x = base g deg u + i
          ∧ e' = {| To := base g deg u + (i + 1) mod sz g deg u; Weight := 0 |})
  ∨ (∃ u e j j', e ∈ Adj g !!! u ∧ u < V g ∧ To e < V g
                 ∧ j < sz g deg u ∧ j' < sz g deg (To e)
                 ∧ x = base g deg u + j
                 ∧ e' = {| To := base g deg (To e) + j'; Weight := Weight e |}).
Proof.
  rewrite HAdj. intros (c & -> & [Hx Hc]%list_elem_of_filter)%list_elem_of_fmap.
  apply elem_of_app in Hc as [Hc|Hc].
  - left. unfold cycleCalls in Hc.
    apply list_elem_of_In, in_flat_map in Hc as (u & Hu%in_seq & Hc).
    apply list_elem_of_In, list_elem_of_fmap in Hc as (i & -> & Hi%list_elem_of_In%in_seq).
    simpl in Hx. exists u, i. split_and!; [lia|lia|done|done].
  - right. apply list_elem_of_lookup in Hc as [k Hk].
    destruct (Forall2_lookup_r _ _ _ _ _ Hreal Hk)
      as ([u e] & Hue & j & j' & Hj & Hj' & ->).
    simpl in *.
    assert ((u, e) ∈ edgeList g) as Hin by (apply list_elem_of_lookup; eauto).
    pose proof (proj1 (Forall_forall _ _) (transform.edgeList_wf g Hwf) _ Hin) as [Hu Hv].
    apply transform_shape.edgeList_elem in Hin; [|done].
    exists u, e, j, j'. split_and!; done.
Qed.

Lemma cycle_edge_in u i :
  u < V g → i < sz g deg u →
  {| To := base g deg u + (i + 1) mod sz g deg u; Weight := 0 |}
    ∈ Adj g2 !!! (base g deg u + i).
Proof.
  intros Hu Hi. rewrite HAdj.
  apply list_elem_of_fmap.
  exists (base g deg u + i, base g deg u + (i + 1) mod sz g deg u, 0%Z).
  split; [done|]. apply list_elem_of_filter. split; [done|].
  apply elem_of_app. left. unfold cycleCalls.
  apply list_elem_of_In, in_flat_map. exists u. split; [apply in_seq; lia|].
  apply list_elem_of_In, list_elem_of_fmap. exists i. split; [done|].
  apply list_elem_of_In, in_seq. lia.
Qed.

Lemma real_edge_in u e :
  e ∈ Adj g !!! u →
  ∃ j j', j < sz g deg u ∧ j' < sz g deg (To e)
          ∧ {| To := base g deg (To e) + j'; Weight := Weight e |}
              ∈ Adj g2 !!! (base g deg u + j).
Proof.
  intros He. apply transform_shape.edgeList_elem in He; [|done].
  apply list_elem_of_lookup in He as [k Hk].
  destruct (Forall2_lookup_l _ _ _ _ _ Hreal Hk) as (c & Hc & j & j' & Hj & Hj' & ->).
  simpl in *. exists j, j'. split_and!; [done..|].
  rewrite HAdj. apply list_elem_of_fmap.
  exists (base g deg u + j, base g deg (To e) + j', Weight e).
  split; [done|]. apply list_elem_of_filter. split; [done|].
  apply elem_of_app. right. apply list_elem_of_lookup. eauto.
Qed.

(** *** Walks in the two graphs *)

Hypothesis Horigin : ∀ u i, u < V g → i < sz g deg u → o !!! (base g deg u + i) = u.

Lemma path_projects x y d :
  path g2 x y d → path g (o !!! x) (o !!! y) d.
Proof.
  induction 1 as [|x1 e' d _ IH He]; [constructor|].
  destruct (transformed_edge_cases x1 e' He)
    as [(u & i & Hu & Hi & -> & ->)|(u & e & j & j' & He0 & Hu & Hv & Hj & Hj' & -> & ->)];
    simpl.
  - rewrite Horigin in IH by done. rewrite Z.add_0_r.
    rewrite Horigin; [done|done|]. apply Nat.mod_upper_bound. lia.
  - rewrite Horigin in IH by done. rewrite Horigin by done.
    by apply (path_edge g (o !!! x) u e d).
Qed.

(** The same for the sums the code makes: a cycle step adds 0. *)
Lemma summed_le (h : Graph) s d0 x d :
  (d0 ≤ Infinity)%Z → summed h s d0 x d → (d ≤ Infinity)%Z.
Proof. intros H0. induction 1; [done|]. unfold fadd. lia. Qed.

Lemma summed_projects x y d0 d :
  (d0 ≤ Infinity)%Z →
  summed g2 x d0 y d → summed g (o !!! x) d0 (o !!! y) d.
Proof.
  intros H0. induction 1 as [|x1 e' d Hs IH He]; [constructor|].
  pose proof (summed_le g2 x d0 x1 d H0 Hs) as Hle.
  destruct (transformed_edge_cases x1 e' He)
    as [(u & i & Hu & Hi & -> & ->)|(u & e & j & j' & He0 & Hu & Hv & Hj & Hj' & -> & ->)];
    simpl.
  - rewrite Horigin in IH by done.
    replace (fadd d 0) with d by (unfold fadd; lia).
    rewrite Horigin; [done|done|]. apply Nat.mod_upper_bound. lia.
  - rewrite Horigin in IH by done. rewrite Horigin by done.
    by apply (summed_edge g (o !!! x) d0 u e d).
Qed.

Lemma path_trans (h : Graph) s x y d1 d2 :
  path h s x d1 → path h x y d2 → path h s y (d1 + d2).
Proof.
  intros H1 H2. induction H2 as [|x1 e d _ IH He].
  - by rewrite Z.add_0_r.
  - rewrite Z.add_assoc. by econstructor.
Qed.

Lemma cycle_steps u i k :
  u < V g → i < sz g deg u →
  path g2 (base g deg u + i) (base g deg u + (i + k) mod sz g deg u) 0.
Proof.
  intros Hu Hi. induction k as [|k IH].
  - rewrite Nat.add_0_r, Nat.mod_small by done. constructor.
  - pose proof (path_edge g2 (base g deg u + i) _ _ 0%Z IH
                  (cycle_edge_in u ((i + k) mod sz g deg u) Hu
                     ltac:(apply Nat.mod_upper_bound; lia))) as H.
    simpl in H. rewrite Nat.Div0.add_mod_idemp_l in H.
    by replace (i + k + 1) with (i + S k) in H by lia.
Qed.

Lemma cycle_walk u i j :
  u < V g → i < sz g deg u → j < sz g deg u →
  path g2 (base g deg u + i) (base g deg u + j) 0.
Proof.
  intros Hu Hi Hj.
  pose proof (cycle_steps u i (j + sz g deg u - i) Hu Hi) as H.
  replace (i + (j + sz g deg u - i)) with (j + 1 * sz g deg u) in H by lia.
  rewrite Nat.Div0.mod_add, Nat.mod_small in H by done. done.
Qed.

Lemma path_lifts u v d :
  u < V g → path g u v d →
  v < V g ∧ path g2 (base g deg u) (base g deg v) d.
Proof.
  intros Hu. induction 1 as [|x e d _ [Hx IH] He].
  - split; [done|constructor].
  - assert (To e < V g) as Hv.
    { pose proof (transform.wf_Adj g x Hwf) as HF.
      by eapply (proj1 (Forall_forall _ _) HF). }
    split; [done|].
    destruct (real_edge_in x e He) as (j & j' & Hj & Hj' & Hin).
    pose proof (transform.sz_pos g deg x). pose proof (transform.sz_pos g deg (To e)).
    pose proof (cycle_walk x 0 j Hx ltac:(lia) Hj) as W1.
    pose proof (cycle_walk (To e) j' 0 Hv Hj' ltac:(lia)) as W2.
    rewrite !Nat.add_0_r in *.
    pose proof (path_edge g2 _ _ _ _ (path_trans _ _ _ _ _ _ IH W1) Hin) as W3.
    simpl in W3.
    pose proof (path_trans _ _ _ _ _ _ W3 W2) as W4.
    by replace (d + 0 + Weight e + 0)%Z with (d + Weight e)%Z in W4 by lia.
Qed.

End with_transform.
End transform_edges.

Module transform_result.
Import graph notions transform_notions paths.

Lemma base_sum g deg k :
  base g deg k = sum_list (sz g deg <$> seq 0 k).
Proof.
  induction k as [|k IH]; [done|].
  rewrite seq_S, fmap_app, sum_list_with_app. simpl. lia.
Qed.

Lemma inDegree_edgeList g v :
  length (Adj g) = V g →
  length (filter (λ ue : nat * Edge, To ue.2 = v) (edgeList g)) = inDegree g v.
Proof.
  intros HL. unfold inDegree. rewrite <-(transform_edges.edgeList_edges g HL).
  by rewrite (transform.filter_fmap_length (λ ue : nat * Edge, ue.2) (λ e, To e = v)).
Qed.

Lemma sum_list_ext (f h : nat → nat) (l : list nat) :
  Forall (λ x, f x = h x) l → sum_list (f <$> l) = sum_list (h <$> l).
Proof.
  induction 1 as [|x l Hx _ IH]; [done|].
  rewrite !fmap_cons. change (sum_list (?a :: ?t)) with (a + sum_list t).
  by rewrite Hx, IH.
Qed.

(** The layout of the transformed graph. *)
Lemma ToConstantDegree_layout g :
  wf g →
  ∃ tg, ToConstantDegree g = Some tg
    ∧ length (OriginalTo tg) = V g
    ∧ length (NewToOrigin tg) = V (G tg)
    ∧ V (G tg)
      = sum_list ((λ u, max 1 (outDegree g u + inDegree g u)) <$> seq 0 (V g))
    ∧ (∀ u, u < V g →
         OriginalTo tg !!! u < V (G tg)
         ∧ ∀ i, i < max 1 (outDegree g u + inDegree g u) →
             NewToOrigin tg !!! (OriginalTo tg !!! u + i) = u)
    ∧ (∀ x, x < V (G tg) →
         NewToOrigin tg !!! x < V g
         ∧ OriginalTo tg !!! (NewToOrigin tg !!! x) ≤ x
         ∧ x < OriginalTo tg !!! (NewToOrigin tg !!! x)
               + max 1 (outDegree g (NewToOrigin tg !!! x)
                        + inDegree g (NewToOrigin tg !!! x))).
Proof.
  intros Hwf.
  destruct (transform_shape.ToConstantDegree_shape g Hwf)
    as (deg & starts & o & g2 & calls2 & E & Ls & Hdeg & Hst & HV & HA & Lo & Ho & _).
  assert (∀ u, u < V g → sz g deg u = max 1 (outDegree g u + inDegree g u)) as Hsz.
  { intros u Hu. unfold sz, outDegree. simpl.
    rewrite (Hdeg u Hu), (inDegree_edgeList g u (proj1 Hwf)). case_decide; lia. }
  eexists. split; [exact E|]. simpl. split_and!; [done|done| | |].
  - rewrite HV, base_sum. apply sum_list_ext, Forall_forall.
    intros u Hu%list_elem_of_In%in_seq. apply Hsz. lia.
  - intros u Hu. rewrite (Hst u Hu), HV.
    pose proof (transform.base_mono g deg u (V g) Hu).
    pose proof (transform.sz_pos g deg u).
    split; [lia|]. intros i Hi. apply Ho; [done|]. by rewrite Hsz.
  - intros x Hx. rewrite HV in Hx.
    destruct (transform_edges.base_decompose g deg (V g) x Hx) as (u & i & Hu & Hi & ->).
    rewrite (Ho u i Hu Hi), (Hst u Hu), <-(Hsz u Hu). split_and!; [done|lia|lia].
Qed.

(** The transformed graph is well formed, and its weights are those of the
    original graph and 0. *)
Lemma ToConstantDegree_wf g :
  wf g →
  ∃ tg, ToConstantDegree g = Some tg
    ∧ wf (G tg)
    ∧ (nonneg_weights g → nonneg_weights (G tg)).
Proof.
  intros Hwf.
  destruct (transform_shape.ToConstantDegree_shape g Hwf)
    as (deg & starts & o & g2 & calls2 & E & Ls & Hdeg & Hst & HV & HA & Lo & Ho
        & Hreal & _ & HAdj).
  eexists. split; [exact E|]. simpl. split.
  - split; [done|]. apply Forall_lookup. intros x es Hes.
    apply Forall_forall. intros e' He'.
    rewrite <-(list_lookup_total_correct _ _ _ Hes) in He'.
    destruct (transform_edges.transformed_edge_cases g Hwf deg g2 calls2 Hreal HAdj x e' He')
      as [(u & i & Hu & Hi & -> & ->)|(u & e & j & j' & He0 & Hu & Hv & Hj & Hj' & -> & ->)];
      simpl; rewrite HV.
    + pose proof (transform.base_mono g deg u (V g) Hu).
      pose proof (Nat.mod_upper_bound (i + 1) (sz g deg u) ltac:(lia)). lia.
    + pose proof (transform.base_mono g deg (To e) (V g) Hv). lia.
  - intros Hnn. apply Forall_lookup. intros x es Hes.
    apply Forall_forall. intros e' He'.
    rewrite <-(list_lookup_total_correct _ _ _ Hes) in He'.
    destruct (transform_edges.transformed_edge_cases g Hwf deg g2 calls2 Hreal HAdj x e' He')
      as [(u & i & Hu & Hi & -> & ->)|(u & e & j & j' & He0 & Hu & Hv & Hj & Hj' & -> & ->)];
      simpl; [done|].
    pose proof (base_case.nonneg_weights_at g u Hnn) as HF.
    by apply (proj1 (Forall_forall _ _) HF).
Qed.

(** Every edge of the transformed graph is a step of a cycle or stands for
    an edge of the original graph, and every original edge is stood for. *)
Lemma ToConstantDegree_edges g :
  wf g →
  ∃ tg, ToConstantDegree g = Some tg
    ∧ (∀ x e', e' ∈ Adj (G tg) !!! x →
         (Weight e' = 0%Z ∧ NewToOrigin tg !!! To e' = NewToOrigin tg !!! x)
         ∨ {| To := NewToOrigin tg !!! To e'; Weight := Weight e' |}
             ∈ Adj g !!! (NewToOrigin tg !!! x))
    ∧ (∀ u e, e ∈ Adj g !!! u →
         ∃ x e', e' ∈ Adj (G tg) !!! x
                 ∧ NewToOrigin tg !!! x = u
                 ∧ NewToOrigin tg !!! To e' = To e
                 ∧ Weight e' = Weight e).
Proof.
  intros Hwf.
  destruct (transform_shape.ToConstantDegree_shape g Hwf)
    as (deg & starts & o & g2 & calls2 & E & Ls & Hdeg & Hst & HV & HA & Lo & Ho
        & Hreal & _ & HAdj).
  eexists. split; [exact E|]. simpl. split.
  - intros x e' He'.
    destruct (transform_edges.transformed_edge_cases g Hwf deg g2 calls2 Hreal HAdj x e' He')
      as [(u & i & Hu & Hi & -> & ->)|(u & e & j & j' & He0 & Hu & Hv & Hj & Hj' & -> & ->)];
      simpl.
    + left. split; [done|]. rewrite !Ho; [done|done|done|done|].
      apply Nat.mod_upper_bound. lia.
    + right. rewrite !Ho by done. by destruct e.
  - intros u e He.
    assert (u < V g) as Hu.
    { rewrite <-(proj1 Hwf). apply lookup_lt_is_Some.
      destruct (Adj g !! u) as [es|] eqn:Eu; [eauto|].
      rewrite list_lookup_total_alt, Eu in He. by apply elem_of_nil in He. }
    assert (To e < V g) as Hv.
    { pose proof (transform.wf_Adj g u Hwf) as HF.
      by apply (proj1 (Forall_forall _ _) HF). }
    destruct (transform_edges.real_edge_in g Hwf deg g2 calls2 Hreal HAdj u e He)
      as (j & j' & Hj & Hj' & Hin).
    eexists _, _. split; [exact Hin|]. simpl. rewrite !Ho by done. done.
Qed.

(** Walks between the start ids of the transformed graph are the walks of
    the original graph, weight for weight. *)
Lemma ToConstantDegree_paths g :
  wf g →
  ∃ tg, ToConstantDegree g = Some tg
    ∧ ∀ u v d, u < V g → v < V g →
        (path g u v d ↔ path (G tg) (OriginalTo tg !!! u) (OriginalTo tg !!! v) d).
Proof.
  intros Hwf.
  destruct (transform_shape.ToConstantDegree_shape g Hwf)
    as (deg & starts & o & g2 & calls2 & E & Ls & Hdeg & Hst & HV & HA & Lo & Ho
        & Hreal & _ & HAdj).
  eexists. split; [exact E|]. simpl. intros u v d Hu Hv.
  rewrite (Hst u Hu), (Hst v Hv). split.
  - intros Hp.
    by destruct (transform_edges.path_lifts g Hwf deg g2 calls2 Hreal HAdj u v d Hu Hp).
  - intros Hp.
    pose proof (transform_edges.path_projects g Hwf deg o g2 calls2 Hreal HAdj Ho _ _ _ Hp)
      as H.
    pose proof (transform.sz_pos g deg u). pose proof (transform.sz_pos g deg v).
    pose proof (Ho u 0 Hu ltac:(lia)) as E1. pose proof (Ho v 0 Hv ltac:(lia)) as E2.
    rewrite Nat.add_0_r in E1, E2. by rewrite E1, E2 in H.
Qed.

(** A walk of the transformed graph from a start id projects to a walk of
    the original graph to the origin of its end. *)
Lemma ToConstantDegree_projects g :
  wf g →
  ∃ tg, ToConstantDegree g = Some tg
    ∧ ∀ u x d, u < V g → path (G tg) (OriginalTo tg !!! u) x d →
        path g u (NewToOrigin tg !!! x) d.
Proof.
  intros Hwf.
  destruct (transform_shape.ToConstantDegree_shape g Hwf)
    as (deg & starts & o & g2 & calls2 & E & Ls & Hdeg & Hst & HV & HA & Lo & Ho
        & Hreal & _ & HAdj).
  eexists. split; [exact E|]. simpl. intros u x d Hu Hp.
  rewrite (Hst u Hu) in Hp.
  pose proof (transform_edges.path_projects g Hwf deg o g2 calls2 Hreal HAdj Ho _ _ _ Hp)
    as H.
  pose proof (transform.sz_pos g deg u).
  pose proof (Ho u 0 Hu ltac:(lia)) as E1. rewrite Nat.add_0_r in E1.
  by rewrite E1 in H.
Qed.

(** The sum along a walk of the transformed graph from a start id is the sum
    along a walk of the original graph to the origin of its end. *)
Lemma ToConstantDegree_sums g :
  wf g →
  ∃ tg, ToConstantDegree g = Some tg
    ∧ ∀ u x d0 d, u < V g → (d0 ≤ Infinity)%Z →
        summed (G tg) (OriginalTo tg !!! u) d0 x d →
        summed g u d0 (NewToOrigin tg !!! x) d.
Proof.
  intros Hwf.
  destruct (transform_shape.ToConstantDegree_shape g Hwf)
    as (deg & starts & o & g2 & calls2 & E & Ls & Hdeg & Hst & HV & HA & Lo & Ho
        & Hreal & _ & HAdj).
  eexists. split; [exact E|]. simpl. intros u x d0 d Hu H0 Hp.
  rewrite (Hst u Hu) in Hp.
  pose proof (transform_edges.summed_projects g Hwf deg o g2 calls2 Hreal HAdj Ho
                _ _ _ _ H0 Hp) as H.
  pose proof (transform.sz_pos g deg u).
  pose proof (Ho u 0 Hu ltac:(lia)) as E1. rewrite Nat.add_0_r in E1.
  by rewrite E1 in H.
Qed.

End transform_result.

Module transform_size.
Import graph notions transform_notions.

Lemma AddEdge_size g u v w g' :
  AddEdge g u v w = Some g' →
  length (concat (Adj g')) = S (length (concat (Adj g))).
Proof.
  unfold AddEdge. destruct (Adj g !! u) as [es|] eqn:E; [|done].
  intros [= <-]. simpl.
  pose proof (transform.concat_insert_count (λ _, True) (Adj g) u es
                {| To := v; Weight := w |} E) as H.
  rewrite !transform.filter_const in H. simpl in H. lia.
Qed.

Lemma addCalls_size calls : ∀ g g',
  foldM addCall g calls = Some g' →
  length (concat (Adj g')) = length (concat (Adj g)) + length calls.
Proof.
  induction calls as [|c calls IH]; intros g g'; simpl.
  - intros [= <-]. lia.
  - destruct (addCall g c) as [g1|] eqn:E1; [|done]. intros E.
    rewrite (IH g1 g' E). apply AddEdge_size in E1. lia.
Qed.

Lemma NewGraph_size n : length (concat (Adj (NewGraph n))) = 0.
Proof. simpl. induction n as [|n IH]; [done|]. simpl. done. Qed.

(** The transformed graph has one edge per transformed vertex, the step of
    its cycle, and one per original edge. *)
Lemma ToConstantDegree_size g :
  wf g →
  ∃ tg, ToConstantDegree g = Some tg
    ∧ length (concat (Adj (G tg))) = V (G tg) + length (concat (Adj g)).
Proof.
  intros Hwf.
  destruct (transform_shape.ToConstantDegree_shape g Hwf)
    as (deg & starts & o & g2 & calls2 & E & Ls & Hdeg & Hst & HV & HA & Lo & Ho
        & Hreal & Eall & HAdj).
  eexists. split; [exact E|]. simpl.
  rewrite (addCalls_size _ _ _ Eall), NewGraph_size, length_app. simpl.
  rewrite <-(Forall2_length _ _ _ Hreal).
  rewrite <-(transform_edges.edgeList_edges g (proj1 Hwf)), length_fmap.
  f_equal. rewrite HV.
  rewrite <-(length_fmap (λ c : call, c.1.1)). unfold cycleCalls.
  by rewrite transform.cycle_sources, length_seq.
Qed.

End transform_size.

Module map_back.
Import graph notions.

Lemma MapDistances_Some tg (dist : list Z) :
  Forall (λ s, s < length dist) (OriginalTo tg) →
  ∃ res, MapDistances tg dist = Some res
    ∧ length res = length (OriginalTo tg)
    ∧ ∀ i, i < length (OriginalTo tg) → res !!! i = dist !!! (OriginalTo tg !!! i).
Proof.
  intros HF. unfold MapDistances.
  destruct (mapM (λ s, dist !! s) (OriginalTo tg)) as [res|] eqn:E.
  - exists res. split; [done|]. pose proof (length_mapM _ _ _ E) as HL.
    split; [done|]. intros i Hi.
    apply mapM_Some in E.
    destruct (lookup_lt_is_Some_2 _ _ Hi) as [s Hs].
    destruct (Forall2_lookup_l _ _ _ _ _ E Hs) as (y & Hy & Hd).
    rewrite (list_lookup_total_correct _ _ _ Hy).
    rewrite (list_lookup_total_correct _ _ _ Hs).
    by rewrite (list_lookup_total_correct _ _ _ Hd).
  - exfalso. apply mapM_None in E. apply Exists_exists in E as (s & Hs & Hn).
    apply lookup_ge_None in Hn.
    pose proof (proj1 (Forall_forall _ _) HF s Hs) as Hlt. simpl in Hlt. lia.
Qed.

Lemma MapDistances_None tg (dist : list Z) :
  MapDistances tg dist = None ↔ ∃ s, s ∈ OriginalTo tg ∧ length dist ≤ s.
Proof.
  unfold MapDistances. rewrite mapM_None, Exists_exists.
  split; intros (s & Hs & H); exists s; (split; [done|]); by apply lookup_ge_None.
Qed.

End map_back.

Module graph_builder.
Import graph notions transform_notions examples.

(** [buildGraph] is a list of calls of [AddEdge] on a fresh graph. *)
Lemma buildGraph_calls n es : buildGraph n es = foldM addCall (NewGraph n) es.
Proof. done. Qed.

Lemma addCalls_None calls : ∀ g,
  foldM addCall g calls = None
  ↔ Exists (λ c : call, length (Adj g) ≤ c.1.1) calls.
Proof.
  induction calls as [|c calls IH]; intros g; simpl.
  - split; [done|]. by intros H%Exists_nil.
  - rewrite Exists_cons. unfold addCall at 1. unfold AddEdge.
    destruct (Adj g !! c.1.1) as [es|] eqn:E.
    + rewrite IH. simpl. rewrite length_insert.
      apply lookup_lt_Some in E. split; [by right|]. intros [?|?]; [lia|done].
    + apply lookup_ge_None in E. split; [by left|done].
Qed.

Lemma buildGraph_spec n es :
  Forall (λ c : call, c.1.1 < n) es →
  ∃ g, buildGraph n es = Some g
    ∧ V g = n ∧ length (Adj g) = n
    ∧ (∀ x, Adj g !!! x = edgeOf <$> filter (λ c : call, c.1.1 = x) es)
    ∧ (Forall (λ c : call, c.1.2 < n) es → wf g).
Proof.
  intros HF.
  destruct (graph_build.addCalls_adj es (NewGraph n)) as (g & E & HV & HL & HA).
  { simpl. by rewrite length_replicate. }
  simpl in HV, HL. rewrite length_replicate in HL.
  exists g. split_and!; [done|done|done| |].
  - intros x. by rewrite HA, graph_build.NewGraph_Adj.
  - intros HT. apply (graph_build.addCalls_wf es (NewGraph n) g); [|  |done].
    + apply graph_build.NewGraph_wf.
    + simpl. apply Forall_forall. intros c Hc. split.
      * by apply (proj1 (Forall_forall _ _) HF).
      * by apply (proj1 (Forall_forall _ _) HT).
Qed.

Lemma buildGraph_None n es :
  buildGraph n es = None ↔ Exists (λ c : call, n ≤ c.1.1) es.
Proof.
  rewrite buildGraph_calls, addCalls_None. simpl. by rewrite length_replicate.
Qed.

End graph_builder.

Module run_props.
Import graph ds sssp notions paths solver_notions.

Section with_solver.
Variable G : Graph.
Variables K T : nat.
Variable numWorkers : nat.
Variable relaxEdgesParallel :
  list nat → Z → Z → Z → DataStructure → DistMap →
  option (DistMap * DataStructure * list Item).
Variable bigInt : nat → Z.
Hypothesis Hone : numWorkers = 1.

(** *** Distances stay between 0 and +inf *)

Lemma BMSSP_range fuel l B S dist :
  nonneg_weights G →
  Forall (λ x, 0 ≤ x ≤ Infinity)%Z dist →
  Forall (λ x, 0 ≤ x ≤ Infinity)%Z (BMSSP G K T numWorkers relaxEdgesParallel bigInt fuel l B S dist).1.
Proof.
  intros Hw. apply relax_inv.BMSSP_kept; [|done]. intros d x e Hd He.
  apply Forall_insert; [done|].
  assert (0 ≤ d !!! x)%Z as Hx.
  { apply base_case.nonneg_lookup. eapply Forall_impl; [exact Hd|]. simpl. lia. }
  pose proof (base_case.nonneg_weights_at G x Hw) as HF.
  pose proof (proj1 (Forall_forall _ _) HF e He) as Hwe. simpl in Hwe.
  pose proof base_case.Infinity_pos. unfold fadd. lia.
Qed.

Lemma initial_range n source :
  Forall (λ x, 0 ≤ x ≤ Infinity)%Z (<[source := 0%Z]> (replicate n Infinity)).
Proof.
  pose proof base_case.Infinity_pos.
  apply Forall_insert; [|lia]. apply Forall_replicate. lia.
Qed.

Lemma Run_range fuel l source dist :
  nonneg_weights G →
  Forall (λ x, 0 ≤ x ≤ Infinity)%Z (Run G K T numWorkers relaxEdgesParallel bigInt fuel l source dist).1.
Proof.
  intros Hw. unfold Run. rewrite length_replicate.
  pose proof base_case.Infinity_pos.
  case_decide; [|simpl; apply Forall_replicate; lia].
  match goal with |- context [BMSSP G K T numWorkers relaxEdgesParallel bigInt fuel l ?B ?S ?d] =>
    pose proof (BMSSP_range fuel l B S d Hw (initial_range _ _)) as H1;
    destruct (BMSSP G K T numWorkers relaxEdgesParallel bigInt fuel l B S d) as [d1 [r| |]]
  end; done.
Qed.

Lemma Run_length fuel l source dist :
  length (Run G K T numWorkers relaxEdgesParallel bigInt fuel l source dist).1 = length dist.
Proof.
  unfold Run. rewrite length_replicate.
  case_decide; [|simpl; apply length_replicate].
  match goal with |- context [BMSSP G K T numWorkers relaxEdgesParallel bigInt fuel l ?B ?S ?d] =>
    pose proof (mono.BMSSP_le G K T numWorkers relaxEdgesParallel bigInt Hone fuel l B S d) as [H1 _];
    destruct (BMSSP G K T numWorkers relaxEdgesParallel bigInt fuel l B S d) as [d1 [r| |]]
  end; simpl in *; by rewrite H1, length_insert, length_replicate.
Qed.

(** *** The source stays at 0 *)

Lemma Run_source fuel l source dist :
  nonneg_weights G → source < length dist →
  (Run G K T numWorkers relaxEdgesParallel bigInt fuel l source dist).1 !!! source = 0%Z.
Proof.
  intros Hw Hs.
  pose proof (mono.Run_le G K T numWorkers relaxEdgesParallel bigInt Hone fuel l source dist Hs) as [_ Hle].
  specialize (Hle source).
  rewrite list_lookup_total_insert_eq in Hle by (by rewrite length_replicate).
  pose proof (Run_range fuel l source dist Hw) as HF.
  assert (0 ≤ (Run G K T numWorkers relaxEdgesParallel bigInt fuel l source dist).1 !!! source)%Z.
  { apply base_case.nonneg_lookup. eapply Forall_impl; [exact HF|]. simpl. lia. }
  lia.
Qed.

(** *** Every distance is +inf or the weight of a walk from the source *)

Lemma BMSSP_realised fuel l B S s dist :
  nonneg_weights G →
  length (Adj G) = length dist → realised G s dist →
  realised G s (BMSSP G K T numWorkers relaxEdgesParallel bigInt fuel l B S dist).1.
Proof.
  intros Hw HL Hr.
  pose proof (relax_inv.BMSSP_kept G K T
                (λ d, length (Adj G) = length d ∧ realised G s d)) as H.
  apply H; [|done|done]. clear H. intros d x e [HL' Hr'] He.
  split; [by rewrite length_insert|].
  by apply relax_inv.realised_write.
Qed.

Lemma initial_realised n source :
  realised G source (<[source := 0%Z]> (replicate n Infinity)).
Proof.
  intros v Hv. rewrite length_insert, length_replicate in Hv.
  destruct (decide (v = source)) as [->|Hne].
  - right. rewrite list_lookup_total_insert_eq by (by rewrite length_replicate).
    constructor.
  - left. rewrite list_lookup_total_insert_ne by done.
    by apply lookup_total_replicate_2.
Qed.

Lemma Run_realised fuel l source dist :
  nonneg_weights G → length (Adj G) = length dist →
  realised G source (Run G K T numWorkers relaxEdgesParallel bigInt fuel l source dist).1.
Proof.
  intros Hw HL. unfold Run. rewrite length_replicate.
  case_decide.
  - match goal with |- context [BMSSP G K T numWorkers relaxEdgesParallel bigInt fuel l ?B ?S ?d] =>
      pose proof (BMSSP_realised fuel l B S source d Hw) as H1;
      destruct (BMSSP G K T numWorkers relaxEdgesParallel bigInt fuel l B S d) as [d1 [r| |]]
    end; simpl in *; apply H1;
      (by rewrite length_insert, length_replicate) || apply initial_realised.
  - simpl. intros v Hv. left. rewrite length_replicate in Hv.
    by apply lookup_total_replicate_2.
Qed.

(** *** [Run] panics on a source out of range, and only then *)

Lemma Run_outcome fuel l source dist :
  (Run G K T numWorkers relaxEdgesParallel bigInt fuel l source dist).2 = Panic ↔ length dist ≤ source.
Proof.
  unfold Run. rewrite length_replicate. case_decide.
  - match goal with |- context [BMSSP G K T numWorkers relaxEdgesParallel bigInt fuel l ?B ?S ?d] =>
      pose proof (no_panic.BMSSP_no_panic G K T numWorkers relaxEdgesParallel bigInt Hone fuel l B S d) as H1;
      destruct (BMSSP G K T numWorkers relaxEdgesParallel bigInt fuel l B S d) as [d1 [r| |]]
    end; simpl in *; split; (done || lia).
  - simpl. split; [lia|done].
Qed.

End with_solver.
End run_props.

Module pipeline.
Import graph ds sssp notions paths.

(** The transform, a run from the start id of [source] on one worker, and
    the map back. *)
Lemma transform_run_map g k0 t0 relaxEdgesParallel bigInt fuel l source :
  wf g → nonneg_weights g → source < V g →
  ∃ tg res,
    ToConstantDegree g = Some tg
    ∧ (let s := NewSolver (graph.G tg) k0 t0 1 in
       let r := Run (graph.G tg) (sssp.K s) (sssp.T s) (sssp.numWorkers s)
                    relaxEdgesParallel bigInt fuel l
                    (OriginalTo tg !!! source) (Dist s) in
       r.2 ≠ Panic ∧ MapDistances tg r.1 = Some res)
    ∧ length res = V g
    ∧ res !!! source = 0%Z
    ∧ ∀ v, v < V g →
        (0 ≤ res !!! v ≤ Infinity)%Z
        ∧ (res !!! v = Infinity ∨ summed g source 0 v (res !!! v)).
Proof.
  intros Hwf Hw Hs.
  destruct (transform_result.ToConstantDegree_layout g Hwf)
    as (tg & E & Ls & Lo & _ & Hst & Horig).
  destruct (transform_result.ToConstantDegree_wf g Hwf) as (tg1 & E1 & Hwf2 & Hw2).
  rewrite E in E1. injection E1 as <-. specialize (Hw2 Hw).
  destruct (transform_result.ToConstantDegree_sums g Hwf) as (tg1 & E1 & Hp).
  rewrite E in E1. injection E1 as <-.
  cbn [NewSolver sssp.K sssp.T sssp.numWorkers Dist].
  rewrite (decide_False (P := 8 < 1)) by lia.
  set (Kc := if decide (k0 < 2) then 2 else k0).
  set (Tc := if decide (t0 < 2) then 2 else t0).
  set (src := OriginalTo tg !!! source).
  set (r := Run (graph.G tg) Kc Tc 1 relaxEdgesParallel bigInt fuel l src
                (replicate (V (graph.G tg)) 0%Z)).
  assert (length r.1 = V (graph.G tg)) as Ld.
  { unfold r. by rewrite run_props.Run_length, length_replicate. }
  assert (src < V (graph.G tg)) as Hsrc by (by apply Hst).
  destruct (map_back.MapDistances_Some tg r.1) as (res & Eres & Lres & Hres).
  { rewrite Ld. apply Forall_forall. intros s Hin.
    apply list_elem_of_lookup in Hin as [u Hu].
    pose proof (lookup_lt_Some _ _ _ Hu) as Hlt. rewrite Ls in Hlt.
    destruct (Hst u Hlt) as [H _].
    by rewrite (list_lookup_total_correct _ _ _ Hu) in H. }
  exists tg, res. split; [done|]. split; [|split; [congruence|split]].
  - cbv zeta. split; [|done].
    intros HP. apply (run_props.Run_outcome _ _ _ _ _ _ eq_refl) in HP.
    rewrite length_replicate in HP. lia.
  - rewrite Hres by lia. apply run_props.Run_source; [done|done|].
    by rewrite length_replicate.
  - intros v Hv. rewrite Hres by lia. split.
    + pose proof (run_props.Run_range (graph.G tg) Kc Tc 1 relaxEdgesParallel bigInt
                    eq_refl fuel l src (replicate (V (graph.G tg)) 0%Z) Hw2) as HF.
      fold r in HF.
      destruct (Hst v Hv) as [Hlt _]. rewrite <-Ld in Hlt.
      destruct (lookup_lt_is_Some_2 _ _ Hlt) as [y Hy].
      rewrite (list_lookup_total_correct _ _ _ Hy).
      by apply (Forall_lookup_1 _ _ _ _ HF Hy).
    + pose proof (run_props.Run_realised (graph.G tg) Kc Tc 1 relaxEdgesParallel bigInt
                    eq_refl fuel l src (replicate (V (graph.G tg)) 0%Z) Hw2) as Hr.
      fold r in Hr.
      destruct (Hr ltac:(rewrite length_replicate; apply Hwf2) (OriginalTo tg !!! v))
        as [Hinf|Hpath].
      { rewrite Ld. by apply Hst. }
      * by left.
      * right. pose proof base_case.Infinity_pos.
        pose proof (Hp source _ 0%Z _ Hs ltac:(lia) Hpath) as H1.
        destruct (Hst v Hv) as [_ Ho]. specialize (Ho 0 ltac:(lia)).
        rewrite Nat.add_0_r in Ho. by rewrite Ho in H1.
Qed.

End pipeline.

Module sorting.
Import ds notions ds_notions.

(** *** [sort.Slice] *)

Lemma insertSorted_perm x l : insertSorted x l ≡ₚ x :: l.
Proof.
  induction l as [|y l IH]; simpl; [done|].
  case_decide; [|done]. rewrite IH. apply Permutation_swap.
Qed.

Lemma sortItems_perm l : sortItems l ≡ₚ l.
Proof.
  unfold sortItems.
  assert (∀ acc, foldl (λ acc x, insertSorted x acc) acc l ≡ₚ acc ++ l) as H.
  { induction l as [|x l IH]; intros acc; simpl; [by rewrite app_nil_r|].
    rewrite IH, insertSorted_perm. simpl. apply Permutation_middle. }
  by rewrite H.
Qed.

Lemma insertSorted_ascending x l : ascending l → ascending (insertSorted x l).
Proof.
  induction l as [|y l IH]; simpl; [done|]. intros [Hy Hl].
  case_decide as Hc; simpl.
  - split; [|by apply IH]. rewrite insertSorted_perm. by constructor.
  - split_and!; [|done..]. constructor; [lia|].
    eapply Forall_impl; [exact Hy|]. simpl. intros. lia.
Qed.

Lemma sortItems_ascending l : ascending (sortItems l).
Proof.
  unfold sortItems.
  assert (∀ acc, ascending acc →
                 ascending (foldl (λ acc x, insertSorted x acc) acc l)) as H.
  { induction l as [|x l IH]; intros acc Hacc; simpl; [done|].
    by apply IH, insertSorted_ascending. }
  by apply H.
Qed.

Lemma ascending_app l1 l2 :
  ascending (l1 ++ l2)
  ↔ ascending l1 ∧ ascending l2
    ∧ Forall (λ x, Forall (λ y, (Value x ≤ Value y)%Z) l2) l1.
Proof.
  induction l1 as [|x l1 IH]; simpl.
  - split; [intros; split_and!; [done|done|constructor]|by intros (_ & ? & _)].
  - rewrite IH, Forall_app, Forall_cons. tauto.
Qed.

Lemma ascending_take_drop n l :
  ascending l →
  ascending (take n l) ∧ ascending (drop n l)
  ∧ Forall (λ x, Forall (λ y, (Value x ≤ Value y)%Z) (drop n l)) (take n l).
Proof. intros H. apply ascending_app. by rewrite take_drop. Qed.

(** The item before the middle bounds the left half from above and the
    right half from below. *)
Lemma ascending_middle l n it :
  ascending l → l !! (n - 1) = Some it → 0 < n →
  Forall (λ x, (Value x ≤ Value it)%Z) (take n l)
  ∧ Forall (λ y, (Value it ≤ Value y)%Z) (drop n l).
Proof.
  intros Hl Hit Hn.
  assert (take n l = take (n - 1) l ++ [it]) as E.
  { replace n with (S (n - 1)) at 1 by lia. by apply take_S_r. }
  destruct (ascending_take_drop n l Hl) as (H1 & _ & H3).
  rewrite E in H1, H3. split.
  - rewrite E. apply ascending_app in H1 as (_ & _ & H1).
    apply Forall_app. split; [|by repeat constructor].
    eapply Forall_impl; [exact H1|]. simpl. intros x Hx.
    by inversion Hx.
  - apply Forall_app in H3 as [_ H3]. by inversion H3.
Qed.

(** *** [sort.Search] *)

Lemma searchLoop_spec fuel f : ∀ i j,
  i ≤ j → j - i ≤ fuel →
  i ≤ searchLoop fuel f i j ≤ j
  ∧ (i < searchLoop fuel f i j → f (searchLoop fuel f i j - 1) = false)
  ∧ (searchLoop fuel f i j < j → f (searchLoop fuel f i j) = true).
Proof.
  induction fuel as [|fuel IH]; intros i j Hij Hf; cbn [searchLoop].
  - repeat split; lia.
  - case_decide as Hlt; [|repeat split; lia].
    assert ((i + j) / 2 < j) as Hh.
    { apply Nat.Div0.div_lt_upper_bound. lia. }
    assert (i ≤ (i + j) / 2) as Hl.
    { apply Nat.div_le_lower_bound; lia. }
    generalize dependent ((i + j) / 2). intros h Hh Hl.
    destruct (f h) eqn:Efh.
    + destruct (IH i h) as (H1 & H2 & H3); [lia..|].
      split; [lia|]. split; [done|]. intros _.
      destruct (decide (searchLoop fuel f i h = h)) as [->|Hne]; [done|].
      apply H3. lia.
    + destruct (IH (h + 1) j) as (H1 & H2 & H3); [lia..|].
      split; [lia|]. split; [|done]. intros _.
      destruct (decide (searchLoop fuel f (h + 1) j = h + 1)) as [->|Hne].
      * by replace (h + 1 - 1) with h by lia.
      * apply H2. lia.
Qed.

Lemma sortSearch_spec n f :
  sortSearch n f ≤ n
  ∧ (0 < sortSearch n f → f (sortSearch n f - 1) = false)
  ∧ (sortSearch n f < n → f (sortSearch n f) = true).
Proof.
  unfold sortSearch. destruct (searchLoop_spec n f 0 n) as (H1 & H2 & H3); [lia..|].
  split; [lia|]. by split.
Qed.

(** On a monotone predicate the search finds the first index that holds. *)
Lemma sortSearch_first n f :
  (∀ i k, i ≤ k → k < n → f i = true → f k = true) →
  ∀ i, i < sortSearch n f → f i = false.
Proof.
  intros Hmono i Hi. destruct (sortSearch_spec n f) as (H1 & H2 & _).
  destruct (f i) eqn:E; [|done].
  rewrite <-(H2 ltac:(lia)). symmetry. apply (Hmono i); [lia|lia|done].
Qed.

End sorting.

Module ds_insert.
Import ds notions ds_notions.

(** *** The shape of the structure after [Insert] *)

Lemma insert_middle {A} (l1 l2 : list A) b x :
  <[length l1 := x]> (l1 ++ b :: l2) = l1 ++ x :: l2.
Proof. rewrite insert_app_r_alt by lia. by rewrite Nat.sub_diag. Qed.

(** What [Insert] does once the block is chosen. *)
Lemma insert_at D l1 b l2 item :
  1 ≤ M D →
  (let blocks := l1 ++ b :: l2 in
   let idx := length l1 in
   let targetBlock :=
     {| items := item :: items (blocks !!! idx);
        upperBound := upperBound (blocks !!! idx) |} in
   let ds' := {| M := M D; B := B D; Count := Count D + 1; d0 := d0 D;
                 d1 := <[idx := targetBlock]> blocks |} in
   if decide (M D < size targetBlock) then split ds' idx else Some ds')
  = Some {| M := M D; B := B D; Count := Count D + 1; d0 := d0 D;
            d1 := l1 ++ (if decide (M D < S (size b)) then halves (grown b item)
                         else [grown b item]) ++ l2 |}.
Proof.
  intros HM. cbv zeta.
  rewrite (list_lookup_total_middle l1 l2 b (length l1) eq_refl).
  rewrite insert_middle.
  unfold size. simpl.
  destruct (decide (M D < S (length (items b)))) as [Hsz|Hsz]; [|done].
  unfold split. cbn [d1 d0 M B Count].
  rewrite (list_lookup_total_middle l1 l2 _ (length l1) eq_refl).
  cbn [items upperBound].
  pose proof (ds_props.sortItems_length (item :: items b)) as Hlen.
  set (its := sortItems (item :: items b)) in *. simpl in Hlen.
  assert (1 ≤ length its / 2) as Hmid.
  { apply Nat.div_le_lower_bound; lia. }
  assert (length its / 2 ≤ length its) as Hmid2.
  { apply Nat.Div0.div_le_upper_bound. lia. }
  destruct (lookup_lt_is_Some_2 its (length its / 2 - 1)) as [it Hit]; [lia|].
  unfold halves, grown. cbn [items upperBound]. fold its. rewrite Hit.
  cbn [from_option].
  case_decide; [lia|]. do 2 f_equal.
  rewrite insert_middle.
  rewrite (take_app_add' l1 _ (length l1) 1 eq_refl).
  rewrite (drop_app_add' l1 _ (length l1) 1 eq_refl). simpl.
  by rewrite <-app_assoc.
Qed.

Lemma Insert_shape D key val :
  1 ≤ M D →
  ∃ l1 b l2,
    (if decide (d1 D = []) then [ {| items := []; upperBound := Infinity |} ]
     else d1 D) = l1 ++ b :: l2
    ∧ (((val ≤ upperBound b)%Z
        ∧ ∀ p, last l1 = Some p → (upperBound p < val)%Z)
       ∨ (l2 = [] ∧ (upperBound b < val)%Z))
    ∧ Insert D key val
      = Some {| M := M D; B := B D; Count := Count D + 1; d0 := d0 D;
                d1 := l1 ++ (if decide (M D < S (size b))
                             then halves (grown b {| Key := key; Value := val |})
                             else [grown b {| Key := key; Value := val |}])
                         ++ l2 |}.
Proof.
  intros HM. unfold Insert.
  set (f := λ i, bool_decide (val ≤ upperBound (d1 D !!! i))%Z).
  destruct (sorting.sortSearch_spec (length (d1 D)) f) as (Hle & Hlo & Hhi).
  set (idx0 := sortSearch (length (d1 D)) f) in *.
  destruct (decide (idx0 = length (d1 D))) as [Heq|Hne].
  - destruct (decide (length (d1 D) = 0)) as [Hz|Hnz].
    + apply nil_length_inv in Hz. rewrite decide_True by done.
      exists [], {| items := []; upperBound := Infinity |}, [].
      split; [done|]. split.
      2:{ apply (insert_at D [] _ [] _ HM). }
      destruct (decide (val ≤ Infinity)%Z); [left|right; simpl; split; [done|lia]].
      split; [done|]. intros p. done.
    + assert (d1 D ≠ []) as Hnn by (intros E; rewrite E in Hnz; done).
      rewrite decide_False by done.
      destruct (lookup_lt_is_Some_2 (d1 D) (length (d1 D) - 1)) as [b Hb]; [lia|].
      exists (take (length (d1 D) - 1) (d1 D)), b, [].
      assert (d1 D = take (length (d1 D) - 1) (d1 D) ++ [b]) as Hd.
      { rewrite <-(take_drop_middle _ _ _ Hb) at 1.
        replace (S (length (d1 D) - 1)) with (length (d1 D)) by lia.
        by rewrite drop_all. }
      split; [done|]. split.
      * right. split; [done|].
        specialize (Hlo ltac:(lia)). rewrite Heq in Hlo. unfold f in Hlo.
        apply bool_decide_eq_false in Hlo.
        rewrite (list_lookup_total_correct _ _ _ Hb) in Hlo. lia.
      * pose proof (insert_at D (take (length (d1 D) - 1) (d1 D)) b []
                      {| Key := key; Value := val |} HM) as H.
        cbv zeta in H. rewrite <-Hd in H.
        rewrite length_take, Nat.min_l in H by lia.
        exact H.
  - assert (idx0 < length (d1 D)) as Hlt by lia.
    assert (d1 D ≠ []) as Hnn by (intros E; rewrite E in Hlt; simpl in Hlt; lia).
    rewrite decide_False by done.
    destruct (lookup_lt_is_Some_2 (d1 D) idx0 Hlt) as [b Hb].
    exists (take idx0 (d1 D)), b, (drop (S idx0) (d1 D)).
    pose proof (take_drop_middle _ _ _ Hb) as Hd.
    split; [done|]. split.
    + left. split.
      * specialize (Hhi Hlt). unfold f in Hhi. apply bool_decide_eq_true in Hhi.
        by rewrite (list_lookup_total_correct _ _ _ Hb) in Hhi.
      * intros p Hp. rewrite last_lookup, length_take, Nat.min_l in Hp by lia.
        destruct idx0 as [|i]; [done|]. simpl in Hp.
        rewrite lookup_take_lt in Hp by lia.
        specialize (Hlo ltac:(lia)). unfold f in Hlo.
        apply bool_decide_eq_false in Hlo.
        replace (S i - 1) with i in Hlo by lia.
        rewrite (list_lookup_total_correct _ _ _ Hp) in Hlo. lia.
    + pose proof (insert_at D (take idx0 (d1 D)) b (drop (S idx0) (d1 D))
                    {| Key := key; Value := val |} HM) as H.
      cbv zeta in H. rewrite Hd in H. rewrite length_take, Nat.min_l in H by lia.
      exact H.
Qed.

End ds_insert.

Module ds_blocks.
Import ds notions ds_notions.

(** *** Sequences of blocks *)

Lemma held_app l1 l2 : held (l1 ++ l2) = held l1 ++ held l2.
Proof. unfold held. by rewrite fmap_app, concat_app. Qed.

Lemma held_cons b l : held (b :: l) = items b ++ held l.
Proof. done. Qed.

Lemma contents_held D : contents D = held (d0 D) ++ held (d1 D).
Proof. done. Qed.

Lemma ordered_weaken lo lo' bs : (lo' ≤ lo)%Z → ordered lo bs → ordered lo' bs.
Proof.
  destruct bs as [|b bs]; [done|]. simpl. intros Hle (H1 & H2 & H3).
  split; [lia|]. split; [|done].
  eapply Forall_impl; [exact H2|]. simpl. intros. lia.
Qed.

Lemma hi_nil lo : hi lo [] = lo.
Proof. done. Qed.

Lemma hi_cons lo b bs : hi lo (b :: bs) = hi (upperBound b) bs.
Proof.
  unfold hi. rewrite last_cons. by destruct (last bs).
Qed.

Lemma ordered_app lo l1 l2 :
  ordered lo (l1 ++ l2) ↔ ordered lo l1 ∧ ordered (hi lo l1) l2.
Proof.
  revert lo. induction l1 as [|b l1 IH]; intros lo; simpl.
  - rewrite hi_nil. tauto.
  - rewrite IH, hi_cons. tauto.
Qed.

Lemma hi_le lo bs : ordered lo bs → (lo ≤ hi lo bs)%Z.
Proof.
  revert lo. induction bs as [|b bs IH]; intros lo; [by rewrite hi_nil|].
  simpl. intros (H1 & _ & H3). rewrite hi_cons. specialize (IH _ H3). lia.
Qed.

(** Under an ordered sequence every value is at most the last bound. *)
Lemma ordered_values lo bs :
  ordered lo bs → Forall (λ it, (lo ≤ Value it ≤ hi lo bs)%Z) (held bs).
Proof.
  revert lo. induction bs as [|b bs IH]; intros lo; [constructor|].
  simpl. intros (H1 & H2 & H3). rewrite held_cons, hi_cons.
  pose proof (hi_le _ _ H3) as Hh. apply Forall_app. split.
  - eapply Forall_impl; [exact H2|]. simpl. intros. lia.
  - eapply Forall_impl; [exact (IH _ H3)|]. simpl. intros. lia.
Qed.

Lemma ordered_filter (P : block → Prop) `{!∀ b, Decision (P b)} bs : ∀ lo,
  ordered lo bs → ordered lo (filter P bs).
Proof.
  induction bs as [|b bs IH]; intros lo; [done|].
  simpl. intros (H1 & H2 & H3). rewrite filter_cons.
  case_decide; simpl.
  - split_and!; [done..|]. by apply IH.
  - apply IH. by apply (ordered_weaken (upperBound b)).
Qed.

(** *** What [Insert] keeps *)

Lemma halves_held b : 2 ≤ size b → held (halves b) ≡ₚ items b.
Proof.
  intros _. unfold halves, held. simpl. rewrite app_nil_r, take_drop.
  apply sorting.sortItems_perm.
Qed.

Lemma halves_sizes b m :
  1 ≤ m → size b = S m → Forall (λ b', 1 ≤ size b' ≤ m) (halves b).
Proof.
  intros Hm Hb. unfold halves, size in *.
  pose proof (ds_props.sortItems_length (items b)) as Hlen.
  set (its := sortItems (items b)) in *.
  assert (1 ≤ length its / 2) as Hmid.
  { apply Nat.div_le_lower_bound; lia. }
  assert (length its / 2 < length its) as Hmid2.
  { apply Nat.Div0.div_lt_upper_bound. lia. }
  apply Forall_cons. split; [|apply Forall_singleton]; cbn [items];
    rewrite ?length_take, ?length_drop; lia.
Qed.

Lemma Insert_kept D key val D' :
  1 ≤ M D → Insert D key val = Some D' →
  M D' = M D ∧ B D' = B D ∧ Count D' = Count D + 1 ∧ d0 D' = d0 D
  ∧ contents D' ≡ₚ {| Key := key; Value := val |} :: contents D.
Proof.
  intros HM E.
  destruct (ds_insert.Insert_shape D key val HM) as (l1 & b & l2 & Hb & _ & E').
  rewrite E in E'. injection E' as ->. simpl. split_and!; [done..|].
  rewrite !contents_held. simpl.
  assert (held (d1 D) = held (l1 ++ b :: l2)) as ->.
  { rewrite <-Hb. case_decide as Hd; [|done]. by rewrite Hd. }
  rewrite !held_app, held_cons.
  assert (held (if decide (M D < S (size b))
                then halves (grown b {| Key := key; Value := val |})
                else [grown b {| Key := key; Value := val |}])
          ≡ₚ {| Key := key; Value := val |} :: items b) as ->.
  { destruct (decide (M D < S (size b))).
    - rewrite halves_held; [done|]. unfold size in *. simpl. lia.
    - unfold held. simpl. by rewrite app_nil_r. }
  simpl. by rewrite <-!Permutation_middle.
Qed.

Lemma Insert_capacity D key val D' :
  capacity D → Insert D key val = Some D' → capacity D'.
Proof.
  intros (HM & HF & HC) E.
  destruct (Insert_kept D key val D' HM E) as (EM & _ & EC & E0 & Hperm).
  split_and!; [lia| |rewrite EC, HC, Hperm; simpl; lia].
  destruct (ds_insert.Insert_shape D key val HM) as (l1 & b & l2 & Hb & _ & E').
  rewrite E in E'. injection E' as ->. simpl in *.
  apply Forall_app in HF as [HF0 HF1].
  assert (Forall (λ b, size b ≤ M D) (l1 ++ b :: l2)
          ∧ Forall (λ b, 1 ≤ size b ≤ M D) (l1 ++ l2)) as [Hall Hrest].
  { destruct (decide (d1 D = [])) as [Hd|Hd].
    - destruct l1 as [|? [|? ?]]; try done. injection Hb as <- <-.
      split; [|constructor]. apply Forall_singleton. unfold size. simpl. lia.
    - rewrite <-Hb. split.
      + eapply Forall_impl; [exact HF1|]. simpl. intros. lia.
      + rewrite Hb in HF1. apply Forall_app in HF1 as [H1 H2].
        apply Forall_cons in H2 as [_ H2]. by apply Forall_app. }
  apply Forall_app in Hrest as [Hr1 Hr2].
  apply Forall_app in Hall as [_ Hall]. apply Forall_cons in Hall as [Hbsz _].
  apply Forall_app. split; [done|].
  apply Forall_app. split; [done|]. apply Forall_app. split; [|done].
  destruct (decide (M D < S (size b))) as [Hsz|Hsz].
  - apply halves_sizes; [done|]. unfold size in *. simpl. lia.
  - apply Forall_singleton. unfold size in *. simpl. lia.
Qed.

Lemma halves_ordered h b :
  2 ≤ size b → (h ≤ upperBound b)%Z →
  Forall (λ it, (h ≤ Value it ≤ upperBound b)%Z) (items b) →
  ∀ l2, ordered (upperBound b) l2 → ordered h (halves b ++ l2).
Proof.
  intros Hsz Hh HF l2 H2. unfold halves, size in *.
  pose proof (ds_props.sortItems_length (items b)) as Hlen.
  pose proof (sorting.sortItems_ascending (items b)) as Hasc.
  assert (Forall (λ it, (h ≤ Value it ≤ upperBound b)%Z) (sortItems (items b))) as HF'.
  { by rewrite sorting.sortItems_perm. }
  set (its := sortItems (items b)) in *.
  assert (1 ≤ length its / 2) as Hmid.
  { apply Nat.div_le_lower_bound; lia. }
  assert (length its / 2 < length its) as Hmid2.
  { apply Nat.Div0.div_lt_upper_bound. lia. }
  destruct (lookup_lt_is_Some_2 its (length its / 2 - 1)) as [it Hit]; [lia|].
  rewrite Hit. cbn [from_option].
  destruct (sorting.ascending_middle its (length its / 2) it Hasc Hit ltac:(lia))
    as [Hleft Hright].
  pose proof (Forall_lookup_1 _ _ _ _ HF' Hit) as Hbit. simpl in Hbit.
  cbn [app ordered items upperBound]. split_and!; [lia| |lia| |done].
  - pose proof (Forall_take _ (length its / 2) _ HF') as H3.
    eapply Forall_impl; [apply Forall_and; split; [exact Hleft|exact H3]|].
    simpl. intros. lia.
  - pose proof (Forall_drop _ (length its / 2) _ HF') as H3.
    eapply Forall_impl; [apply Forall_and; split; [exact Hright|exact H3]|].
    simpl. intros. lia.
Qed.

Lemma Insert_ordered D key val D' :
  1 ≤ M D → (val ≤ Infinity)%Z → insert_only D →
  Insert D key val = Some D' → insert_only D'.
Proof.
  intros HM Hval (H0 & [lo0 Hord] & Hlast) E.
  destruct (ds_insert.Insert_shape D key val HM) as (l1 & b & l2 & Hb & Hcase & E').
  rewrite E in E'. injection E' as ->. simpl.
  set (item := {| Key := key; Value := val |}) in *.
  assert (∃ lo, ordered lo (l1 ++ b :: l2) ∧ (lo ≤ val)%Z
                ∧ ∀ p, last (l1 ++ b :: l2) = Some p → upperBound p = Infinity)
    as (lo & Hord' & Hlo & Hlast').
  { rewrite <-Hb. destruct (decide (d1 D = [])) as [Hd|Hd].
    - exists val. simpl. split_and!; [done|constructor|done|lia|].
      by intros p [= <-].
    - exists (Z.min lo0 val). split_and!; [|lia|done].
      apply (ordered_weaken lo0); [lia|done]. }
  apply ordered_app in Hord' as [Ho1 Ho2]. simpl in Ho2.
  destruct Ho2 as (Hhb & HFb & Ho2).
  assert (val ≤ upperBound b ∧ hi lo l1 ≤ val)%Z as [Hvb Hhv].
  { destruct Hcase as [[Hvb Hp]|[-> Hlt]].
    - split; [done|]. unfold hi. destruct (last l1) as [p|] eqn:Ep; simpl; [|done].
      specialize (Hp p eq_refl). lia.
    - specialize (Hlast' b). rewrite last_snoc in Hlast'.
      specialize (Hlast' eq_refl). lia. }
  split_and!; [done| |].
  - exists lo. apply ordered_app. split; [done|].
    destruct (decide (M D < S (size b))) as [Hsz|Hsz].
    + apply halves_ordered; [unfold size in *; simpl; lia|done| |done].
      simpl. constructor; [simpl; lia|done].
    + simpl. split_and!; [done| |done]. constructor; [simpl; lia|done].
  - intros p. cbn [d1]. rewrite app_assoc.
    destruct l2 as [|b2 l2].
    + rewrite app_nil_r. specialize (Hlast' b). rewrite last_snoc in Hlast'.
      specialize (Hlast' eq_refl).
      destruct (decide (M D < S (size b))) as [Hsz|Hsz].
      * unfold halves. cbv zeta. rewrite last_app_cons. cbn [last]. by intros [= <-].
      * rewrite last_snoc. by intros [= <-].
    + rewrite last_app_cons. intros Hp. apply Hlast'.
      by rewrite last_app_cons, last_cons_cons.
Qed.

End ds_blocks.

Module ds_batch.
Import ds notions ds_notions ds_blocks.

(** *** What [BatchPrepend] keeps *)

Lemma held_reverse bs : held (reverse bs) ≡ₚ held bs.
Proof.
  induction bs as [|b bs IH]; [done|].
  rewrite reverse_cons, held_app, held_cons, IH. unfold held at 2. simpl.
  rewrite app_nil_r. apply Permutation_app_comm.
Qed.

Lemma chunks_held n m : ∀ its,
  1 ≤ m → length its ≤ n → held (blockOf <$> chunksOf n m its) ≡ₚ its.
Proof.
  induction n as [|n IH]; intros its Hm Hn.
  - destruct its; simpl in *; [done|lia].
  - destruct its as [|x its]; [done|].
    cbn [chunksOf]. rewrite fmap_cons, held_cons.
    rewrite IH by (rewrite ?length_drop; simpl in *; lia).
    unfold blockOf. cbn [items]. rewrite reverse_Permutation.
    by rewrite take_drop.
Qed.

Lemma chunks_sizes n m : ∀ its,
  1 ≤ m → Forall (λ b, 1 ≤ size b ≤ m) (blockOf <$> chunksOf n m its).
Proof.
  induction n as [|n IH]; intros its Hm.
  - destruct its; simpl; constructor.
  - destruct its as [|x its]; [constructor|].
    cbn [chunksOf]. rewrite fmap_cons. constructor; [|by apply IH].
    unfold size, blockOf. cbn [items].
    rewrite length_reverse, length_take. simpl. lia.
Qed.

Lemma BatchPrepend_kept D its :
  1 ≤ M D →
  ∃ D', BatchPrepend D its = Some D'
    ∧ M D' = M D ∧ B D' = B D ∧ Count D' = Count D + length its
    ∧ d1 D' = d1 D
    ∧ contents D' ≡ₚ its ++ contents D
    ∧ (capacity D → capacity D').
Proof.
  intros HM. destruct its as [|x its].
  { exists D. split_and!; try done; simpl; lia. }
  rewrite (ds_props.BatchPrepend_blocks D x its HM).
  eexists. split; [done|]. cbn [M B Count d0 d1].
  set (bs := blockOf <$> chunksOf _ _ _).
  assert (held bs ≡ₚ x :: its) as Hheld.
  { unfold bs. rewrite chunks_held; [apply sorting.sortItems_perm|done|].
    by rewrite ds_props.sortItems_length. }
  assert (contents {| M := M D; B := B D; Count := Count D + length (x :: its);
                      d0 := reverse bs ++ d0 D; d1 := d1 D |}
          ≡ₚ (x :: its) ++ contents D) as Hperm.
  { rewrite !contents_held. cbn [d0 d1].
    by rewrite held_app, held_reverse, Hheld, <-app_assoc. }
  split_and!; [done..|].
  intros (_ & HF & HC). split_and!; [done| |].
  - cbn [M d0 d1]. rewrite <-app_assoc. apply Forall_app. split; [|done].
    apply Forall_reverse. by apply chunks_sizes.
  - cbn [Count]. rewrite Hperm, length_app, HC. lia.
Qed.

End ds_batch.

Module ds_pull.
Import ds notions ds_notions ds_blocks.

(** *** The loops of [Pull] *)

Lemma pullD0Step_eq m : pullD0Step m = pullStep id m.
Proof. done. Qed.

Lemma pullD1Step_eq m : pullD1Step m = pullStep sortBlock m.
Proof. done. Qed.

Lemma sortBlock_items b : items (sortBlock b) ≡ₚ items b.
Proof.
  unfold sortBlock. case_decide; [done|]. apply sorting.sortItems_perm.
Qed.

Lemma sortBlock_size b : size (sortBlock b) = size b.
Proof. unfold size. by rewrite sortBlock_items. Qed.

Lemma sortBlock_bound b : upperBound (sortBlock b) = upperBound b.
Proof. unfold sortBlock. by case_decide. Qed.

Lemma sortBlock_ascending b : ascending (items (sortBlock b)).
Proof.
  unfold sortBlock. case_decide as H; [|apply sorting.sortItems_ascending].
  unfold size in H. destruct (items b) as [|x [|y l]]; simpl in *; [done| |lia].
  split; [constructor|done].
Qed.

Section loop.
Variable pre : block → block.
Variable m : nat.
Hypothesis pre_items : ∀ b, items (pre b) ≡ₚ items b.

Lemma pullStep_spec active coll cnt blk :
  ∃ new taken,
    pullStep pre m (active, (coll, cnt)) blk
    = (active ++ new, (coll ++ taken, cnt - length taken))
    ∧ taken ++ held new ≡ₚ items blk
    ∧ length taken = min (size blk) (m - length coll)
    ∧ Forall (λ b, 1 ≤ size b ≤ size blk) new.
Proof.
  unfold pullStep. cbn [fst snd].
  assert (size (pre blk) = size blk) as Hsz.
  { unfold size. by rewrite pre_items. }
  destruct (decide (length coll < m)) as [Hlt|Hge].
  - unfold drain. rewrite Hsz.
    set (n := min (size blk) (m - length coll)).
    set (blk' := {| items := drop n (items (pre blk)); upperBound := _ |}).
    assert (size blk' = size blk - n) as Hsz'.
    { unfold size, blk'. cbn [items]. rewrite length_drop. by fold (size (pre blk)); rewrite Hsz. }
    assert (length (take n (items (pre blk))) = n) as Htk.
    { rewrite length_take. fold (size (pre blk)). rewrite Hsz. lia. }
    destruct (decide (0 < size blk')) as [Hpos|Hemp].
    + exists [blk'], (take n (items (pre blk))). rewrite Htk.
      split_and!; [done| |done|].
      * unfold held. simpl. rewrite app_nil_r. unfold blk'. cbn [items].
        rewrite take_drop. apply pre_items.
      * apply Forall_singleton. lia.
    + exists [], (take n (items (pre blk))). rewrite Htk, app_nil_r.
      split_and!; [done| |done|constructor].
      unfold held. simpl. rewrite app_nil_r.
      assert (drop n (items (pre blk)) = []) as Hd.
      { apply nil_length_inv. unfold size, blk' in Hsz'. cbn [items] in Hsz'.
        unfold size, blk' in Hemp. cbn [items]in Hemp. lia. }
      etrans; [|apply (pre_items blk)].
      rewrite <-(take_drop n (items (pre blk))) at 2. by rewrite Hd, app_nil_r.
  - destruct (decide (0 < size blk)) as [Hpos|Hemp].
    + exists [blk], []. rewrite app_nil_r. simpl.
      split_and!; [f_equal; f_equal; lia| |lia|].
      * unfold held. simpl. by rewrite app_nil_r.
      * apply Forall_singleton. lia.
    + exists [], []. rewrite !app_nil_r. simpl.
      split_and!; [f_equal; f_equal; lia| |lia|constructor].
      unfold size in Hemp. destruct (items blk); [done|simpl in Hemp; lia].
Qed.

Lemma pullLoop_spec bs : ∀ active coll cnt,
  ∃ new taken,
    foldl (pullStep pre m) (active, (coll, cnt)) bs
    = (active ++ new, (coll ++ taken, cnt - length taken))
    ∧ taken ++ held new ≡ₚ held bs
    ∧ length taken = min (length (held bs)) (m - length coll)
    ∧ ∀ c, Forall (λ b, size b ≤ c) bs → Forall (λ b, 1 ≤ size b ≤ c) new.
Proof.
  induction bs as [|b bs IH]; intros active coll cnt.
  - exists [], []. rewrite !app_nil_r. simpl.
    split_and!; [f_equal; f_equal; lia|done|lia|constructor].
  - cbn [foldl].
    destruct (pullStep_spec active coll cnt b) as (n1 & t1 & -> & P1 & L1 & F1).
    destruct (IH (active ++ n1) (coll ++ t1) (cnt - length t1))
      as (n2 & t2 & -> & P2 & L2 & F2).
    exists (n1 ++ n2), (t1 ++ t2). rewrite !app_assoc.
    split_and!.
    + f_equal. f_equal. rewrite length_app. lia.
    + rewrite held_cons, held_app, <-P1, <-P2, <-!app_assoc.
      apply Permutation_app_head. rewrite !app_assoc.
      apply Permutation_app_tail, Permutation_app_comm.
    + rewrite held_cons, !length_app in *. fold (size b). lia.
    + intros c Hc. apply Forall_cons in Hc as [Hb Hc].
      apply Forall_app. split; [|by apply F2].
      eapply Forall_impl; [exact F1|]. simpl. intros. lia.
Qed.

End loop.
(** The last step of [Pull]: the first block of [D1] may be sorted for the
    peek. *)
Lemma peek_cases (a0 a1 : list block) (cnt : nat) :
  let fin := if decide (0 < cnt) then
               match a0, a1 with
               | b0 :: _, _ => (a1, peekBlock b0)
               | [], b1 :: rest => (sortBlock b1 :: rest, peekBlock (sortBlock b1))
               | [], [] => (a1, Infinity)
               end
             else (a1, Infinity) in
  fin.1 = a1 ∨ ∃ b1 rest, a1 = b1 :: rest ∧ fin.1 = sortBlock b1 :: rest.
Proof.
  simpl. case_decide; [|by left].
  destruct a0 as [|b0 a0]; [|by left].
  destruct a1 as [|b1 rest]; [by left|]. right. by exists b1, rest.
Qed.

Lemma Pull_kept D :
  ∃ D' coll Bi,
    Pull D = (D', (coll, Bi))
    ∧ M D' = M D ∧ B D' = B D
    ∧ coll ++ contents D' ≡ₚ contents D
    ∧ length coll = min (M D) (length (contents D))
    ∧ Count D' = Count D - length coll
    ∧ (capacity D → capacity D').
Proof.
  unfold Pull. rewrite pullD0Step_eq, pullD1Step_eq.
  destruct (pullLoop_spec id (M D) (λ b, reflexivity _) (d0 D) [] [] (Count D))
    as (n0 & t0 & -> & P0 & L0 & F0).
  cbn [app fst snd] in *.
  set (r1 := if decide (length t0 < M D) then _ else _).
  assert (∃ n1 t1, r1 = (n1, (t0 ++ t1, Count D - length t0 - length t1))
                   ∧ t1 ++ held n1 ≡ₚ held (d1 D)
                   ∧ length t1 = min (length (held (d1 D))) (M D - length t0)
                   ∧ ∀ c, Forall (λ b, 1 ≤ size b ≤ c) (d1 D)
                          → Forall (λ b, 1 ≤ size b ≤ c) n1)
    as (n1 & t1 & -> & P1 & L1 & F1).
  { subst r1. case_decide as Hlt.
    - destruct (pullLoop_spec sortBlock (M D) sortBlock_items (d1 D) []
                  t0 (Count D - length t0)) as (n1 & t1 & -> & P1 & L1 & F1).
      exists n1, t1. split_and!; [done..|].
      intros c Hc. apply F1. eapply Forall_impl; [exact Hc|]. simpl. intros. lia.
    - exists (d1 D), []. rewrite app_nil_r. simpl.
      split_and!; [f_equal; f_equal; lia|done|lia|done]. }
  pose proof (peek_cases n0 n1 (Count D - length t0 - length t1)) as Hfin.
  cbv zeta in Hfin.
  destruct (if decide (0 < Count D - length t0 - length t1) then _ else _)
    as [a2 Bi].
  cbn [fst] in Hfin.
  assert (held a2 ≡ₚ held n1
          ∧ ∀ c, Forall (λ b, 1 ≤ size b ≤ c) n1 → Forall (λ b, 1 ≤ size b ≤ c) a2)
    as [P2 F2].
  { destruct Hfin as [->|(b1 & rest & -> & ->)]; [done|].
    rewrite !held_cons, sortBlock_items. split; [done|].
    intros c Hc. apply Forall_cons in Hc as [Hb Hc].
    apply Forall_cons. by rewrite sortBlock_size. }
  eexists _, _, _. split; [done|]. cbn [M B Count].
  rewrite !contents_held in *. cbn [d0 d1].
  split_and!; [done|done| | | |].
  - rewrite P2, <-P0, <-P1, <-!app_assoc.
    apply Permutation_app_head. rewrite !app_assoc.
    apply Permutation_app_tail, Permutation_app_comm.
  - rewrite !length_app in *. simpl in L0. lia.
  - rewrite length_app. lia.
  - intros (HM & HF & HC). apply Forall_app in HF as [HF0 HF1].
    split_and!; [done| |].
    + cbn [M d0 d1]. apply Forall_app. split.
      * apply F0. eapply Forall_impl; [exact HF0|]. simpl. intros. lia.
      * by apply F2, F1.
    + cbn [Count d0 d1]. rewrite !contents_held.
      rewrite !contents_held in HC.
      rewrite HC, length_app, <-P0, <-P1, P2, !length_app. cbn [d0]. lia.
Qed.

(** *** [Pull] on an ordered [D1] *)

Lemma pullLoop_full pre m bs : ∀ active coll cnt,
  m ≤ length coll → Forall (λ b, 0 < size b) bs →
  foldl (pullStep pre m) (active, (coll, cnt)) bs = (active ++ bs, (coll, cnt)).
Proof.
  induction bs as [|b bs IH]; intros active coll cnt Hm HF.
  - by rewrite app_nil_r.
  - apply Forall_cons in HF as [Hb HF]. cbn [foldl].
    unfold pullStep at 2. cbn [fst snd].
    rewrite decide_False by lia. rewrite decide_True by done.
    rewrite IH by done. by rewrite <-app_assoc.
Qed.

Lemma pullD1_ordered m bs : ∀ lo coll cnt,
  ordered lo bs → Forall (λ b, 0 < size b) bs →
  ascending coll → Forall (λ c, (Value c ≤ lo)%Z) coll →
  ∃ new taken,
    foldl (pullStep sortBlock m) ([], (coll, cnt)) bs
    = (new, (coll ++ taken, cnt - length taken))
    ∧ ascending (coll ++ taken)
    ∧ Forall (λ c, Forall (λ r, (Value c ≤ Value r)%Z) (held new)) (coll ++ taken)
    ∧ (∃ lo', ordered lo' new)
    ∧ (∀ b, last new = Some b →
         ∃ b', last bs = Some b' ∧ upperBound b = upperBound b')
    ∧ Forall (λ c, (Value c ≤ hi lo bs)%Z) (coll ++ taken).
Proof.
  induction bs as [|b bs IH]; intros lo coll cnt Hord Hne Hasc Hlo.
  { exists [], []. rewrite app_nil_r. simpl.
    split_and!; [f_equal; f_equal; lia|done| |by exists lo|done|done].
    eapply Forall_impl; [exact Hlo|]. simpl. intros. constructor. }
  simpl in Hord. destruct Hord as (Hlb & Hib & Hord).
  apply Forall_cons in Hne as [Hb Hne].
  pose proof (hi_le _ _ Hord) as Hhi.
  pose proof (ordered_values _ _ Hord) as Hvals.
  destruct (decide (length coll < m)) as [Hlt|Hge].
  2:{ (* nothing more is collected *)
    exists (b :: bs), []. rewrite app_nil_r.
    rewrite (pullLoop_full sortBlock m (b :: bs) [] coll cnt ltac:(lia))
      by (by constructor).
    simpl. split_and!; [f_equal; f_equal; lia|done| |exists lo; by simpl|eauto|].
    - eapply Forall_impl; [exact Hlo|]. simpl. intros c Hc.
      rewrite held_cons. apply Forall_app. split.
      + eapply Forall_impl; [exact Hib|]. simpl. intros. lia.
      + eapply Forall_impl; [exact Hvals|]. simpl. intros. lia.
    - rewrite hi_cons. eapply Forall_impl; [exact Hlo|]. simpl. intros. lia. }
  cbn [foldl]. unfold pullStep at 2. cbn [fst snd].
  rewrite decide_True by done. unfold drain.
  rewrite sortBlock_size, sortBlock_bound.
  set (n := min (size b) (m - length coll)).
  pose proof (sortBlock_ascending b) as Hsa.
  assert (Forall (λ it, (lo ≤ Value it ≤ upperBound b)%Z) (items (sortBlock b))) as Hsb.
  { by rewrite sortBlock_items. }
  pose proof (sortBlock_size b) as Hss. unfold size in Hss.
  set (sits := items (sortBlock b)) in *.
  destruct (sorting.ascending_take_drop n sits Hsa) as (Htk & Hdr & Hcross).
  pose proof (Forall_take _ n _ Hsb) as Hbt.
  pose proof (Forall_drop _ n _ Hsb) as Hbd.
  assert (length (take n sits) = n) as Ln.
  { rewrite length_take. unfold size in *. lia. }
  assert (ascending (coll ++ take n sits)) as Hasc1.
  { apply sorting.ascending_app. split_and!; [done..|].
    eapply Forall_impl; [exact Hlo|]. simpl. intros c Hc.
    eapply Forall_impl; [exact Hbt|]. simpl. intros. lia. }
  assert (Forall (λ c, (Value c ≤ upperBound b)%Z) (coll ++ take n sits)) as Hub.
  { apply Forall_app. split.
    - eapply Forall_impl; [exact Hlo|]. simpl. intros. lia.
    - eapply Forall_impl; [exact Hbt|]. simpl. intros. lia. }
  set (blk' := {| items := drop n sits; upperBound := upperBound b |}).
  destruct (decide (0 < size blk')) as [Hpos|Hemp].
  - (* the block is drained in part: the limit is reached *)
    assert (n = m - length coll) as Hn.
    { unfold size, blk' in Hpos. cbn [items] in Hpos. rewrite length_drop in Hpos.
      unfold size in *. lia. }
    rewrite (pullLoop_full sortBlock m bs _ _ _) by (rewrite ?length_app; lia || done).
    exists (blk' :: bs), (take n sits). rewrite Ln.
    split_and!; [done|done| | | |].
    + rewrite held_cons. cbn [items blk'].
      apply Forall_app. split.
      * eapply Forall_impl; [exact Hlo|]. simpl. intros c Hc.
        apply Forall_app. split.
        -- eapply Forall_impl; [exact Hbd|]. simpl. intros. lia.
        -- eapply Forall_impl; [exact Hvals|]. simpl. intros. lia.
      * apply Forall_forall. intros c Hc. apply Forall_app. split.
        -- by apply (proj1 (Forall_forall _ _) Hcross c).
        -- pose proof (proj1 (Forall_forall _ _) Hbt c Hc) as H1. simpl in H1.
           eapply Forall_impl; [exact Hvals|]. simpl. intros. lia.
    + exists lo. simpl. split_and!; [done| |done].
      eapply Forall_impl; [exact Hbd|]. simpl. intros. lia.
    + intros b0 Hb0. destruct bs as [|b2 bs].
      * injection Hb0 as <-. by exists b.
      * rewrite last_cons_cons in Hb0. exists b0. by rewrite last_cons_cons.
    + rewrite hi_cons. eapply Forall_impl; [exact Hub|]. simpl. intros. lia.
  - (* the block is drained, and dropped *)
    assert (n = length sits) as Hn.
    { unfold size, blk' in Hemp. cbn [items] in Hemp. rewrite length_drop in Hemp.
      unfold size in *. lia. }
    destruct (IH (upperBound b) (coll ++ take n sits) (cnt - n) Hord Hne Hasc1 Hub)
      as (new & taken & E & A1 & A2 & A3 & A4 & A5).
    rewrite E. exists new, (take n sits ++ taken).
    rewrite !app_assoc. split_and!; [|done|done|done| |by rewrite hi_cons].
    + f_equal. f_equal. rewrite length_app, Ln. lia.
    + intros b0 Hb0. destruct (A4 b0 Hb0) as (b' & Hb' & HU).
      exists b'. split; [|done]. destruct bs as [|b2 bs]; [done|].
      by rewrite last_cons_cons.
Qed.

Lemma peek_sorted b :
  0 < size b →
  ∃ it, it ∈ items b ∧ it ∈ items (sortBlock b)
        ∧ peekBlock (sortBlock b) = Value it
        ∧ Forall (λ r, (Value it ≤ Value r)%Z) (items (sortBlock b)).
Proof.
  intros Hb. pose proof (sortBlock_ascending b) as Ha.
  pose proof (sortBlock_items b) as Hp. unfold peekBlock.
  destruct (items (sortBlock b)) as [|it its] eqn:E.
  - apply Permutation_nil_l in Hp. unfold size in Hb. rewrite <-Hp in Hb.
    simpl in Hb. lia.
  - exists it. destruct Ha as [Ha _]. split_and!; [|by left|done|].
    + rewrite <-Hp. by left.
    + constructor; [lia|done].
Qed.

Lemma Pull_ordered D :
  capacity D → insert_only D →
  ∃ D' coll Bi,
    Pull D = (D', (coll, Bi))
    ∧ insert_only D'
    ∧ ascending coll
    ∧ Forall (λ c, (Value c ≤ Bi)%Z) coll
    ∧ Forall (λ r, (Bi ≤ Value r)%Z) (contents D')
    ∧ (contents D' = [] → Bi = Infinity)
    ∧ (contents D' ≠ [] → ∃ r, r ∈ contents D' ∧ Bi = Value r).
Proof.
  intros Hcap (H0 & [lo Hord] & Hlast).
  destruct (Pull_kept D) as (D' & coll & Bi & E & _ & _ & Hperm & _ & _ & Hcap').
  specialize (Hcap' Hcap). destruct Hcap as (HM & HF & HC).
  rewrite H0 in HF. simpl in HF.
  exists D', coll, Bi. split; [done|].
  revert E. unfold Pull. rewrite H0, pullD1Step_eq. cbn [foldl fst snd length].
  rewrite decide_True by lia.
  destruct (pullD1_ordered (M D) (d1 D) lo [] (Count D) Hord) as
    (new & taken & -> & A1 & A2 & [lo' A3] & A4 & A5).
  { eapply Forall_impl; [exact HF|]. simpl. intros. lia. }
  { done. }
  { constructor. }
  cbn [app fst snd] in *.
  assert (∀ b, last new = Some b → upperBound b = Infinity) as Hlast'.
  { intros b Hb. destruct (A4 b Hb) as (b' & Hb' & ->). by apply Hlast. }
  destruct (decide (0 < Count D - length taken)) as [Hpos|Hzero].
  - destruct new as [|b1 rest].
    + intros [= <- <- <-]. destruct Hcap' as (_ & _ & HC').
      rewrite contents_held in HC'. simpl in HC'. lia.
    + intros [= <- <- <-].
      simpl in A3. destruct A3 as (B1 & B2 & B3).
      assert (0 < size b1) as Hb1.
      { destruct Hcap' as (_ & HF' & _). cbn [d0 d1 app] in HF'.
        apply Forall_cons in HF' as [HF' _]. rewrite sortBlock_size in HF'. lia. }
      destruct (peek_sorted b1 Hb1) as (it & Hit & Hit' & -> & Hmin).
      pose proof (proj1 (Forall_forall _ _) B2 it Hit) as Hitb. simpl in Hitb.
      assert (it ∈ held (b1 :: rest)) as Hin.
      { rewrite held_cons. apply elem_of_app. by left. }
      rewrite contents_held. cbn [d0 d1]. rewrite held_cons.
      change (held []) with (@nil Item). cbn [app].
      split_and!.
      * split_and!; [done| |].
        -- exists lo'. simpl. rewrite sortBlock_bound. split_and!; [done| |done].
           by rewrite sortBlock_items.
        -- cbn [d1]. intros b Hb. destruct rest as [|b2 rest].
           ++ injection Hb as <-. rewrite sortBlock_bound. by apply Hlast'.
           ++ rewrite last_cons_cons in Hb. apply Hlast'. by rewrite last_cons_cons.
      * done.
      * eapply Forall_impl; [exact A2|]. simpl. intros c Hc.
        by apply (proj1 (Forall_forall _ _) Hc it).
      * apply Forall_app. split; [done|].
        eapply Forall_impl; [exact (ordered_values _ _ B3)|]. simpl. intros. lia.
      * intros Hnil. apply app_eq_nil in Hnil as [Hnil _].
        rewrite Hnil in Hit'. by apply elem_of_nil in Hit'.
      * intros _. exists it. split; [|done]. apply elem_of_app. by left.
  - intros [= <- <- <-].
    destruct Hcap' as (_ & _ & HC'). cbn [Count] in HC'.
    assert (contents {| M := M D; B := B D; Count := Count D - length taken;
                        d0 := []; d1 := new |} = []) as Hnil.
    { apply nil_length_inv. lia. }
    rewrite Hnil in *. split_and!; [|done| |constructor|done|done].
    + split_and!; [done|by exists lo'|done].
    + destruct (last (d1 D)) as [bl|] eqn:El.
      * eapply Forall_impl; [exact A5|]. simpl. intros c Hc.
        unfold hi in Hc. rewrite El in Hc. simpl in Hc.
        by rewrite (Hlast bl eq_refl) in Hc.
      * apply last_None in El. rewrite contents_held, H0, El in Hperm.
        simpl in Hperm. rewrite app_nil_r in Hperm.
        apply Permutation_nil_r in Hperm. by rewrite Hperm.
Qed.

End ds_pull.
Module ds_built.
Import ds notions ds_notions ds_blocks.

Lemma NewDataStructure_inv m :
  1 ≤ m → capacity (NewDataStructure m) ∧ insert_only (NewDataStructure m).
Proof.
  intros Hm. split.
  - split_and!; [done|constructor|done].
  - split_and!; [done|by exists 0%Z|done].
Qed.

Lemma built_inv m D :
  1 ≤ m → built m D → M D = m ∧ capacity D ∧ insert_only D.
Proof.
  intros Hm. induction 1 as [|D key val D' HD (IH0 & IH1 & IH2) Hval E
                              |D HD (IH0 & IH1 & IH2)].
  - split; [done|]. by apply NewDataStructure_inv.
  - destruct (Insert_kept D key val D' ltac:(lia) E) as (EM & _).
    split_and!; [lia| |].
    + by apply (Insert_capacity D key val).
    + apply (Insert_ordered D key val); [lia|done..].
  - destruct (ds_pull.Pull_kept D) as (D' & coll & Bi & E & EM & _ & _ & _ & _ & Hc).
    destruct (ds_pull.Pull_ordered D IH1 IH2) as (D2 & coll2 & Bi2 & E2 & Ho & _).
    rewrite E in E2. injection E2 as <- <- <-. rewrite E. simpl.
    split_and!; [lia|by apply Hc|done].
Qed.

Lemma inserts_built m (val : nat → Z) P : ∀ D,
  1 ≤ m → built m D → Forall (λ x, (val x ≤ Infinity)%Z) P →
  ∃ D', foldM (λ D x, Insert D x (val x)) D P = Some D'
    ∧ built m D'
    ∧ contents D' ≡ₚ ((λ x, {| Key := x; Value := val x |}) <$> P) ++ contents D.
Proof.
  induction P as [|x P IH]; intros D Hm HD HP.
  - exists D. by split_and!.
  - apply Forall_cons in HP as [Hx HP]. simpl.
    destruct (built_inv m D Hm HD) as (EM & _ & _).
    destruct (ds_props.Insert_Some D x (val x) ltac:(lia)) as (D1 & E1 & _).
    rewrite E1.
    destruct (Insert_kept D x (val x) D1 ltac:(lia) E1) as (_ & _ & _ & _ & Hp1).
    destruct (IH D1 Hm (built_insert m D x (val x) D1 HD Hx E1) HP)
      as (D' & E' & HD' & Hp').
    exists D'. split_and!; [done|done|].
    rewrite Hp', Hp1. by rewrite <-Permutation_middle.
Qed.

Lemma initializeDataStructure_built T bigInt l P (dist : list Z) :
  Forall (λ x, (dist !!! x ≤ Infinity)%Z) P →
  ∃ D, sssp.initializeDataStructure T bigInt l P dist = Some D
    ∧ built (Z.to_nat (Z.max 1 (sssp.powInt bigInt ((l - 1) * T)))) D
    ∧ contents D ≡ₚ (λ x, {| Key := x; Value := dist !!! x |}) <$> P.
Proof.
  intros HP. unfold sssp.initializeDataStructure.
  set (p := sssp.powInt bigInt ((l - 1) * T)).
  set (m := Z.to_nat (if decide (p < 1)%Z then 1%Z else p)).
  assert (m = Z.to_nat (Z.max 1 p)) as Em by (subst m; case_decide; f_equal; lia).
  rewrite <-Em. assert (1 ≤ m) by (subst m; case_decide; lia). clearbody m.
  destruct (inserts_built m (λ x, dist !!! x) P (NewDataStructure m))
    as (D & E & HD & Hp); [lia|constructor|done|].
  exists D. split_and!; [done|done|]. rewrite Hp. by rewrite app_nil_r.
Qed.

End ds_built.

Module dijkstra.
Import graph reference notions paths.

(** *** The scan for the nearest unvisited vertex *)

Lemma scan_spec (dist : list Z) (visited : list bool) n :
  let r := foldl (scanMin dist visited) (Infinity, None) (seq 0 n) in
  match r.2 with
  | None => ∀ v, v < n → visited !!! v = false → (Infinity ≤ dist !!! v)%Z
  | Some x =>
      x < n ∧ visited !!! x = false ∧ (dist !!! x < Infinity)%Z
      ∧ ∀ v, v < n → visited !!! v = false → (dist !!! x ≤ dist !!! v)%Z
  end.
Proof.
  cbv zeta.
  assert (let r := foldl (scanMin dist visited) (Infinity, None) (seq 0 n) in
          (r.1 ≤ Infinity)%Z
          ∧ (∀ v, v < n → visited !!! v = false → (r.1 ≤ dist !!! v)%Z)
          ∧ match r.2 with
            | None => r.1 = Infinity
            | Some x => x < n ∧ visited !!! x = false ∧ r.1 = dist !!! x
                        ∧ (r.1 < Infinity)%Z
            end) as H.
  { induction n as [|n IH]; cbv zeta.
    - simpl. split_and!; [lia|intros; lia|done].
    - rewrite seq_S, foldl_app. simpl.
      destruct (foldl (scanMin dist visited) (Infinity, None) (seq 0 n)) as [m o].
      simpl in IH. destruct IH as (I1 & I2 & I3).
      unfold scanMin. cbn [fst snd].
      destruct (visited !!! n) eqn:Ev; cbn [negb andb fst snd].
      + split; [done|]. split.
        * intros v Hv Hvv. destruct (decide (v = n)) as [->|]; [congruence|].
          apply I2; [lia|done].
        * destruct o as [x|]; [|done].
          destruct I3 as (? & ? & ? & ?). split_and!; [lia|done..].
      + case_bool_decide as Hlt; cbn [fst snd].
        * split; [lia|]. split; [|split_and!; [lia|done|done|lia]].
          intros v Hv Hvv. destruct (decide (v = n)) as [->|]; [lia|].
          specialize (I2 v ltac:(lia) Hvv). lia.
        * split; [done|]. split.
          -- intros v Hv Hvv. destruct (decide (v = n)) as [->|]; [lia|].
             apply I2; [lia|done].
          -- destruct o as [x|]; [|done].
             destruct I3 as (? & ? & ? & ?). split_and!; [lia|done..]. }
  cbv zeta in H. destruct H as (H1 & H2 & H3).
  destruct (foldl (scanMin dist visited) (Infinity, None) (seq 0 n)) as [m [x|]];
    simpl in *.
  - destruct H3 as (? & ? & -> & ?). by split_and!.
  - subst m. done.
Qed.

(** *** The relaxation of the edges of one vertex *)

Section relax.
Variable g : Graph.
Variable s : nat.
Hypothesis Hwf : wf g.
Hypothesis Hw : nonneg_weights g.

(** What the reference keeps about the distances. *)
Lemma relaxRef_kept x (d : list Z) e :
  e ∈ Adj g !!! x →
  length d = V g → Forall (λ y, 0 ≤ y ≤ Infinity)%Z d → realised g s d →
  let d' := relaxRef x d e in
  length d' = V g ∧ Forall (λ y, 0 ≤ y ≤ Infinity)%Z d' ∧ realised g s d'
  ∧ d' !!! x = d !!! x
  ∧ (∀ v, d' !!! v ≤ d !!! v)%Z
  ∧ (∀ v, d' !!! v = d !!! v ∨ d !!! x ≤ d' !!! v)%Z
  ∧ (d' !!! To e ≤ fadd (d !!! x) (Weight e))%Z.
Proof.
  intros He HL HR Hreal. cbv zeta. unfold relaxRef.
  assert (To e < V g) as Hv.
  { pose proof (transform.wf_Adj g x Hwf) as HF.
    by apply (proj1 (Forall_forall _ _) HF). }
  assert (0 ≤ Weight e)%Z as Hwe.
  { pose proof (base_case.nonneg_weights_at g x Hw) as HF.
    by apply (proj1 (Forall_forall _ _) HF). }
  assert (0 ≤ d !!! x ≤ Infinity)%Z as Hx.
  { assert (x < length d) as Hx.
    { rewrite HL, <-(proj1 Hwf). apply lookup_lt_is_Some.
      destruct (Adj g !! x) as [es|] eqn:E; [eauto|].
      rewrite list_lookup_total_alt, E in He. by apply elem_of_nil in He. }
    destruct (lookup_lt_is_Some_2 _ _ Hx) as [y Hy].
    rewrite (list_lookup_total_correct _ _ _ Hy).
    by apply (Forall_lookup_1 _ _ _ _ HR Hy). }
  assert (d !!! x ≤ fadd (d !!! x) (Weight e) ≤ Infinity)%Z as Hf.
  { unfold fadd. lia. }
  case_decide as Hlt.
  - split_and!.
    + by rewrite length_insert.
    + apply Forall_insert; [done|lia].
    + apply relax_inv.realised_write; [by rewrite (proj1 Hwf)|done..].
    + destruct (decide (x = To e)) as [E|Hne].
      * rewrite <-E in Hlt. lia.
      * by rewrite list_lookup_total_insert_ne.
    + intros v. destruct (decide (v = To e)) as [->|Hne].
      * rewrite list_lookup_total_insert_eq by lia. lia.
      * rewrite list_lookup_total_insert_ne by done. lia.
    + intros v. destruct (decide (v = To e)) as [->|Hne].
      * right. rewrite list_lookup_total_insert_eq by lia. lia.
      * left. by rewrite list_lookup_total_insert_ne.
    + rewrite list_lookup_total_insert_eq by lia. lia.
  - split_and!; try done; try (intros; lia).
Qed.

Lemma relax_fold x (edges : list Edge) : ∀ (d : list Z),
  edges ⊆ Adj g !!! x →
  length d = V g → Forall (λ y, 0 ≤ y ≤ Infinity)%Z d → realised g s d →
  let d' := foldl (relaxRef x) d edges in
  length d' = V g ∧ Forall (λ y, 0 ≤ y ≤ Infinity)%Z d' ∧ realised g s d'
  ∧ d' !!! x = d !!! x
  ∧ (∀ v, d' !!! v ≤ d !!! v)%Z
  ∧ (∀ v, d' !!! v = d !!! v ∨ d !!! x ≤ d' !!! v)%Z
  ∧ (∀ e, e ∈ edges → d' !!! To e ≤ fadd (d !!! x) (Weight e))%Z.
Proof.
  induction edges as [|e edges IH]; intros d Hsub HL HR Hreal; cbv zeta.
  - simpl. split_and!; try done; try (intros; lia).
    intros e He. by apply elem_of_nil in He.
  - simpl.
    destruct (relaxRef_kept x d e) as (A1 & A2 & A3 & A4 & A5 & A6 & A7);
      [apply Hsub; by left|done..|].
    destruct (IH (relaxRef x d e)) as (B1 & B2 & B3 & B4 & B5 & B6 & B7);
      [intros y Hy; apply Hsub; by right|done..|].
    split_and!; [done|done|done|congruence| | |].
    + intros v. specialize (A5 v). specialize (B5 v). lia.
    + intros v. destruct (A6 v) as [E1|E1], (B6 v) as [E2|E2];
        rewrite ?A4 in *; [left; congruence|right; lia..].
    + intros e' [->|He']%elem_of_cons.
      * specialize (B5 (To e)). lia.
      * rewrite <-A4. by apply B7.
Qed.

End relax.

(** *** Counting the visited vertices *)

Lemma visited_insert (l : list bool) x :
  l !! x = Some false →
  length (filter (λ b, b = true) (<[x := true]> l))
  = S (length (filter (λ b, b = true) l)).
Proof.
  revert x. induction l as [|b l IH]; intros x Hx; [done|].
  destruct x as [|x]; simpl in Hx.
  - injection Hx as ->. change (<[0 := true]> (false :: l)) with (true :: l).
    rewrite filter_cons_True by done. by rewrite filter_cons_False by done.
  - change (<[S x := true]> (b :: l)) with (b :: <[x := true]> l).
    rewrite !filter_cons.
    destruct (decide (b = true)); simpl; by rewrite (IH x Hx).
Qed.

Lemma visited_full (l : list bool) :
  length l ≤ length (filter (λ b, b = true) l) → Forall (λ b, b = true) l.
Proof.
  induction l as [|b l IH]; [constructor|].
  rewrite filter_cons. pose proof (length_filter (λ b, b = true) l) as Hle.
  case_decide as Hb; simpl; intros H.
  - constructor; [done|]. apply IH. lia.
  - lia.
Qed.

(** *** The loop *)

Section loop.
Variable g : Graph.
Variable s : nat.
Hypothesis Hwf : wf g.
Hypothesis Hw : nonneg_weights g.

Lemma range_lookup (d : list Z) v :
  Forall (λ y, 0 ≤ y ≤ Infinity)%Z d → v < length d → (0 ≤ d !!! v ≤ Infinity)%Z.
Proof.
  intros HR Hv. destruct (lookup_lt_is_Some_2 _ _ Hv) as [y Hy].
  rewrite (list_lookup_total_correct _ _ _ Hy).
  by apply (Forall_lookup_1 _ _ _ _ HR Hy).
Qed.

Lemma dijkstraLoop_spec count : ∀ (dist : list Z) (visited : list bool),
  length dist = V g → length visited = V g →
  Forall (λ y, 0 ≤ y ≤ Infinity)%Z dist → realised g s dist →
  (∀ u e, u < V g → visited !!! u = true → e ∈ Adj g !!! u →
     (dist !!! To e ≤ fadd (dist !!! u) (Weight e))%Z) →
  (∀ u v, u < V g → v < V g → visited !!! u = true → visited !!! v = false →
     (dist !!! u ≤ dist !!! v)%Z) →
  V g ≤ count + length (filter (λ b, b = true) visited) →
  let r := dijkstraLoop count g dist visited in
  length r = V g ∧ Forall (λ y, 0 ≤ y ≤ Infinity)%Z r ∧ realised g s r
  ∧ (∀ v, r !!! v ≤ dist !!! v)%Z
  ∧ (∀ u e, u < V g → e ∈ Adj g !!! u →
       (r !!! To e ≤ fadd (r !!! u) (Weight e))%Z).
Proof.
  induction count as [|count IH];
    intros dist visited HL HLv HR Hreal Hrel Hord Hcnt; cbv zeta.
  - cbn [dijkstraLoop]. split_and!; [done|done|done|intros; lia|].
    intros u e Hu He. apply Hrel; [done| |done].
    pose proof (visited_full visited ltac:(lia)) as Hall.
    assert (u < length visited) as Hu' by lia.
    destruct (lookup_lt_is_Some_2 _ _ Hu') as [b Hb].
    rewrite (list_lookup_total_correct _ _ _ Hb).
    by apply (Forall_lookup_1 _ _ _ _ Hall Hb).
  - cbn [dijkstraLoop]. pose proof (scan_spec dist visited (V g)) as Hscan.
    cbv zeta in Hscan.
    destruct ((foldl (scanMin dist visited) (Infinity, None) (seq 0 (V g))).2)
      as [x|].
    + destruct Hscan as (Hx & Hvx & Hdx & Hmin).
      destruct (relax_fold g s Hwf Hw x (Adj g !!! x) dist)
        as (B1 & B2 & B3 & B4 & B5 & B6 & B7); [done..|].
      set (d' := foldl (relaxRef x) dist (Adj g !!! x)) in *.
      assert (∀ u, u < V g → visited !!! u = true → d' !!! u = dist !!! u) as Hsame.
      { intros u Hu Hvu. specialize (B5 u).
        destruct (B6 u) as [E|E]; [done|].
        specialize (Hord u x Hu Hx Hvu Hvx). lia. }
      destruct (IH d' (<[x := true]> visited)) as (C1 & C2 & C3 & C4 & C5).
      * done.
      * by rewrite length_insert.
      * done.
      * done.
      * intros u e Hu Hvu He. destruct (decide (u = x)) as [->|Hne].
        -- rewrite B4. by apply B7.
        -- rewrite list_lookup_total_insert_ne in Hvu by done.
           rewrite (Hsame u Hu Hvu). specialize (B5 (To e)).
           specialize (Hrel u e Hu Hvu He). lia.
      * intros u v Hu Hv Hvu Hvv.
        assert (v ≠ x) as Hvx'.
        { intros ->. rewrite list_lookup_total_insert_eq in Hvv by lia. done. }
        rewrite list_lookup_total_insert_ne in Hvv by done.
        specialize (Hmin v Hv Hvv).
        destruct (decide (u = x)) as [->|Hne].
        -- rewrite B4. destruct (B6 v) as [E|E]; lia.
        -- rewrite list_lookup_total_insert_ne in Hvu by done.
           rewrite (Hsame u Hu Hvu).
           pose proof (Hord u v Hu Hv Hvu Hvv) as O1.
           pose proof (Hord u x Hu Hx Hvu Hvx) as O2.
           destruct (B6 v) as [E|E]; lia.
      * rewrite visited_insert; [lia|].
        rewrite <-Hvx. apply list_lookup_lookup_total_lt. lia.
      * split_and!; [done..| |done].
        intros v. specialize (C4 v). specialize (B5 v). lia.
    + split_and!; [done|done|done|intros; lia|].
      intros u e Hu He.
      destruct (visited !!! u) eqn:Evu; [by apply Hrel|].
      specialize (Hscan u Hu Evu).
      pose proof (range_lookup dist u HR ltac:(lia)) as R1.
      assert (To e < V g) as Hv.
      { pose proof (transform.wf_Adj g u Hwf) as HF.
        by apply (proj1 (Forall_forall _ _) HF). }
      pose proof (range_lookup dist (To e) HR ltac:(lia)) as R2.
      assert (0 ≤ Weight e)%Z as Hwe.
      { pose proof (base_case.nonneg_weights_at g u Hw) as HF.
        by apply (proj1 (Forall_forall _ _) HF). }
      unfold fadd. lia.
Qed.

(** A vector closed under relaxation is below the weight of every walk. *)
Lemma closed_below_walks (r : list Z) :
  r !!! s = 0%Z →
  (∀ u e, u < V g → e ∈ Adj g !!! u →
     (r !!! To e ≤ fadd (r !!! u) (Weight e))%Z) →
  ∀ v d, summed g s 0 v d → (r !!! v ≤ d)%Z.
Proof.
  intros Hs Hcl v d. induction 1 as [|x e d _ IH He]; [lia|].
  assert (x < V g) as Hx.
  { rewrite <-(proj1 Hwf). apply lookup_lt_is_Some.
    destruct (Adj g !! x) as [es|] eqn:E; [eauto|].
    rewrite list_lookup_total_alt, E in He. by apply elem_of_nil in He. }
  specialize (Hcl x e Hx He). unfold fadd in *. lia.
Qed.

Lemma naiveDijkstra_spec :
  s < V g →
  let r := naiveDijkstra g s in
  length r = V g
  ∧ r !!! s = 0%Z
  ∧ Forall (λ y, 0 ≤ y ≤ Infinity)%Z r
  ∧ realised g s r
  ∧ ∀ v d, summed g s 0 v d → (r !!! v ≤ d)%Z.
Proof.
  intros Hs. cbv zeta. unfold naiveDijkstra.
  pose proof base_case.Infinity_pos as Hinf.
  destruct (dijkstraLoop_spec (V g) (<[s := 0%Z]> (replicate (V g) Infinity))
              (replicate (V g) false)) as (C1 & C2 & C3 & C4 & C5).
  - by rewrite length_insert, length_replicate.
  - by rewrite length_replicate.
  - apply Forall_insert; [|lia]. apply Forall_replicate. lia.
  - intros v Hv. rewrite length_insert, length_replicate in Hv.
    destruct (decide (v = s)) as [->|Hne].
    + right. rewrite list_lookup_total_insert_eq by (by rewrite length_replicate).
      constructor.
    + left. rewrite list_lookup_total_insert_ne by done.
      by apply lookup_total_replicate_2.
  - intros u e Hu Hvu. by rewrite lookup_total_replicate_2 in Hvu.
  - intros u v Hu Hv Hvu. by rewrite lookup_total_replicate_2 in Hvu.
  - lia.
  - set (r := dijkstraLoop _ _ _ _) in *.
    assert (r !!! s = 0%Z) as Hrs.
    { specialize (C4 s).
      rewrite list_lookup_total_insert_eq in C4 by (by rewrite length_replicate).
      pose proof (range_lookup r s C2 ltac:(lia)). lia. }
    split_and!; [done..|]. by apply closed_below_walks.
Qed.

End loop.
End dijkstra.

Module bench_props.
Import graph notions transform_notions bench.

(** *** The generated graphs *)

Lemma avoidLoop_lt vertices u v : v < vertices → avoidLoop vertices u v < vertices.
Proof.
  intros Hv. unfold avoidLoop. case_decide; [|done].
  apply Nat.mod_upper_bound. lia.
Qed.

Lemma avoidLoop_ne vertices u v :
  2 ≤ vertices → v < vertices → avoidLoop vertices u v ≠ u.
Proof.
  intros H2 Hv. unfold avoidLoop. case_decide as E; [|congruence]. subst v.
  destruct (decide (u + 1 = vertices)) as [E|Hne].
  - rewrite E, Nat.Div0.mod_same. lia.
  - rewrite Nat.mod_small by lia. lia.
Qed.

Lemma generateGraph_calls vertices draws :
  generateGraph vertices draws
  = foldM addCall (NewGraph vertices)
      ((λ d : nat * nat * Z,
          (d.1.1, avoidLoop vertices d.1.1 d.1.2, weightOf d.2)) <$> draws).
Proof.
  unfold generateGraph. generalize (NewGraph vertices).
  induction draws as [|d draws IH]; intros g0; [done|].
  simpl. unfold addCall at 1. simpl.
  destruct (AddEdge g0 _ _ _) as [g1|]; [apply IH|done].
Qed.

Lemma generateGraph_spec vertices draws :
  Forall (drawn vertices) draws →
  ∃ g, generateGraph vertices draws = Some g
    ∧ V g = vertices ∧ wf g
    ∧ length (concat (Adj g)) = length draws
    ∧ (∀ x e, e ∈ Adj g !!! x →
         (1000000000 ≤ Weight e < 101000000000)%Z
         ∧ (2 ≤ vertices → To e ≠ x)).
Proof.
  intros HF. rewrite generateGraph_calls.
  set (calls := (λ d : nat * nat * Z, _) <$> draws).
  assert (Forall (λ c : call, c.1.1 < vertices ∧ c.1.2 < vertices) calls) as Hc.
  { apply Forall_fmap. eapply Forall_impl; [exact HF|].
    intros [[u v] r] (Hu & Hv & _). simpl in *. split; [done|].
    by apply avoidLoop_lt. }
  destruct (graph_build.addCalls_adj calls (NewGraph vertices))
    as (g & E & HV & HL & HA).
  { simpl. rewrite length_replicate.
    eapply Forall_impl; [exact Hc|]. by intros c [? _]. }
  exists g. split; [done|]. simpl in HV. split; [done|]. split_and!.
  - apply (graph_build.addCalls_wf calls (NewGraph vertices) g);
      [apply graph_build.NewGraph_wf|done|done].
  - rewrite (transform_size.addCalls_size _ _ _ E), transform_size.NewGraph_size.
    unfold calls. by rewrite length_fmap.
  - intros x e He. rewrite HA, graph_build.NewGraph_Adj in He. simpl in He.
    apply list_elem_of_fmap in He as (c & -> & [Hcx Hin]%list_elem_of_filter).
    apply list_elem_of_fmap in Hin as ([[u v] r] & -> & Hd).
    pose proof (proj1 (Forall_forall _ _) HF _ Hd) as (Hu & Hv & Hr).
    simpl in *. unfold weightOf. split; [lia|].
    intros H2. subst x. by apply avoidLoop_ne.
Qed.

(** *** The sources of the parallel benchmark *)

Lemma selectSources_length numCores g :
  length (selectSources numCores g) = min (numCores * 2) (V g).
Proof. unfold selectSources. by rewrite length_fmap, length_seq. Qed.

Lemma selectSources_lookup numCores g i :
  i < min (numCores * 2) (V g) →
  selectSources numCores g !!! i = (i * V g) / min (numCores * 2) (V g).
Proof.
  intros Hi. unfold selectSources. apply list_lookup_total_correct.
  rewrite list_lookup_fmap, lookup_seq_lt by done. done.
Qed.

Lemma spread_lt n v i : i < n → n ≤ v → (i * v) / n < v.
Proof.
  intros Hi Hn. apply Nat.Div0.div_lt_upper_bound. nia.
Qed.

Lemma spread_mono n v i j : i < j → 0 < n → n ≤ v → (i * v) / n < (j * v) / n.
Proof.
  intros Hij Hn Hv.
  assert ((i * v) / n + 1 ≤ (j * v) / n); [|lia].
  replace ((i * v) / n + 1) with ((i * v + 1 * n) / n)
    by (rewrite Nat.div_add by lia; lia).
  apply Nat.Div0.div_le_mono. nia.
Qed.

Lemma selectSources_spec numCores g :
  Forall (λ src, src < V g) (selectSources numCores g)
  ∧ (∀ i j, i < j → j < length (selectSources numCores g) →
       selectSources numCores g !!! i < selectSources numCores g !!! j)
  ∧ NoDup (selectSources numCores g).
Proof.
  pose proof (selectSources_length numCores g) as HL.
  set (n := min (numCores * 2) (V g)) in *.
  assert (∀ i j, i < j → j < length (selectSources numCores g) →
            selectSources numCores g !!! i < selectSources numCores g !!! j) as Hmono.
  { intros i j Hij Hj. rewrite HL in Hj.
    rewrite !selectSources_lookup by (fold n; lia). fold n.
    apply spread_mono; lia. }
  split_and!; [|done|].
  - apply Forall_lookup. intros i src Hi.
    pose proof (lookup_lt_Some _ _ _ Hi) as Hlt. rewrite HL in Hlt.
    rewrite <-(list_lookup_total_correct _ _ _ Hi).
    rewrite selectSources_lookup by (fold n; lia). fold n.
    apply spread_lt; lia.
  - apply NoDup_alt. intros i j x Hi Hj.
    pose proof (lookup_lt_Some _ _ _ Hi) as Hi'.
    pose proof (lookup_lt_Some _ _ _ Hj) as Hj'.
    apply list_lookup_total_correct in Hi, Hj.
    destruct (Nat.lt_trichotomy i j) as [Hlt|[->|Hlt]]; [|done|].
    + pose proof (Hmono i j Hlt Hj'). lia.
    + pose proof (Hmono j i Hlt Hi'). lia.
Qed.

End bench_props.

Module base_complete.
Import graph ds sssp notions paths solver_notions.

Lemma awaiting_push (dist : list Z) pq it x :
  awaiting dist pq x → awaiting dist (heapPush pq it) x.
Proof.
  intros (it' & Hin & Hu & Hp). exists it'. split; [|done].
  rewrite heap_order.heapPush_perm. by right.
Qed.

Lemma awaiting_pushed (dist : list Z) pq x :
  awaiting dist (heapPush pq {| u := x; priority := dist !!! x |}) x.
Proof.
  exists {| u := x; priority := dist !!! x |}. split; [|done].
  rewrite heap_order.heapPush_perm. by left.
Qed.

Section with_solver.
Variable G : Graph.
Variable B : Z.
Hypothesis Hwf : wf G.
Hypothesis Hw : nonneg_weights G.
Variable dist0 : list Z.

Lemma source_in_range x e : e ∈ Adj G !!! x → x < V G ∧ To e < V G ∧ (0 ≤ Weight e)%Z.
Proof.
  intros He. split_and!.
  - rewrite <-(proj1 Hwf). apply lookup_lt_is_Some.
    destruct (Adj G !! x) as [es|] eqn:E; [eauto|].
    rewrite list_lookup_total_alt, E in He. by apply elem_of_nil in He.
  - pose proof (transform.wf_Adj G x Hwf) as HF.
    by apply (proj1 (Forall_forall _ _) HF).
  - pose proof (base_case.nonneg_weights_at G x Hw) as HF.
    by apply (proj1 (Forall_forall _ _) HF).
Qed.

(** One edge. *)
Lemma baseRelax_keeps Q U0 x (dist : list Z) pq e :
  e ∈ Adj G !!! x → settle_inv G B dist0 Q U0 dist pq →
  settle_inv G B dist0 Q U0 (baseRelax B x (dist, pq) e).1
                            (baseRelax B x (dist, pq) e).2
  ∧ (baseRelax B x (dist, pq) e).1 !!! x = dist !!! x
  ∧ (∀ v, (baseRelax B x (dist, pq) e).1 !!! v ≤ dist !!! v)%Z
  ∧ ((baseRelax B x (dist, pq) e).1 !!! To e ≤ fadd (dist !!! x) (Weight e)
     ∨ B ≤ fadd (dist !!! x) (Weight e))%Z.
Proof.
  intros He (HL & HR & HQ & I1 & I2).
  destruct (source_in_range x e He) as (Hx & Hv & Hwe).
  pose proof (base_bound.baseRelax_bound G B Hwf x (dist, pq) e He HL HQ) as [_ HQ'].
  pose proof (dijkstra.range_lookup dist x HR ltac:(lia)) as Rx.
  revert HQ'. unfold baseRelax. cbn [fst snd].
  set (nd := fadd (dist !!! x) (Weight e)).
  assert (dist !!! x ≤ nd ≤ Infinity)%Z as Hnd by (unfold nd, fadd; lia).
  case_decide as Hc; cbn [fst snd]; intros HQ'.
  2:{ split; [by split_and!|]. split; [done|]. split; [intros; lia|]. lia. }
  destruct Hc as [Hc1 Hc2].
  set (dist' := <[To e := nd]> dist).
  assert (dist' !!! To e = nd) as Ev.
  { unfold dist'. by rewrite list_lookup_total_insert_eq by lia. }
  assert (∀ y, y ≠ To e → dist' !!! y = dist !!! y) as Eo.
  { intros y Hy. unfold dist'. by rewrite list_lookup_total_insert_ne. }
  assert (∀ y, dist' !!! y ≤ dist !!! y)%Z as Hle.
  { intros y. destruct (decide (y = To e)) as [->|Hy]; [lia|rewrite Eo by done; lia]. }
  assert (∀ y, y ≠ To e → awaiting dist pq y →
               awaiting dist' (heapPush pq {| u := To e; priority := dist' !!! To e |}) y)
    as Haw.
  { intros y Hy Ha. apply awaiting_push.
    destruct Ha as (it & ? & ? & ?). exists it. rewrite Eo by done. done. }
  split; [|split_and!].
  - split_and!.
    + unfold dist'. by rewrite length_insert.
    + apply Forall_insert; [done|lia].
    + done.
    + intros y Hy. destruct (decide (y = To e)) as [->|Hne].
      * left. apply awaiting_pushed.
      * destruct (I1 y Hy) as [Ha|Hr]; [left; by apply Haw|right].
        intros e' He'. rewrite (Eo y Hne).
        destruct (Hr e' He') as [Hr'|Hr']; [left|by right].
        etrans; [apply Hle|done].
    + intros y Hy Hch. destruct (decide (y = To e)) as [->|Hne].
      * left. apply awaiting_pushed.
      * rewrite Eo in Hch by done.
        destruct (I2 y Hy Hch) as [Ha|Hin]; [left; by apply Haw|by right].
  - destruct (decide (x = To e)) as [E|Hne]; [|by apply Eo].
    rewrite <-E in Hc1, Ev. rewrite Ev. lia.
  - done.
  - left. lia.
Qed.

(** The edges of one vertex. *)
Lemma baseRelax_fold_keeps Q U0 x edges : ∀ (dist : list Z) pq,
  edges ⊆ Adj G !!! x → settle_inv G B dist0 Q U0 dist pq →
  settle_inv G B dist0 Q U0 (foldl (baseRelax B x) (dist, pq) edges).1
                            (foldl (baseRelax B x) (dist, pq) edges).2
  ∧ (foldl (baseRelax B x) (dist, pq) edges).1 !!! x = dist !!! x
  ∧ (∀ v, (foldl (baseRelax B x) (dist, pq) edges).1 !!! v ≤ dist !!! v)%Z
  ∧ ∀ e, e ∈ edges →
      ((foldl (baseRelax B x) (dist, pq) edges).1 !!! To e
         ≤ fadd (dist !!! x) (Weight e)
       ∨ B ≤ fadd (dist !!! x) (Weight e))%Z.
Proof.
  induction edges as [|e edges IH]; intros dist pq Hsub Hinv.
  - simpl. split_and!; [done|done|intros; lia|].
    intros e He. by apply elem_of_nil in He.
  - cbn [foldl].
    destruct (baseRelax_keeps Q U0 x dist pq e) as (A1 & A2 & A3 & A4);
      [apply Hsub; by left|done|].
    destruct (baseRelax B x (dist, pq) e) as [dist1 pq1]. cbn [fst snd] in *.
    destruct (IH dist1 pq1) as (B1 & B2 & B3 & B4);
      [intros y Hy; apply Hsub; by right|done|].
    split_and!; [done|congruence| |].
    + intros v. specialize (A3 v). specialize (B3 v). lia.
    + intros e' [->|He']%elem_of_cons.
      * specialize (B3 (To e)). lia.
      * rewrite <-A2. by apply B4.
Qed.

(** The loop. *)
Lemma baseLoop_keeps fuel limit : ∀ (dist : list Z) U0 pq dist' U0',
  baseLoop G fuel B limit dist U0 pq = (dist', Done U0') →
  settle_inv G B dist0 (λ y, y ∈ U0) U0 dist pq →
  U0 ⊆ U0'
  ∧ ∃ pq', settle_inv G B dist0 (λ y, y ∈ U0') U0' dist' pq'
           ∧ (length U0' < limit → pq' = []).
Proof.
  induction fuel as [|fuel IH]; intros dist U0 pq dist' U0'; cbn [baseLoop]; [done|].
  case_decide as Hc.
  2:{ intros [= <- <-] Hinv. split; [done|]. exists pq. split; [done|].
      intros Hlt. apply nil_length_inv. lia. }
  intros Hloop Hinv. pose proof Hinv as (HL & HR & HQ & I1 & I2).
  destruct (heap_props.heapPop_spec (queued B dist) pq)
    as (item & pq1 & Epop & [Hi1 Hi2] & HQ1 & _); [lia|done|].
  rewrite Epop in Hloop.
  pose proof (heap_order.heapPop_perm pq item pq1 Epop) as Hperm.
  assert (∀ y, (y ≠ u item ∨ dist !!! u item < priority item)%Z →
               awaiting dist pq y → awaiting dist pq1 y) as Haw.
  { intros y Hy (it & Hin & Hu & Hp). exists it. split; [|done].
    rewrite <-Hperm in Hin. apply elem_of_cons in Hin as [->|Hin]; [|done].
    destruct Hy as [Hy|Hy]; [done|]. rewrite <-Hu in Hp. lia. }
  case_decide as Hstale.
  - apply (IH _ _ _ _ _ Hloop). split_and!; [done|done|done| |].
    + intros y Hy. destruct (I1 y Hy) as [Ha|Hr]; [left|by right].
      apply Haw; [by right|done].
    + intros y Hy Hch. destruct (I2 y Hy Hch) as [Ha|Hin]; [left|by right].
      apply Haw; [by right|done].
  - set (x := u item) in *.
    assert (settle_inv G B dist0 (λ y, y ∈ setAdd U0 x ∧ y ≠ x) (setAdd U0 x) dist pq1)
      as Hinv1.
    { split_and!; [done|done|done| |].
      - intros y [Hy Hne]. apply base_case.setAdd_elem in Hy as [Hy|Hy]; [|done].
        destruct (I1 y Hy) as [Ha|Hr]; [left|by right].
        apply Haw; [by left|done].
      - intros y Hy Hch. destruct (decide (y = x)) as [->|Hne].
        + right. apply base_case.setAdd_elem. by right.
        + destruct (I2 y Hy Hch) as [Ha|Hin].
          * left. apply Haw; [by left|done].
          * right. apply base_case.setAdd_elem. by left. }
    destruct (baseRelax_fold_keeps (λ y, y ∈ setAdd U0 x ∧ y ≠ x) (setAdd U0 x)
                x (Adj G !!! x) dist pq1)
      as (F1 & F2 & F3 & F4); [done|exact Hinv1|].
    destruct (foldl (baseRelax B x) (dist, pq1) (Adj G !!! x)) as [dist2 pq2].
    cbn [fst snd] in *.
    destruct (IH _ _ _ _ _ Hloop) as [Hsub Hres].
    + destruct F1 as (G1 & G2 & G3 & G4 & G5). split_and!; [done..| |done].
      intros y Hy. destruct (decide (y = x)) as [->|Hne]; [|by apply G4].
      right. intros e He. rewrite F2. by apply F4.
    + split; [|done]. intros y Hy. apply Hsub, base_case.setAdd_elem. by left.
Qed.

(** The seeding of the queue. *)
Lemma seed_keeps (dist : list Z) S : ∀ U pq,
  let st := foldl (λ st x, (setAdd st.1 x,
                     heapPush st.2 {| u := x; priority := dist !!! x |}))
                  (U, pq) S in
  (∀ y, y ∈ U → awaiting dist pq y) →
  ∀ y, y ∈ st.1 → awaiting dist st.2 y.
Proof.
  induction S as [|x S IH]; intros U pq; cbv zeta; [done|].
  cbn [foldl fst snd]. intros HU. apply IH.
  intros y [Hy| ->]%base_case.setAdd_elem.
  - by apply awaiting_push, HU.
  - apply awaiting_pushed.
Qed.

(** [BaseCase] returning the bound it was given. *)
Lemma BaseCase_settles K fuel S dist' U :
  Forall (λ y, 0 ≤ y ≤ Infinity)%Z dist0 → length dist0 = V G → below B dist0 S →
  BaseCase G K fuel B S dist0 = (dist', Done (B, U)) →
  S ⊆ U
  ∧ (∀ v, v < V G → dist' !!! v ≠ dist0 !!! v → v ∈ U)
  ∧ (∀ x, x ∈ U → relaxed G B dist' x)
  ∧ ((∀ v, v < V G → v ∉ S → (B ≤ dist0 !!! v)%Z) →
     ∀ s v d, s ∈ S → s < V G → summed G s (dist0 !!! s) v d → (d < B)%Z →
       v ∈ U ∧ (dist' !!! v ≤ d)%Z).
Proof.
  intros HR HL HS HB.
  pose proof (mono.BaseCase_le G K fuel B S dist0) as [_ Hle].
  rewrite HB in Hle. cbn [fst] in Hle.
  revert HB. unfold BaseCase.
  pose proof (seed_keeps dist0 S [] []) as Hseed. cbv zeta in Hseed.
  pose proof (base_case.seed_spec
                (λ q x, heapPush q {| u := x; priority := dist0 !!! x |})
                S [] [] (NoDup_nil_2)) as HN. cbv zeta in HN.
  assert (∀ S0 U pq, below B dist0 S0 → Forall (queued B dist0) pq →
            Forall (queued B dist0)
              (foldl (λ st x, (setAdd st.1 x,
                        heapPush st.2 {| u := x; priority := dist0 !!! x |}))
                     (U, pq) S0).2) as Hq.
  { clear. induction S0 as [|x S0 IH]; intros U pq HS HQ; simpl; [done|].
    inversion HS; subst. apply IH; [done|].
    apply heap_props.heapPush_spec; [done|]. split; simpl; [lia|done]. }
  specialize (Hq S [] [] HS (Forall_nil_2 _)).
  destruct (foldl _ _ S) as [U0 pq]. cbn [fst snd] in *.
  destruct HN as (HN & HN2 & _).
  destruct (baseLoop G fuel B (K + 1) dist0 U0 pq) as [dist1 [U1| |]] eqn:E; try done.
  destruct (baseLoop_keeps _ _ _ _ _ _ _ E) as (Hsub & pq' & Hinv & Hempty).
  { split_and!; [done|done|done| |done].
    intros y Hy. left. apply Hseed; [|done]. intros z Hz. by apply elem_of_nil in Hz. }
  pose proof (base_bound.baseLoop_bound G B Hwf _ _ _ _ _ _ _ E HL) as HU1.
  destruct (base_case.baseLoop_spec _ _ _ _ _ _ _ _ _ E HN) as (_ & _ & _ & H4).
  assert (nonneg dist0) as Hd.
  { eapply Forall_impl; [exact HR|]. simpl. intros; lia. }
  specialize (H4 Hw Hd).
  assert (below B dist0 U0) as HU0.
  { apply Forall_forall. intros y Hy. apply HN2 in Hy as [Hy|Hy].
    - by apply elem_of_nil in Hy.
    - by apply (proj1 (Forall_forall _ _) HS). }
  specialize (HU1 HU0 Hq).
  case_decide as Hk.
  2:{ intros [= <- HB' <-]. exfalso. destruct (base_case.maxDist_spec dist1 U1 H4) as [(x & Hx & Hmax) _].
      { intros ->. simpl in Hk. lia. }
      pose proof (proj1 (Forall_forall _ _) HU1 x Hx). simpl in *. lia. }
  intros [= <- <-]. specialize (Hempty ltac:(lia)). subst pq'.
  destruct Hinv as (G1 & G2 & G3 & G4 & G5).
  assert (∀ y, ¬ awaiting dist1 [] y) as Hno.
  { intros y (it & Hin & _). by apply elem_of_nil in Hin. }
  assert (S ⊆ U1) as HSU.
  { intros y Hy. apply Hsub, HN2. by right. }
  split_and!; [done| | |].
  - intros v Hv Hch. destruct (G5 v Hv Hch) as [Ha|?]; [by apply Hno in Ha|done].
  - intros x Hx. destruct (G4 x Hx) as [Ha|?]; [by apply Hno in Ha|done].
  - intros Hout s v d Hs Hsv Hp.
    pose proof (dijkstra.range_lookup dist0 s HR ltac:(lia)) as Rs.
    induction Hp as [|x e d Hp IH He]; intros Hd'.
    + split; [by apply HSU|]. apply Hle.
    + destruct (source_in_range x e He) as (Hx & Hv & Hwe).
      assert (d ≤ Infinity)%Z as Hdle
        by (apply (relax_inv.summed_bounded G s (dist0 !!! s) x d); [lia|done]).
      destruct IH as [IH1 IH2]; [unfold fadd in Hd'; lia|].
      assert (relaxed G B dist1 x) as Hr.
      { destruct (G4 x IH1) as [Ha|?]; [by apply Hno in Ha|done]. }
      specialize (Hr e He).
      assert (fadd (dist1 !!! x) (Weight e) ≤ fadd d (Weight e))%Z
        by (unfold fadd; lia).
      assert (dist1 !!! To e ≤ fadd d (Weight e))%Z as Hgoal by lia.
      split; [|done].
      destruct (decide (To e ∈ S)) as [Hin|Hnin]; [by apply HSU|].
      specialize (Hout (To e) Hv Hnin).
      destruct (G5 (To e) Hv) as [Ha|?]; [lia|by apply Hno in Ha|done].
Qed.

End with_solver.
End base_complete.

Module string_props.
Import webviz string_notions.

Lemma occurs_at_slice (s substr : gostring) i :
  occurs_at s substr i
  ↔ i + length substr ≤ length s ∧ take (length substr) (drop i s) = substr.
Proof.
  split.
  - intros (pre & post & -> & <-). split.
    + rewrite !length_app. lia.
    + rewrite drop_app_length. by rewrite take_app_length.
  - intros [Hlen Heq]. exists (take i s), (drop (i + length substr) s). split.
    + rewrite <-(take_drop i s) at 1. f_equal.
      rewrite <-(take_drop (length substr) (drop i s)) at 1.
      rewrite Heq at 1. f_equal. rewrite drop_drop. done.
    + rewrite length_take. lia.
Qed.

Lemma occurs_at_app (s substr post : gostring) i :
  occurs_at s substr i → occurs_at (s ++ post) substr i.
Proof.
  intros (pre & post' & -> & <-). exists pre, (post' ++ post).
  by rewrite <-!app_assoc.
Qed.

Lemma findLoop_spec (s substr : gostring) : ∀ n i,
  i + n = length s - length substr + 1 → length substr ≤ length s →
  (∀ j, j < i → ¬ occurs_at s substr j) →
  (findLoop s substr n i = (-1)%Z ∧ ∀ j, ¬ occurs_at s substr j)
  ∨ (∃ k, findLoop s substr n i = Z.of_nat k ∧ occurs_at s substr k
          ∧ ∀ j, j < k → ¬ occurs_at s substr j).
Proof.
  induction n as [|n IH]; intros i Hn Hlen Hbefore; cbn [findLoop].
  - left. split; [done|]. intros j Hj.
    destruct (decide (j < i)) as [Hlt|Hge]; [by apply (Hbefore j)|].
    apply occurs_at_slice in Hj as [Hj _]. lia.
  - case_decide as Hc.
    + right. exists i. split_and!; [done| |done].
      apply occurs_at_slice. split; [lia|done].
    + apply IH; [lia|done|]. intros j Hj.
      destruct (decide (j = i)) as [->|Hne]; [|apply Hbefore; lia].
      intros [_ Ho]%occurs_at_slice. done.
Qed.

Lemma findString_spec (s substr : gostring) :
  (findString s substr = (-1)%Z ∧ ∀ j, ¬ occurs_at s substr j)
  ∨ (∃ k, findString s substr = Z.of_nat k ∧ occurs_at s substr k
          ∧ ∀ j, j < k → ¬ occurs_at s substr j).
Proof.
  unfold findString. case_decide as Hlen.
  - apply findLoop_spec; [lia|done|]. intros j Hj. lia.
  - left. split; [done|]. intros j [Hj _]%occurs_at_slice. lia.
Qed.

Lemma findString_empty (s : gostring) : findString s [] = 0%Z.
Proof.
  unfold findString. rewrite decide_True by (simpl; lia).
  replace (length s - length (@nil Byte.byte) + 1) with (S (length s)) by (simpl; lia).
  cbn [findLoop length take]. by rewrite decide_True.
Qed.

Lemma replaceLoop_empty (new : gostring) fuel : ∀ (result remaining : gostring),
  replaceLoop [] new fuel result remaining = None.
Proof.
  induction fuel as [|fuel IH]; intros result remaining; cbn [replaceLoop]; [done|].
  rewrite findString_empty. rewrite decide_False by lia. apply IH.
Qed.

Lemma replaceLoop_spec (old new : gostring) : old ≠ [] →
  ∀ fuel (result remaining : gostring), length remaining < fuel →
  ∃ pieces rest,
    replaceLoop old new fuel result remaining
      = Some (result ++ joined new pieces rest)
    ∧ remaining = joined old pieces rest
    ∧ Forall (λ p, ∀ j, j < length p → ¬ occurs_at (p ++ old) old j) pieces
    ∧ ∀ j, ¬ occurs_at rest old j.
Proof.
  intros Hold. induction fuel as [|fuel IH]; intros result remaining Hlen; [lia|].
  cbn [replaceLoop].
  destruct (findString_spec remaining old) as [[E Hno]|(k & E & Hk & Hfirst)];
    rewrite E.
  - rewrite decide_True by done. exists [], remaining. by split_and!.
  - rewrite decide_False by lia. rewrite Nat2Z.id.
    destruct Hk as (pre & post & -> & <-).
    rewrite take_app_length.
    replace (drop (length pre + length old) (pre ++ old ++ post)) with post.
    2:{ rewrite app_assoc, <-length_app. by rewrite drop_app_length. }
    destruct (IH (result ++ pre ++ new) post) as (ps & rest & E1 & E2 & HF & Hrest).
    { rewrite !length_app in Hlen. destruct old; [done|]. simpl in Hlen. lia. }
    exists (pre :: ps), rest. split_and!.
    + rewrite E1. f_equal. unfold joined. cbn [fmap list_fmap concat].
      by rewrite <-!app_assoc.
    + rewrite E2. unfold joined. cbn [fmap list_fmap concat].
      by rewrite <-!app_assoc.
    + constructor; [|done]. intros j Hj Ho. apply (Hfirst j Hj).
      rewrite app_assoc. by apply occurs_at_app.
    + done.
Qed.

End string_props.

(** * The properties of the specification *)

Import graph ds sssp reference examples notions.

(** ** Equivalence to the reference *)

(** C1 (the code departs from the claim).  On the 5-vertex DAG the solver,
    run on the transformed graph from [start[0]] with the parameters
    [NewSolver] derives for 14 vertices (k = 2, t = 2, top level 2), returns
    after settling only the cycle of the source: the mapped distances are
    0, 10, +inf, +inf, +inf, whereas the reference Dijkstra on the original
    graph finds 0, 10, 5, 11, 7.  This is so for every number of CPUs: no
    call of [relaxEdges] in this run has more than four vertices. *)
Theorem Run_dag_differs_from_reference (numCPU : nat)
    (relaxEdgesParallel : list nat → Z → Z → Z → DataStructure → DistMap →
                          option (DistMap * DataStructure * list Item))
    (bigInt : nat → Z) :
  ∃ g tg,
    dag = Some g ∧ ToConstantDegree g = Some tg ∧ V (graph.G tg) = 14 ∧
    let s := NewSolver (graph.G tg) 1 1 numCPU in
    let r := Run (sssp.G s) (K s) (T s) (numWorkers s) relaxEdgesParallel bigInt
                 100 2 (OriginalTo tg !!! 0) (Dist s) in
    r.2 = Done ()
    ∧ MapDistances tg r.1 = Some [0; whole 10; Infinity; Infinity; Infinity]%Z
    ∧ naiveDijkstra g 0 = whole <$> [0; 10; 5; 11; 7]%Z.
Proof.
  eexists _, _. split; [vm_compute; reflexivity|].
  split; [vm_compute; reflexivity|].
  vm_compute. done.
Qed.

(** On the transform of the single-vertex graph the solver never returns:
    whatever the budget of loop iterations, [BaseCase] is still running. *)
Lemma Run_single_vertex_diverges (numCPU : nat)
    (relaxEdgesParallel : list nat → Z → Z → Z → DataStructure → DistMap →
                          option (DistMap * DataStructure * list Item))
    (bigInt : nat → Z) fuel :
  ToConstantDegree (NewGraph 1)
    = Some {| graph.G := loopGraph; OriginalTo := [0]; NewToOrigin := [0] |}
  ∧ Run loopGraph 2 2 (numWorkers (NewSolver loopGraph 0 0 numCPU))
        relaxEdgesParallel bigInt fuel 0 0 (Dist (NewSolver loopGraph 0 0 numCPU))
    = ([0%Z], OutOfFuel).
Proof.
  split; [reflexivity|]. by apply divergence.Run_loopGraph.
Qed.

(** ** The bound returned by BMSSP *)

(** Whatever way the main loop ends, a call at a level above 0 hands the
    bound of its caller back. *)
Lemma BMSSP_bound_is_B G K T numWorkers relaxEdgesParallel bigInt
    fuel l B S dist dist' B' U :
  BMSSP G K T numWorkers relaxEdgesParallel bigInt fuel (Datatypes.S l) B S dist
  = (dist', Done (B', U)) → B' = B.
Proof.
  cbn [BMSSP].
  destruct (FindPivots G K B S dist) as [dist1 [[P W]| |]]; try done.
  destruct P as [|p P]; [by intros [= _ <- _]|].
  destruct (initializeDataStructure _ _ _ _ _) as [D|]; [|done].
  destruct (processMainLoop _ _ _ _ _ _ _ _ _ _ _ _ _) as [dist2 [[U2 ob]| |]];
    try done.
  by intros [= _ <- _].
Qed.

(** C2 (the code departs from the claim).  A call [BMSSP(1, +inf, {0})] on
    the fork-and-chain graph with k = t = 2: the main loop ends on
    [len(U) > limit] (9 > 8) after an inner call that returned the bound
    7, and the call returns the bound of its caller, +inf, not 7. *)
Theorem BMSSP_early_exit_returns_caller_bound (numWorkers : nat)
    (relaxEdgesParallel : list nat → Z → Z → Z → DataStructure → DistMap →
                          option (DistMap * DataStructure * list Item))
    (bigInt : nat → Z) :
  ∃ P W D dist1 dist2 U,
    FindPivots forkChain 2 Infinity [0] (initDist 11 0) = (dist1, Done (P, W))
    ∧ initializeDataStructure 2 bigInt 1 P dist1 = Some D
    ∧ processMainLoop forkChain 2 2 numWorkers relaxEdgesParallel bigInt 20
        (BMSSP forkChain 2 2 numWorkers relaxEdgesParallel bigInt 20 0)
        1 Infinity D W dist1
      = (dist2, Done (U, Some (whole 7)))
    ∧ 2 * 2 ^ (1 * 2) < length U
    ∧ BMSSP forkChain 2 2 numWorkers relaxEdgesParallel bigInt 20 1 Infinity [0]
        (initDist 11 0)
      = (dist2, Done (Infinity, U)).
Proof.
  eexists _, _, _, _, _, _.
  split; [vm_compute; reflexivity|].
  split; [vm_compute; reflexivity|].
  split; [vm_compute; reflexivity|].
  split; [vm_compute; lia|].
  vm_compute. reflexivity.
Qed.

(** ** The block sequence *)

(** C3 (the code departs from the claim).  With M = 2, after
    [BatchPrepend] of the values 1, 2 and then of the value 0 (each batch
    below everything present), [Pull] returns the values 0 and 2 and leaves
    1 behind, with boundary 1: the items returned are not the smallest, and
    the boundary is below a value returned. *)
Theorem Pull_after_BatchPrepend_misses_minimum :
  ∃ D1 D2 D3,
    BatchPrepend (NewDataStructure 2) [item 1 1; item 2 2] = Some D1
    ∧ BatchPrepend D1 [item 0 0] = Some D2
    ∧ Pull D2 = (D3, ([item 0 0; item 2 2], whole 1))
    ∧ contents D3 = [item 1 1].
Proof.
  eexists _, _, _. split; [vm_compute; reflexivity|].
  split; [vm_compute; reflexivity|].
  split; vm_compute; reflexivity.
Qed.

(** C4 (the code departs from the claim).  With M = 1, [BatchPrepend] of
    the values 1 and 2 leaves [D0] with the block of 2 in front of the block
    of 1: the chunks are prepended one after the other, so that they read in
    decreasing order from the front. *)
Theorem BatchPrepend_blocks_descending :
  BatchPrepend (NewDataStructure 1) [item 1 1; item 2 2]
  = Some {| M := 1; B := Infinity; Count := 2;
            d0 := [ {| items := [item 2 2]; upperBound := whole 2 |};
                    {| items := [item 1 1]; upperBound := whole 1 |} ];
            d1 := [] |}.
Proof. vm_compute. reflexivity. Qed.

(** C10.  While the block capacity is positive, [Insert] and [BatchPrepend]
    go through for every key, every value and every batch, whatever the
    bound and the values present, and raise [Count] by one and by the number
    of items given. *)
Theorem Insert_BatchPrepend_never_refuse (D : DataStructure) (key : nat) (val : Z)
    (its : list Item) :
  1 ≤ M D →
  (∃ D', Insert D key val = Some D' ∧ Count D' = Count D + 1)
  ∧ (∃ D', BatchPrepend D its = Some D' ∧ Count D' = Count D + length its).
Proof.
  intros HM. split.
  - destruct (ds_props.Insert_Some D key val HM) as (D' & ? & ? & _). eauto.
  - destruct (ds_props.BatchPrepend_Some D its HM) as (D' & ? & ? & _). eauto.
Qed.

Lemma Insert_BatchPrepend_never_refuse_witness :
  1 ≤ M (NewDataStructure 2)
  ∧ (∃ D', Insert (NewDataStructure 2) 7 (whole 3) = Some D'
           ∧ Count D' = Count (NewDataStructure 2) + 1)
  ∧ (∃ D', BatchPrepend (NewDataStructure 2) [item 1 9; item 2 4; item 3 5] = Some D'
           ∧ Count D' = Count (NewDataStructure 2) + length [item 1 9; item 2 4; item 3 5]).
Proof.
  assert (1 ≤ M (NewDataStructure 2)) as H by (simpl; lia).
  split; [exact H|].
  exact (Insert_BatchPrepend_never_refuse (NewDataStructure 2) 7 (whole 3)
           [item 1 9; item 2 4; item 3 5] H).
Defined.

(** ** BaseCase *)

(** C5, as stated, fails: called with five sources (each below the bound),
    with k = 2, [BaseCase] keeps all five in the settled set, more than
    k + 1, and returns four of them. *)
Lemma BaseCase_settles_more_than_k_plus_1 :
  Forall (λ x, dist5 !!! x < Infinity)%Z [0; 1; 2; 3; 4]
  ∧ BaseCase isolated5 2 10 Infinity [0; 1; 2; 3; 4] dist5
    = (dist5, Done (whole 4, [0; 1; 2; 3]))
  ∧ ¬ (length [0; 1; 2; 3] ≤ 2 + 1).
Proof.
  split; [repeat constructor|].
  split; [vm_compute; reflexivity|]. simpl. lia.
Qed.

(** C5, amended.  On non-negative weights and distances, a call of
    [BaseCase] that returns has settled a duplicate-free set [U0] that
    contains [S] and has at most max(|S|, k + 1) vertices; if |U0| <= k the
    call returns (B, U0), and otherwise it returns (B', U) where B' is the
    largest distance of [U0] and U is the part of [U0] strictly below B'. *)
Theorem BaseCase_result (G : Graph) (K fuel : nat) (B : Z) (S : list nat)
    (dist dist' : list Z) (B' : Z) (U : list nat) :
  nonneg_weights G → nonneg dist →
  BaseCase G K fuel B S dist = (dist', Done (B', U)) →
  ∃ U0,
    NoDup U0 ∧ S ⊆ U0 ∧ length U0 ≤ max (length S) (K + 1)
    ∧ ((length U0 ≤ K ∧ B' = B ∧ U = U0)
       ∨ (K < length U0
          ∧ (∃ x, x ∈ U0 ∧ dist' !!! x = B')
          ∧ (∀ x, x ∈ U0 → dist' !!! x ≤ B')%Z
          ∧ U = filter (λ x, (dist' !!! x < B')%Z) U0)).
Proof. apply base_case.BaseCase_spec. Qed.

Lemma BaseCase_result_witness :
  (nonneg_weights chain4 ∧ nonneg (initDist 4 0)
   ∧ BaseCase chain4 2 10 Infinity [0] (initDist 4 0)
     = ([0; whole 1; whole 2; whole 3]%Z, Done (whole 2, [0; 1])))
  ∧ ∃ U0,
      NoDup U0 ∧ [0] ⊆ U0 ∧ length U0 ≤ max (length [0]) (2 + 1)
      ∧ ((length U0 ≤ 2 ∧ whole 2 = Infinity ∧ [0; 1] = U0)
         ∨ (2 < length U0
            ∧ (∃ x, x ∈ U0 ∧ [0; whole 1; whole 2; whole 3]%Z !!! x = whole 2)
            ∧ (∀ x, x ∈ U0 → [0; whole 1; whole 2; whole 3]%Z !!! x ≤ whole 2)%Z
            ∧ [0; 1] = filter (λ x, ([0; whole 1; whole 2; whole 3]%Z !!! x
                                     < whole 2)%Z) U0)).
Proof.
  assert (nonneg_weights chain4) as H1
    by (unfold nonneg_weights; apply (bool_decide_unpack _); vm_compute; exact I).
  assert (nonneg (initDist 4 0)) as H2
    by (unfold nonneg; apply (bool_decide_unpack _); vm_compute; exact I).
  assert (BaseCase chain4 2 10 Infinity [0] (initDist 4 0)
          = ([0; whole 1; whole 2; whole 3]%Z, Done (whole 2, [0; 1]))) as H3
    by (vm_compute; reflexivity).
  split; [by split_and!|].
  exact (BaseCase_result chain4 2 10 Infinity [0] (initDist 4 0) _ _ _ H1 H2 H3).
Defined.

(** ** FindPivots *)

(** C6 (the code departs from the claim).  [FindPivots(+inf, S)] with k = 2
    on the chain of 64 vertices with doubled edges, every vertex a source at
    its distance along the chain: no vertex is new, there is no early exit,
    and the forest holds every edge.  The subtree size of vertex 0 is
    2^64 - 1, so the specification makes vertex 0 a pivot; the code counts
    in [int], the count of vertex 0 wraps around to -1, and vertex 0 is
    left out of the pivots. *)
Theorem FindPivots_count_wraps_around :
  Forall (λ x, chainDist !!! x < Infinity)%Z (seq 0 64)
  ∧ FindPivots doubledChain 2 Infinity (seq 0 64) chainDist
    = (chainDist, Done (seq 1 62, seq 0 64))
  ∧ ∃ slots,
      specPivots doubledChain 2 (seq 0 64) (replicate 64 true) chainDist
      = Some (slots, seq 0 63)
      ∧ slots !!! 0 = (2 ^ 64 - 1)%Z
      ∧ wrap (2 ^ 64 - 1) = (-1)%Z.
Proof.
  split; [apply (bool_decide_unpack _); vm_compute; exact I|].
  split; [vm_compute; reflexivity|].
  eexists. split; [vm_compute; reflexivity|].
  split; vm_compute; reflexivity.
Qed.

(** ** Invalid inputs *)

(** C8, as stated, fails: [AddEdge] stores an edge of negative weight whose
    target is out of range, and [NewSolver] builds a solver on an empty
    graph. *)
Lemma AddEdge_accepts_invalid_input :
  AddEdge (NewGraph 2) 0 7 (whole (-5))
  = Some {| V := 2; Adj := [[ {| To := 7; Weight := whole (-5) |} ]; []] |}
  ∧ NewSolver (NewGraph 0) 0 0 4
    = {| sssp.G := NewGraph 0; Dist := []; K := 2; T := 2; numWorkers := 4 |}.
Proof. split; reflexivity. Qed.

(** C8, amended.  Nothing is validated.  [AddEdge(u, v, w)] goes through
    exactly when [u] is in range, for every target and every weight: the
    edge comes last in the list of [u] and nothing else changes; so graphs
    with a target out of range or a negative weight are built.  [NewSolver]
    accepts every graph, the empty one included, whatever the machine.
    [Run(src)] with [src] out of range, which is every [src] on an empty
    graph, sets every distance to +inf and panics on the write
    [Dist[src] = 0] before [BMSSP] is called: the outcome is the same for
    every level and every budget of loop iterations. *)
Theorem no_input_validation :
  (∀ g u v w,
     (AddEdge g u v w = None ↔ length (Adj g) ≤ u)
     ∧ (u < length (Adj g) →
        ∃ g', AddEdge g u v w = Some g'
          ∧ V g' = V g ∧ length (Adj g') = length (Adj g)
          ∧ Adj g' !!! u = Adj g !!! u ++ [ {| To := v; Weight := w |} ]
          ∧ ∀ x, x ≠ u → Adj g' !!! x = Adj g !!! x))
  ∧ (∀ n v w, 0 < n →
       ∃ g, AddEdge (NewGraph n) 0 v w = Some g
         ∧ (n ≤ v → ¬ wf g) ∧ ((w < 0)%Z → ¬ nonneg_weights g))
  ∧ (∀ g k0 t0 numCPU,
       sssp.G (NewSolver g k0 t0 numCPU) = g
       ∧ Dist (NewSolver g k0 t0 numCPU) = replicate (V g) 0%Z
       ∧ 2 ≤ K (NewSolver g k0 t0 numCPU) ∧ 2 ≤ T (NewSolver g k0 t0 numCPU))
  ∧ (∀ G K T numWorkers relaxEdgesParallel bigInt fuel l src dist,
       length dist ≤ src →
       Run G K T numWorkers relaxEdgesParallel bigInt fuel l src dist
       = (replicate (length dist) Infinity, Panic))
  ∧ (∀ g k0 t0 numCPU relaxEdgesParallel bigInt fuel l src,
       V g ≤ src →
       Run g (K (NewSolver g k0 t0 numCPU)) (T (NewSolver g k0 t0 numCPU))
           (numWorkers (NewSolver g k0 t0 numCPU)) relaxEdgesParallel bigInt
           fuel l src (Dist (NewSolver g k0 t0 numCPU))
       = (replicate (V g) Infinity, Panic)).
Proof.
  assert (∀ g u v w, u < length (Adj g) →
            ∃ g', AddEdge g u v w = Some g'
              ∧ V g' = V g ∧ length (Adj g') = length (Adj g)
              ∧ Adj g' !!! u = Adj g !!! u ++ [ {| To := v; Weight := w |} ]
              ∧ ∀ x, x ≠ u → Adj g' !!! x = Adj g !!! x) as Hadd.
  { intros g u v w Hu. unfold AddEdge.
    destruct (lookup_lt_is_Some_2 (Adj g) u Hu) as [es Hes]. rewrite Hes.
    eexists. split; [done|]. simpl. split_and!; [done|by rewrite length_insert| |].
    - rewrite list_lookup_total_insert_eq by done.
      by rewrite (list_lookup_total_correct _ _ _ Hes).
    - intros x Hx. by rewrite list_lookup_total_insert_ne. }
  assert (∀ G K T numWorkers relaxEdgesParallel bigInt fuel l src dist,
            length dist ≤ src →
            Run G K T numWorkers relaxEdgesParallel bigInt fuel l src dist
            = (replicate (length dist) Infinity, Panic)) as Hrun.
  { intros. unfold Run. rewrite length_replicate. by rewrite decide_False by lia. }
  split_and!.
  - intros g u v w. split; [|by apply Hadd].
    unfold AddEdge. destruct (Adj g !! u) as [es|] eqn:E.
    + apply lookup_lt_Some in E. split; [done|lia].
    + apply lookup_ge_None in E. done.
  - intros n v w Hn.
    destruct (Hadd (NewGraph n) 0 v w) as (g & E & HV & HL & Hu & _).
    { simpl. rewrite length_replicate. lia. }
    exists g. split; [done|]. simpl in HV, Hu.
    assert ({| To := v; Weight := w |} ∈ Adj g !!! 0) as Hin.
    { rewrite Hu. apply elem_of_app. right. by apply list_elem_of_singleton. }
    assert (0 < length (Adj g)) as H0.
    { rewrite HL. simpl. rewrite length_replicate. lia. }
    destruct (lookup_lt_is_Some_2 (Adj g) 0 H0) as [es Hes].
    rewrite (list_lookup_total_correct _ _ _ Hes) in Hin.
    split.
    + intros Hv [_ HF].
      pose proof (proj1 (Forall_forall _ _) (Forall_lookup_1 _ _ _ _ HF Hes) _ Hin) as H.
      simpl in H. lia.
    + intros Hw HF.
      pose proof (proj1 (Forall_forall _ _) (Forall_lookup_1 _ _ _ _ HF Hes) _ Hin) as H.
      simpl in H. lia.
  - intros g k0 t0 numCPU. simpl. split_and!; [done|done| |]; case_decide; lia.
  - exact Hrun.
  - intros g k0 t0 numCPU par big fuel l src Hs. simpl.
    rewrite Hrun by (rewrite length_replicate; lia). by rewrite length_replicate.
Qed.

(** ** The degree-reduction transform *)

(** C9.  On every well-formed graph the transform goes through, and every
    vertex of the graph it returns has out-degree at most 2 and in-degree at
    most 2; it has at least one edge out and one edge in (its cycle
    successor and its cycle predecessor) and at most 3 edge ends in all, so
    that it carries at most one real edge, incoming or outgoing. *)
Theorem ToConstantDegree_degree_le_2 (g : Graph) :
  wf g →
  ∃ tg, ToConstantDegree g = Some tg
    ∧ length (Adj (graph.G tg)) = V (graph.G tg)
    ∧ (∀ x, outDegree (graph.G tg) x ≤ 2 ∧ inDegree (graph.G tg) x ≤ 2
            ∧ outDegree (graph.G tg) x + inDegree (graph.G tg) x ≤ 3)
    ∧ (∀ x, x < V (graph.G tg) →
            1 ≤ outDegree (graph.G tg) x ∧ 1 ≤ inDegree (graph.G tg) x).
Proof. apply transform.ToConstantDegree_ok. Qed.

Lemma ToConstantDegree_degree_le_2_witness :
  wf dagGraph
  ∧ ∃ tg, ToConstantDegree dagGraph = Some tg
      ∧ length (Adj (graph.G tg)) = V (graph.G tg)
      ∧ (∀ x, outDegree (graph.G tg) x ≤ 2 ∧ inDegree (graph.G tg) x ≤ 2
              ∧ outDegree (graph.G tg) x + inDegree (graph.G tg) x ≤ 3)
      ∧ (∀ x, x < V (graph.G tg) →
              1 ≤ outDegree (graph.G tg) x ∧ 1 ≤ inDegree (graph.G tg) x).
Proof.
  assert (wf dagGraph) as H
    by (unfold wf; apply (bool_decide_unpack _); vm_compute; exact I).
  split; [exact H|].
  exact (ToConstantDegree_degree_le_2 dagGraph H).
Defined.

(** * Further properties of the code *)

Import graph ds sssp reference examples notions.
Import paths solver_notions transform_notions ds_notions bench more_examples.

(** ** Building graphs *)

(** X1.  [NewGraph(n)] followed by calls of [AddEdge] whose sources are
    below [n] goes through: the graph has [n] vertices and [n] adjacency
    lists, the list of a vertex holds the edges added from it in the order
    of the calls, and the graph is well formed when the targets are below
    [n] too.  The sequence panics exactly when some source is not below
    [n]. *)
Theorem graph_built_by_AddEdge (n : nat) (es : list (nat * nat * Z)) :
  Forall (λ c : call, c.1.1 < n) es →
  (∃ g, buildGraph n es = Some g
     ∧ V g = n ∧ length (Adj g) = n
     ∧ (∀ x, Adj g !!! x = edgeOf <$> filter (λ c : call, c.1.1 = x) es)
     ∧ (Forall (λ c : call, c.1.2 < n) es → wf g))
  ∧ ∀ es', buildGraph n es' = None ↔ Exists (λ c : call, n ≤ c.1.1) es'.
Proof.
  intros HF. split; [by apply graph_builder.buildGraph_spec|].
  intros es'. apply graph_builder.buildGraph_None.
Qed.

Lemma graph_built_by_AddEdge_witness :
  Forall (λ c : call, c.1.1 < 5) dagEdges
  ∧ (∃ g, buildGraph 5 dagEdges = Some g
       ∧ V g = 5 ∧ length (Adj g) = 5
       ∧ (∀ x, Adj g !!! x = edgeOf <$> filter (λ c : call, c.1.1 = x) dagEdges)
       ∧ (Forall (λ c : call, c.1.2 < 5) dagEdges → wf g))
  ∧ ∀ es', buildGraph 5 es' = None ↔ Exists (λ c : call, 5 ≤ c.1.1) es'.
Proof.
  assert (Forall (λ c : call, c.1.1 < 5) dagEdges) as H
    by (apply (bool_decide_unpack _); vm_compute; exact I).
  split; [exact H|].
  exact (graph_built_by_AddEdge 5 dagEdges H).
Defined.

(** ** The degree-reduction transform *)

(** X2.  The layout of the transform of a well-formed graph: [OriginalTo]
    has one start id per original vertex and [NewToOrigin] one origin per
    transformed vertex; the transformed graph has the sum over the original
    vertices of max(1, out-degree + in-degree) vertices; the cycle of [u] is
    the block of that many ids from [OriginalTo[u]] on, each mapped back to
    [u] by [NewToOrigin]; and every transformed id lies in the block of its
    origin. *)
Theorem transform_layout_round_trip (g : Graph) :
  wf g →
  ∃ tg, ToConstantDegree g = Some tg
    ∧ length (OriginalTo tg) = V g
    ∧ length (NewToOrigin tg) = V (graph.G tg)
    ∧ V (graph.G tg)
      = sum_list ((λ u, max 1 (outDegree g u + inDegree g u)) <$> seq 0 (V g))
    ∧ (∀ u, u < V g →
         OriginalTo tg !!! u < V (graph.G tg)
         ∧ ∀ i, i < max 1 (outDegree g u + inDegree g u) →
             NewToOrigin tg !!! (OriginalTo tg !!! u + i) = u)
    ∧ (∀ x, x < V (graph.G tg) →
         NewToOrigin tg !!! x < V g
         ∧ OriginalTo tg !!! (NewToOrigin tg !!! x) ≤ x
         ∧ x < OriginalTo tg !!! (NewToOrigin tg !!! x)
               + max 1 (outDegree g (NewToOrigin tg !!! x)
                        + inDegree g (NewToOrigin tg !!! x))).
Proof. apply transform_result.ToConstantDegree_layout. Qed.

Lemma transform_layout_round_trip_witness :
  wf dagGraph
  ∧ ∃ tg, ToConstantDegree dagGraph = Some tg
      ∧ length (OriginalTo tg) = V dagGraph
      ∧ length (NewToOrigin tg) = V (graph.G tg)
      ∧ V (graph.G tg)
        = sum_list ((λ u, max 1 (outDegree dagGraph u + inDegree dagGraph u))
                      <$> seq 0 (V dagGraph))
      ∧ (∀ u, u < V dagGraph →
           OriginalTo tg !!! u < V (graph.G tg)
           ∧ ∀ i, i < max 1 (outDegree dagGraph u + inDegree dagGraph u) →
               NewToOrigin tg !!! (OriginalTo tg !!! u + i) = u)
      ∧ (∀ x, x < V (graph.G tg) →
           NewToOrigin tg !!! x < V dagGraph
           ∧ OriginalTo tg !!! (NewToOrigin tg !!! x) ≤ x
           ∧ x < OriginalTo tg !!! (NewToOrigin tg !!! x)
                 + max 1 (outDegree dagGraph (NewToOrigin tg !!! x)
                          + inDegree dagGraph (NewToOrigin tg !!! x))).
Proof.
  assert (wf dagGraph) as H
    by (unfold wf; apply (bool_decide_unpack _); vm_compute; exact I).
  split; [exact H|].
  exact (transform_layout_round_trip dagGraph H).
Defined.

(** X3.  The edges of the transform of a well-formed graph: an edge of the
    transformed graph either has weight 0 and stays within the cycle of one
    original vertex, or it stands for an edge of the original graph between
    the origins of its ends, with the same weight; and every edge of the
    original graph is stood for by an edge of the transformed graph. *)
Theorem transform_edges_project (g : Graph) :
  wf g →
  ∃ tg, ToConstantDegree g = Some tg
    ∧ (∀ x e', e' ∈ Adj (graph.G tg) !!! x →
         (Weight e' = 0%Z ∧ NewToOrigin tg !!! To e' = NewToOrigin tg !!! x)
         ∨ {| To := NewToOrigin tg !!! To e'; Weight := Weight e' |}
             ∈ Adj g !!! (NewToOrigin tg !!! x))
    ∧ (∀ u e, e ∈ Adj g !!! u →
         ∃ x e', e' ∈ Adj (graph.G tg) !!! x
                 ∧ NewToOrigin tg !!! x = u
                 ∧ NewToOrigin tg !!! To e' = To e
                 ∧ Weight e' = Weight e).
Proof. apply transform_result.ToConstantDegree_edges. Qed.

Lemma transform_edges_project_witness :
  wf dagGraph
  ∧ ∃ tg, ToConstantDegree dagGraph = Some tg
      ∧ (∀ x e', e' ∈ Adj (graph.G tg) !!! x →
           (Weight e' = 0%Z ∧ NewToOrigin tg !!! To e' = NewToOrigin tg !!! x)
           ∨ {| To := NewToOrigin tg !!! To e'; Weight := Weight e' |}
               ∈ Adj dagGraph !!! (NewToOrigin tg !!! x))
      ∧ (∀ u e, e ∈ Adj dagGraph !!! u →
           ∃ x e', e' ∈ Adj (graph.G tg) !!! x
                   ∧ NewToOrigin tg !!! x = u
                   ∧ NewToOrigin tg !!! To e' = To e
                   ∧ Weight e' = Weight e).
Proof.
  assert (wf dagGraph) as H
    by (unfold wf; apply (bool_decide_unpack _); vm_compute; exact I).
  split; [exact H|].
  exact (transform_edges_project dagGraph H).
Defined.

(** X4.  The transform keeps the walks: between two original vertices [u]
    and [v] there is a walk of weight [d] in the original graph exactly when
    there is a walk of weight [d] from the start id of [u] to the start id
    of [v] in the transformed graph; and a walk of the transformed graph from
    a start id projects, along [NewToOrigin], to a walk of the same weight
    of the original graph. *)
Theorem transform_preserves_walks (g : Graph) :
  wf g →
  ∃ tg, ToConstantDegree g = Some tg
    ∧ (∀ u v d, u < V g → v < V g →
         (path g u v d
          ↔ path (graph.G tg) (OriginalTo tg !!! u) (OriginalTo tg !!! v) d))
    ∧ (∀ u x d, u < V g → path (graph.G tg) (OriginalTo tg !!! u) x d →
         path g u (NewToOrigin tg !!! x) d).
Proof.
  intros Hwf.
  destruct (transform_result.ToConstantDegree_paths g Hwf) as (tg & E & H1).
  destruct (transform_result.ToConstantDegree_projects g Hwf) as (tg' & E' & H2).
  rewrite E in E'. injection E' as <-. by exists tg.
Qed.

Lemma transform_preserves_walks_witness :
  wf dagGraph
  ∧ ∃ tg, ToConstantDegree dagGraph = Some tg
      ∧ (∀ u v d, u < V dagGraph → v < V dagGraph →
           (path dagGraph u v d
            ↔ path (graph.G tg) (OriginalTo tg !!! u) (OriginalTo tg !!! v) d))
      ∧ (∀ u x d, u < V dagGraph → path (graph.G tg) (OriginalTo tg !!! u) x d →
           path dagGraph u (NewToOrigin tg !!! x) d).
Proof.
  assert (wf dagGraph) as H
    by (unfold wf; apply (bool_decide_unpack _); vm_compute; exact I).
  split; [exact H|].
  exact (transform_preserves_walks dagGraph H).
Defined.

(** X5.  The transform of a well-formed graph is well formed: one adjacency
    list per transformed vertex, every target in range.  Its weights are
    non-negative when those of the original graph are, and it has one edge
    per transformed vertex, the step of its cycle, and one per original
    edge. *)
Theorem transform_result_well_formed (g : Graph) :
  wf g →
  ∃ tg, ToConstantDegree g = Some tg
    ∧ wf (graph.G tg)
    ∧ (nonneg_weights g → nonneg_weights (graph.G tg))
    ∧ length (concat (Adj (graph.G tg)))
      = V (graph.G tg) + length (concat (Adj g)).
Proof.
  intros Hwf.
  destruct (transform_result.ToConstantDegree_wf g Hwf) as (tg & E & H1 & H2).
  destruct (transform_size.ToConstantDegree_size g Hwf) as (tg' & E' & H3).
  rewrite E in E'. injection E' as <-. by exists tg.
Qed.

Lemma transform_result_well_formed_witness :
  wf dagGraph
  ∧ ∃ tg, ToConstantDegree dagGraph = Some tg
      ∧ wf (graph.G tg)
      ∧ (nonneg_weights dagGraph → nonneg_weights (graph.G tg))
      ∧ length (concat (Adj (graph.G tg)))
        = V (graph.G tg) + length (concat (Adj dagGraph)).
Proof.
  assert (wf dagGraph) as H
    by (unfold wf; apply (bool_decide_unpack _); vm_compute; exact I).
  split; [exact H|].
  exact (transform_result_well_formed dagGraph H).
Defined.

(** X6.  [MapDistances] reads the distance of the start id of every original
    vertex: when it returns, the result has one entry per original vertex,
    the entry of [i] being [dist[OriginalTo[i]]]; it panics exactly when a
    start id is not an index of [dist]. *)
Theorem MapDistances_reads_start_ids (tg : TransformedGraph) (dist : list Z) :
  (∀ res, MapDistances tg dist = Some res →
     length res = length (OriginalTo tg)
     ∧ ∀ i, i < length (OriginalTo tg) → res !!! i = dist !!! (OriginalTo tg !!! i))
  ∧ (MapDistances tg dist = None ↔ ∃ s, s ∈ OriginalTo tg ∧ length dist ≤ s).
Proof.
  split; [|apply map_back.MapDistances_None].
  intros res E.
  destruct (map_back.MapDistances_Some tg dist) as (res' & E' & H1 & H2).
  - apply Forall_forall. intros s Hs.
    destruct (decide (s < length dist)) as [|Hge]; [done|].
    assert (MapDistances tg dist = None) as EN.
    { apply map_back.MapDistances_None. exists s. split; [done|lia]. }
    congruence.
  - rewrite E in E'. injection E' as <-. done.
Qed.

(** ** The solver *)

(** X7.  With one worker, on a well-formed graph with one distance per
    vertex and sources in range, the solver writes [Dist] only by
    relaxation: a property of the distance vector that every write
    [Dist[e.To] = Dist[x] + e.Weight] along an edge [e] out of [x] keeps is
    kept by [BMSSP], whatever the level, the bound, the sources and the
    number of loop iterations it has run. *)
Theorem solver_writes_are_relaxations (G : Graph) (K T numWorkers : nat)
    (relaxEdgesParallel : list nat → Z → Z → Z → DataStructure → list Z →
                          option (list Z * DataStructure * list Item))
    (bigInt : nat → Z)
    (P : list Z → Prop) (fuel l : nat) (B : Z) (S : list nat) (dist : list Z) :
  numWorkers = 1 →
  wf G → length dist = V G → Forall (λ s, s < V G) S →
  (∀ d x e, P d → e ∈ Adj G !!! x →
     P (<[To e := fadd (d !!! x) (Weight e)]> d)) →
  P dist →
  P (BMSSP G K T numWorkers relaxEdgesParallel bigInt fuel l B S dist).1.
Proof. intros Hone _ _ _ Hwrite. by apply relax_inv.BMSSP_kept. Qed.

Lemma solver_writes_are_relaxations_witness :
  (1 = 1 ∧ wf chain4 ∧ length (initDist 4 0) = V chain4
   ∧ Forall (λ s, s < V chain4) [0])
  ∧ (∀ d x e, length d = 4 → e ∈ Adj chain4 !!! x →
       length (<[To e := fadd (d !!! x) (Weight e)]> d) = 4)
  ∧ length (initDist 4 0) = 4
  ∧ length (BMSSP chain4 2 2 1 noGoroutines minInt 10 1 Infinity [0]
              (initDist 4 0)).1 = 4.
Proof.
  assert (∀ d x e, length d = 4 → e ∈ Adj chain4 !!! x →
            length (<[To e := fadd (d !!! x) (Weight e)]> d) = 4) as H1.
  { intros d x e Hd _. rewrite length_insert. exact Hd. }
  assert (length (initDist 4 0) = 4) as H2 by reflexivity.
  assert (wf chain4) as H3
    by (unfold wf; apply (bool_decide_unpack _); vm_compute; exact I).
  assert (Forall (λ s, s < V chain4) [0]) as H4
    by (apply (bool_decide_unpack _); vm_compute; exact I).
  split; [by split_and!|]. split; [exact H1|]. split; [exact H2|].
  exact (solver_writes_are_relaxations chain4 2 2 1 noGoroutines minInt
           (λ d, length d = 4) 10 1 Infinity [0] (initDist 4 0) eq_refl
           H3 H2 H4 H1 H2).
Defined.

(** X8.  With one worker, on a well-formed graph with one distance per
    vertex, no distance ever goes up, and on non-negative weights every
    distance stays between 0 and +inf: a call of [BMSSP] on sources in range
    leaves the vector pointwise at or below what it was, and within these
    bounds if it was; the vector of [Run] from a source in range is, at
    every point of the run, at or below the initial one (+inf everywhere, 0
    at the source), within the bounds, and 0 at the source. *)
Theorem distances_go_down_in_range (G : Graph) (K T numWorkers : nat)
    (relaxEdgesParallel : list nat → Z → Z → Z → DataStructure → list Z →
                          option (list Z * DataStructure * list Item))
    (bigInt : nat → Z) :
  numWorkers = 1 → wf G →
  (∀ fuel l B S dist, length dist = V G → Forall (λ s, s < V G) S →
     dist_le (BMSSP G K T numWorkers relaxEdgesParallel bigInt fuel l B S dist).1 dist)
  ∧ (nonneg_weights G →
     (∀ fuel l B S dist, length dist = V G → Forall (λ s, s < V G) S →
        Forall (λ x, 0 ≤ x ≤ Infinity)%Z dist →
        Forall (λ x, 0 ≤ x ≤ Infinity)%Z
          (BMSSP G K T numWorkers relaxEdgesParallel bigInt fuel l B S dist).1)
     ∧ (∀ fuel l source dist, length dist = V G → source < length dist →
          dist_le (Run G K T numWorkers relaxEdgesParallel bigInt fuel l source dist).1
                  (<[source := 0%Z]> (replicate (length dist) Infinity))
          ∧ Forall (λ x, 0 ≤ x ≤ Infinity)%Z
              (Run G K T numWorkers relaxEdgesParallel bigInt fuel l source dist).1
          ∧ (Run G K T numWorkers relaxEdgesParallel bigInt fuel l source dist).1
              !!! source = 0%Z)).
Proof.
  intros Hone _. split; [intros; by apply mono.BMSSP_le|].
  intros Hw. split.
  - intros. by apply run_props.BMSSP_range.
  - intros fuel l source dist _ Hs. split_and!.
    + by apply mono.Run_le.
    + by apply run_props.Run_range.
    + by apply run_props.Run_source.
Qed.

Lemma distances_go_down_in_range_witness :
  (1 = 1 ∧ wf chain4)
  ∧ (∀ fuel l B S dist, length dist = V chain4 → Forall (λ s, s < V chain4) S →
       dist_le (BMSSP chain4 2 2 1 noGoroutines minInt fuel l B S dist).1 dist)
  ∧ (nonneg_weights chain4 →
     (∀ fuel l B S dist, length dist = V chain4 → Forall (λ s, s < V chain4) S →
        Forall (λ x, 0 ≤ x ≤ Infinity)%Z dist →
        Forall (λ x, 0 ≤ x ≤ Infinity)%Z
          (BMSSP chain4 2 2 1 noGoroutines minInt fuel l B S dist).1)
     ∧ (∀ fuel l source dist, length dist = V chain4 → source < length dist →
          dist_le (Run chain4 2 2 1 noGoroutines minInt fuel l source dist).1
                  (<[source := 0%Z]> (replicate (length dist) Infinity))
          ∧ Forall (λ x, 0 ≤ x ≤ Infinity)%Z
              (Run chain4 2 2 1 noGoroutines minInt fuel l source dist).1
          ∧ (Run chain4 2 2 1 noGoroutines minInt fuel l source dist).1
              !!! source = 0%Z)).
Proof.
  assert (wf chain4) as H
    by (unfold wf; apply (bool_decide_unpack _); vm_compute; exact I).
  split; [by split|].
  exact (distances_go_down_in_range chain4 2 2 1 noGoroutines minInt eq_refl H).
Defined.

(** X9.  [FindPivots] on a well-formed graph with one distance per vertex
    and sources in range.  It returns, and no distance goes up.  The witness
    list starts with the sources, and a vertex outside the sources is in it
    exactly when its distance went down and ended below the bound.  A
    distance that changed is the sum the code makes along a walk from a
    source, begun at the distance that source had.  With k >= 1 every edge
    out of a source has been relaxed from the distance the source had.  The
    pivots are a sublist of the sources: all of them when the witnesses
    outnumber k times the sources, and otherwise, as long as the subtree
    counts of 4.3.1 stay below 2^63, the sources whose count on the table of
    slots is at least k, every source having a positive count. *)
Theorem FindPivots_pivots_and_witnesses (G : Graph) (K : nat) (B : Z)
    (S : list nat) (dist : list Z) :
  wf G → length dist = V G → Forall (λ s, s < V G) S →
  ∃ dist' P W,
    FindPivots G K B S dist = (dist', Done (P, W))
    ∧ dist_le dist' dist
    ∧ S `prefix_of` W
    ∧ (∀ v, v < V G →
         (v ∈ W ↔ v ∈ S ∨ (dist' !!! v < dist !!! v ∧ dist' !!! v < B)%Z))
    ∧ (∀ v, v < V G →
         dist' !!! v = dist !!! v
         ∨ ∃ s, s ∈ S ∧ summed G s (dist !!! s) v (dist' !!! v))
    ∧ (1 ≤ K → ∀ s e, s ∈ S → e ∈ Adj G !!! s →
         (dist' !!! To e ≤ fadd (dist !!! s) (Weight e))%Z)
    ∧ P `sublist_of` S
    ∧ (K * length S < length W → P = S)
    ∧ (¬ K * length S < length W →
       ∃ slots,
         specPivots G K S (marksOf (V G) W) dist'
           = Some (slots, filter (λ s, (Z.of_nat K ≤ slots !!! s)%Z) S)
         ∧ Forall (λ s, 0 < slots !!! s)%Z S
         ∧ (small slots → P = filter (λ s, (Z.of_nat K ≤ slots !!! s)%Z) S)).
Proof. intros Hwf Hlen. by apply discovery.FindPivots_discovery. Qed.

Lemma FindPivots_pivots_and_witnesses_witness :
  (wf chain4 ∧ length (initDist 4 0) = V chain4
   ∧ Forall (λ s, s < V chain4) [0]
   ∧ ¬ 4 * length [0]
       < length (match (FindPivots chain4 4 Infinity [0] (initDist 4 0)).2 with
                 | Done (_, W) => W
                 | _ => []
                 end))
  ∧
  ∃ dist' P W,
    FindPivots chain4 4 Infinity [0] (initDist 4 0) = (dist', Done (P, W))
    ∧ dist_le dist' (initDist 4 0)
    ∧ [0] `prefix_of` W
    ∧ (∀ v, v < V chain4 →
         (v ∈ W ↔ v ∈ [0] ∨ (dist' !!! v < initDist 4 0 !!! v ∧ dist' !!! v < Infinity)%Z))
    ∧ (∀ v, v < V chain4 →
         dist' !!! v = initDist 4 0 !!! v
         ∨ ∃ s, s ∈ [0] ∧ summed chain4 s (initDist 4 0 !!! s) v (dist' !!! v))
    ∧ (1 ≤ 4 → ∀ s e, s ∈ [0] → e ∈ Adj chain4 !!! s →
         (dist' !!! To e ≤ fadd (initDist 4 0 !!! s) (Weight e))%Z)
    ∧ P `sublist_of` [0]
    ∧ (4 * length [0] < length W → P = [0])
    ∧ (¬ 4 * length [0] < length W →
       ∃ slots,
         specPivots chain4 4 [0] (marksOf (V chain4) W) dist'
           = Some (slots, filter (λ s, (Z.of_nat 4 ≤ slots !!! s)%Z) [0])
         ∧ Forall (λ s, 0 < slots !!! s)%Z [0]
         ∧ (small slots → P = filter (λ s, (Z.of_nat 4 ≤ slots !!! s)%Z) [0])).
Proof.
  assert (wf chain4) as H1
    by (unfold wf; apply (bool_decide_unpack _); vm_compute; exact I).
  assert (length (initDist 4 0) = V chain4) as H2 by reflexivity.
  assert (Forall (λ s, s < V chain4) [0]) as H3
    by (apply (bool_decide_unpack _); vm_compute; exact I).
  split; [split_and!; [done..|vm_compute; lia]|].
  exact (FindPivots_pivots_and_witnesses chain4 4 Infinity [0] (initDist 4 0)
           H1 H2 H3).
Defined.

(** X10.  With one worker [Run] never reports a distance that no walk has:
    on a well-formed graph with non-negative weights and one distance per
    vertex, every entry of the vector is +inf or the sum the code makes of
    the weights along a walk from the source to that vertex, edge after
    edge with the addition of the code, at every point of the run. *)
Theorem Run_distances_are_walk_sums (G : Graph) (K T numWorkers : nat)
    (relaxEdgesParallel : list nat → Z → Z → Z → DataStructure → list Z →
                          option (list Z * DataStructure * list Item))
    (bigInt : nat → Z)
    (fuel l source : nat) (dist : list Z) :
  numWorkers = 1 →
  wf G → nonneg_weights G → length dist = V G →
  ∀ v, v < V G →
    (Run G K T numWorkers relaxEdgesParallel bigInt fuel l source dist).1 !!! v
    = Infinity
    ∨ summed G source 0 v
        ((Run G K T numWorkers relaxEdgesParallel bigInt fuel l source dist).1 !!! v).
Proof.
  intros Hone [HA _] Hw HL v Hv.
  apply run_props.Run_realised; [done|done|congruence|].
  rewrite run_props.Run_length by done. lia.
Qed.

Lemma Run_distances_are_walk_sums_witness :
  (1 = 1 ∧ wf chain4 ∧ nonneg_weights chain4
   ∧ length (initDist 4 0) = V chain4)
  ∧ ∀ v, v < V chain4 →
      (Run chain4 2 2 1 noGoroutines minInt 10 1 0 (initDist 4 0)).1 !!! v = Infinity
      ∨ summed chain4 0 0 v
          ((Run chain4 2 2 1 noGoroutines minInt 10 1 0 (initDist 4 0)).1 !!! v).
Proof.
  assert (nonneg_weights chain4) as H1
    by (apply (bool_decide_unpack _); vm_compute; exact I).
  assert (length (initDist 4 0) = V chain4) as H2 by reflexivity.
  assert (wf chain4) as H3
    by (unfold wf; apply (bool_decide_unpack _); vm_compute; exact I).
  split; [by split_and!|].
  exact (Run_distances_are_walk_sums chain4 2 2 1 noGoroutines minInt 10 1 0
           (initDist 4 0) eq_refl H3 H1 H2).
Defined.



(** X12.  The pipeline of the benchmarks and of [TestBasicExecution] on a
    machine with one CPU: on a well-formed graph with non-negative weights
    and a source in range, [ToConstantDegree], [NewSolver], [Run] from the
    start id of the source and [MapDistances] go through without a panic;
    the result has one entry per original vertex, 0 at the source, and every
    entry lies between 0 and +inf and is +inf or the sum the code makes of
    the weights along a walk of the original graph from the source, whatever
    [Run] has done so far. *)
Theorem transform_run_map_sound (g : Graph) (k0 t0 numCPU : nat)
    (relaxEdgesParallel : list nat → Z → Z → Z → DataStructure → list Z →
                          option (list Z * DataStructure * list Item))
    (bigInt : nat → Z)
    (fuel l source : nat) :
  numCPU = 1 → wf g → nonneg_weights g → source < V g →
  ∃ tg res,
    ToConstantDegree g = Some tg
    ∧ (let s := NewSolver (graph.G tg) k0 t0 numCPU in
       let r := Run (graph.G tg) (sssp.K s) (sssp.T s) (sssp.numWorkers s)
                    relaxEdgesParallel bigInt fuel l
                    (OriginalTo tg !!! source) (Dist s) in
       r.2 ≠ Panic ∧ MapDistances tg r.1 = Some res)
    ∧ length res = V g
    ∧ res !!! source = 0%Z
    ∧ ∀ v, v < V g →
        (0 ≤ res !!! v ≤ Infinity)%Z
        ∧ (res !!! v = Infinity ∨ summed g source 0 v (res !!! v)).
Proof. intros ->. apply pipeline.transform_run_map. Qed.

Lemma transform_run_map_sound_witness :
  (1 = 1 ∧ wf dagGraph ∧ nonneg_weights dagGraph ∧ 0 < V dagGraph)
  ∧ ∃ tg res,
      ToConstantDegree dagGraph = Some tg
      ∧ (let s := NewSolver (graph.G tg) 1 1 1 in
         let r := Run (graph.G tg) (sssp.K s) (sssp.T s) (sssp.numWorkers s)
                      noGoroutines minInt 100 2
                      (OriginalTo tg !!! 0) (Dist s) in
         r.2 ≠ Panic ∧ MapDistances tg r.1 = Some res)
      ∧ length res = V dagGraph
      ∧ res !!! 0 = 0%Z
      ∧ ∀ v, v < V dagGraph →
          (0 ≤ res !!! v ≤ Infinity)%Z
          ∧ (res !!! v = Infinity ∨ summed dagGraph 0 0 v (res !!! v)).
Proof.
  assert (wf dagGraph) as H1
    by (unfold wf; apply (bool_decide_unpack _); vm_compute; exact I).
  assert (nonneg_weights dagGraph) as H2
    by (apply (bool_decide_unpack _); vm_compute; exact I).
  assert (0 < V dagGraph) as H3 by (vm_compute; lia).
  split; [by split_and!|].
  exact (transform_run_map_sound dagGraph 1 1 1 noGoroutines minInt 100 2 0
           eq_refl H1 H2 H3).
Defined.

(** X13.  The bound [BaseCase] returns never exceeds the bound it was given,
    and every vertex it returns is at a distance strictly below the bound
    returned, on a well-formed graph with non-negative weights when the
    sources are below the bound given. *)
Theorem BaseCase_bound_and_set (G : Graph) (K fuel : nat) (B : Z) (S : list nat)
    (dist dist' : list Z) (B' : Z) (U : list nat) :
  wf G → nonneg_weights G → nonneg dist → length dist = V G →
  below B dist S →
  BaseCase G K fuel B S dist = (dist', Done (B', U)) →
  (B' ≤ B)%Z ∧ below B' dist' U.
Proof. intros Hwf. by apply base_bound.BaseCase_bound. Qed.

Lemma BaseCase_bound_and_set_witness :
  (wf chain4 ∧ nonneg_weights chain4 ∧ nonneg (initDist 4 0)
   ∧ length (initDist 4 0) = V chain4 ∧ below Infinity (initDist 4 0) [0]
   ∧ BaseCase chain4 2 10 Infinity [0] (initDist 4 0)
     = ([0; whole 1; whole 2; whole 3]%Z, Done (whole 2, [0; 1])))
  ∧ (whole 2 ≤ Infinity)%Z ∧ below (whole 2) [0; whole 1; whole 2; whole 3]%Z [0; 1].
Proof.
  assert (wf chain4) as H1
    by (unfold wf; apply (bool_decide_unpack _); vm_compute; exact I).
  assert (nonneg_weights chain4) as H2
    by (apply (bool_decide_unpack _); vm_compute; exact I).
  assert (nonneg (initDist 4 0)) as H3
    by (apply (bool_decide_unpack _); vm_compute; exact I).
  assert (length (initDist 4 0) = V chain4) as H4 by reflexivity.
  assert (below Infinity (initDist 4 0) [0]) as H5
    by (apply (bool_decide_unpack _); vm_compute; exact I).
  assert (BaseCase chain4 2 10 Infinity [0] (initDist 4 0)
          = ([0; whole 1; whole 2; whole 3]%Z, Done (whole 2, [0; 1]))) as H6
    by (vm_compute; reflexivity).
  split; [by split_and!|].
  exact (BaseCase_bound_and_set chain4 2 10 Infinity [0] (initDist 4 0) _ _ _
           H1 H2 H3 H4 H5 H6).
Defined.

(** X14.  [FindPivots] always returns on duplicate-free sources in range
    that lie below the bound, on a well-formed graph: the distance vector
    keeps its length, the witness list has no duplicates, holds vertices in
    range only, each at a distance strictly below the bound, and the pivot
    list has no duplicates. *)
Theorem FindPivots_witnesses_below_bound (G : Graph) (K : nat) (B : Z)
    (S : list nat) (dist : list Z) :
  wf G → length dist = V G → NoDup S → Forall (λ s, s < V G) S →
  below B dist S →
  ∃ dist' P W,
    FindPivots G K B S dist = (dist', Done (P, W))
    ∧ length dist' = V G
    ∧ NoDup W ∧ Forall (λ w, w < V G) W ∧ below B dist' W
    ∧ NoDup P.
Proof. intros Hwf. by apply witness_set.FindPivots_witnesses. Qed.

Lemma FindPivots_witnesses_below_bound_witness :
  (wf chain4 ∧ length (initDist 4 0) = V chain4 ∧ NoDup [0]
   ∧ Forall (λ s, s < V chain4) [0] ∧ below (whole 2) (initDist 4 0) [0])
  ∧ ∃ dist' P W,
      FindPivots chain4 2 (whole 2) [0] (initDist 4 0) = (dist', Done (P, W))
      ∧ length dist' = V chain4
      ∧ NoDup W ∧ Forall (λ w, w < V chain4) W ∧ below (whole 2) dist' W
      ∧ NoDup P.
Proof.
  assert (wf chain4) as H1
    by (unfold wf; apply (bool_decide_unpack _); vm_compute; exact I).
  assert (length (initDist 4 0) = V chain4) as H2 by reflexivity.
  assert (NoDup [0]) as H3 by (apply (bool_decide_unpack _); vm_compute; exact I).
  assert (Forall (λ s, s < V chain4) [0]) as H4
    by (apply (bool_decide_unpack _); vm_compute; exact I).
  assert (below (whole 2) (initDist 4 0) [0]) as H5
    by (apply (bool_decide_unpack _); vm_compute; exact I).
  split; [by split_and!|].
  exact (FindPivots_witnesses_below_bound chain4 2 (whole 2) [0] (initDist 4 0)
           H1 H2 H3 H4 H5).
Defined.

(** X15.  [initializeDataStructure] goes through when the distances of the
    pivots are at most +inf: the block capacity is 2^((l-1)t) while that is
    within the range of [int], that is for (l-1)t < 63, and beyond it the
    capacity is what the conversion to [int] yields, or 1 if that is below
    1; the structure holds one item per pivot, the pivot with its distance,
    every block holds between 1 and [M] items, [D0] is empty and [D1] is
    ordered with a last block that stretches to +inf. *)
Theorem initializeDataStructure_ordered (T : nat) (bigInt : nat → Z) (l : nat)
    (P : list nat) (dist : list Z) :
  Forall (λ x, (dist !!! x ≤ Infinity)%Z) P →
  ∃ D, initializeDataStructure T bigInt l P dist = Some D
    ∧ ((l - 1) * T < 63 → M D = 2 ^ ((l - 1) * T))
    ∧ (63 ≤ (l - 1) * T → Z.of_nat (M D) = Z.max 1 (bigInt ((l - 1) * T)))
    ∧ Count D = length P
    ∧ contents D ≡ₚ (λ x, {| Key := x; Value := dist !!! x |}) <$> P
    ∧ capacity D ∧ insert_only D.
Proof.
  intros HP.
  destruct (ds_built.initializeDataStructure_built T bigInt l P dist HP)
    as (D & E & HD & Hp).
  destruct (ds_built.built_inv
              (Z.to_nat (Z.max 1 (powInt bigInt ((l - 1) * T)))) D ltac:(lia) HD)
    as (HM & Hc & Ho).
  exists D. split_and!; [done| | | |done|done|done].
  - intros He. rewrite HM. unfold powInt. rewrite decide_True by done.
    assert (0 < 2 ^ Z.of_nat ((l - 1) * T))%Z by (apply Z.pow_pos_nonneg; [lia|apply Nat2Z.is_nonneg]).
    rewrite Z.max_r by lia.
    rewrite <-(Nat2Z.id (2 ^ ((l - 1) * T))). f_equal.
    by rewrite Nat2Z.inj_pow.
  - intros He. rewrite HM. unfold powInt. rewrite decide_False by lia. lia.
  - destruct Hc as (_ & _ & ->). by rewrite Hp, length_fmap.
Qed.

Lemma initializeDataStructure_ordered_witness :
  Forall (λ x, (dist5 !!! x ≤ Infinity)%Z) [3; 1]
  ∧ ∃ D, initializeDataStructure 2 minInt 3 [3; 1] dist5 = Some D
      ∧ ((3 - 1) * 2 < 63 → M D = 2 ^ ((3 - 1) * 2))
      ∧ (63 ≤ (3 - 1) * 2 → Z.of_nat (M D) = Z.max 1 (minInt ((3 - 1) * 2)))
      ∧ Count D = length [3; 1]
      ∧ contents D ≡ₚ (λ x, {| Key := x; Value := dist5 !!! x |}) <$> [3; 1]
      ∧ capacity D ∧ insert_only D.
Proof.
  assert (Forall (λ x, (dist5 !!! x ≤ Infinity)%Z) [3; 1]) as H
    by (apply (bool_decide_unpack _); vm_compute; exact I).
  split; [exact H|].
  exact (initializeDataStructure_ordered 2 minInt 3 [3; 1] dist5 H).
Defined.

(** ** The priority queue *)

(** X16.  [heap.Push] on the queue keeps the heap order (no item below its
    parent) and adds exactly the item pushed. *)
Theorem heapPush_keeps_heap (h : list PQItem) (x : PQItem) :
  heap_ordered h →
  heap_ordered (heapPush h x) ∧ heapPush h x ≡ₚ x :: h.
Proof.
  intros Hh. split; [by apply heap_order.heapPush_ordered|].
  apply heap_order.heapPush_perm.
Qed.

Lemma heapPush_keeps_heap_witness :
  heap_ordered smallHeap
  ∧ heap_ordered (heapPush smallHeap {| u := 3; priority := 0 |})
  ∧ heapPush smallHeap {| u := 3; priority := 0 |}
    ≡ₚ {| u := 3; priority := 0 |} :: smallHeap.
Proof.
  assert (heap_ordered smallHeap) as H.
  { intros k Hk. simpl in Hk.
    destruct k as [|[|[|k]]]; [lia| | |lia]; vm_compute; discriminate. }
  split; [exact H|].
  exact (heapPush_keeps_heap smallHeap {| u := 3; priority := 0 |} H).
Defined.

(** X17.  [heap.Pop] on a non-empty queue in heap order returns the item at
    the root, whose priority is at most that of every item of the queue,
    removes exactly that item, and leaves the queue in heap order. *)
Theorem heapPop_returns_minimum (h : list PQItem) :
  heap_ordered h → 0 < length h →
  ∃ item h',
    heapPop h = Some (item, h')
    ∧ item = h !!! 0
    ∧ item :: h' ≡ₚ h
    ∧ heap_ordered h'
    ∧ Forall (λ y, (priority item ≤ priority y)%Z) h.
Proof. apply heap_order.heapPop_min. Qed.

Lemma heapPop_returns_minimum_witness :
  heap_ordered smallHeap ∧ 0 < length smallHeap
  ∧ ∃ item h',
      heapPop smallHeap = Some (item, h')
      ∧ item = smallHeap !!! 0
      ∧ item :: h' ≡ₚ smallHeap
      ∧ heap_ordered h'
      ∧ Forall (λ y, (priority item ≤ priority y)%Z) smallHeap.
Proof.
  assert (heap_ordered smallHeap) as H1.
  { intros k Hk. simpl in Hk.
    destruct k as [|[|[|k]]]; [lia| | |lia]; vm_compute; discriminate. }
  assert (0 < length smallHeap) as H2 by (simpl; lia).
  split; [exact H1|]. split; [exact H2|].
  exact (heapPop_returns_minimum smallHeap H1 H2).
Defined.

(** ** The block sequence *)

(** X18.  [Insert] loses nothing: while the block capacity is positive the
    call goes through, the structure holds the items it held and the new
    one, [Count] goes up by one, [M], [B] and [D0] are as before, and if
    every block held between 1 and [M] items and [Count] counted them, this
    is still so (a block that outgrows [M] is split in two). *)
Theorem Insert_keeps_contents (D : DataStructure) (key : nat) (val : Z) :
  1 ≤ M D →
  ∃ D', Insert D key val = Some D'
    ∧ M D' = M D ∧ B D' = B D ∧ Count D' = Count D + 1 ∧ d0 D' = d0 D
    ∧ contents D' ≡ₚ {| Key := key; Value := val |} :: contents D
    ∧ (capacity D → capacity D').
Proof.
  intros HM. destruct (ds_props.Insert_Some D key val HM) as (D' & E & _).
  exists D'. split; [done|].
  destruct (ds_blocks.Insert_kept D key val D' HM E) as (? & ? & ? & ? & ?).
  split_and!; [done..|]. intros Hc. by apply (ds_blocks.Insert_capacity D key val).
Qed.

Lemma Insert_keeps_contents_witness :
  1 ≤ M twoBlocks
  ∧ ∃ D', Insert twoBlocks 9 (whole 4) = Some D'
      ∧ M D' = M twoBlocks ∧ B D' = B twoBlocks
      ∧ Count D' = Count twoBlocks + 1 ∧ d0 D' = d0 twoBlocks
      ∧ contents D' ≡ₚ {| Key := 9; Value := whole 4 |} :: contents twoBlocks
      ∧ (capacity twoBlocks → capacity D').
Proof.
  assert (1 ≤ M twoBlocks) as H by (simpl; lia).
  split; [exact H|].
  exact (Insert_keeps_contents twoBlocks 9 (whole 4) H).
Defined.

(** X19.  [BatchPrepend] loses nothing: while the block capacity is positive
    the call goes through, the structure holds the items it held and those
    of the batch, [Count] goes up by the size of the batch, [M], [B] and
    [D1] are as before, and the blocks it makes hold between 1 and [M]
    items. *)
Theorem BatchPrepend_keeps_contents (D : DataStructure) (its : list Item) :
  1 ≤ M D →
  ∃ D', BatchPrepend D its = Some D'
    ∧ M D' = M D ∧ B D' = B D ∧ Count D' = Count D + length its
    ∧ d1 D' = d1 D
    ∧ contents D' ≡ₚ its ++ contents D
    ∧ (capacity D → capacity D').
Proof. apply ds_batch.BatchPrepend_kept. Qed.

Lemma BatchPrepend_keeps_contents_witness :
  1 ≤ M twoBlocks
  ∧ ∃ D', BatchPrepend twoBlocks [item 4 2; item 5 1; item 6 0] = Some D'
      ∧ M D' = M twoBlocks ∧ B D' = B twoBlocks
      ∧ Count D' = Count twoBlocks + length [item 4 2; item 5 1; item 6 0]
      ∧ d1 D' = d1 twoBlocks
      ∧ contents D' ≡ₚ [item 4 2; item 5 1; item 6 0] ++ contents twoBlocks
      ∧ (capacity twoBlocks → capacity D').
Proof.
  assert (1 ≤ M twoBlocks) as H by (simpl; lia).
  split; [exact H|].
  exact (BatchPrepend_keeps_contents twoBlocks [item 4 2; item 5 1; item 6 0] H).
Defined.



(** X21.  [Insert] of a value up to +inf keeps a structure that
    [BatchPrepend] has not touched ordered: [D0] stays empty, the values of
    a block of [D1] lie between the bound of the block before it and its own
    bound, and the last block stretches to +inf. *)
Theorem Insert_keeps_block_order (D : DataStructure) (key : nat) (val : Z) :
  1 ≤ M D → (val ≤ Infinity)%Z → insert_only D →
  ∃ D', Insert D key val = Some D' ∧ insert_only D'.
Proof.
  intros HM Hval Ho. destruct (ds_props.Insert_Some D key val HM) as (D' & E & _).
  exists D'. split; [done|]. by apply (ds_blocks.Insert_ordered D key val).
Qed.

Lemma Insert_keeps_block_order_witness :
  (1 ≤ M twoBlocks ∧ (whole 4 ≤ Infinity)%Z ∧ insert_only twoBlocks)
  ∧ ∃ D', Insert twoBlocks 9 (whole 4) = Some D' ∧ insert_only D'.
Proof.
  assert (1 ≤ M twoBlocks) as H1 by (simpl; lia).
  assert (whole 4 ≤ Infinity)%Z as H2 by (vm_compute; discriminate).
  assert (insert_only twoBlocks) as H3.
  { split; [reflexivity|]. split.
    - exists 0%Z. simpl. split; [vm_compute; discriminate|]. split.
      + apply Forall_cons. split; [split; vm_compute; discriminate|].
        apply Forall_cons. split; [split; vm_compute; discriminate|].
        apply Forall_nil_2.
      + split; [vm_compute; discriminate|]. split; [|exact I].
        apply Forall_cons. split; [split; vm_compute; discriminate|].
        apply Forall_nil_2.
    - intros b Hb. injection Hb as <-. reflexivity. }
  split; [by split_and!|].
  exact (Insert_keeps_block_order twoBlocks 9 (whole 4) H1 H2 H3).
Defined.



(** X23.  Every structure that [NewDataStructure(m)] with m >= 1, [Insert]
    of values up to +inf and [Pull] lead to keeps its capacity [m], has
    blocks of 1 to [m] items counted by [Count], an empty [D0] and an
    ordered [D1] whose last block stretches to +inf; so every [Pull] on the
    way starts from a structure on which it returns the smallest values. *)
Theorem Insert_Pull_states_ordered (m : nat) (D : DataStructure) :
  1 ≤ m → built m D → M D = m ∧ capacity D ∧ insert_only D.
Proof. apply ds_built.built_inv. Qed.

Lemma Insert_Pull_states_ordered_witness :
  (1 ≤ 2 ∧ built 2 oneItem)
  ∧ M oneItem = 2 ∧ capacity oneItem ∧ insert_only oneItem.
Proof.
  assert (1 ≤ 2) as H1 by lia.
  assert (built 2 oneItem) as H2.
  { apply (built_insert 2 (NewDataStructure 2) 7 (whole 3) oneItem).
    - apply built_new.
    - vm_compute; discriminate.
    - vm_compute; reflexivity. }
  split; [by split|].
  exact (Insert_Pull_states_ordered 2 oneItem H1 H2).
Defined.

(** ** The reference and the callers *)

(** X24.  [naiveDijkstra] is right: on a well-formed graph with non-negative
    weights and a source in range it returns one distance per vertex, 0 for
    the source, each between 0 and +inf; the distance of a vertex is +inf or
    the sum the code makes of the weights along a walk from the source to
    it, edge after edge, and the sum along no walk from the source to it is
    less. *)
Theorem naiveDijkstra_shortest (g : Graph) (s : nat) :
  wf g → nonneg_weights g → s < V g →
  length (naiveDijkstra g s) = V g
  ∧ naiveDijkstra g s !!! s = 0%Z
  ∧ ∀ v, v < V g →
      (0 ≤ naiveDijkstra g s !!! v ≤ Infinity)%Z
      ∧ (naiveDijkstra g s !!! v = Infinity
         ∨ summed g s 0 v (naiveDijkstra g s !!! v))
      ∧ ∀ d, summed g s 0 v d → (naiveDijkstra g s !!! v ≤ d)%Z.
Proof.
  intros Hwf Hw Hs.
  destruct (dijkstra.naiveDijkstra_spec g s Hwf Hw Hs) as (H1 & H2 & H3 & H4 & H5).
  split_and!; [done|done|]. intros v Hv. split_and!.
  - apply (dijkstra.range_lookup _ _ H3). lia.
  - apply (dijkstra.range_lookup _ _ H3). lia.
  - apply H4. lia.
  - intros d. apply H5.
Qed.

Lemma naiveDijkstra_shortest_witness :
  (wf dagGraph ∧ nonneg_weights dagGraph ∧ 0 < V dagGraph)
  ∧ length (naiveDijkstra dagGraph 0) = V dagGraph
  ∧ naiveDijkstra dagGraph 0 !!! 0 = 0%Z
  ∧ ∀ v, v < V dagGraph →
      (0 ≤ naiveDijkstra dagGraph 0 !!! v ≤ Infinity)%Z
      ∧ (naiveDijkstra dagGraph 0 !!! v = Infinity
         ∨ summed dagGraph 0 0 v (naiveDijkstra dagGraph 0 !!! v))
      ∧ ∀ d, summed dagGraph 0 0 v d → (naiveDijkstra dagGraph 0 !!! v ≤ d)%Z.
Proof.
  assert (wf dagGraph) as H1
    by (unfold wf; apply (bool_decide_unpack _); vm_compute; exact I).
  assert (nonneg_weights dagGraph) as H2
    by (apply (bool_decide_unpack _); vm_compute; exact I).
  assert (0 < V dagGraph) as H3 by (vm_compute; lia).
  split; [by split_and!|].
  exact (naiveDijkstra_shortest dagGraph 0 H1 H2 H3).
Defined.

(** X25.  On a machine with one CPU the solver never reports less than the
    reference: on a well-formed graph with non-negative weights and a source
    in range, every distance that the pipeline of transform, [Run] and
    [MapDistances] hands back is at least the distance [naiveDijkstra] finds
    on the original graph, whatever [Run] has done so far. *)
Theorem solver_never_below_reference (g : Graph) (k0 t0 numCPU : nat)
    (relaxEdgesParallel : list nat → Z → Z → Z → DataStructure → list Z →
                          option (list Z * DataStructure * list Item))
    (bigInt : nat → Z)
    (fuel l source : nat) :
  numCPU = 1 → wf g → nonneg_weights g → source < V g →
  ∃ tg res,
    ToConstantDegree g = Some tg
    ∧ (let s := NewSolver (graph.G tg) k0 t0 numCPU in
       MapDistances tg
         (Run (graph.G tg) (sssp.K s) (sssp.T s) (sssp.numWorkers s)
              relaxEdgesParallel bigInt fuel l (OriginalTo tg !!! source)
              (Dist s)).1
       = Some res)
    ∧ ∀ v, v < V g → (naiveDijkstra g source !!! v ≤ res !!! v)%Z.
Proof.
  intros -> Hwf Hw Hs.
  destruct (pipeline.transform_run_map g k0 t0 relaxEdgesParallel bigInt
              fuel l source Hwf Hw Hs)
    as (tg & res & E & [_ Eres] & _ & _ & Hres).
  destruct (dijkstra.naiveDijkstra_spec g source Hwf Hw Hs) as (H1 & _ & H3 & _ & H5).
  exists tg, res. split_and!; [done|done|]. intros v Hv.
  destruct (Hres v Hv) as [_ [Hinf|Hp]].
  - rewrite Hinf. apply (dijkstra.range_lookup _ _ H3). lia.
  - by apply H5.
Qed.

Lemma solver_never_below_reference_witness :
  (1 = 1 ∧ wf dagGraph ∧ nonneg_weights dagGraph ∧ 0 < V dagGraph)
  ∧ ∃ tg res,
      ToConstantDegree dagGraph = Some tg
      ∧ (let s := NewSolver (graph.G tg) 1 1 1 in
         MapDistances tg
           (Run (graph.G tg) (sssp.K s) (sssp.T s) (sssp.numWorkers s)
                noGoroutines minInt 100 2 (OriginalTo tg !!! 0) (Dist s)).1
         = Some res)
      ∧ ∀ v, v < V dagGraph → (naiveDijkstra dagGraph 0 !!! v ≤ res !!! v)%Z.
Proof.
  assert (wf dagGraph) as H1
    by (unfold wf; apply (bool_decide_unpack _); vm_compute; exact I).
  assert (nonneg_weights dagGraph) as H2
    by (apply (bool_decide_unpack _); vm_compute; exact I).
  assert (0 < V dagGraph) as H3 by (vm_compute; lia).
  split; [by split_and!|].
  exact (solver_never_below_reference dagGraph 1 1 1 noGoroutines minInt 100 2 0
           eq_refl H1 H2 H3).
Defined.

(** X26.  The graphs of [generateGraph] and [generateRandomGraph]: whatever
    the generator draws, the calls of [AddEdge] go through and give a
    well-formed graph with one edge per draw and weights from 1 up to, not
    including, 101; with at least two vertices no edge is a self-loop. *)
Theorem generateGraph_well_formed (vertices : nat) (draws : list (nat * nat * Z)) :
  Forall (drawn vertices) draws →
  ∃ g, generateGraph vertices draws = Some g
    ∧ V g = vertices ∧ wf g
    ∧ length (concat (Adj g)) = length draws
    ∧ (∀ x e, e ∈ Adj g !!! x →
         (1000000000 ≤ Weight e < 101000000000)%Z
         ∧ (2 ≤ vertices → To e ≠ x)).
Proof. apply bench_props.generateGraph_spec. Qed.

Lemma generateGraph_well_formed_witness :
  Forall (drawn 3) draws3
  ∧ ∃ g, generateGraph 3 draws3 = Some g
      ∧ V g = 3 ∧ wf g
      ∧ length (concat (Adj g)) = length draws3
      ∧ (∀ x e, e ∈ Adj g !!! x →
           (1000000000 ≤ Weight e < 101000000000)%Z
           ∧ (2 ≤ 3 → To e ≠ x)).
Proof.
  assert (Forall (drawn 3) draws3) as H.
  { apply Forall_cons. split; [unfold drawn; simpl; lia|].
    apply Forall_cons. split; [unfold drawn; simpl; lia|]. apply Forall_nil_2. }
  split; [exact H|].
  exact (generateGraph_well_formed 3 draws3 H).
Defined.

(** X27.  The sources [benchmarkParallelMultiSource] picks: there are
    min(2 numCores, V) of them, each is a vertex of the graph, and they
    grow strictly along the slice, so that no vertex is picked twice. *)
Theorem selectSources_in_range_distinct (numCores : nat) (g : Graph) :
  length (selectSources numCores g) = min (numCores * 2) (V g)
  ∧ Forall (λ src, src < V g) (selectSources numCores g)
  ∧ (∀ i j, i < j → j < length (selectSources numCores g) →
       selectSources numCores g !!! i < selectSources numCores g !!! j)
  ∧ NoDup (selectSources numCores g).
Proof.
  split; [apply bench_props.selectSources_length|].
  apply bench_props.selectSources_spec.
Qed.

(** X28.  When [BaseCase] returns the bound it was given, on a well-formed
    graph with non-negative weights, distances in range and sources below
    the bound: the sources are in the set returned, every vertex whose
    distance was changed is in it, and no edge out of a vertex of the set
    can lower a distance to a value below the bound.  If moreover every
    vertex outside the sources started at the bound or above, then for every
    walk from a source: if the sum the code makes along it, edge after edge
    from the distance of the source, is below the bound, the walk ends in
    the set, at a distance no greater than that sum. *)
Theorem BaseCase_settles_below_bound (G : Graph) (K fuel : nat) (B : Z)
    (S : list nat) (dist dist' : list Z) (U : list nat) :
  wf G → nonneg_weights G →
  Forall (λ y, 0 ≤ y ≤ Infinity)%Z dist → length dist = V G →
  below B dist S →
  BaseCase G K fuel B S dist = (dist', Done (B, U)) →
  S ⊆ U
  ∧ (∀ v, v < V G → dist' !!! v ≠ dist !!! v → v ∈ U)
  ∧ (∀ x, x ∈ U → relaxed G B dist' x)
  ∧ ((∀ v, v < V G → v ∉ S → (B ≤ dist !!! v)%Z) →
     ∀ s v d, s ∈ S → s < V G → summed G s (dist !!! s) v d → (d < B)%Z →
       v ∈ U ∧ (dist' !!! v ≤ d)%Z).
Proof. intros Hwf Hw. by apply base_complete.BaseCase_settles. Qed.

Lemma BaseCase_settles_below_bound_witness :
  (wf chain4 ∧ nonneg_weights chain4
   ∧ Forall (λ y, 0 ≤ y ≤ Infinity)%Z (initDist 4 0)
   ∧ length (initDist 4 0) = V chain4 ∧ below (whole 3) (initDist 4 0) [0]
   ∧ BaseCase chain4 5 10 (whole 3) [0] (initDist 4 0)
     = ([0; whole 1; whole 2; Infinity]%Z, Done (whole 3, [0; 1; 2])))
  ∧ [0] ⊆ [0; 1; 2]
  ∧ (∀ v, v < V chain4 →
       [0; whole 1; whole 2; Infinity]%Z !!! v ≠ initDist 4 0 !!! v → v ∈ [0; 1; 2])
  ∧ (∀ x, x ∈ [0; 1; 2] →
       relaxed chain4 (whole 3) [0; whole 1; whole 2; Infinity]%Z x)
  ∧ ((∀ v, v < V chain4 → v ∉ [0] → (whole 3 ≤ initDist 4 0 !!! v)%Z) →
     ∀ s v d, s ∈ [0] → s < V chain4 →
       summed chain4 s (initDist 4 0 !!! s) v d → (d < whole 3)%Z →
       v ∈ [0; 1; 2] ∧ ([0; whole 1; whole 2; Infinity]%Z !!! v ≤ d)%Z).
Proof.
  assert (wf chain4) as H1
    by (unfold wf; apply (bool_decide_unpack _); vm_compute; exact I).
  assert (nonneg_weights chain4) as H2
    by (apply (bool_decide_unpack _); vm_compute; exact I).
  assert (Forall (λ y, 0 ≤ y ≤ Infinity)%Z (initDist 4 0)) as H3
    by (apply (bool_decide_unpack _); vm_compute; exact I).
  assert (length (initDist 4 0) = V chain4) as H4 by reflexivity.
  assert (below (whole 3) (initDist 4 0) [0]) as H5
    by (apply (bool_decide_unpack _); vm_compute; exact I).
  assert (BaseCase chain4 5 10 (whole 3) [0] (initDist 4 0)
          = ([0; whole 1; whole 2; Infinity]%Z, Done (whole 3, [0; 1; 2]))) as H6
    by (vm_compute; reflexivity).
  split; [by split_and!|].
  exact (BaseCase_settles_below_bound chain4 5 10 (whole 3) [0] (initDist 4 0) _ _
           H1 H2 H3 H4 H5 H6).
Defined.

Import webviz string_notions.

(** X29.  [findString] returns -1 exactly when [substr] occurs nowhere in
    [s], and otherwise the index of its first occurrence: [substr] occurs
    there and at no smaller index. *)
Theorem findString_first_occurrence (s substr : gostring) :
  (findString s substr = (-1)%Z ∧ ∀ j, ¬ occurs_at s substr j)
  ∨ (∃ k, findString s substr = Z.of_nat k ∧ occurs_at s substr k
          ∧ ∀ j, j < k → ¬ occurs_at s substr j).
Proof. apply string_props.findString_spec. Qed.

(** X30.  [replaceString] with an empty [old] never returns, whatever the
    number of iterations allowed.  With a non-empty [old] it returns within
    [len(s) + 1] iterations: [s] is a sequence of pieces, each followed by
    [old], and a rest in which [old] does not occur, each piece followed by
    [old] holding [old] at its end only, and the result is the same pieces,
    each followed by [new], and the same rest. *)
Theorem replaceString_pieces (s old new : gostring) :
  (old = [] ∧ ∀ fuel, replaceString fuel s old new = None)
  ∨ (old ≠ []
     ∧ ∀ fuel, length s < fuel →
         ∃ pieces rest,
           replaceString fuel s old new = Some (joined new pieces rest)
           ∧ s = joined old pieces rest
           ∧ Forall (λ p, ∀ j, j < length p → ¬ occurs_at (p ++ old) old j) pieces
           ∧ ∀ j, ¬ occurs_at rest old j).
Proof.
  destruct (decide (old = [])) as [->|Hold].
  - left. split; [done|]. intros fuel. apply string_props.replaceLoop_empty.
  - right. split; [done|]. intros fuel Hlen.
    apply (string_props.replaceLoop_spec old new Hold fuel [] s Hlen).
Qed.
